(** * A shallow embedding of the selection pipeline of aibanner-web-server

    The Python sources live under [_pipeline_reference/workflow].  Each module
    below embeds one source file:
    - [PyStr]: the pieces of Python's [str] the code relies on (a [str] is a
      list of Unicode code points);
    - [Scorer]: [selection/scorer.py];
    - [Url]: [canonicalize_url] of [selection/dedup.py], with the parts of
      CPython 3.11's [urllib.parse] and [ipaddress] it calls;
    - [Dedup]: the rest of [selection/dedup.py], with [difflib]'s ratio;
    - [Diversity]: [selection/diversity.py];
    - [Metrics]: the feed-metrics accounting of [mainflow.py];
    - [PyRandom] and [Blog]: [article/blog.py] with the [random.Random] it seeds;
    - [TextCleaner]: [gpt/text_cleaner.py].
    Definitions come first, the facts about them after. *)

From Stdlib Require Import String Ascii List Bool Arith ZArith NArith QArith Lia.
From Stdlib Require Import Reals Lra Permutation Sorted.
Import ListNotations.

(* ------------------------------------------------------------------------- *)
(** ** Python strings *)

Module PyStr.

(** A Python [str]: a sequence of code points. *)
Definition ustr := list N.

Open Scope N_scope.

(** A literal written in ASCII. *)
Definition of_ascii (s : string) : ustr :=
  map (fun c => N.of_nat (nat_of_ascii c)) (list_ascii_of_string s).

Fixpoint ustr_eqb (a b : ustr) : bool :=
  match a, b with
  | [], [] => true
  | x :: a', y :: b' => N.eqb x y && ustr_eqb a' b'
  | _, _ => false
  end.

(** [c in s] for a single character. *)
Definition has_char (c : N) (s : ustr) : bool := existsb (N.eqb c) s.

(** [s.startswith(p)]. *)
Fixpoint startswith (s p : ustr) : bool :=
  match p, s with
  | [], _ => true
  | c :: p', d :: s' => N.eqb c d && startswith s' p'
  | _ :: _, [] => false
  end.

(** [p in s] for strings: [p] occurs at some position of [s]. *)
Fixpoint contains (s p : ustr) : bool :=
  startswith s p || match s with [] => false | _ :: s' => contains s' p end.

(** [s.find(c)] for one character: the first index, if any. *)
Fixpoint find_char (c : N) (s : ustr) : option nat :=
  match s with
  | [] => None
  | d :: s' => if N.eqb c d then Some 0%nat
               else option_map S (find_char c s')
  end.

(** [s.split(c, 1)] for one character [c]: [None] when [c] does not occur. *)
Fixpoint split_once (c : N) (s : ustr) : option (ustr * ustr) :=
  match s with
  | [] => None
  | d :: s' => if N.eqb c d then Some ([], s')
               else option_map (fun '(l, r) => (d :: l, r)) (split_once c s')
  end.

(** [s.split(c)] for one character [c] (always at least one piece). *)
Fixpoint split_on (c : N) (s : ustr) : list ustr :=
  match s with
  | [] => [[]]
  | d :: s' =>
      let rest := split_on c s' in
      if N.eqb c d then [] :: rest
      else match rest with
           | w :: ws => (d :: w) :: ws
           | [] => [[d]]
           end
  end.

(** [sep.join(ws)]. *)
Fixpoint join (sep : ustr) (ws : list ustr) : ustr :=
  match ws with
  | [] => []
  | [w] => w
  | w :: ws' => w ++ sep ++ join sep ws'
  end.

(** [str.isspace] for one code point (CPython's table). *)
Definition is_space (c : N) : bool :=
  ((9 <=? c) && (c <=? 13)) || ((28 <=? c) && (c <=? 32)) || (c =? 133) || (c =? 160)
  || (c =? 5760) || ((8192 <=? c) && (c <=? 8202)) || (c =? 8232) || (c =? 8233)
  || (c =? 8239) || (c =? 8287) || (c =? 12288).

(** [str.lower] of CPython 3.11 (Unicode 14.0).  Every code point but U+0130
    lower-cases to one code point (U+03A3 depending on its context);
    [lower_runs] lists those that change, as
    runs [(start, count, step, target)]: the code points [start + step * i]
    ([i < count]) map to [target + step * i]. *)
Definition lower_runs : list (N * N * N * N) :=
  [(0x41, 26, 1, 0x61); (0xc0, 23, 1, 0xe0); (0xd8, 7, 1, 0xf8); (0x100, 24, 2, 0x101);
   (0x132, 3, 2, 0x133); (0x139, 8, 2, 0x13a); (0x14a, 23, 2, 0x14b); (0x178, 1, 1, 0xff);
   (0x179, 3, 2, 0x17a); (0x181, 1, 1, 0x253); (0x182, 2, 2, 0x183); (0x186, 1, 1, 0x254);
   (0x187, 1, 1, 0x188); (0x189, 2, 1, 0x256); (0x18b, 1, 1, 0x18c); (0x18e, 1, 1, 0x1dd);
   (0x18f, 1, 1, 0x259); (0x190, 1, 1, 0x25b); (0x191, 1, 1, 0x192); (0x193, 1, 1, 0x260);
   (0x194, 1, 1, 0x263); (0x196, 1, 1, 0x269); (0x197, 1, 1, 0x268); (0x198, 1, 1, 0x199);
   (0x19c, 1, 1, 0x26f); (0x19d, 1, 1, 0x272); (0x19f, 1, 1, 0x275); (0x1a0, 3, 2, 0x1a1);
   (0x1a6, 1, 1, 0x280); (0x1a7, 1, 1, 0x1a8); (0x1a9, 1, 1, 0x283); (0x1ac, 1, 1, 0x1ad);
   (0x1ae, 1, 1, 0x288); (0x1af, 1, 1, 0x1b0); (0x1b1, 2, 1, 0x28a); (0x1b3, 2, 2, 0x1b4);
   (0x1b7, 1, 1, 0x292); (0x1b8, 1, 1, 0x1b9); (0x1bc, 1, 1, 0x1bd); (0x1c4, 1, 1, 0x1c6);
   (0x1c5, 1, 1, 0x1c6); (0x1c7, 1, 1, 0x1c9); (0x1c8, 1, 1, 0x1c9); (0x1ca, 1, 1, 0x1cc);
   (0x1cb, 9, 2, 0x1cc); (0x1de, 9, 2, 0x1df); (0x1f1, 1, 1, 0x1f3); (0x1f2, 2, 2, 0x1f3);
   (0x1f6, 1, 1, 0x195); (0x1f7, 1, 1, 0x1bf); (0x1f8, 20, 2, 0x1f9); (0x220, 1, 1, 0x19e);
   (0x222, 9, 2, 0x223); (0x23a, 1, 1, 0x2c65); (0x23b, 1, 1, 0x23c); (0x23d, 1, 1, 0x19a);
   (0x23e, 1, 1, 0x2c66); (0x241, 1, 1, 0x242); (0x243, 1, 1, 0x180); (0x244, 1, 1, 0x289);
   (0x245, 1, 1, 0x28c); (0x246, 5, 2, 0x247); (0x370, 2, 2, 0x371); (0x376, 1, 1, 0x377);
   (0x37f, 1, 1, 0x3f3); (0x386, 1, 1, 0x3ac); (0x388, 3, 1, 0x3ad); (0x38c, 1, 1, 0x3cc);
   (0x38e, 2, 1, 0x3cd); (0x391, 17, 1, 0x3b1); (0x3a3, 9, 1, 0x3c3); (0x3cf, 1, 1, 0x3d7);
   (0x3d8, 12, 2, 0x3d9); (0x3f4, 1, 1, 0x3b8); (0x3f7, 1, 1, 0x3f8); (0x3f9, 1, 1, 0x3f2);
   (0x3fa, 1, 1, 0x3fb); (0x3fd, 3, 1, 0x37b); (0x400, 16, 1, 0x450); (0x410, 32, 1, 0x430);
   (0x460, 17, 2, 0x461); (0x48a, 27, 2, 0x48b); (0x4c0, 1, 1, 0x4cf); (0x4c1, 7, 2, 0x4c2);
   (0x4d0, 48, 2, 0x4d1); (0x531, 38, 1, 0x561); (0x10a0, 38, 1, 0x2d00); (0x10c7, 1, 1, 0x2d27);
   (0x10cd, 1, 1, 0x2d2d); (0x13a0, 80, 1, 0xab70); (0x13f0, 6, 1, 0x13f8); (0x1c90, 43, 1, 0x10d0);
   (0x1cbd, 3, 1, 0x10fd); (0x1e00, 75, 2, 0x1e01); (0x1e9e, 1, 1, 0xdf); (0x1ea0, 48, 2, 0x1ea1);
   (0x1f08, 8, 1, 0x1f00); (0x1f18, 6, 1, 0x1f10); (0x1f28, 8, 1, 0x1f20); (0x1f38, 8, 1, 0x1f30);
   (0x1f48, 6, 1, 0x1f40); (0x1f59, 4, 2, 0x1f51); (0x1f68, 8, 1, 0x1f60); (0x1f88, 8, 1, 0x1f80);
   (0x1f98, 8, 1, 0x1f90); (0x1fa8, 8, 1, 0x1fa0); (0x1fb8, 2, 1, 0x1fb0); (0x1fba, 2, 1, 0x1f70);
   (0x1fbc, 1, 1, 0x1fb3); (0x1fc8, 4, 1, 0x1f72); (0x1fcc, 1, 1, 0x1fc3); (0x1fd8, 2, 1, 0x1fd0);
   (0x1fda, 2, 1, 0x1f76); (0x1fe8, 2, 1, 0x1fe0); (0x1fea, 2, 1, 0x1f7a); (0x1fec, 1, 1, 0x1fe5);
   (0x1ff8, 2, 1, 0x1f78); (0x1ffa, 2, 1, 0x1f7c); (0x1ffc, 1, 1, 0x1ff3); (0x2126, 1, 1, 0x3c9);
   (0x212a, 1, 1, 0x6b); (0x212b, 1, 1, 0xe5); (0x2132, 1, 1, 0x214e); (0x2160, 16, 1, 0x2170);
   (0x2183, 1, 1, 0x2184); (0x24b6, 26, 1, 0x24d0); (0x2c00, 48, 1, 0x2c30); (0x2c60, 1, 1, 0x2c61);
   (0x2c62, 1, 1, 0x26b); (0x2c63, 1, 1, 0x1d7d); (0x2c64, 1, 1, 0x27d); (0x2c67, 3, 2, 0x2c68);
   (0x2c6d, 1, 1, 0x251); (0x2c6e, 1, 1, 0x271); (0x2c6f, 1, 1, 0x250); (0x2c70, 1, 1, 0x252);
   (0x2c72, 1, 1, 0x2c73); (0x2c75, 1, 1, 0x2c76); (0x2c7e, 2, 1, 0x23f); (0x2c80, 50, 2, 0x2c81);
   (0x2ceb, 2, 2, 0x2cec); (0x2cf2, 1, 1, 0x2cf3); (0xa640, 23, 2, 0xa641); (0xa680, 14, 2, 0xa681);
   (0xa722, 7, 2, 0xa723); (0xa732, 31, 2, 0xa733); (0xa779, 2, 2, 0xa77a); (0xa77d, 1, 1, 0x1d79);
   (0xa77e, 5, 2, 0xa77f); (0xa78b, 1, 1, 0xa78c); (0xa78d, 1, 1, 0x265); (0xa790, 2, 2, 0xa791);
   (0xa796, 10, 2, 0xa797); (0xa7aa, 1, 1, 0x266); (0xa7ab, 1, 1, 0x25c); (0xa7ac, 1, 1, 0x261);
   (0xa7ad, 1, 1, 0x26c); (0xa7ae, 1, 1, 0x26a); (0xa7b0, 1, 1, 0x29e); (0xa7b1, 1, 1, 0x287);
   (0xa7b2, 1, 1, 0x29d); (0xa7b3, 1, 1, 0xab53); (0xa7b4, 8, 2, 0xa7b5); (0xa7c4, 1, 1, 0xa794);
   (0xa7c5, 1, 1, 0x282); (0xa7c6, 1, 1, 0x1d8e); (0xa7c7, 2, 2, 0xa7c8); (0xa7d0, 1, 1, 0xa7d1);
   (0xa7d6, 2, 2, 0xa7d7); (0xa7f5, 1, 1, 0xa7f6); (0xff21, 26, 1, 0xff41); (0x10400, 40, 1, 0x10428);
   (0x104b0, 36, 1, 0x104d8); (0x10570, 19, 2, 0x10597); (0x10571, 10, 1, 0x10598); (0x1057d, 14, 1, 0x105a4);
   (0x1058d, 6, 1, 0x105b4); (0x10595, 1, 1, 0x105bc); (0x10c80, 51, 1, 0x10cc0); (0x118a0, 32, 1, 0x118c0);
   (0x16e40, 32, 1, 0x16e60); (0x1e900, 34, 1, 0x1e922)].

Fixpoint lower_lookup (runs : list (N * N * N * N)) (c : N) : N :=
  match runs with
  | [] => c
  | (start, count, step, target) :: rs =>
      if (start <=? c) && (c <? start + step * count) && ((c - start) mod step =? 0)
      then target + (c - start) else lower_lookup rs c
  end.

Definition lower_char (c : N) : N := lower_lookup lower_runs c.

(** [_PyUnicode_ToLowerFull]: U+0130 is the one code point whose lower case
    is two code points, "i" and U+0307. *)
Definition lower_cp (c : N) : ustr := if c =? 0x130 then [0x69; 0x307] else [lower_char c].

(** The Case_Ignorable code points, as ranges [(lo, hi)]. *)
Definition case_ignorable_ranges : list (N * N) :=
  [(0x27, 0x27); (0x2e, 0x2e); (0x3a, 0x3a); (0x5e, 0x5e); (0x60, 0x60); (0xa8, 0xa8);
   (0xad, 0xad); (0xaf, 0xaf); (0xb4, 0xb4); (0xb7, 0xb8); (0x2b0, 0x36f); (0x374, 0x375);
   (0x37a, 0x37a); (0x384, 0x385); (0x387, 0x387); (0x483, 0x489); (0x559, 0x559); (0x55f, 0x55f);
   (0x591, 0x5bd); (0x5bf, 0x5bf); (0x5c1, 0x5c2); (0x5c4, 0x5c5); (0x5c7, 0x5c7); (0x5f4, 0x5f4);
   (0x600, 0x605); (0x610, 0x61a); (0x61c, 0x61c); (0x640, 0x640); (0x64b, 0x65f); (0x670, 0x670);
   (0x6d6, 0x6dd); (0x6df, 0x6e8); (0x6ea, 0x6ed); (0x70f, 0x70f); (0x711, 0x711); (0x730, 0x74a);
   (0x7a6, 0x7b0); (0x7eb, 0x7f5); (0x7fa, 0x7fa); (0x7fd, 0x7fd); (0x816, 0x82d); (0x859, 0x85b);
   (0x888, 0x888); (0x890, 0x891); (0x898, 0x89f); (0x8c9, 0x902); (0x93a, 0x93a); (0x93c, 0x93c);
   (0x941, 0x948); (0x94d, 0x94d); (0x951, 0x957); (0x962, 0x963); (0x971, 0x971); (0x981, 0x981);
   (0x9bc, 0x9bc); (0x9c1, 0x9c4); (0x9cd, 0x9cd); (0x9e2, 0x9e3); (0x9fe, 0x9fe); (0xa01, 0xa02);
   (0xa3c, 0xa3c); (0xa41, 0xa42); (0xa47, 0xa48); (0xa4b, 0xa4d); (0xa51, 0xa51); (0xa70, 0xa71);
   (0xa75, 0xa75); (0xa81, 0xa82); (0xabc, 0xabc); (0xac1, 0xac5); (0xac7, 0xac8); (0xacd, 0xacd);
   (0xae2, 0xae3); (0xafa, 0xaff); (0xb01, 0xb01); (0xb3c, 0xb3c); (0xb3f, 0xb3f); (0xb41, 0xb44);
   (0xb4d, 0xb4d); (0xb55, 0xb56); (0xb62, 0xb63); (0xb82, 0xb82); (0xbc0, 0xbc0); (0xbcd, 0xbcd);
   (0xc00, 0xc00); (0xc04, 0xc04); (0xc3c, 0xc3c); (0xc3e, 0xc40); (0xc46, 0xc48); (0xc4a, 0xc4d);
   (0xc55, 0xc56); (0xc62, 0xc63); (0xc81, 0xc81); (0xcbc, 0xcbc); (0xcbf, 0xcbf); (0xcc6, 0xcc6);
   (0xccc, 0xccd); (0xce2, 0xce3); (0xd00, 0xd01); (0xd3b, 0xd3c); (0xd41, 0xd44); (0xd4d, 0xd4d);
   (0xd62, 0xd63); (0xd81, 0xd81); (0xdca, 0xdca); (0xdd2, 0xdd4); (0xdd6, 0xdd6); (0xe31, 0xe31);
   (0xe34, 0xe3a); (0xe46, 0xe4e); (0xeb1, 0xeb1); (0xeb4, 0xebc); (0xec6, 0xec6); (0xec8, 0xecd);
   (0xf18, 0xf19); (0xf35, 0xf35); (0xf37, 0xf37); (0xf39, 0xf39); (0xf71, 0xf7e); (0xf80, 0xf84);
   (0xf86, 0xf87); (0xf8d, 0xf97); (0xf99, 0xfbc); (0xfc6, 0xfc6); (0x102d, 0x1030); (0x1032, 0x1037);
   (0x1039, 0x103a); (0x103d, 0x103e); (0x1058, 0x1059); (0x105e, 0x1060); (0x1071, 0x1074); (0x1082, 0x1082);
   (0x1085, 0x1086); (0x108d, 0x108d); (0x109d, 0x109d); (0x10fc, 0x10fc); (0x135d, 0x135f); (0x1712, 0x1714);
   (0x1732, 0x1733); (0x1752, 0x1753); (0x1772, 0x1773); (0x17b4, 0x17b5); (0x17b7, 0x17bd); (0x17c6, 0x17c6);
   (0x17c9, 0x17d3); (0x17d7, 0x17d7); (0x17dd, 0x17dd); (0x180b, 0x180f); (0x1843, 0x1843); (0x1885, 0x1886);
   (0x18a9, 0x18a9); (0x1920, 0x1922); (0x1927, 0x1928); (0x1932, 0x1932); (0x1939, 0x193b); (0x1a17, 0x1a18);
   (0x1a1b, 0x1a1b); (0x1a56, 0x1a56); (0x1a58, 0x1a5e); (0x1a60, 0x1a60); (0x1a62, 0x1a62); (0x1a65, 0x1a6c);
   (0x1a73, 0x1a7c); (0x1a7f, 0x1a7f); (0x1aa7, 0x1aa7); (0x1ab0, 0x1ace); (0x1b00, 0x1b03); (0x1b34, 0x1b34);
   (0x1b36, 0x1b3a); (0x1b3c, 0x1b3c); (0x1b42, 0x1b42); (0x1b6b, 0x1b73); (0x1b80, 0x1b81); (0x1ba2, 0x1ba5);
   (0x1ba8, 0x1ba9); (0x1bab, 0x1bad); (0x1be6, 0x1be6); (0x1be8, 0x1be9); (0x1bed, 0x1bed); (0x1bef, 0x1bf1);
   (0x1c2c, 0x1c33); (0x1c36, 0x1c37); (0x1c78, 0x1c7d); (0x1cd0, 0x1cd2); (0x1cd4, 0x1ce0); (0x1ce2, 0x1ce8);
   (0x1ced, 0x1ced); (0x1cf4, 0x1cf4); (0x1cf8, 0x1cf9); (0x1d2c, 0x1d6a); (0x1d78, 0x1d78); (0x1d9b, 0x1dff);
   (0x1fbd, 0x1fbd); (0x1fbf, 0x1fc1); (0x1fcd, 0x1fcf); (0x1fdd, 0x1fdf); (0x1fed, 0x1fef); (0x1ffd, 0x1ffe);
   (0x200b, 0x200f); (0x2018, 0x2019); (0x2024, 0x2024); (0x2027, 0x2027); (0x202a, 0x202e); (0x2060, 0x2064);
   (0x2066, 0x206f); (0x2071, 0x2071); (0x207f, 0x207f); (0x2090, 0x209c); (0x20d0, 0x20f0); (0x2c7c, 0x2c7d);
   (0x2cef, 0x2cf1); (0x2d6f, 0x2d6f); (0x2d7f, 0x2d7f); (0x2de0, 0x2dff); (0x2e2f, 0x2e2f); (0x3005, 0x3005);
   (0x302a, 0x302d); (0x3031, 0x3035); (0x303b, 0x303b); (0x3099, 0x309e); (0x30fc, 0x30fe); (0xa015, 0xa015);
   (0xa4f8, 0xa4fd); (0xa60c, 0xa60c); (0xa66f, 0xa672); (0xa674, 0xa67d); (0xa67f, 0xa67f); (0xa69c, 0xa69f);
   (0xa6f0, 0xa6f1); (0xa700, 0xa721); (0xa770, 0xa770); (0xa788, 0xa78a); (0xa7f2, 0xa7f4); (0xa7f8, 0xa7f9);
   (0xa802, 0xa802); (0xa806, 0xa806); (0xa80b, 0xa80b); (0xa825, 0xa826); (0xa82c, 0xa82c); (0xa8c4, 0xa8c5);
   (0xa8e0, 0xa8f1); (0xa8ff, 0xa8ff); (0xa926, 0xa92d); (0xa947, 0xa951); (0xa980, 0xa982); (0xa9b3, 0xa9b3);
   (0xa9b6, 0xa9b9); (0xa9bc, 0xa9bd); (0xa9cf, 0xa9cf); (0xa9e5, 0xa9e6); (0xaa29, 0xaa2e); (0xaa31, 0xaa32);
   (0xaa35, 0xaa36); (0xaa43, 0xaa43); (0xaa4c, 0xaa4c); (0xaa70, 0xaa70); (0xaa7c, 0xaa7c); (0xaab0, 0xaab0);
   (0xaab2, 0xaab4); (0xaab7, 0xaab8); (0xaabe, 0xaabf); (0xaac1, 0xaac1); (0xaadd, 0xaadd); (0xaaec, 0xaaed);
   (0xaaf3, 0xaaf4); (0xaaf6, 0xaaf6); (0xab5b, 0xab5f); (0xab69, 0xab6b); (0xabe5, 0xabe5); (0xabe8, 0xabe8);
   (0xabed, 0xabed); (0xfb1e, 0xfb1e); (0xfbb2, 0xfbc2); (0xfe00, 0xfe0f); (0xfe13, 0xfe13); (0xfe20, 0xfe2f);
   (0xfe52, 0xfe52); (0xfe55, 0xfe55); (0xfeff, 0xfeff); (0xff07, 0xff07); (0xff0e, 0xff0e); (0xff1a, 0xff1a);
   (0xff3e, 0xff3e); (0xff40, 0xff40); (0xff70, 0xff70); (0xff9e, 0xff9f); (0xffe3, 0xffe3); (0xfff9, 0xfffb);
   (0x101fd, 0x101fd); (0x102e0, 0x102e0); (0x10376, 0x1037a); (0x10780, 0x10785); (0x10787, 0x107b0); (0x107b2, 0x107ba);
   (0x10a01, 0x10a03); (0x10a05, 0x10a06); (0x10a0c, 0x10a0f); (0x10a38, 0x10a3a); (0x10a3f, 0x10a3f); (0x10ae5, 0x10ae6);
   (0x10d24, 0x10d27); (0x10eab, 0x10eac); (0x10f46, 0x10f50); (0x10f82, 0x10f85); (0x11001, 0x11001); (0x11038, 0x11046);
   (0x11070, 0x11070); (0x11073, 0x11074); (0x1107f, 0x11081); (0x110b3, 0x110b6); (0x110b9, 0x110ba); (0x110bd, 0x110bd);
   (0x110c2, 0x110c2); (0x110cd, 0x110cd); (0x11100, 0x11102); (0x11127, 0x1112b); (0x1112d, 0x11134); (0x11173, 0x11173);
   (0x11180, 0x11181); (0x111b6, 0x111be); (0x111c9, 0x111cc); (0x111cf, 0x111cf); (0x1122f, 0x11231); (0x11234, 0x11234);
   (0x11236, 0x11237); (0x1123e, 0x1123e); (0x112df, 0x112df); (0x112e3, 0x112ea); (0x11300, 0x11301); (0x1133b, 0x1133c);
   (0x11340, 0x11340); (0x11366, 0x1136c); (0x11370, 0x11374); (0x11438, 0x1143f); (0x11442, 0x11444); (0x11446, 0x11446);
   (0x1145e, 0x1145e); (0x114b3, 0x114b8); (0x114ba, 0x114ba); (0x114bf, 0x114c0); (0x114c2, 0x114c3); (0x115b2, 0x115b5);
   (0x115bc, 0x115bd); (0x115bf, 0x115c0); (0x115dc, 0x115dd); (0x11633, 0x1163a); (0x1163d, 0x1163d); (0x1163f, 0x11640);
   (0x116ab, 0x116ab); (0x116ad, 0x116ad); (0x116b0, 0x116b5); (0x116b7, 0x116b7); (0x1171d, 0x1171f); (0x11722, 0x11725);
   (0x11727, 0x1172b); (0x1182f, 0x11837); (0x11839, 0x1183a); (0x1193b, 0x1193c); (0x1193e, 0x1193e); (0x11943, 0x11943);
   (0x119d4, 0x119d7); (0x119da, 0x119db); (0x119e0, 0x119e0); (0x11a01, 0x11a0a); (0x11a33, 0x11a38); (0x11a3b, 0x11a3e);
   (0x11a47, 0x11a47); (0x11a51, 0x11a56); (0x11a59, 0x11a5b); (0x11a8a, 0x11a96); (0x11a98, 0x11a99); (0x11c30, 0x11c36);
   (0x11c38, 0x11c3d); (0x11c3f, 0x11c3f); (0x11c92, 0x11ca7); (0x11caa, 0x11cb0); (0x11cb2, 0x11cb3); (0x11cb5, 0x11cb6);
   (0x11d31, 0x11d36); (0x11d3a, 0x11d3a); (0x11d3c, 0x11d3d); (0x11d3f, 0x11d45); (0x11d47, 0x11d47); (0x11d90, 0x11d91);
   (0x11d95, 0x11d95); (0x11d97, 0x11d97); (0x11ef3, 0x11ef4); (0x13430, 0x13438); (0x16af0, 0x16af4); (0x16b30, 0x16b36);
   (0x16b40, 0x16b43); (0x16f4f, 0x16f4f); (0x16f8f, 0x16f9f); (0x16fe0, 0x16fe1); (0x16fe3, 0x16fe4); (0x1aff0, 0x1aff3);
   (0x1aff5, 0x1affb); (0x1affd, 0x1affe); (0x1bc9d, 0x1bc9e); (0x1bca0, 0x1bca3); (0x1cf00, 0x1cf2d); (0x1cf30, 0x1cf46);
   (0x1d167, 0x1d169); (0x1d173, 0x1d182); (0x1d185, 0x1d18b); (0x1d1aa, 0x1d1ad); (0x1d242, 0x1d244); (0x1da00, 0x1da36);
   (0x1da3b, 0x1da6c); (0x1da75, 0x1da75); (0x1da84, 0x1da84); (0x1da9b, 0x1da9f); (0x1daa1, 0x1daaf); (0x1e000, 0x1e006);
   (0x1e008, 0x1e018); (0x1e01b, 0x1e021); (0x1e023, 0x1e024); (0x1e026, 0x1e02a); (0x1e130, 0x1e13d); (0x1e2ae, 0x1e2ae);
   (0x1e2ec, 0x1e2ef); (0x1e8d0, 0x1e8d6); (0x1e944, 0x1e94b); (0x1f3fb, 0x1f3ff); (0xe0001, 0xe0001); (0xe0020, 0xe007f);
   (0xe0100, 0xe01ef)].

(** The Cased code points that are not Case_Ignorable (the only ones whose
    casedness [handle_capital_sigma] looks at), as ranges. *)
Definition cased_ranges : list (N * N) :=
  [(0x41, 0x5a); (0x61, 0x7a); (0xaa, 0xaa); (0xb5, 0xb5); (0xba, 0xba); (0xc0, 0xd6);
   (0xd8, 0xf6); (0xf8, 0x1ba); (0x1bc, 0x1bf); (0x1c4, 0x293); (0x295, 0x2af); (0x370, 0x373);
   (0x376, 0x377); (0x37b, 0x37d); (0x37f, 0x37f); (0x386, 0x386); (0x388, 0x38a); (0x38c, 0x38c);
   (0x38e, 0x3a1); (0x3a3, 0x3f5); (0x3f7, 0x481); (0x48a, 0x52f); (0x531, 0x556); (0x560, 0x588);
   (0x10a0, 0x10c5); (0x10c7, 0x10c7); (0x10cd, 0x10cd); (0x10d0, 0x10fa); (0x10fd, 0x10ff); (0x13a0, 0x13f5);
   (0x13f8, 0x13fd); (0x1c80, 0x1c88); (0x1c90, 0x1cba); (0x1cbd, 0x1cbf); (0x1d00, 0x1d2b); (0x1d6b, 0x1d77);
   (0x1d79, 0x1d9a); (0x1e00, 0x1f15); (0x1f18, 0x1f1d); (0x1f20, 0x1f45); (0x1f48, 0x1f4d); (0x1f50, 0x1f57);
   (0x1f59, 0x1f59); (0x1f5b, 0x1f5b); (0x1f5d, 0x1f5d); (0x1f5f, 0x1f7d); (0x1f80, 0x1fb4); (0x1fb6, 0x1fbc);
   (0x1fbe, 0x1fbe); (0x1fc2, 0x1fc4); (0x1fc6, 0x1fcc); (0x1fd0, 0x1fd3); (0x1fd6, 0x1fdb); (0x1fe0, 0x1fec);
   (0x1ff2, 0x1ff4); (0x1ff6, 0x1ffc); (0x2102, 0x2102); (0x2107, 0x2107); (0x210a, 0x2113); (0x2115, 0x2115);
   (0x2119, 0x211d); (0x2124, 0x2124); (0x2126, 0x2126); (0x2128, 0x2128); (0x212a, 0x212d); (0x212f, 0x2134);
   (0x2139, 0x2139); (0x213c, 0x213f); (0x2145, 0x2149); (0x214e, 0x214e); (0x2160, 0x217f); (0x2183, 0x2184);
   (0x24b6, 0x24e9); (0x2c00, 0x2c7b); (0x2c7e, 0x2ce4); (0x2ceb, 0x2cee); (0x2cf2, 0x2cf3); (0x2d00, 0x2d25);
   (0x2d27, 0x2d27); (0x2d2d, 0x2d2d); (0xa640, 0xa66d); (0xa680, 0xa69b); (0xa722, 0xa76f); (0xa771, 0xa787);
   (0xa78b, 0xa78e); (0xa790, 0xa7ca); (0xa7d0, 0xa7d1); (0xa7d3, 0xa7d3); (0xa7d5, 0xa7d9); (0xa7f5, 0xa7f6);
   (0xa7fa, 0xa7fa); (0xab30, 0xab5a); (0xab60, 0xab68); (0xab70, 0xabbf); (0xfb00, 0xfb06); (0xfb13, 0xfb17);
   (0xff21, 0xff3a); (0xff41, 0xff5a); (0x10400, 0x1044f); (0x104b0, 0x104d3); (0x104d8, 0x104fb); (0x10570, 0x1057a);
   (0x1057c, 0x1058a); (0x1058c, 0x10592); (0x10594, 0x10595); (0x10597, 0x105a1); (0x105a3, 0x105b1); (0x105b3, 0x105b9);
   (0x105bb, 0x105bc); (0x10c80, 0x10cb2); (0x10cc0, 0x10cf2); (0x118a0, 0x118df); (0x16e40, 0x16e7f); (0x1d400, 0x1d454);
   (0x1d456, 0x1d49c); (0x1d49e, 0x1d49f); (0x1d4a2, 0x1d4a2); (0x1d4a5, 0x1d4a6); (0x1d4a9, 0x1d4ac); (0x1d4ae, 0x1d4b9);
   (0x1d4bb, 0x1d4bb); (0x1d4bd, 0x1d4c3); (0x1d4c5, 0x1d505); (0x1d507, 0x1d50a); (0x1d50d, 0x1d514); (0x1d516, 0x1d51c);
   (0x1d51e, 0x1d539); (0x1d53b, 0x1d53e); (0x1d540, 0x1d544); (0x1d546, 0x1d546); (0x1d54a, 0x1d550); (0x1d552, 0x1d6a5);
   (0x1d6a8, 0x1d6c0); (0x1d6c2, 0x1d6da); (0x1d6dc, 0x1d6fa); (0x1d6fc, 0x1d714); (0x1d716, 0x1d734); (0x1d736, 0x1d74e);
   (0x1d750, 0x1d76e); (0x1d770, 0x1d788); (0x1d78a, 0x1d7a8); (0x1d7aa, 0x1d7c2); (0x1d7c4, 0x1d7cb); (0x1df00, 0x1df09);
   (0x1df0b, 0x1df1e); (0x1e900, 0x1e943); (0x1f130, 0x1f149); (0x1f150, 0x1f169); (0x1f170, 0x1f189)].

Definition in_ranges (rs : list (N * N)) (c : N) : bool :=
  existsb (fun '(lo, hi) => (lo <=? c) && (c <=? hi)) rs.

Definition is_case_ignorable (c : N) : bool := in_ranges case_ignorable_ranges c.
Definition is_cased (c : N) : bool := in_ranges cased_ranges c.

(** The first code point of [s] that is not case-ignorable. *)
Fixpoint first_not_ci (s : ustr) : option N :=
  match s with
  | [] => None
  | c :: s' => if is_case_ignorable c then first_not_ci s' else Some c
  end.

(** [handle_capital_sigma]: a capital sigma preceded by a cased letter (case
    ignorable ones skipped) and not followed by one is final.  [before] is
    the text before it, reversed. *)
Definition final_sigma (before after : ustr) : bool :=
  match first_not_ci before with
  | Some c => is_cased c && match first_not_ci after with
                            | None => true
                            | Some d => negb (is_cased d)
                            end
  | None => false
  end.

(** [str.lower]: U+03A3 becomes U+03C2 in the final-sigma context and U+03C3
    otherwise; every other code point follows [lower_cp]. *)
Fixpoint lower_aux (before s : ustr) : ustr :=
  match s with
  | [] => []
  | c :: s' =>
      (if c =? 0x3a3 then [if final_sigma before s' then 0x3c2 else 0x3c3] else lower_cp c)
      ++ lower_aux (c :: before) s'
  end.

Definition lower (s : ustr) : ustr := lower_aux [] s.

(** [str.strip()] and [str.lstrip(chars)]. *)
Fixpoint lstrip_by (p : N -> bool) (s : ustr) : ustr :=
  match s with
  | [] => []
  | c :: s' => if p c then lstrip_by p s' else s
  end.

Definition rstrip_by (p : N -> bool) (s : ustr) : ustr :=
  rev (lstrip_by p (rev s)).

Definition strip (s : ustr) : ustr := rstrip_by is_space (lstrip_by is_space s).

(** [s.split()] with no argument: the maximal runs of non-space characters. *)
Fixpoint split_ws_aux (cur : ustr) (s : ustr) : list ustr :=
  match s with
  | [] => match cur with [] => [] | _ => [rev cur] end
  | c :: s' =>
      if is_space c
      then match cur with
           | [] => split_ws_aux [] s'
           | _ => rev cur :: split_ws_aux [] s'
           end
      else split_ws_aux (c :: cur) s'
  end.

Definition split_ws (s : ustr) : list ustr := split_ws_aux [] s.

(** [s.replace(c, r)] for one character [c]. *)
Definition replace_char (c : N) (r : ustr) (s : ustr) : ustr :=
  flat_map (fun d => if N.eqb c d then r else [d]) s.

(** Lexicographic order of Python's [str] comparison. *)
Fixpoint ltb (a b : ustr) : bool :=
  match a, b with
  | [], [] => false
  | [], _ :: _ => true
  | _ :: _, [] => false
  | x :: a', y :: b' => if x <? y then true else if y <? x then false else ltb a' b'
  end.

End PyStr.

Import PyStr.

(* ------------------------------------------------------------------------- *)
(** ** [selection/scorer.py] *)

Module Scorer.

Open Scope R_scope.

(** An aware or naive [datetime]: its wall-clock reading in seconds and the
    UTC offset of its [tzinfo], if any.  Instants are compared in UTC. *)
Record datetime := { dt_wall : R ; dt_utcoffset : option R }.

(** A naive datetime is read as UTC ([replace(tzinfo=timezone.utc)]). *)
Definition instant (d : datetime) : R :=
  match dt_utcoffset d with Some off => dt_wall d - off | None => dt_wall d end.

(** Round-to-nearest overflows to infinity from [2^1024 - 2^970] on (half an
    ulp above the largest finite double). *)
Definition float_overflow : R := 2 ^ 1024 - 2 ^ 970.

(** [math.pow(0.5, y)]: [None] for the [OverflowError] it raises when the
    result is too large for a float (that is, when [y] is below about
    [-1024]); an underflow returns a (possibly zero) float and raises
    nothing. *)
Definition math_pow_half (y : R) : option R :=
  if Rle_dec float_overflow (Rpower 0.5 y) then None else Some (Rpower 0.5 y).

(** [calculate_recency_score]; [now] is [datetime.now(timezone.utc)] as an
    instant.  [None] is the [ZeroDivisionError] of a zero half-life or the
    [OverflowError] of [math.pow].  Arithmetic is exact real arithmetic:
    float rounding is not modelled ([5.0 * p] may round to [inf], which
    [min(5.0, .)] clamps like the exact product). *)
Definition calculate_recency_score (now : R) (article_date : datetime)
    (half_life_hours : R) : option R :=
  let hours_old := (now - instant article_date) / 3600 in
  if Req_EM_T half_life_hours 0 then None else
  match math_pow_half (hours_old / half_life_hours) with
  | None => None
  | Some p =>
      let recency := 5 * p in
      let recency := if Rlt_dec 24 hours_old then recency - 0.5 else recency in
      Some (Rmax 0 (Rmin 5 recency))
  end.

(** One entry of [selection.scoring.penalties]. *)
Record penalty_rule := {
  if_title_or_content_contains_any : list ustr;
  subtract : R
}.

(** The keyword test of one rule against the lower-cased combined text. *)
Definition rule_fires (combined_text : ustr) (rule : penalty_rule) : bool :=
  existsb (fun keyword => contains combined_text (lower keyword))
          (if_title_or_content_contains_any rule).

(** [apply_penalties]: [combined_text = f"{title} {summary}".lower()]. *)
Definition apply_penalties (base_score : R) (article_title article_summary : ustr)
    (penalties : list penalty_rule) : R :=
  let combined_text := lower (article_title ++ [32%N] ++ article_summary) in
  let adjusted_score :=
    fold_left (fun adj rule => if rule_fires combined_text rule
                               then adj - subtract rule else adj)
              penalties base_score in
  Rmax 0 adjusted_score.

(** The fields of an LLM evaluation the scorer reads ([evaluate.get(k, 0)],
    [evaluate.get("title", "")]); a missing number is [None]. *)
Record evaluation := {
  ev_impact : option R;
  ev_novelty : option R;
  ev_proof : option R;
  ev_title : ustr;
  ev_summary : ustr
}.

(** [configuration.selection.scoring]: a missing key is [None]. *)
Record scoring_config := {
  sc_half_life_hours : option R;
  sc_penalties : option (list penalty_rule)
}.

Definition get_num (o : option R) : R := match o with Some x => x | None => 0 end.

Definition half_life_of (cfg : scoring_config) : R :=
  match sc_half_life_hours cfg with Some h => h | None => 36 end.

Definition penalties_of (cfg : scoring_config) : list penalty_rule :=
  match sc_penalties cfg with Some p => p | None => [] end.

(** [calculate_score]. *)
Definition calculate_score (now : R) (evaluate : evaluation) (article_date : datetime)
    (cfg : scoring_config) : option R :=
  let impact := get_num (ev_impact evaluate) in
  let novelty := get_num (ev_novelty evaluate) in
  let proof := get_num (ev_proof evaluate) in
  match calculate_recency_score now article_date (half_life_of cfg) with
  | None => None
  | Some recency =>
      let base_score := 0.35 * impact + 0.25 * novelty + 0.25 * proof + 0.15 * recency in
      Some (apply_penalties base_score (ev_title evaluate) (ev_summary evaluate)
                            (penalties_of cfg))
  end.

(** The scoring law as the spec words it: recency clamped to [[0,5]] after the
    24-hour step, and each rule whose keyword occurs in [lower] of the given
    text subtracting its value once, the total floored at 0. *)
Definition spec_recency (hours_old half_life_hours : R) : R :=
  Rmax 0 (Rmin 5 (5 * Rpower 0.5 (hours_old / half_life_hours)
                  - (if Rlt_dec 24 hours_old then 0.5 else 0))).

Definition penalty_total (text : ustr) (penalties : list penalty_rule) : R :=
  fold_right (fun rule acc => (if rule_fires (lower text) rule then subtract rule else 0) + acc)
             0 penalties.

Definition spec_score (text : ustr) (now : R) (evaluate : evaluation)
    (article_date : datetime) (cfg : scoring_config) : R :=
  let hours_old := (now - instant article_date) / 3600 in
  Rmax 0 (0.35 * get_num (ev_impact evaluate) + 0.25 * get_num (ev_novelty evaluate)
          + 0.25 * get_num (ev_proof evaluate)
          + 0.15 * spec_recency hours_old (half_life_of cfg)
          - penalty_total text (penalties_of cfg)).

End Scorer.

(* ------------------------------------------------------------------------- *)
(** ** [canonicalize_url] and the [urllib.parse] functions it calls

    The library parts follow CPython 3.11 ([urllib/parse.py], [ipaddress.py]). *)

Module Url.

Open Scope N_scope.

Definition is_nil {A} (l : list A) : bool := match l with [] => true | _ => false end.

Definition mem_str (s : ustr) (l : list ustr) : bool := existsb (ustr_eqb s) l.

Definition uses_netloc : list ustr :=
  map of_ascii ["";"ftp";"http";"gopher";"nntp";"telnet";"imap";"wais";"file";
                "mms";"https";"shttp";"snews";"prospero";"rtsp";"rtspu";"rsync";
                "svn";"svn+ssh";"sftp";"nfs";"git";"git+ssh";"ws";"wss"]%string.

Definition uses_params : list ustr :=
  map of_ascii ["";"ftp";"hdl";"prospero";"http";"imap";"https";"shttp";"rtsp";
                "rtspu";"sip";"sips";"mms";"sftp";"tel"]%string.

(** [_WHATWG_C0_CONTROL_OR_SPACE] and [_UNSAFE_URL_BYTES_TO_REMOVE]. *)
Definition is_c0_or_space (c : N) : bool := c <=? 32.
Definition is_unsafe (c : N) : bool := (c =? 9) || (c =? 10) || (c =? 13).

Definition is_ascii_alpha (c : N) : bool :=
  ((65 <=? c) && (c <=? 90)) || ((97 <=? c) && (c <=? 122)).
Definition is_digit (c : N) : bool := (48 <=? c) && (c <=? 57).
Definition is_hex (c : N) : bool :=
  is_digit c || ((65 <=? c) && (c <=? 70)) || ((97 <=? c) && (c <=? 102)).
Definition hexval (c : N) : N :=
  if is_digit c then c - 48 else if (65 <=? c) && (c <=? 70) then c - 55 else c - 87.

(** [scheme_chars]. *)
Definition is_scheme_char (c : N) : bool :=
  is_ascii_alpha c || is_digit c || (c =? 43) || (c =? 45) || (c =? 46).

(** The longest prefix of characters failing [p], and the rest. *)
Fixpoint span_until (p : N -> bool) (s : ustr) : ustr * ustr :=
  match s with
  | [] => ([], [])
  | c :: s' => if p c then ([], s) else let (a, b) := span_until p s' in (c :: a, b)
  end.

(** [s.rpartition(c)[2]]. *)
Definition after_last (c : N) (s : ustr) : ustr :=
  rev (fst (span_until (N.eqb c) (rev s))).

(** The scheme step of [urlsplit]. *)
Definition split_scheme (url : ustr) : ustr * ustr :=
  match find_char 58 url with
  | Some i =>
      match url with
      | c0 :: _ =>
          if (0 <? i)%nat && is_ascii_alpha c0 && forallb is_scheme_char (firstn i url)
          then (lower (firstn i url), skipn (S i) url) else ([], url)
      | [] => ([], url)
      end
  | None => ([], url)
  end.

(** [_splitnetloc(url, 2)]: up to the first of [/?#]. *)
Definition is_netloc_delim (c : N) : bool := (c =? 47) || (c =? 63) || (c =? 35).
Definition splitnetloc (url : ustr) : ustr * ustr := span_until is_netloc_delim (skipn 2 url).

(** [ipaddress.IPv4Address(s)] succeeds. *)
Definition decimal_value (s : ustr) : N := fold_left (fun acc d => acc * 10 + (d - 48)) s 0.

Definition octet_ok (o : ustr) : bool :=
  match o with
  | [] => false
  | d0 :: rest =>
      forallb is_digit o && (length o <=? 3)%nat
      && (negb (d0 =? 48) || is_nil rest) && (decimal_value o <=? 255)
  end.

Definition ipv4_valid (s : ustr) : bool :=
  negb (has_char 47 s) && negb (is_nil s)
  && (let octets := split_on 46 s in (length octets =? 4)%nat && forallb octet_ok octets).

(** [IPv6Address._parse_hextet] succeeds ([int('', 16)] fails). *)
Definition hextet_ok (h : ustr) : bool :=
  forallb is_hex h && (length h <=? 4)%nat && negb (is_nil h).

(** [IPv6Address._ip_int_from_string] succeeds. *)
Definition ipv6_addr_ok (ip_str : ustr) : bool :=
  if is_nil ip_str then false else
  let parts0 := split_on 58 ip_str in
  if (length parts0 <? 3)%nat then false else
  let last0 := last parts0 [] in
  let has_v4 := has_char 46 last0 in
  if has_v4 && negb (ipv4_valid last0) then false else
  let parts := if has_v4 then removelast parts0 ++ [[48]; [48]] else parts0 in
  let n := length parts in
  if (9 <? n)%nat then false else
  let inner_empty := filter (fun i => is_nil (nth i parts [])) (seq 1 (n - 2)) in
  match inner_empty with
  | [] =>
      (n =? 8)%nat && negb (is_nil (hd [] parts)) && negb (is_nil (last parts []))
      && forallb hextet_ok parts
  | [skip_index] =>
      let hi := skip_index in
      let lo := (n - skip_index - 1)%nat in
      let '(hi, ok_hi) := if is_nil (hd [] parts) then ((hi - 1)%nat, (hi - 1 =? 0)%nat)
                          else (hi, true) in
      let '(lo, ok_lo) := if is_nil (last parts []) then ((lo - 1)%nat, (lo - 1 =? 0)%nat)
                          else (lo, true) in
      ok_hi && ok_lo && (hi + lo <? 8)%nat
      && forallb hextet_ok (firstn hi parts) && forallb hextet_ok (skipn (n - lo) parts)
  | _ => false
  end.

(** [ipaddress.IPv6Address(s)] succeeds (with its [%scope] suffix). *)
Definition ipv6_valid (s : ustr) : bool :=
  negb (has_char 47 s) &&
  match split_once 37 s with
  | None => ipv6_addr_ok s
  | Some (addr, scope) => negb (is_nil scope) && negb (has_char 37 scope) && ipv6_addr_ok addr
  end.

(** [re.match(r"\Av[a-fA-F0-9]+\..+\Z", h)]. *)
Definition ipvfuture_ok (h : ustr) : bool :=
  match h with
  | 118 :: rest =>
      let (hx, tl) := span_until (fun c => negb (is_hex c)) rest in
      negb (is_nil hx) &&
      match tl with 46 :: t => negb (is_nil t) && negb (has_char 10 t) | _ => false end
  | _ => false
  end.

(** [_check_bracketed_host] does not raise. *)
Definition bracketed_host_ok (hostname : ustr) : bool :=
  match hostname with
  | 118 :: _ => ipvfuture_ok hostname
  | _ => if ipv4_valid hostname then false else ipv6_valid hostname
  end.

(** [_check_bracketed_netloc] does not raise. *)
Definition check_bracketed_netloc (netloc : ustr) : bool :=
  let hostname_and_port := after_last 64 netloc in
  match split_once 91 hostname_and_port with
  | Some (before_bracket, bracketed) =>
      if negb (is_nil before_bracket) then false else
      let '(hostname, port) :=
        match split_once 93 bracketed with Some hp => hp | None => (bracketed, []) end in
      if negb (is_nil port) && negb (startswith port [58]) then false
      else bracketed_host_ok hostname
  | None =>
      let hostname :=
        match split_once 58 hostname_and_port with Some (h, _) => h | None => hostname_and_port end in
      bracketed_host_ok hostname
  end.

(** The code points whose NFKC form contains one of [/?#@:] (CPython 3.11,
    Unicode 14.0).  A netloc without [@:#?] changes under NFKC into a string
    holding one of [/?#@:] exactly when it holds one of these. *)
Definition nfkc_specials : list N :=
  [0x2047; 0x2048; 0x2049; 0x2100; 0x2101; 0x2105; 0x2106; 0x2a74; 0xfe13; 0xfe16;
   0xfe55; 0xfe56; 0xfe5f; 0xfe6b; 0xff03; 0xff0f; 0xff1a; 0xff1f; 0xff20].

(** [_checknetloc] does not raise. *)
Definition checknetloc (netloc : ustr) : bool :=
  if is_nil netloc || forallb (fun c => c <? 128) netloc then true else
  let n := filter (fun c => negb ((c =? 64) || (c =? 58) || (c =? 35) || (c =? 63))) netloc in
  negb (existsb (fun c => existsb (N.eqb c) nfkc_specials) n).

(** [urlsplit(url)]: [(scheme, netloc, path, query, fragment)], or [None]
    for the [ValueError] it raises. *)
Definition urlsplit (url0 : ustr) : option (ustr * ustr * ustr * ustr * ustr) :=
  let url := filter (fun c => negb (is_unsafe c)) (lstrip_by is_c0_or_space url0) in
  let '(scheme, url) := split_scheme url in
  let '(netloc, url, ok) :=
    if startswith url [47; 47] then
      let '(netloc, rest) := splitnetloc url in
      let hasl := has_char 91 netloc in
      let hasr := has_char 93 netloc in
      if (hasl && negb hasr) || (hasr && negb hasl) then (netloc, rest, false)
      else if hasl && hasr then (netloc, rest, check_bracketed_netloc netloc)
      else (netloc, rest, true)
    else ([], url, true) in
  if negb ok then None else
  let '(url, fragment) := match split_once 35 url with Some uf => uf | None => (url, []) end in
  let '(url, query) := match split_once 63 url with Some uq => uq | None => (url, []) end in
  if checknetloc netloc then Some (scheme, netloc, url, query, fragment) else None.

(** [url.rfind('/')]. *)
Definition rfind (c : N) (s : ustr) : option nat :=
  match find_char c (rev s) with
  | Some j => Some (length s - S j)%nat
  | None => None
  end.

(** [_splitparams]. *)
Definition splitparams (url : ustr) : ustr * ustr :=
  let i :=
    match rfind 47 url with
    | Some k => option_map (fun j => (k + j)%nat) (find_char 59 (skipn k url))
    | None => find_char 59 url
    end in
  match i with
  | Some i => (firstn i url, skipn (S i) url)
  | None => (url, [])
  end.

(** [urlparse(url)]: [(scheme, netloc, path, params, query, fragment)]. *)
Definition urlparse (url : ustr) : option (ustr * ustr * ustr * ustr * ustr * ustr) :=
  match urlsplit url with
  | None => None
  | Some (scheme, netloc, path, query, fragment) =>
      let '(path, params) :=
        if mem_str scheme uses_params && has_char 59 path then splitparams path
        else (path, []) in
      Some (scheme, netloc, path, params, query, fragment)
  end.

(** [urlunsplit] and [urlunparse]. *)
Definition urlunsplit (scheme netloc url query fragment : ustr) : ustr :=
  let url :=
    if negb (is_nil netloc)
       || (negb (is_nil scheme) && mem_str scheme uses_netloc && negb (startswith url [47; 47]))
    then let url := if negb (is_nil url) && negb (startswith url [47]) then 47 :: url else url in
         [47; 47] ++ netloc ++ url
    else url in
  let url := if is_nil scheme then url else scheme ++ [58] ++ url in
  let url := if is_nil query then url else url ++ [63] ++ query in
  if is_nil fragment then url else url ++ [35] ++ fragment.

Definition urlunparse (scheme netloc url params query fragment : ustr) : ustr :=
  let url := if is_nil params then url else url ++ [59] ++ params in
  urlunsplit scheme netloc url query fragment.

(** [unquote_to_bytes] on a run of ASCII characters. *)
Fixpoint unquote_bytes (s : list N) : list N :=
  match s with
  | [] => []
  | c :: t =>
      if c =? 37 then
        match t with
        | a :: (b :: r) =>
            if is_hex a && is_hex b then (16 * hexval a + hexval b) :: unquote_bytes r
            else c :: unquote_bytes t
        | _ => c :: unquote_bytes t
        end
      else c :: unquote_bytes t
  end.

(** [bytes.decode('utf-8', 'replace')]: each maximal ill-formed subpart
    becomes one U+FFFD. *)
Definition is_cont (b : N) : bool := (128 <=? b) && (b <=? 191).

Fixpoint utf8_decode (bs : list N) : ustr :=
  match bs with
  | [] => []
  | b :: rest =>
    if b <? 128 then b :: utf8_decode rest
    else if (194 <=? b) && (b <=? 223) then
      match rest with
      | c1 :: r1 =>
          if is_cont c1 then ((b - 192) * 64 + (c1 - 128)) :: utf8_decode r1
          else 65533 :: utf8_decode rest
      | [] => [65533]
      end
    else if (224 <=? b) && (b <=? 239) then
      let lo := if b =? 224 then 160 else 128 in
      let hi := if b =? 237 then 159 else 191 in
      match rest with
      | c1 :: r1 =>
          if (lo <=? c1) && (c1 <=? hi) then
            match r1 with
            | c2 :: r2 =>
                if is_cont c2
                then ((b - 224) * 4096 + (c1 - 128) * 64 + (c2 - 128)) :: utf8_decode r2
                else 65533 :: utf8_decode r1
            | [] => [65533]
            end
          else 65533 :: utf8_decode rest
      | [] => [65533]
      end
    else if (240 <=? b) && (b <=? 244) then
      let lo := if b =? 240 then 144 else 128 in
      let hi := if b =? 244 then 143 else 191 in
      match rest with
      | c1 :: r1 =>
          if (lo <=? c1) && (c1 <=? hi) then
            match r1 with
            | c2 :: r2 =>
                if is_cont c2 then
                  match r2 with
                  | c3 :: r3 =>
                      if is_cont c3
                      then ((b - 240) * 262144 + (c1 - 128) * 4096 + (c2 - 128) * 64
                            + (c3 - 128)) :: utf8_decode r3
                      else 65533 :: utf8_decode r2
                  | [] => [65533]
                  end
                else 65533 :: utf8_decode r1
            | [] => [65533]
            end
          else 65533 :: utf8_decode rest
      | [] => [65533]
      end
    else 65533 :: utf8_decode rest
  end.

(** [unquote]: every maximal ASCII run is percent-decoded to bytes and read
    back as UTF-8; other characters are kept.  [run] is the pending ASCII run,
    reversed. *)
Fixpoint unquote_runs (run : list N) (s : ustr) : ustr :=
  match s with
  | [] => utf8_decode (unquote_bytes (rev run))
  | c :: s' =>
      if c <? 128 then unquote_runs (c :: run) s'
      else utf8_decode (unquote_bytes (rev run)) ++ c :: unquote_runs [] s'
  end.

Definition unquote (s : ustr) : ustr := if has_char 37 s then unquote_runs [] s else s.

(** The decoding [parse_qsl] applies to a name or a value. *)
Definition unquote_plus (s : ustr) : ustr := unquote (replace_char 43 [32] s).

(** [parse_qsl(qs)] with [keep_blank_values=False], [strict_parsing=False]. *)
Definition parse_qsl (qs : ustr) : list (ustr * ustr) :=
  let query_args := if is_nil qs then [] else split_on 38 qs in
  flat_map (fun name_value =>
              if is_nil name_value then [] else
              match split_once 61 name_value with
              | None => []
              | Some (name, value) =>
                  if is_nil value then [] else [(unquote_plus name, unquote_plus value)]
              end) query_args.

(** [parse_qs(qs)]: a dict in insertion order, each name with its values. *)
Fixpoint qs_insert (k v : ustr) (d : list (ustr * list ustr)) : list (ustr * list ustr) :=
  match d with
  | [] => [(k, [v])]
  | (k', vs) :: d' => if ustr_eqb k k' then (k', vs ++ [v]) :: d'
                      else (k', vs) :: qs_insert k v d'
  end.

Definition parse_qs (qs : ustr) : list (ustr * list ustr) :=
  fold_left (fun d kv => qs_insert (fst kv) (snd kv) d) (parse_qsl qs) [].

(** [sorted(d.items())] on a dict (its keys are distinct): insertion sort by key. *)
Fixpoint insert_by_key {A} (x : ustr * A) (l : list (ustr * A)) : list (ustr * A) :=
  match l with
  | [] => [x]
  | y :: l' => if ltb (fst y) (fst x) then y :: insert_by_key x l' else x :: l
  end.

Definition sort_by_key {A} (l : list (ustr * A)) : list (ustr * A) :=
  fold_right insert_by_key [] l.

Definition tracking_params : list ustr :=
  map of_ascii ["utm_source";"utm_medium";"utm_campaign";"utm_term";"utm_content";
                "ref";"source";"fbclid";"gclid";"msclkid"]%string.

Definition is_tracking (k : ustr) : bool := mem_str (lower k) tracking_params.

(** [f"{k}={v[0]}"]. *)
Definition render_param (kv : ustr * list ustr) : ustr := fst kv ++ [61] ++ hd [] (snd kv).

(** The query [canonicalize_url] rebuilds from a parsed query. *)
Definition clean_query_of (query : ustr) : ustr :=
  let clean_params := filter (fun kv => negb (is_tracking (fst kv))) (parse_qs query) in
  if is_nil clean_params then []
  else join [38] (map render_param (sort_by_key clean_params)).

(** [canonicalize_url(url)]; a raised exception returns [url]. *)
Definition canonicalize_url (url : ustr) : ustr :=
  if is_nil url then [] else
  match urlparse url with
  | None => url
  | Some (scheme, netloc, path, params, query, _) =>
      urlunparse (lower scheme) (lower netloc) path params (clean_query_of query) []
  end.

End Url.

(* ------------------------------------------------------------------------- *)
(** ** [deduplicate_articles] ([selection/dedup.py]) *)

Module Dedup.

Import Url.

Open Scope nat_scope.

(** [normalize_title]: the punctuation literal of the source is two adjacent
    Python literals that concatenate: the characters [.,!?;:()[]{}], the double
    quote (twice), the em dash, the en dash and the hyphen; no apostrophe. *)
Definition title_punct : list N :=
  map (fun c => N.of_nat (Ascii.nat_of_ascii c)) (list_ascii_of_string ".,!?;:()[]{}")
  ++ [34%N; 34%N; 8212%N; 8211%N; 45%N].

Definition normalize_title (title : ustr) : ustr :=
  if is_nil title then [] else
  let t := lower title in
  let t := fold_left (fun t ch => replace_char ch [32%N] t) title_punct t in
  join [32%N] (split_ws t).

(** *** [difflib.SequenceMatcher(None, a, b)] *)

Section SequenceMatcher.

Variables a b : ustr.

Definition count_in (c : N) (s : ustr) : nat := length (filter (N.eqb c) s).

(** [bpopular]: with [autojunk], in a [b] of 200 or more elements, an element
    occurring more than [len(b) // 100 + 1] times. *)
Definition popular (c : N) : bool :=
  (200 <=? length b) && (length b / 100 + 1 <? count_in c b).

(** [b2j[c]]: the indices of [c] in [b], ascending; none for a popular [c]. *)
Definition b2j (c : N) : list nat :=
  if popular c then []
  else filter (fun j => N.eqb (nth j b 0%N) c) (seq 0 (length b)).

Definition j2len_get (j2len : list (nat * nat)) (j : nat) : nat :=
  match find (fun p => Nat.eqb (fst p) j) j2len with Some (_, k) => k | None => 0 end.

(** One row [i] of [find_longest_match]'s loop: the new [j2len] and the best
    block so far [(besti, bestj, bestsize)]. *)
Definition flm_row (blo bhi i : nat) (j2len : list (nat * nat)) (best : nat * nat * nat)
  : list (nat * nat) * (nat * nat * nat) :=
  fold_left
    (fun acc j =>
       let '(newj2len, (bi, bj, bk)) := acc in
       let k := (match j with 0 => 0 | S j' => j2len_get j2len j' end + 1)%nat in
       ((j, k) :: newj2len,
        if (bk <? k)%nat then ((i + 1 - k)%nat, (j + 1 - k)%nat, k) else (bi, bj, bk)))
    (filter (fun j => (blo <=? j)%nat && (j <? bhi)%nat) (b2j (nth i a 0%N)))
    ([], best).

Fixpoint flm_rows (blo bhi : nat) (rows : list nat) (j2len : list (nat * nat))
         (best : nat * nat * nat) : nat * nat * nat :=
  match rows with
  | [] => best
  | i :: rows' => let '(j2len', best') := flm_row blo bhi i j2len best in
                  flm_rows blo bhi rows' j2len' best'
  end.

(** The two extension loops ([isbjunk] is always false: [bjunk] is empty). *)
Fixpoint extend_back (fuel alo blo i j k : nat) : nat * nat * nat :=
  match fuel with
  | 0 => (i, j, k)
  | S f =>
      if (alo <? i)%nat && (blo <? j)%nat && N.eqb (nth (i - 1) a 0%N) (nth (j - 1) b 0%N)
      then extend_back f alo blo (i - 1) (j - 1) (k + 1) else (i, j, k)
  end.

Fixpoint extend_fwd (fuel ahi bhi i j k : nat) : nat :=
  match fuel with
  | 0 => k
  | S f =>
      if (i + k <? ahi)%nat && (j + k <? bhi)%nat && N.eqb (nth (i + k) a 0%N) (nth (j + k) b 0%N)
      then extend_fwd f ahi bhi i j (k + 1) else k
  end.

Definition find_longest_match (alo ahi blo bhi : nat) : nat * nat * nat :=
  let '(i, j, k) := flm_rows blo bhi (seq alo (ahi - alo)) [] (alo, blo, 0%nat) in
  let '(i, j, k) := extend_back i alo blo i j k in
  (i, j, extend_fwd (length a) ahi bhi i j k).

(** The total size of [get_matching_blocks()] (merging adjacent blocks keeps
    it).  Each recursive call has a strictly shorter [a]-range, so the fuel
    [len(a) + 1] is never exhausted. *)
Fixpoint matched (fuel alo ahi blo bhi : nat) : nat :=
  match fuel with
  | 0 => 0
  | S f =>
      let '(i, j, k) := find_longest_match alo ahi blo bhi in
      if (k =? 0)%nat then 0 else
      k + (if (alo <? i)%nat && (blo <? j)%nat then matched f alo i blo j else 0)
        + (if (i + k <? ahi)%nat && (j + k <? bhi)%nat then matched f (i + k) ahi (j + k) bhi else 0)
  end.

(** [ratio()]: [2*M/T], or [1] when both are empty (exact rationals stand for
    the floats). *)
Definition ratio : Q :=
  let m := matched (S (length a)) 0 (length a) 0 (length b) in
  let t := (length a + length b)%nat in
  if (t =? 0)%nat then 1%Q else (Z.of_nat (2 * m) # Pos.of_nat t)%Q.

End SequenceMatcher.

Definition title_similarity (title1 title2 : ustr) : Q :=
  if is_nil title1 || is_nil title2 then 0%Q else
  let norm1 := normalize_title title1 in
  let norm2 := normalize_title title2 in
  if ustr_eqb norm1 norm2 then 1%Q else ratio norm1 norm2.

(** [title_similarity_threshold = 0.85]. *)
Definition title_similarity_threshold : Q := (85 # 100)%Q.

(** An [Article] as [deduplicate_articles] sees it.  [aid] is the object's
    identity: [Article] defines no [__eq__], so [==] and the [in] tests compare
    identities.  [title] is the attribute, [eval_title] its fallback
    [evaluate['title']]; [tier] is [None] when unset. *)
Record article := {
  aid : nat;
  link : ustr;
  title : ustr;
  eval_title : ustr;
  origin_type : ustr;
  tier : option ustr;
  ainews_confidence : Q;
  score : Q
}.

Definition same (x y : article) : bool := Nat.eqb (aid x) (aid y).

Definition get_tier_priority (t : option ustr) : nat :=
  match t with
  | None => 0
  | Some s =>
      if ustr_eqb s (of_ascii "P0_CURATED") then 5
      else if ustr_eqb s (of_ascii "P0_RELEASES") then 4
      else if ustr_eqb s (of_ascii "P1_CONTEXT") then 3
      else if ustr_eqb s (of_ascii "P2_RAW") then 2
      else if ustr_eqb s (of_ascii "COMMUNITY") then 1
      else 0
  end.

Definition is_curated (x : article) : bool := ustr_eqb (origin_type x) (of_ascii "curated").

Definition choose_better_article (article1 article2 : article) : article :=
  let p1 := get_tier_priority (tier article1) in
  let p2 := get_tier_priority (tier article2) in
  if (p2 <? p1)%nat then article1 else if (p1 <? p2)%nat then article2 else
  if is_curated article1 && negb (is_curated article2) then article1
  else if is_curated article2 && negb (is_curated article1) then article2 else
  if Qlt_le_dec (ainews_confidence article2) (ainews_confidence article1) then article1
  else if Qlt_le_dec (ainews_confidence article1) (ainews_confidence article2) then article2 else
  if Qlt_le_dec (score article2) (score article1) then article1
  else if Qlt_le_dec (score article1) (score article2) then article2 else
  article1.

(** Python dicts with string keys, in insertion order. *)
Definition dict (V : Type) := list (ustr * V).

Definition dict_get {V} (d : dict V) (k : ustr) : option V :=
  match find (fun p => ustr_eqb (fst p) k) d with Some (_, v) => Some v | None => None end.

(** [d[k] = v]: an existing key keeps its place. *)
Fixpoint dict_set {V} (d : dict V) (k : ustr) (v : V) : dict V :=
  match d with
  | [] => [(k, v)]
  | (k', v') :: d' => if ustr_eqb k' k then (k', v) :: d' else (k', v') :: dict_set d' k v
  end.

(** [del d[k]]: [None] for the [KeyError] of a missing key. *)
Fixpoint dict_del {V} (d : dict V) (k : ustr) : option (dict V) :=
  match d with
  | [] => None
  | (k', v') :: d' => if ustr_eqb k' k then Some d'
                      else option_map (cons (k', v')) (dict_del d' k)
  end.

(** The loop that replaces [old] by [new] at its first position in the list. *)
Fixpoint replace_first (old new : article) (l : list article) : list article :=
  match l with
  | [] => []
  | x :: l' => if same x old then new :: l' else x :: replace_first old new l'
  end.

Record dstate := {
  seen_urls : dict article;
  seen_titles : dict article;
  unique_articles : list article
}.

Definition resolved_title (x : article) : ustr :=
  if is_nil (title x) then eval_title x else title x.

(** The first entry of [list(seen_titles.items())] whose article's title is
    similar enough to [t]. *)
Fixpoint find_similar (t : ustr) (entries : dict article) : option (ustr * article) :=
  match entries with
  | [] => None
  | (k, e) :: rest =>
      if Qle_bool title_similarity_threshold (title_similarity t (title e))
      then Some (k, e) else find_similar t rest
  end.

(** The registration at the end of the loop body. *)
Definition register (st : dstate) (canonical : ustr) (x : article) : dstate :=
  {| seen_urls := dict_set (seen_urls st) canonical x;
     seen_titles := seen_titles st;
     unique_articles := unique_articles st ++ [x] |}.

(** One iteration of the loop over [articles]; [None] for a raised [KeyError]. *)
Definition dedup_step (st : dstate) (x : article) : option dstate :=
  let url := link x in
  if is_nil url then Some st else
  let t := resolved_title x in
  let canonical := canonicalize_url url in
  match dict_get (seen_urls st) canonical with
  | Some existing =>
      let better := choose_better_article existing x in
      if same better x then
        Some {| seen_urls := dict_set (seen_urls st) canonical x;
                seen_titles := seen_titles st;
                unique_articles := replace_first existing x (unique_articles st) |}
      else Some st
  | None =>
      if is_curated x && negb (is_nil t) then
        let normalized := normalize_title t in
        match find_similar t (seen_titles st) with
        | Some (existing_title, existing) =>
            let better := choose_better_article existing x in
            if same better x then
              match dict_del (seen_titles st) existing_title with
              | None => None
              | Some titles' =>
                  let titles'' := dict_set titles' normalized x in
                  match dict_del (seen_urls st) (canonicalize_url (link existing)) with
                  | None => None
                  | Some urls' =>
                      Some {| seen_urls := dict_set urls' canonical x;
                              seen_titles := titles'';
                              unique_articles := replace_first existing x (unique_articles st) |}
                  end
              end
            else Some st
        | None =>
            Some (register {| seen_urls := seen_urls st;
                              seen_titles := dict_set (seen_titles st) normalized x;
                              unique_articles := unique_articles st |} canonical x)
        end
      else Some (register st canonical x)
  end.

Definition dstate0 : dstate := {| seen_urls := []; seen_titles := []; unique_articles := [] |}.

Fixpoint dedup_loop (st : dstate) (xs : list article) : option dstate :=
  match xs with
  | [] => Some st
  | x :: xs' => match dedup_step st x with
                | Some st' => dedup_loop st' xs'
                | None => None
                end
  end.

(** [deduplicate_articles(articles, config)]; [enabled] is the config's
    [deduplication.enabled] (default [True]). *)
Definition deduplicate_articles (enabled : bool) (articles : list article)
  : option (list article) :=
  if negb enabled then Some articles
  else option_map unique_articles (dedup_loop dstate0 articles).

End Dedup.

(* ------------------------------------------------------------------------- *)
(** ** [enforce_diversity_quotas] ([selection/diversity.py]) *)

Module Diversity.

Open Scope nat_scope.

Section Quotas.

(** An article is seen through its identity (the [in] tests compare objects),
    [evaluate.get("topic", "Other")] and [evaluate.get("score", 0)]. *)
Context {A : Type} (ident : A -> nat) (topic_of : A -> ustr) (score_of : A -> Q).

(** [x in l] on objects without [__eq__]. *)
Definition mem_art (x : A) (l : list A) : bool := existsb (fun y => Nat.eqb (ident y) (ident x)) l.

(** [articles_by_topic.get(topic, [])]: the topic's articles in input order. *)
Definition by_topic (articles : list A) (topic : ustr) : list A :=
  filter (fun x => ustr_eqb (topic_of x) topic) articles.

(** [sorted(l, key=score, reverse=True)]: a stable sort by descending score. *)
Fixpoint insert_desc (x : A) (l : list A) : list A :=
  match l with
  | [] => [x]
  | y :: l' => if Qlt_le_dec (score_of y) (score_of x) then x :: l else y :: insert_desc x l'
  end.

Definition sort_desc (l : list A) : list A := fold_left (fun acc x => insert_desc x acc) l [].

(** [topic_counts], a [defaultdict(int)]. *)
Definition count_get (tc : Dedup.dict Z) (t : ustr) : Z :=
  match Dedup.dict_get tc t with Some n => n | None => 0%Z end.

Definition count_incr (tc : Dedup.dict Z) (t : ustr) : Dedup.dict Z :=
  Dedup.dict_set tc t (count_get tc t + 1)%Z.

(** Phase 1 for one [(topic, min_count)] of [min_quotas]. *)
Definition phase1_topic (articles : list A) (acc : list A * Dedup.dict Z) (q : ustr * Z)
  : list A * Dedup.dict Z :=
  let '(topic, min_count) := q in
  let available_sorted := sort_desc (by_topic articles topic) in
  let to_select := Z.min min_count (Z.of_nat (length available_sorted)) in
  fold_left (fun acc x =>
               let '(selected, tc) := acc in
               if mem_art x selected then (selected, tc)
               else (selected ++ [x], count_incr tc topic))
            (firstn (Z.to_nat to_select) available_sorted) acc.

(** Phase 2 over the unselected articles, in input order. *)
Fixpoint phase2 (max_quotas : Dedup.dict Z) (remaining_slots : Z) (unselected : list A)
         (acc : list A * Dedup.dict Z) : list A * Dedup.dict Z :=
  match unselected with
  | [] => acc
  | x :: rest =>
      if (remaining_slots <=? 0)%Z then acc else
      let '(selected, tc) := acc in
      let topic := topic_of x in
      let at_max := match Dedup.dict_get max_quotas topic with
                    | Some m => (m <=? count_get tc topic)%Z
                    | None => false
                    end in
      if at_max then phase2 max_quotas remaining_slots rest acc
      else phase2 max_quotas (remaining_slots - 1)%Z rest (selected ++ [x], count_incr tc topic)
  end.

(** [enforce_diversity_quotas(articles, config, target_count)] with the
    config's [min] and [max] quota dicts. *)
Definition enforce_diversity_quotas (min_quotas max_quotas : Dedup.dict Z)
           (target_count : Z) (articles : list A) : list A :=
  let acc1 := fold_left (phase1_topic articles) min_quotas ([], []) in
  let remaining_slots := (target_count - Z.of_nat (length (fst acc1)))%Z in
  let unselected := filter (fun a => negb (mem_art a (fst acc1))) articles in
  fst (phase2 max_quotas remaining_slots unselected acc1).

End Quotas.

End Diversity.

(* ------------------------------------------------------------------------- *)
(** ** [FEED_METRICS] across a run ([mainflow.py]) *)

Module Metrics.

Open Scope nat_scope.

(** An entry of [rss.json]'s feed list. *)
Record rss_item := {
  item_title : option ustr;
  item_tier : option ustr;
  item_priority : option ustr
}.

Definition unknown : ustr := of_ascii "Unknown".

(** [item.get("title", "Unknown")]. *)
Definition registered_title (item : rss_item) : ustr :=
  match item_title item with Some t => t | None => unknown end.

(** [article.info] when it is a dict. *)
Record info := { info_title : option ustr; info_tier : option ustr }.

(** An [Article] as the metrics code sees it: identity, its config's [title]
    and [tier], its [info], and its evaluate score. *)
Record rss_article := {
  ra_id : nat;
  cfg_title : option ustr;
  cfg_tier : option ustr;
  ra_info : option info;
  ra_score : Q
}.

Definition get_or (d : ustr) (o : option ustr) : ustr := match o with Some x => x | None => d end.

Definition truthy (o : option ustr) : bool :=
  match o with Some (_ :: _) => true | _ => false end.

Definition _article_feed_title (a : rss_article) : ustr :=
  match cfg_title a with
  | Some t => if truthy (Some t) then t else
                match ra_info a with
                | Some i => match info_title i with Some t' => t' | None => unknown end
                | None => unknown
                end
  | None => match ra_info a with
            | Some i => match info_title i with Some t' => t' | None => unknown end
            | None => unknown
            end
  end.

Definition _article_tier (a : rss_article) : ustr :=
  match cfg_tier a with
  | Some t => if truthy (Some t) then t else
                match ra_info a with
                | Some i => if truthy (info_tier i) then get_or [] (info_tier i) else of_ascii "P2_RAW"
                | None => of_ascii "P2_RAW"
                end
  | None => match ra_info a with
            | Some i => if truthy (info_tier i) then get_or [] (info_tier i) else of_ascii "P2_RAW"
            | None => of_ascii "P2_RAW"
            end
  end.

Record feed_metrics := {
  fm_title : ustr;
  fm_tier : ustr;
  fm_priority : ustr;
  find_count : nat;
  candidate_count : nat;
  release_count : nat;
  release_scores : list Q;
  rank_list : list nat
}.

Definition metrics := Dedup.dict feed_metrics.

Definition mem_key {V} (k : ustr) (d : Dedup.dict V) : bool :=
  match Dedup.dict_get d k with Some _ => true | None => false end.

(** [FEED_METRICS[t] = f(FEED_METRICS[t])] when [t in FEED_METRICS]. *)
Definition update_if_present (m : metrics) (t : ustr) (f : feed_metrics -> feed_metrics) : metrics :=
  match Dedup.dict_get m t with
  | Some fm => Dedup.dict_set m t (f fm)
  | None => m
  end.

(** [initialize_all_feed_metrics] on an empty [FEED_METRICS]. *)
Definition initialize_all_feed_metrics (items : list rss_item) : metrics :=
  fold_left (fun m item =>
               let t := registered_title item in
               if mem_key t m then m
               else Dedup.dict_set m t
                      {| fm_title := t; fm_tier := get_or [] (item_tier item);
                         fm_priority := get_or [] (item_priority item);
                         find_count := 0; candidate_count := 0; release_count := 0;
                         release_scores := []; rank_list := [] |})
            items [].

Definition set_find (n : nat) (fm : feed_metrics) : feed_metrics :=
  {| fm_title := fm_title fm; fm_tier := fm_tier fm; fm_priority := fm_priority fm;
     find_count := n; candidate_count := candidate_count fm; release_count := release_count fm;
     release_scores := release_scores fm; rank_list := rank_list fm |}.

Definition incr_candidate (fm : feed_metrics) : feed_metrics :=
  {| fm_title := fm_title fm; fm_tier := fm_tier fm; fm_priority := fm_priority fm;
     find_count := find_count fm; candidate_count := S (candidate_count fm);
     release_count := release_count fm;
     release_scores := release_scores fm; rank_list := rank_list fm |}.

Definition add_release (score : Q) (idx : nat) (fm : feed_metrics) : feed_metrics :=
  {| fm_title := fm_title fm; fm_tier := fm_tier fm; fm_priority := fm_priority fm;
     find_count := find_count fm; candidate_count := candidate_count fm;
     release_count := S (release_count fm);
     release_scores := release_scores fm ++ [score]; rank_list := rank_list fm ++ [idx] |}.

(** [parse_daily_rss_article]: [feeds] pairs each item with the list
    [rss.parse_rss_config(item)] returns; [cache] is the decoded cache file, if
    any, and is returned untouched. *)
Definition parse_daily_rss_article (m : metrics) (feeds : list (rss_item * list rss_article))
           (cache : option (list rss_article)) : metrics * list rss_article :=
  match cache with
  | Some cached => (m, cached)
  | None =>
      fold_left (fun acc feed =>
                   let '(m, daily_rss) := acc in
                   let '(item, rss_list) := feed in
                   (update_if_present m (registered_title item) (set_find (length rss_list)),
                    daily_rss ++ rss_list))
                feeds (m, [])
  end.

Section Run.

(** [random.sample] on the module's global generator: its state and the
    sampling function are left abstract. *)
Context {rng : Type} (rsample : rng -> list rss_article -> nat -> list rss_article * rng).

Definition mem_art (x : rss_article) (l : list rss_article) : bool :=
  existsb (fun y => Nat.eqb (ra_id y) (ra_id x)) l.

Definition tier_allocation : list (ustr * nat) :=
  [(of_ascii "P0_CURATED", 30); (of_ascii "P0_RELEASES", 12); (of_ascii "P1_CONTEXT", 20);
   (of_ascii "P2_RAW", 20); (of_ascii "COMMUNITY", 18)].

Definition tier_group (rss_articles : list rss_article) (t : ustr) : list rss_article :=
  filter (fun a => ustr_eqb (_article_tier a) t) rss_articles.

(** The sampling part of [stratified_sample_with_priority]. *)
Definition stratified_draw (g : rng) (rss_articles : list rss_article) : list rss_article * rng :=
  let '(sampled, remaining_quota, g) :=
    fold_left (fun acc ta =>
                 let '(sampled, rq, g) := acc in
                 let '(t, target_count) := ta in
                 let tier_articles := tier_group rss_articles t in
                 if target_count <=? length tier_articles then
                   let '(sel, g') := rsample g tier_articles target_count in
                   (sampled ++ sel, rq, g')
                 else (sampled ++ tier_articles, rq + (target_count - length tier_articles), g))
              tier_allocation ([], 0, g) in
  if 0 <? remaining_quota then
    let all_remaining := filter (fun a => negb (mem_art a sampled)) rss_articles in
    if 0 <? length all_remaining then
      let '(extra, g') := rsample g all_remaining (Nat.min remaining_quota (length all_remaining)) in
      (sampled ++ extra, g')
    else (sampled, g)
  else (sampled, g).

Definition count_candidates (m : metrics) (sampled : list rss_article) : metrics :=
  fold_left (fun m a => update_if_present m (_article_feed_title a) incr_candidate) sampled m.

Definition stratified_sample_with_priority (m : metrics) (g : rng) (rss_articles : list rss_article)
  : metrics * list rss_article * rng :=
  let '(sampled, g') := stratified_draw g rss_articles in
  (count_candidates m sampled, sampled, g').

(** The release tracking at the end of [find_favorite_article], ranks from 1. *)
Fixpoint track_releases (m : metrics) (idx : nat) (selected : list rss_article) : metrics :=
  match selected with
  | [] => m
  | a :: rest =>
      track_releases (update_if_present m (_article_feed_title a) (add_release (ra_score a) idx))
                     (S idx) rest
  end.

(** A run of [execute] as far as the metrics go.  [select] stands for what
    [find_favorite_article] does between the sampling and the release
    tracking: the GPT evaluation, the drop rules, [deduplicate_articles], the
    sort and [enforce_diversity_quotas].  [feeds] are the entries of
    [rss.json] (both [initialize_all_feed_metrics] and
    [parse_daily_rss_article] load the same list) with what each one yields. *)
Definition run (select : list rss_article -> list rss_article) (g : rng)
           (feeds : list (rss_item * list rss_article))
           (cache : option (list rss_article)) : metrics * list rss_article :=
  let m0 := initialize_all_feed_metrics (map fst feeds) in
  let '(m1, origin_article_list) := parse_daily_rss_article m0 feeds cache in
  let '(m2, sampled, _) := stratified_sample_with_priority m1 g origin_article_list in
  let selected := select sampled in
  (track_releases m2 1 selected, selected).

End Run.

End Metrics.

(* ------------------------------------------------------------------------- *)
(** ** [random.Random(seed)] for a [str] seed (CPython 3.11): SHA-512
    seeding, MT19937, [getrandbits], [_randbelow] and [sample]. *)

Module PyRandom.

Open Scope Z_scope.

Definition mask64 : Z := Z.ones 64.
Definition mask32 : Z := Z.ones 32.

(** *** SHA-512 (FIPS 180-4) over bytes *)

Definition sha512_K : list Z :=
  [0x428a2f98d728ae22; 0x7137449123ef65cd; 0xb5c0fbcfec4d3b2f; 0xe9b5dba58189dbbc;
   0x3956c25bf348b538; 0x59f111f1b605d019; 0x923f82a4af194f9b; 0xab1c5ed5da6d8118;
   0xd807aa98a3030242; 0x12835b0145706fbe; 0x243185be4ee4b28c; 0x550c7dc3d5ffb4e2;
   0x72be5d74f27b896f; 0x80deb1fe3b1696b1; 0x9bdc06a725c71235; 0xc19bf174cf692694;
   0xe49b69c19ef14ad2; 0xefbe4786384f25e3; 0x0fc19dc68b8cd5b5; 0x240ca1cc77ac9c65;
   0x2de92c6f592b0275; 0x4a7484aa6ea6e483; 0x5cb0a9dcbd41fbd4; 0x76f988da831153b5;
   0x983e5152ee66dfab; 0xa831c66d2db43210; 0xb00327c898fb213f; 0xbf597fc7beef0ee4;
   0xc6e00bf33da88fc2; 0xd5a79147930aa725; 0x06ca6351e003826f; 0x142929670a0e6e70;
   0x27b70a8546d22ffc; 0x2e1b21385c26c926; 0x4d2c6dfc5ac42aed; 0x53380d139d95b3df;
   0x650a73548baf63de; 0x766a0abb3c77b2a8; 0x81c2c92e47edaee6; 0x92722c851482353b;
   0xa2bfe8a14cf10364; 0xa81a664bbc423001; 0xc24b8b70d0f89791; 0xc76c51a30654be30;
   0xd192e819d6ef5218; 0xd69906245565a910; 0xf40e35855771202a; 0x106aa07032bbd1b8;
   0x19a4c116b8d2d0c8; 0x1e376c085141ab53; 0x2748774cdf8eeb99; 0x34b0bcb5e19b48a8;
   0x391c0cb3c5c95a63; 0x4ed8aa4ae3418acb; 0x5b9cca4f7763e373; 0x682e6ff3d6b2b8a3;
   0x748f82ee5defb2fc; 0x78a5636f43172f60; 0x84c87814a1f0ab72; 0x8cc702081a6439ec;
   0x90befffa23631e28; 0xa4506cebde82bde9; 0xbef9a3f7b2c67915; 0xc67178f2e372532b;
   0xca273eceea26619c; 0xd186b8c721c0c207; 0xeada7dd6cde0eb1e; 0xf57d4f7fee6ed178;
   0x06f067aa72176fba; 0x0a637dc5a2c898a6; 0x113f9804bef90dae; 0x1b710b35131c471b;
   0x28db77f523047d84; 0x32caab7b40c72493; 0x3c9ebe0a15c9bebc; 0x431d67c49c100d4c;
   0x4cc5d4becb3e42b6; 0x597f299cfc657e2a; 0x5fcb6fab3ad6faec; 0x6c44198c4a475817].

Definition sha512_H0 : list Z :=
  [0x6a09e667f3bcc908; 0xbb67ae8584caa73b; 0x3c6ef372fe94f82b; 0xa54ff53a5f1d36f1;
   0x510e527fade682d1; 0x9b05688c2b3e6c1f; 0x1f83d9abfb41bd6b; 0x5be0cd19137e2179].

Definition rotr (x : Z) (n : Z) : Z :=
  Z.land (Z.lor (Z.shiftr x n) (Z.shiftl x (64 - n))) mask64.

Definition add64 (x y : Z) : Z := Z.land (x + y) mask64.
Definition not64 (x : Z) : Z := Z.lxor x mask64.

Definition big_Sigma0 (x : Z) : Z := Z.lxor (Z.lxor (rotr x 28) (rotr x 34)) (rotr x 39).
Definition big_Sigma1 (x : Z) : Z := Z.lxor (Z.lxor (rotr x 14) (rotr x 18)) (rotr x 41).
Definition small_sigma0 (x : Z) : Z := Z.lxor (Z.lxor (rotr x 1) (rotr x 8)) (Z.shiftr x 7).
Definition small_sigma1 (x : Z) : Z := Z.lxor (Z.lxor (rotr x 19) (rotr x 61)) (Z.shiftr x 6).

(** Big-endian bytes to a number, and a number to [n] big-endian bytes. *)
Definition be_value (bs : list Z) : Z := fold_left (fun acc b => acc * 256 + b) bs 0.

Fixpoint be_bytes (n : nat) (x : Z) : list Z :=
  match n with
  | O => []
  | S n' => be_bytes n' (Z.shiftr x 8) ++ [Z.land x 255]
  end.

(** The padded message: [0x80], zeros, and the length in bits on 16 bytes. *)
Definition sha512_pad (msg : list Z) : list Z :=
  let l := length msg in
  let zeros := ((239 - l mod 128) mod 128)%nat in
  msg ++ [128] ++ repeat 0 zeros ++ be_bytes 16 (8 * Z.of_nat l).

Fixpoint chunks {A} (fuel : nat) (n : nat) (l : list A) : list (list A) :=
  match fuel with
  | O => []
  | S f => match l with [] => [] | _ => firstn n l :: chunks f n (skipn n l) end
  end.

(** The message schedule [W[0..79]] of one 128-byte block. *)
Definition schedule (block : list Z) : list Z :=
  let w16 := map be_value (chunks 16 8 block) in
  fold_left (fun w t =>
               let wt := add64 (add64 (small_sigma1 (nth (t - 2) w 0)) (nth (t - 7) w 0))
                               (add64 (small_sigma0 (nth (t - 15) w 0)) (nth (t - 16) w 0)) in
               w ++ [wt])
            (seq 16 64) w16.

(** One round on the working variables [a..h]. *)
Definition sha512_round (v : list Z) (kw : Z * Z) : list Z :=
  match v with
  | [a; b; c; d; e; f; g; h] =>
      let '(k, w) := kw in
      let ch := Z.lxor (Z.land e f) (Z.land (not64 e) g) in
      let maj := Z.lxor (Z.lxor (Z.land a b) (Z.land a c)) (Z.land b c) in
      let t1 := add64 (add64 (add64 h (big_Sigma1 e)) (add64 ch k)) w in
      let t2 := add64 (big_Sigma0 a) maj in
      [add64 t1 t2; a; b; c; add64 d t1; e; f; g]
  | _ => v
  end.

Definition sha512_block (hs : list Z) (block : list Z) : list Z :=
  let v := fold_left sha512_round (combine sha512_K (schedule block)) hs in
  map (fun p => add64 (fst p) (snd p)) (combine hs v).

Definition sha512 (msg : list Z) : list Z :=
  let padded := sha512_pad msg in
  let hs := fold_left sha512_block (chunks (length padded) 128 padded) sha512_H0 in
  flat_map (be_bytes 8) hs.

(** [str.encode()]: UTF-8 (code points are taken to be Unicode scalar values). *)
Definition utf8_encode_char (c : Z) : list Z :=
  if c <? 128 then [c]
  else if c <? 2048 then [192 + Z.shiftr c 6; 128 + Z.land c 63]
  else if c <? 65536 then [224 + Z.shiftr c 12; 128 + Z.land (Z.shiftr c 6) 63; 128 + Z.land c 63]
  else [240 + Z.shiftr c 18; 128 + Z.land (Z.shiftr c 12) 63;
        128 + Z.land (Z.shiftr c 6) 63; 128 + Z.land c 63].

Definition utf8_encode (s : ustr) : list Z := flat_map (fun c => utf8_encode_char (Z.of_N c)) s.

(** *** MT19937 ([_randommodule.c]) *)

Definition N_mt : nat := 624.
Definition M_mt : nat := 397.

Record mt_state := { mt : list Z; mti : nat }.

Definition set_nth (l : list Z) (i : nat) (x : Z) : list Z := firstn i l ++ x :: skipn (S i) l.

Definition init_genrand (s : Z) : list Z :=
  rev (fold_left (fun acc i =>
                    match acc with
                    | prev :: _ =>
                        Z.land (1812433253 * Z.lxor prev (Z.shiftr prev 30) + Z.of_nat i) mask32 :: acc
                    | [] => acc
                    end)
                 (seq 1 (N_mt - 1)) [Z.land s mask32]).

(** The first loop of [init_by_array], [k] times from [(i, j)]. *)
Fixpoint init_loop1 (k : nat) (key : list Z) (st : list Z) (i j : nat) : list Z * nat :=
  match k with
  | O => (st, i)
  | S k' =>
      let prev := nth (i - 1) st 0 in
      let v := Z.land (Z.lxor (nth i st 0) (Z.lxor prev (Z.shiftr prev 30) * 1664525)
                       + nth j key 0 + Z.of_nat j) mask32 in
      let st := set_nth st i v in
      let i := S i in
      let j := S j in
      let '(st, i) := if (N_mt <=? i)%nat then (set_nth st 0 (nth (N_mt - 1) st 0), 1%nat)
                      else (st, i) in
      let j := if (length key <=? j)%nat then O else j in
      init_loop1 k' key st i j
  end.

Fixpoint init_loop2 (k : nat) (st : list Z) (i : nat) : list Z :=
  match k with
  | O => st
  | S k' =>
      let prev := nth (i - 1) st 0 in
      let v := Z.land (Z.lxor (nth i st 0) (Z.lxor prev (Z.shiftr prev 30) * 1566083941)
                       - Z.of_nat i) mask32 in
      let st := set_nth st i v in
      let i := S i in
      let '(st, i) := if (N_mt <=? i)%nat then (set_nth st 0 (nth (N_mt - 1) st 0), 1%nat)
                      else (st, i) in
      init_loop2 k' st i
  end.

Definition init_by_array (key : list Z) : mt_state :=
  let st := init_genrand 19650218 in
  let '(st, i) := init_loop1 (Nat.max N_mt (length key)) key st 1 0 in
  let st := init_loop2 (N_mt - 1) st i in
  {| mt := set_nth st 0 0x80000000; mti := N_mt |}.

Definition upper_mask : Z := 0x80000000.
Definition lower_mask : Z := 0x7fffffff.
Definition matrix_a : Z := 0x9908b0df.

Definition twist_one (st : list Z) (kk next far : nat) : list Z :=
  let y := Z.lor (Z.land (nth kk st 0) upper_mask) (Z.land (nth next st 0) lower_mask) in
  set_nth st kk (Z.lxor (Z.lxor (nth far st 0) (Z.shiftr y 1))
                        (if Z.odd y then matrix_a else 0)).

(** The regeneration of the 624 words, in place and in order. *)
Definition twist (st : list Z) : list Z :=
  let st := fold_left (fun st kk => twist_one st kk (S kk) (kk + M_mt)) (seq 0 (N_mt - M_mt)) st in
  let st := fold_left (fun st kk => twist_one st kk (S kk) (kk + M_mt - N_mt))
                      (seq (N_mt - M_mt) (M_mt - 1)) st in
  twist_one st (N_mt - 1) 0 (M_mt - 1).

Definition temper (y : Z) : Z :=
  let y := Z.lxor y (Z.shiftr y 11) in
  let y := Z.lxor y (Z.land (Z.shiftl y 7) 0x9d2c5680) in
  let y := Z.lxor y (Z.land (Z.shiftl y 15) 0xefc60000) in
  Z.lxor y (Z.shiftr y 18).

Definition genrand_uint32 (s : mt_state) : Z * mt_state :=
  let '(words, i) := if (N_mt <=? mti s)%nat then (twist (mt s), O) else (mt s, mti s) in
  (temper (nth i words 0), {| mt := words; mti := S i |}).

(** [getrandbits(k)] for [0 < k <= 32]. *)
Definition getrandbits (k : Z) (s : mt_state) : Z * mt_state :=
  let '(r, s) := genrand_uint32 s in (Z.shiftr r (32 - k), s).

(** [_randbelow_with_getrandbits(n)]; the rejection loop is given a bound
    of [fuel] draws (each draw is accepted with probability above 1/2). *)
Fixpoint randbelow_loop (fuel : nat) (n k : Z) (s : mt_state) : Z * mt_state :=
  match fuel with
  | O => (0, s)
  | S f => let '(r, s) := getrandbits k s in
           if r <? n then (r, s) else randbelow_loop f n k s
  end.

Definition randbelow_fuel : nat := 64.

Definition randbelow (n : Z) (s : mt_state) : Z * mt_state :=
  randbelow_loop randbelow_fuel n (Z.log2 n + 1) s.

(** [Random.seed(a)] for a [str]: [int.from_bytes(a + sha512(a).digest())],
    cut into 32-bit words, least significant first. *)
Definition seed_words (n : Z) : list Z :=
  let keyused := if n =? 0 then 1%nat else Z.to_nat ((Z.log2 n) / 32 + 1) in
  map (fun i => Z.land (Z.shiftr n (32 * Z.of_nat i)) mask32) (seq 0 keyused).

Definition random_of_str (seed : ustr) : mt_state :=
  let bs := utf8_encode seed in
  init_by_array (seed_words (be_value (bs ++ sha512 bs))).

(** [Random.sample(population, k)] for [0 <= k <= len(population)]. *)
Section Sample.

Context {X : Type}.

Definition setsize (k : nat) : nat :=
  if (k <=? 5)%nat then 21
  else (21 + 4 ^ (Nat.log2_up (3 * k) / 2 + (Nat.log2_up (3 * k) mod 2)))%nat.

Fixpoint sample_pool (pool : list X) (n i k : nat) (s : mt_state) (d : X)
  : list X * mt_state :=
  match k with
  | O => ([], s)
  | S k' =>
      let '(j, s) := randbelow (Z.of_nat (n - i)) s in
      let j := Z.to_nat j in
      let x := nth j pool d in
      let pool := firstn j pool ++ nth (n - i - 1) pool d :: skipn (S j) pool in
      let '(rest, s) := sample_pool pool n (S i) k' s d in
      (x :: rest, s)
  end.

Fixpoint draw_new (fuel : nat) (n : Z) (selected : list Z) (s : mt_state) : Z * mt_state :=
  match fuel with
  | O => (0, s)
  | S f => let '(j, s) := randbelow n s in
           if existsb (Z.eqb j) selected then draw_new f n selected s else (j, s)
  end.

Fixpoint sample_set (population : list X) (selected : list Z) (k : nat) (s : mt_state) (d : X)
  : list X * mt_state :=
  match k with
  | O => ([], s)
  | S k' =>
      let '(j, s) := draw_new (length population * randbelow_fuel) (Z.of_nat (length population)) selected s in
      let '(rest, s) := sample_set population (j :: selected) k' s d in
      (nth (Z.to_nat j) population d :: rest, s)
  end.

Definition sample (population : list X) (k : nat) (s : mt_state) : list X * mt_state :=
  match population with
  | [] => ([], s)
  | d :: _ =>
      let n := length population in
      if (n <=? setsize k)%nat then sample_pool population n 0 k s d
      else sample_set population [] k s d
  end.

End Sample.

End PyRandom.

(* ------------------------------------------------------------------------- *)
(** ** The daily markdown file ([article/blog.py]) *)

Module Blog.

Open Scope N_scope.

(** A final [Article] as the renderer reads it: [evaluate]'s title, summary
    and tags, its string-valued fields (the insight fields among them), and
    the article's own [cover_url], [date] (as [str]), [link] and config flag
    [exclude_threads_links]. *)
Record blog_article := {
  ev_title : ustr;
  ev_summary : ustr;
  ev_tags : list ustr;
  ev_fields : list (ustr * ustr);
  cover_url : ustr;
  date : ustr;
  link : ustr;
  exclude_threads_links : bool
}.

Definition ev_get (a : blog_article) (k : ustr) : option ustr := Dedup.dict_get (ev_fields a) k.

Definition INSIGHT_FIELDS : list ustr :=
  map of_ascii ["why_it_matters"; "key_evidence"; "who_should_care"; "next_action"; "comparison"]%string.

(** [INSIGHT_TEMPLATES]: the text before and after [{value}]. *)
Definition insight_template (key : ustr) : ustr * ustr :=
  if ustr_eqb key (of_ascii "why_it_matters") then
    ([0xc774; 0x20; 0xc18c; 0xc2dd; 0xc774; 0x20; 0xc911; 0xc694; 0xd55c; 0x20;
      0xc774; 0xc720; 0xb294; 0x20], [])
  else if ustr_eqb key (of_ascii "key_evidence") then
    ([0xad6c; 0xccb4; 0xc801; 0x20; 0xadfc; 0xac70; 0xb85c; 0x20], [])
  else if ustr_eqb key (of_ascii "who_should_care") then
    ([0xd2b9; 0xd788; 0x20],
     [0xc5d0; 0xac8c; 0x20; 0xc9c1; 0xc811; 0xc801; 0xc778; 0x20; 0xb3c4; 0xc6c0;
      0xc774; 0x20; 0xb429; 0xb2c8; 0xb2e4])
  else if ustr_eqb key (of_ascii "next_action") then
    ([0xc774; 0xd6c4; 0xc5d0; 0xb294; 0x20], [])
  else if ustr_eqb key (of_ascii "comparison") then
    ([0xacbd; 0xc7c1; 0x20; 0xb300; 0xbe44; 0x20; 0xcc28; 0xbcc4; 0xc810; 0xc740; 0x20], [])
  else ([], []).

Definition nl : ustr := [10].
Definition da : N := 0xb2e4.

Definition endswith (s p : ustr) : bool := startswith (rev s) (rev p).

(** One insight sentence. *)
Definition insight_sentence (kv : ustr * ustr) : ustr :=
  let '(key, value) := kv in
  let '(before, after) := insight_template key in
  let sentence := strip (before ++ value ++ after) in
  if negb (endswith sentence [da; 46]) && negb (endswith sentence [da])
  then rstrip_by (N.eqb 46) sentence ++ [46] else sentence.

Definition build_insight_lines (a : blog_article) : ustr :=
  let available := flat_map (fun key => match ev_get a key with
                                        | Some ((_ :: _) as v) => [(key, v)]
                                        | _ => []
                                        end) INSIGHT_FIELDS in
  match available with
  | [] => []
  | _ =>
      let sample_count := Nat.min 3 (length available) in
      let seed_value := ev_title a ++ of_ascii "-" ++ date a in
      let selected := fst (PyRandom.sample available sample_count (PyRandom.random_of_str seed_value)) in
      nl ++ join nl (map insight_sentence selected) ++ nl
  end.

Definition article_intro (a : blog_article) : ustr :=
  let cover := if Url.is_nil (cover_url a) then [] else of_ascii "![](" ++ cover_url a ++ of_ascii ")" in
  let title_line := of_ascii "### " ++ ev_title a in
  let source_line : ustr := [] in
  nl ++ title_line ++ nl ++ source_line ++ nl
  ++ [0xbc1c; 0xd589; 0xc2dc; 0xac04; 0x3a; 0x20] ++ date a ++ nl
  ++ cover ++ nl ++ ev_summary a ++ nl ++ build_insight_lines a ++ nl.

(** [make_articles_content]; the [display_link] it computes is not used. *)
Definition make_articles_content (articles : list blog_article) : ustr :=
  flat_map article_intro articles.

Definition make_daily_guide (titles : list ustr) : ustr :=
  nl ++ flat_map (fun t => of_ascii "> - " ++ t ++ nl) titles ++ nl.

(** The Asia/Seoul wall clock of [datetime.today()] at rendering time. *)
Record clock := { year : nat; month : nat; day : nat; hour : nat; minute : nat; second : nat }.

Fixpoint digits_aux (fuel n : nat) (acc : ustr) : ustr :=
  match fuel with
  | O => acc
  | S f => let acc := (48 + N.of_nat (n mod 10)) :: acc in
           if (n <? 10)%nat then acc else digits_aux f (n / 10) acc
  end.

Definition dec (n : nat) : ustr := digits_aux (S n) n [].
Definition pad2 (n : nat) : ustr := if (n <? 10)%nat then 48 :: dec n else dec n.

Definition strftime_date (c : clock) : ustr :=
  dec (year c) ++ [45] ++ pad2 (month c) ++ [45] ++ pad2 (day c).
Definition strftime_datetime (c : clock) : ustr :=
  strftime_date c ++ [32] ++ pad2 (hour c) ++ [58] ++ pad2 (minute c) ++ [58] ++ pad2 (second c).

Definition rectify_tag_value (value : ustr) : ustr :=
  of_ascii "- " ++ [34] ++ replace_char 47 [95] value ++ [34] ++ nl.

(** [make_meta_data(description, tags)]: [set_order] is the iteration order
    of [set(tags)] in the running interpreter; [project_root] is the
    checkout's directory. *)
Definition make_meta_data (now : clock) (set_order : list ustr -> list ustr) (project_root : ustr)
           (description : ustr) (tags : list ustr) : ustr * ustr :=
  let today_str := strftime_date now in
  let blog_folder := project_root ++ of_ascii "/../src/content/blog" in
  let md_title := of_ascii "Daily News #" ++ today_str in
  let tags_field :=
    match tags with
    | [] => of_ascii "tags: []"
    | _ => of_ascii "tags: " ++ nl ++ flat_map rectify_tag_value (set_order tags)
    end in
  let data :=
    of_ascii "---" ++ nl
    ++ of_ascii "title: " ++ [34] ++ md_title ++ [34] ++ nl
    ++ of_ascii "date: " ++ [34] ++ strftime_datetime now ++ [34] ++ nl
    ++ of_ascii "description: " ++ [34] ++ description ++ [34] ++ nl
    ++ tags_field ++ nl
    ++ of_ascii "---" ++ nl in
  let path := blog_folder ++ of_ascii "/dailyNews_" ++ today_str ++ of_ascii ".md" in
  (path, data).

(** [make_daily_markdown_with(articles, rss_list)]: the path and the text
    written there, or [None] when the content is empty. *)
Definition make_daily_markdown_with (now : clock) (set_order : list ustr -> list ustr)
           (project_root : ustr) (articles : list blog_article) : option (ustr * ustr) :=
  let tags := flat_map ev_tags articles in
  let article_titles := map ev_title articles in
  let articles_content := make_articles_content articles in
  let '(md_path, meta_data) := make_meta_data now set_order project_root (join nl article_titles) tags in
  let daily_guide := make_daily_guide article_titles in
  if Url.is_nil articles_content then None
  else Some (md_path, meta_data ++ daily_guide ++ articles_content).

End Blog.

(* ------------------------------------------------------------------------- *)
(** ** [remove_emojis] and [clean_article_content] ([gpt/text_cleaner.py]) *)

Module TextCleaner.

Open Scope N_scope.

Definition in_range (lo hi c : N) : bool := (lo <=? c) && (c <=? hi).

(** The character class of [emoji_pattern]. *)
Definition is_emoji (c : N) : bool :=
  in_range 0x1F600 0x1F64F c || in_range 0x1F300 0x1F5FF c || in_range 0x1F680 0x1F6FF c
  || in_range 0x1F700 0x1F77F c || in_range 0x1F780 0x1F7FF c || in_range 0x1F800 0x1F8FF c
  || in_range 0x1F900 0x1F9FF c || in_range 0x1FA00 0x1FA6F c || in_range 0x1FA70 0x1FAFF c
  || in_range 0x2600 0x26FF c || in_range 0x2700 0x27BF c || in_range 0xFE00 0xFE0F c
  || in_range 0x1F1E0 0x1F1FF c || in_range 0x2300 0x23FF c || in_range 0x2B50 0x2BFF c
  || (c =? 0x200D) || (c =? 0x1F004) || (c =? 0x1F0CF) || (c =? 0x1F18E)
  || in_range 0x1F191 0x1F19A c || in_range 0x1F201 0x1F251 c
  || (c =? 0x203C) || (c =? 0x2049) || in_range 0x25AA 0x25FE c || in_range 0x1F004 0x1F0CF c.

(** [re.sub(r' +', ' ', s)]. *)
Fixpoint squeeze_spaces (prev_space : bool) (s : ustr) : ustr :=
  match s with
  | [] => []
  | c :: s' =>
      if c =? 32 then (if prev_space then squeeze_spaces true s' else c :: squeeze_spaces true s')
      else c :: squeeze_spaces false s'
  end.

(** [^(#{1,6})\s+] tried at a line start: the hashes, what follows the
    whitespace run, and the run's last character. *)
Definition header_match (s : ustr) : option (ustr * ustr * N) :=
  let (hashes, r) := Url.span_until (fun c => negb (c =? 35)) s in
  if (1 <=? length hashes)%nat && (length hashes <=? 6)%nat then
    let (ws, rest) := Url.span_until (fun c => negb (is_space c)) r in
    match rev ws with
    | lastc :: _ => Some (hashes, rest, lastc)
    | [] => None
    end
  else None.

(** [re.sub(r'^(#{1,6})\s+', r'\1 ', s, flags=re.MULTILINE)]: [bol] says
    the position is a line start of the original text. *)
Fixpoint fix_headers (fuel : nat) (bol : bool) (s : ustr) : ustr :=
  match fuel with
  | O => s
  | S f =>
      match s with
      | [] => []
      | c :: s' =>
          match (if bol then header_match s else None) with
          | Some (hashes, rest, lastc) => hashes ++ [32] ++ fix_headers f (lastc =? 10) rest
          | None => c :: fix_headers f (c =? 10) s'
          end
      end
  end.

Definition remove_emojis (text : ustr) : ustr :=
  if Url.is_nil text then text else
  let cleaned_text := filter (fun c => negb (is_emoji c)) text in
  let cleaned_text := squeeze_spaces false cleaned_text in
  let cleaned_text := fix_headers (length cleaned_text) true cleaned_text in
  strip cleaned_text.

(** Python values of an evaluation dict: scalars inline, lists and dicts by
    reference into the heap. *)
Inductive pyval :=
| PNone
| PBool (b : bool)
| PInt (z : Z)
| PFloat (q : Q)
| PStr (s : ustr)
| PRef (l : nat).

Inductive pyobj :=
| OList (items : list pyval)
| ODict (entries : Dedup.dict pyval).

Definition heap := list (nat * pyobj).

Definition heap_get (h : heap) (l : nat) : option pyobj :=
  match find (fun p => Nat.eqb (fst p) l) h with Some (_, o) => Some o | None => None end.

Definition heap_set (h : heap) (l : nat) (o : pyobj) : heap :=
  map (fun p => if Nat.eqb (fst p) l then (l, o) else p) h.

Definition fresh (h : heap) : nat := S (fold_right Nat.max 0%nat (map fst h)).

Definition obj_truthy (o : pyobj) : bool :=
  match o with OList xs => negb (Url.is_nil xs) | ODict d => negb (Url.is_nil d) end.

Definition truthy (h : heap) (v : pyval) : bool :=
  match v with
  | PNone => false
  | PBool b => b
  | PInt z => negb (z =? 0)%Z
  | PFloat q => negb (Qeq_bool q 0)
  | PStr s => negb (Url.is_nil s)
  | PRef l => match heap_get h l with Some o => obj_truthy o | None => false end
  end.

(** [if key in cleaned and cleaned[key]: cleaned[key] = remove_emojis(cleaned[key])]
    on the dict at [l]; [None] for the [TypeError] [re.sub] raises on a
    truthy value that is not a [str]. *)
Definition clean_field (h : heap) (l : nat) (key : ustr) : option heap :=
  match heap_get h l with
  | Some (ODict d) =>
      match Dedup.dict_get d key with
      | Some v =>
          if truthy h v then
            match v with
            | PStr s => Some (heap_set h l (ODict (Dedup.dict_set d key (PStr (remove_emojis s)))))
            | _ => None
            end
          else Some h
      | None => Some h
      end
  | _ => Some h
  end.

(** [clean_article_content(evaluate_dict)] for the dict at [l]: the heap
    afterwards, and the location of the returned dict ([None] when a
    [TypeError] is raised). *)
Definition clean_article_content (h : heap) (l : nat) : heap * option nat :=
  match heap_get h l with
  | Some (ODict []) => (h, Some l)
  | Some (ODict d) =>
      let l' := fresh h in
      let h1 := h ++ [(l', ODict d)] in
      match clean_field h1 l' (of_ascii "title") with
      | None => (h1, None)
      | Some h2 =>
          match clean_field h2 l' (of_ascii "summary") with
          | None => (h2, None)
          | Some h3 => (h3, Some l')
          end
      end
  | _ => (h, None)
  end.

End TextCleaner.

(* ------------------------------------------------------------------------- *)
(** ** Concrete inputs used by the examples below *)

Module ScorerExamples.

Import Scorer.
Open Scope R_scope.

(** An evaluation titled "A" with summary "B", top marks, published now. *)
Definition ev_AB : evaluation :=
  {| ev_impact := Some 5; ev_novelty := Some 5; ev_proof := Some 5;
     ev_title := of_ascii "A"; ev_summary := of_ascii "B" |}.

Definition date_at_0 : datetime := {| dt_wall := 0; dt_utcoffset := None |}.

(** Published 2000 half-lives of 36 hours (about 8.2 years) after [now = 0]. *)
Definition date_far : datetime := {| dt_wall := 259200000; dt_utcoffset := None |}.

(** One rule with the keyword "ab", subtracting 1. *)
Definition cfg_ab : scoring_config :=
  {| sc_half_life_hours := Some 36;
     sc_penalties := Some [{| if_title_or_content_contains_any := [of_ascii "ab"];
                              subtract := 1 |}] |}.

End ScorerExamples.

Module DiversityExamples.

Import Diversity.

(** A candidate seen through its identity, [evaluate["topic"]] and [evaluate["score"]]. *)
Record dv := { dv_id : nat; dv_topic : ustr; dv_score : Q }.

Definition topic_A : ustr := of_ascii "A".

(** Two distinct candidates of topic "A". *)
Definition pool_AA : list dv :=
  [ {| dv_id := 1; dv_topic := topic_A; dv_score := 2 |};
    {| dv_id := 2; dv_topic := topic_A; dv_score := 1 |} ].

(** [min = {"A": 2}] and [max = {"A": 1}]. *)
Definition min_A2 : Dedup.dict Z := [(topic_A, 2%Z)].
Definition max_A1 : Dedup.dict Z := [(topic_A, 1%Z)].

End DiversityExamples.

Module DedupExamples.

Import Dedup.

Definition url_U : ustr := of_ascii "http://a.com/p".
Definition url_V : ustr := of_ascii "http://b.com/q".

Definition mk (i : nat) (l t o : string) (tr : string) (s : Q) : article :=
  {| aid := i; link := of_ascii l; title := of_ascii t; eval_title := [];
     origin_type := of_ascii o; tier := Some (of_ascii tr);
     ainews_confidence := 0; score := s |}.

(** Three articles: [a4] and [b4] share a URL, [b4] and [c4] are curated
    with the same title. *)
Definition a4 := mk 1 "http://a.com/p" "p" "raw" "P0_CURATED" 0.
Definition b4 := mk 2 "http://a.com/p" "x" "curated" "P2_RAW" 0.
Definition c4 := mk 3 "http://b.com/q" "x" "curated" "COMMUNITY" 0.

(** The same URL from a [P2_RAW] source with score 3 and from a
    [P0_CURATED] source with score 1. *)
Definition raw3 := mk 1 "http://a.com/p" "t" "raw" "P2_RAW" 3.
Definition curated1 := mk 2 "http://a.com/p" "t" "curated" "P0_CURATED" 1.

(** Two curated articles on one URL, the second of a higher tier. *)
Definition a7 := mk 1 "http://a.com/p" "x" "curated" "COMMUNITY" 0.
Definition b7 := mk 2 "http://a.com/p" "y" "curated" "P0_CURATED" 0.

(** Four articles, three of them on one URL. *)
Definition a9 := mk 1 "http://a.com/p" "x" "curated" "COMMUNITY" 0.
Definition b9 := mk 2 "http://a.com/p" "b" "raw" "P0_RELEASES" 0.
Definition c9 := mk 3 "http://b.com/q" "x" "curated" "P1_CONTEXT" 0.
Definition d9 := mk 4 "http://a.com/p" "d" "raw" "COMMUNITY" 0.

(** Two articles apart from [raw3], [curated1] and each other. *)
Definition lone1 := mk 3 "http://b.com/q" "other news" "curated" "P1_CONTEXT" 2.
Definition lone2 := mk 4 "http://c.com/r" "weather" "raw" "COMMUNITY" 0.

End DedupExamples.

Module MetricsExamples.

Import Metrics.

Definition title_F : ustr := of_ascii "F".
Definition title_G : ustr := of_ascii "G".

Definition item_F : rss_item :=
  {| item_title := Some title_F; item_tier := Some (of_ascii "P0_CURATED"); item_priority := None |}.

(** An article of the feed titled [t]. *)
Definition art (i : nat) (t : ustr) : rss_article :=
  {| ra_id := i; cfg_title := Some t; cfg_tier := Some (of_ascii "P0_CURATED");
     ra_info := None; ra_score := 0%Q |}.

(** A sampler that takes the first [k] elements. *)
Definition first_sample (g : unit) (l : list rss_article) (k : nat) : list rss_article * unit :=
  (firstn k l, g).

(** The counters of a feed's metrics. *)
Definition counters (fm : feed_metrics) : nat * nat * nat :=
  (find_count fm, candidate_count fm, release_count fm).

Definition release_total (m : metrics) : nat :=
  fold_right (fun kv s => release_count (snd kv) + s) 0 m.

(** The number of articles of [l] whose feed title is [t]. *)
Definition feed_count (t : ustr) (l : list rss_article) : nat :=
  length (filter (fun a => ustr_eqb (_article_feed_title a) t) l).

End MetricsExamples.

Module BlogExamples.

Import Blog.

(** Two renderings of the same article that differ in its link and in an
    evaluate field that is not an insight field. *)
Definition post (lnk topic : string) : blog_article :=
  {| ev_title := of_ascii "T"; ev_summary := of_ascii "S"; ev_tags := [of_ascii "ai"; of_ascii "ml"];
     ev_fields := [(of_ascii "topic", of_ascii topic); (of_ascii "why_it_matters", of_ascii "it helps");
                   (of_ascii "next_action", of_ascii "try it")];
     cover_url := []; date := of_ascii "2024-05-01"; link := of_ascii lnk;
     exclude_threads_links := false |}.

Definition noon_may1 : clock := {| year := 2024; month := 5; day := 1; hour := 12; minute := 0; second := 0 |}.
Definition noon_may2 : clock := {| year := 2024; month := 5; day := 2; hour := 12; minute := 0; second := 0 |}.

Definition root : ustr := of_ascii "/srv".

End BlogExamples.

(* ------------------------------------------------------------------------- *)
(** ** [should_drop_article] and [_fails_content_quality] ([selection/scorer.py]) *)

Module Drop.

Open Scope R_scope.

(** What the drop rules read of an LLM evaluation: its string-valued fields
    ([topic], [summary] and the insight fields; a missing or [None] value is
    absent) and the numbers [impact] and [proof] ([None] when missing). *)
Record tagged_evaluation := {
  te_strs : Dedup.dict ustr;
  te_impact : option R;
  te_proof : option R
}.

(** [configuration.selection.llm_tagging.drop_if]: a missing key is [None];
    [content_quality] is its dict of numbers, empty when missing. *)
Record drop_config := {
  topic_in : option (list ustr);
  impact_lte : option R;
  proof_lte : option R;
  content_quality : Dedup.dict R
}.

(** [evaluate.get(k, "")], and [evaluate.get(k) or ""]. *)
Definition str_get (evaluate : tagged_evaluation) (k : ustr) : ustr :=
  match Dedup.dict_get (te_strs evaluate) k with Some s => s | None => [] end.

(** [quality_cfg.get(k, default)]. *)
Definition num_or (d : Dedup.dict R) (k : ustr) (default : R) : R :=
  match Dedup.dict_get d k with Some x => x | None => default end.

(** The two reasons [_fails_content_quality] reports (non-empty strings). *)
Inductive drop_reason :=
| SummaryTooShort (n : nat) (min_chars : R)
| InsufficientInsights (filled : nat) (min_filled : R).

Definition insight_fields : list ustr :=
  map of_ascii ["why_it_matters"; "key_evidence"; "who_should_care"; "next_action"; "comparison"]%string.

(** [_fails_content_quality]; lengths count code points. *)
Definition _fails_content_quality (evaluate : tagged_evaluation) (config : drop_config)
  : option drop_reason :=
  let quality_cfg := content_quality config in
  if Url.is_nil quality_cfg then None else
  let summary := str_get evaluate (of_ascii "summary") in
  let min_chars := num_or quality_cfg (of_ascii "summary_min_chars") 200 in
  if Rlt_dec (INR (length summary)) min_chars
  then Some (SummaryTooShort (length summary) min_chars) else
  let min_filled := num_or quality_cfg (of_ascii "insight_min_filled") 2 in
  let min_each := num_or quality_cfg (of_ascii "insight_min_chars_each") 15 in
  let filled := length (filter (fun f => if Rle_dec min_each (INR (length (strip (str_get evaluate f))))
                                         then true else false) insight_fields) in
  if Rlt_dec (INR filled) min_filled then Some (InsufficientInsights filled min_filled) else None.

(** [should_drop_article]. *)
Definition should_drop_article (evaluate : tagged_evaluation) (config : drop_config) : bool :=
  let topic_blacklist := match topic_in config with Some l => l | None => [] end in
  if Url.mem_str (str_get evaluate (of_ascii "topic")) topic_blacklist then true else
  let impact_threshold := match impact_lte config with Some x => x | None => 0 end in
  if Rle_dec (Scorer.get_num (te_impact evaluate)) impact_threshold then true else
  let proof_threshold := match proof_lte config with Some x => x | None => 0 end in
  if Rle_dec (Scorer.get_num (te_proof evaluate)) proof_threshold then true else
  match _fails_content_quality evaluate config with Some _ => true | None => false end.

End Drop.

(* ------------------------------------------------------------------------- *)
(** ** The feed list of [save_metrics] ([mainflow.py]) *)

Module SaveMetrics.

Import Metrics.

Open Scope nat_scope.

(** The body of [initialize_all_feed_metrics]'s loop, and the record it
    registers for a feed. *)
Definition init_step (m : metrics) (item : rss_item) : metrics :=
  let t := registered_title item in
  if mem_key t m then m
  else Dedup.dict_set m t
         {| fm_title := t; fm_tier := get_or [] (item_tier item);
            fm_priority := get_or [] (item_priority item);
            find_count := 0; candidate_count := 0; release_count := 0;
            release_scores := []; rank_list := [] |}.

Definition fresh_metrics (item : rss_item) : feed_metrics :=
  {| fm_title := registered_title item; fm_tier := get_or [] (item_tier item);
     fm_priority := get_or [] (item_priority item);
     find_count := 0; candidate_count := 0; release_count := 0;
     release_scores := []; rank_list := [] |}.

(** One entry of the [feeds] list written to [metrics.json]. *)
Record metrics_row := {
  row_title : ustr;
  row_tier : ustr;
  row_priority : ustr;
  row_find_count : nat;
  row_candidate_count : nat;
  row_release_count : nat;
  row_release_score : Q;
  row_rank_list : list nat
}.

Section Save.

(** [round(avg_score, 2)] on floats: the rounding is left abstract. *)
Context (round2 : Q -> Q).

(** The average release score, [0.0] without releases (exact rationals
    stand for the floats). *)
Definition avg_score (scores : list Q) : Q :=
  match scores with
  | [] => 0%Q
  | _ => (fold_left Qplus scores 0 / inject_Z (Z.of_nat (length scores)))%Q
  end.

Definition row_of (fm : feed_metrics) : metrics_row :=
  {| row_title := fm_title fm; row_tier := fm_tier fm; row_priority := fm_priority fm;
     row_find_count := find_count fm; row_candidate_count := candidate_count fm;
     row_release_count := release_count fm; row_release_score := round2 (avg_score (release_scores fm));
     row_rank_list := rank_list fm |}.

(** [tier_order.get(tier, 999)]. *)
Definition tier_order (t : ustr) : nat :=
  if ustr_eqb t (of_ascii "P0_CURATED") then 0
  else if ustr_eqb t (of_ascii "P0_RELEASES") then 1
  else if ustr_eqb t (of_ascii "P1_CONTEXT") then 2
  else if ustr_eqb t (of_ascii "P2_RAW") then 3
  else if ustr_eqb t (of_ascii "COMMUNITY") then 4
  else 999.

(** The sort key [(tier_order.get(tier, 999), -release_count)] compared as
    Python compares tuples. *)
Definition row_key_lt (x y : metrics_row) : bool :=
  (tier_order (row_tier x) <? tier_order (row_tier y))
  || ((tier_order (row_tier x) =? tier_order (row_tier y))
      && (row_release_count y <? row_release_count x)).

(** [list.sort] is stable: an insertion sort that puts each row after the
    rows before it whose key is not greater. *)
Fixpoint insert_row (x : metrics_row) (l : list metrics_row) : list metrics_row :=
  match l with
  | [] => [x]
  | y :: l' => if row_key_lt x y then x :: l else y :: insert_row x l'
  end.

Definition sort_rows (l : list metrics_row) : list metrics_row :=
  fold_left (fun acc x => insert_row x acc) l [].

(** The [feeds] list of [save_metrics] for [FEED_METRICS = m]. *)
Definition save_metrics_feeds (m : metrics) : list metrics_row :=
  sort_rows (map (fun kv => row_of (snd kv)) m).

End Save.

End SaveMetrics.

(* ========================================================================= *)
(** * Properties *)

(* ------------------------------------------------------------------------- *)
(** ** Scoring *)

Module ScorerFacts.

Import Scorer.
Open Scope R_scope.

Lemma fold_penalties (text : ustr) (penalties : list penalty_rule) (base : R) :
  fold_left (fun adj rule => if rule_fires (lower text) rule then adj - subtract rule else adj)
            penalties base
  = base - penalty_total text penalties.
Proof.
  revert base; induction penalties as [|r rs IH]; intro base; simpl.
  - unfold penalty_total; simpl; ring.
  - rewrite IH; unfold penalty_total; simpl.
    destruct (rule_fires (lower text) r); ring.
Qed.

Lemma recency_clamp (hours_old hl : R) :
  Rmax 0 (Rmin 5 (let recency := 5 * Rpower 0.5 (hours_old / hl) in
                  if Rlt_dec 24 hours_old then recency - 0.5 else recency))
  = spec_recency hours_old hl.
Proof.
  unfold spec_recency; simpl.
  destruct (Rlt_dec 24 hours_old); f_equal; f_equal; ring.
Qed.

Lemma float_overflow_gt1 : 1 < float_overflow.
Proof.
  unfold float_overflow.
  replace 1024%nat with (970 + 54)%nat by reflexivity.
  rewrite pow_add.
  assert (H1 : 1 <= 2 ^ 970) by (apply pow_R1_Rle; lra).
  assert (H2 : 4 <= 2 ^ 54) by (replace 4 with (2 ^ 2) by ring; apply Rle_pow; [lra|lia]).
  set (a := 2 ^ 970) in *; set (b := 2 ^ 54) in *; clearbody a b.
  nra.
Qed.

Lemma math_pow_half_ok (y : R) :
  Rpower 0.5 y < float_overflow -> math_pow_half y = Some (Rpower 0.5 y).
Proof.
  intro H; unfold math_pow_half; destruct (Rle_dec float_overflow (Rpower 0.5 y)); [lra|reflexivity].
Qed.

Lemma math_pow_half_overflow (y : R) :
  float_overflow <= Rpower 0.5 y -> math_pow_half y = None.
Proof.
  intro H; unfold math_pow_half; destruct (Rle_dec float_overflow (Rpower 0.5 y)); [reflexivity|lra].
Qed.

(** [0.5 ** (-n) = 2 ** n]. *)
Lemma rpower_half_neg_nat (n : nat) : Rpower 0.5 (- INR n) = 2 ^ n.
Proof.
  replace 0.5 with (/ 2) by lra.
  unfold Rpower at 1; rewrite ln_Rinv by lra.
  replace (- INR n * - ln 2) with (INR n * ln 2) by ring.
  change (Rpower 2 (INR n) = 2 ^ n); apply Rpower_pow; lra.
Qed.

(** C1 (amended): with a nonzero half-life, and when [math.pow(0.5,
    hours_old / half_life_hours)] does not overflow, [calculate_score] is
    [max(0, 0.35*impact + 0.25*novelty + 0.25*proof + 0.15*recency - P)], where
    recency is the clamped decay with the 24-hour step and [P] sums, once per
    rule, the [subtract] of every rule with a keyword occurring in the
    lower-cased text [title + " " + summary] (the title and summary joined by
    a space). *)
Theorem calculate_score_spec (now : R) (evaluate : evaluation) (article_date : datetime)
    (cfg : scoring_config) :
  half_life_of cfg <> 0 ->
  Rpower 0.5 (((now - instant article_date) / 3600) / half_life_of cfg) < float_overflow ->
  calculate_score now evaluate article_date cfg
  = Some (spec_score (ev_title evaluate ++ [32%N] ++ ev_summary evaluate)
                     now evaluate article_date cfg).
Proof.
  intros Hhl Hov.
  unfold calculate_score, calculate_recency_score; cbv zeta.
  destruct (Req_EM_T (half_life_of cfg) 0) as [E|_]; [contradiction|].
  rewrite (math_pow_half_ok _ Hov).
  f_equal.
  rewrite recency_clamp.
  unfold apply_penalties, spec_score.
  rewrite fold_penalties.
  f_equal; ring.
Qed.

End ScorerFacts.

Module ScorerChecks.

Import Scorer ScorerExamples ScorerFacts.
Open Scope R_scope.

Lemma rpower_half_0 : Rpower 0.5 (((0 - instant date_at_0) / 3600) / 36) = 1.
Proof.
  unfold instant, date_at_0; simpl.
  replace (((0 - 0) / 3600) / 36) with 0 by field.
  apply Rpower_O; lra.
Qed.

Lemma rpower_half_far : Rpower 0.5 (((0 - instant date_far) / 3600) / 36) = 2 ^ 2000.
Proof.
  unfold instant, date_far; simpl.
  replace (((0 - 259200000) / 3600) / 36) with (- INR 2000).
  - apply rpower_half_neg_nat.
  - rewrite INR_IZR_INZ; simpl; field.
Qed.

(** C1 (counterexample): title "A", summary "B", a rule with keyword "ab"
    subtracting 1, impact = novelty = proof = 5, published now.  The code
    scores 5 (its text is "a b", which does not contain "ab"), while the
    claim's reading of the title concatenated with the summary ("ab") gives 4.
    And an article dated 2000 half-lives in the future gets no score at all:
    [math.pow(0.5, -2000)] raises [OverflowError]. *)
Lemma calculate_score_counterexample :
  calculate_score 0 ev_AB date_at_0 cfg_ab = Some 5
  /\ spec_score (ev_title ev_AB ++ ev_summary ev_AB) 0 ev_AB date_at_0 cfg_ab = 4
  /\ calculate_score 0 ev_AB date_far cfg_ab = None.
Proof.
  split; [|split].
  - unfold calculate_score, calculate_recency_score, half_life_of, cfg_ab; simpl sc_half_life_hours.
    destruct (Req_EM_T 36 0) as [E|_]; [lra|].
    rewrite math_pow_half_ok by (rewrite rpower_half_0; apply float_overflow_gt1).
    rewrite rpower_half_0.
    destruct (Rlt_dec 24 ((0 - instant date_at_0) / 3600)) as [H|_].
    { unfold instant, date_at_0 in H; simpl in H; lra. }
    unfold apply_penalties; simpl.
    f_equal.
    unfold Rmin, Rmax; repeat (destruct Rle_dec); lra.
  - unfold spec_score, spec_recency, half_life_of, penalties_of, cfg_ab; simpl.
    rewrite rpower_half_0.
    destruct (Rlt_dec 24 ((0 - instant date_at_0) / 3600)) as [H|_].
    { unfold instant, date_at_0 in H; simpl in H; lra. }
    unfold penalty_total; simpl.
    unfold Rmin, Rmax; repeat (destruct Rle_dec); lra.
  - unfold calculate_score, calculate_recency_score, half_life_of, cfg_ab; simpl sc_half_life_hours.
    destruct (Req_EM_T 36 0) as [E|_]; [lra|].
    rewrite math_pow_half_overflow; [reflexivity|].
    rewrite rpower_half_far; unfold float_overflow.
    assert (H1 : 2 ^ 1024 <= 2 ^ 2000) by (apply Rle_pow; [lra|lia]).
    assert (H2 : 0 <= 2 ^ 970) by (apply pow_le; lra).
    lra.
Qed.

(** C1 witness: the amended law at the counterexample's input. *)
Lemma calculate_score_spec_witness :
  half_life_of cfg_ab <> 0
  /\ Rpower 0.5 (((0 - instant date_at_0) / 3600) / half_life_of cfg_ab) < float_overflow
  /\ calculate_score 0 ev_AB date_at_0 cfg_ab
     = Some (spec_score (ev_title ev_AB ++ [32%N] ++ ev_summary ev_AB) 0 ev_AB date_at_0 cfg_ab).
Proof.
  assert (Hh : half_life_of cfg_ab <> 0) by (unfold half_life_of, cfg_ab; simpl; lra).
  assert (Ho : Rpower 0.5 (((0 - instant date_at_0) / 3600) / half_life_of cfg_ab) < float_overflow).
  { change (half_life_of cfg_ab) with 36.
    rewrite rpower_half_0; apply float_overflow_gt1. }
  split; [exact Hh|split; [exact Ho|]].
  apply calculate_score_spec; [exact Hh|exact Ho].
Defined.

End ScorerChecks.

(* ------------------------------------------------------------------------- *)
(** ** Strings and dicts *)

Module DictFacts.

Lemma ustr_eqb_eq (a b : ustr) : ustr_eqb a b = true <-> a = b.
Proof.
  revert b; induction a as [|x a IH]; intros [|y b]; simpl; split; intro H;
    try discriminate; try reflexivity.
  - apply andb_true_iff in H as [H1 H2].
    apply N.eqb_eq in H1; apply IH in H2; subst; reflexivity.
  - injection H as -> ->.
    rewrite N.eqb_refl; simpl; apply IH; reflexivity.
Qed.

Lemma ustr_eqb_refl (a : ustr) : ustr_eqb a a = true.
Proof. apply ustr_eqb_eq; reflexivity. Qed.

Lemma ustr_eqb_sym (a b : ustr) : ustr_eqb a b = ustr_eqb b a.
Proof.
  destruct (ustr_eqb a b) eqn:E1, (ustr_eqb b a) eqn:E2; auto.
  - apply ustr_eqb_eq in E1; subst; rewrite ustr_eqb_refl in E2; discriminate.
  - apply ustr_eqb_eq in E2; subst; rewrite ustr_eqb_refl in E1; discriminate.
Qed.

Lemma ustr_eqb_neq (a b : ustr) : ustr_eqb a b = false <-> a <> b.
Proof.
  split.
  - intros H E; subst; rewrite ustr_eqb_refl in H; discriminate.
  - intro H; destruct (ustr_eqb a b) eqn:E; auto; apply ustr_eqb_eq in E; contradiction.
Qed.

Section Dicts.

Context {V : Type}.

Lemma dict_get_cons (k k' : ustr) (v : V) (d : Dedup.dict V) :
  Dedup.dict_get ((k', v) :: d) k = if ustr_eqb k' k then Some v else Dedup.dict_get d k.
Proof. unfold Dedup.dict_get; simpl; destruct (ustr_eqb k' k); reflexivity. Qed.

Lemma dict_get_set (d : Dedup.dict V) (k k' : ustr) (v : V) :
  Dedup.dict_get (Dedup.dict_set d k v) k'
  = if ustr_eqb k k' then Some v else Dedup.dict_get d k'.
Proof.
  induction d as [|[k0 v0] d IH]; simpl.
  - rewrite dict_get_cons; reflexivity.
  - destruct (ustr_eqb k0 k) eqn:E.
    + apply ustr_eqb_eq in E; subst k0.
      rewrite !dict_get_cons; destruct (ustr_eqb k k'); reflexivity.
    + rewrite !dict_get_cons, IH.
      destruct (ustr_eqb k0 k') eqn:E'; auto.
      apply ustr_eqb_eq in E'; subst k'.
      rewrite (ustr_eqb_sym k k0), E; reflexivity.
Qed.

Lemma dict_get_in (d : Dedup.dict V) (k : ustr) (v : V) :
  Dedup.dict_get d k = Some v -> In (k, v) d.
Proof.
  induction d as [|[k0 v0] d IH]; simpl; [discriminate|].
  rewrite dict_get_cons; destruct (ustr_eqb k0 k) eqn:E.
  - apply ustr_eqb_eq in E; subst k0; intro H; injection H as ->; left; reflexivity.
  - intro H; right; auto.
Qed.

Lemma dict_get_none (d : Dedup.dict V) (k : ustr) :
  Dedup.dict_get d k = None -> ~ In k (map fst d).
Proof.
  induction d as [|[k0 v0] d IH]; simpl; [auto|].
  rewrite dict_get_cons; destruct (ustr_eqb k0 k) eqn:E; [discriminate|].
  intros H [H'|H']; [subst k0; rewrite ustr_eqb_refl in E; discriminate|].
  apply IH; auto.
Qed.

End Dicts.

End DictFacts.

(* ------------------------------------------------------------------------- *)
(** ** Diversity quotas *)

Module DiversityFacts.

Import Diversity DictFacts.

Section Facts.

Context {A : Type} (ident : A -> nat) (topic_of : A -> ustr) (score_of : A -> Q).

Local Abbreviation by_topic := (by_topic topic_of).
Local Abbreviation mem_art := (mem_art ident).

Lemma mem_art_false (x : A) (l : list A) :
  mem_art x l = false <-> ~ In (ident x) (map ident l).
Proof.
  unfold Diversity.mem_art; rewrite <- not_true_iff_false, existsb_exists.
  split.
  - intros H Hin; apply H; apply in_map_iff in Hin as [y [Hy Hin]].
    exists y; split; auto; apply Nat.eqb_eq; auto.
  - intros H [y [Hin Hy]]; apply H; apply Nat.eqb_eq in Hy.
    rewrite <- Hy; apply in_map; auto.
Qed.

(** A fold whose steps keep the list or append the element. *)
Lemma fold_appends {B C} (f : list A * B -> C -> list A * B) (g : C -> A) (l : list C) acc :
  (forall acc x, fst (f acc x) = fst acc \/ fst (f acc x) = fst acc ++ [g x]) ->
  exists suf, fst (fold_left f l acc) = fst acc ++ suf
              /\ length suf <= length l /\ incl suf (map g l).
Proof.
  intro Hf; revert acc; induction l as [|x l IH]; intro acc; simpl.
  - exists []; rewrite app_nil_r; split; [reflexivity|split; [simpl; lia|intros y []]].
  - destruct (IH (f acc x)) as [suf [E [Hl Hi]]].
    destruct (Hf acc x) as [Ex|Ex]; rewrite Ex in E.
    + exists suf; split; [exact E|split; [simpl; lia|]].
      intros y Hy; right; auto.
    + exists (g x :: suf); rewrite <- app_assoc in E; split; [exact E|split; [simpl; lia|]].
      intros y [<-|Hy]; [left; auto|right; auto].
Qed.

Lemma by_topic_app (l1 l2 : list A) (t : ustr) :
  by_topic (l1 ++ l2) t = by_topic l1 t ++ by_topic l2 t.
Proof. unfold Diversity.by_topic; apply filter_app. Qed.

Lemma by_topic_single (x : A) (t : ustr) :
  by_topic [x] t = if ustr_eqb (topic_of x) t then [x] else [].
Proof. reflexivity. Qed.

Lemma count_get_incr (tc : Dedup.dict Z) (t t' : ustr) :
  count_get (count_incr tc t) t'
  = if ustr_eqb t t' then (count_get tc t' + 1)%Z else count_get tc t'.
Proof.
  unfold count_incr, count_get at 1; rewrite dict_get_set.
  destruct (ustr_eqb t t') eqn:E; [apply ustr_eqb_eq in E; subst|]; reflexivity.
Qed.

(** [topic_counts] counts the selected articles of each topic. *)
Definition tc_ok (acc : list A * Dedup.dict Z) : Prop :=
  forall t, count_get (snd acc) t = Z.of_nat (length (by_topic (fst acc) t)).

Lemma tc_ok_append (sel : list A) (tc : Dedup.dict Z) (x : A) :
  tc_ok (sel, tc) -> tc_ok (sel ++ [x], count_incr tc (topic_of x)).
Proof.
  unfold tc_ok; intros H t; simpl in *.
  rewrite count_get_incr, by_topic_app, by_topic_single, length_app, (H t).
  destruct (ustr_eqb (topic_of x) t); simpl; lia.
Qed.

Lemma insert_desc_perm (x : A) (l : list A) :
  Permutation (insert_desc score_of x l) (x :: l).
Proof.
  induction l as [|y l IH]; simpl; [auto|].
  destruct (Qlt_le_dec (score_of y) (score_of x)); [auto|].
  rewrite IH; apply perm_swap.
Qed.

Lemma sort_desc_perm (l : list A) : Permutation (sort_desc score_of l) l.
Proof.
  unfold sort_desc.
  assert (forall acc, Permutation (fold_left (fun acc x => insert_desc score_of x acc) l acc)
                                  (acc ++ l)) as H.
  { induction l as [|x l IH]; intro acc; simpl; [rewrite app_nil_r; auto|].
    rewrite IH, insert_desc_perm; simpl.
    apply Permutation_middle. }
  apply H.
Qed.

Lemma in_firstn (n : nat) (x : A) (l : list A) : In x (firstn n l) -> In x l.
Proof. intro H; rewrite <- (firstn_skipn n l); apply in_or_app; left; exact H. Qed.

Lemma nodup_map_firstn (n : nat) (l : list A) :
  NoDup (map ident l) -> NoDup (map ident (firstn n l)).
Proof.
  rewrite <- (firstn_skipn n l) at 1; rewrite map_app; apply NoDup_app_remove_r.
Qed.

Lemma nodup_map_filter (p : A -> bool) (l : list A) :
  NoDup (map ident l) -> NoDup (map ident (filter p l)).
Proof.
  induction l as [|x l IH]; simpl; [auto|].
  intro H; inversion H as [|? ? Hx Hl]; subst.
  destruct (p x); simpl; [|auto].
  constructor; [|auto].
  intro Hin; apply Hx; apply in_map_iff in Hin as [y [Hy Hin]].
  rewrite <- Hy; apply in_map; apply filter_In in Hin; tauto.
Qed.

Lemma nodup_map_inj (l : list A) (x y : A) :
  NoDup (map ident l) -> In x l -> In y l -> ident x = ident y -> x = y.
Proof.
  induction l as [|a l IH]; simpl; [tauto|].
  intros H Hx Hy E; inversion H as [|? ? Ha Hl]; subst.
  destruct Hx as [<-|Hx], Hy as [<-|Hy]; auto.
  - exfalso; apply Ha; rewrite E; apply in_map; auto.
  - exfalso; apply Ha; rewrite <- E; apply in_map; auto.
Qed.

Lemma by_topic_length (l : list A) (t : ustr) : length (by_topic l t) <= length l.
Proof.
  induction l as [|x l IH]; simpl; [auto|].
  unfold Diversity.by_topic in *; simpl; destruct (ustr_eqb (topic_of x) t); simpl; lia.
Qed.

Lemma by_topic_other (l : list A) (t t' : ustr) :
  (forall x, In x l -> topic_of x = t) -> t <> t' -> by_topic l t' = [].
Proof.
  induction l as [|x l IH]; simpl; [auto|]; intros H Hne.
  unfold Diversity.by_topic in *; simpl.
  rewrite (H x (or_introl eq_refl)), (proj2 (ustr_eqb_neq t t') Hne).
  apply IH; auto.
Qed.

Lemma by_topic_all (l : list A) (t : ustr) :
  (forall x, In x l -> topic_of x = t) -> by_topic l t = l.
Proof.
  induction l as [|x l IH]; simpl; [auto|]; intros H.
  unfold Diversity.by_topic in *; simpl.
  rewrite (H x (or_introl eq_refl)), ustr_eqb_refl, IH; auto.
Qed.

Lemma in_by_topic (l : list A) (t : ustr) (x : A) :
  In x (by_topic l t) <-> In x l /\ topic_of x = t.
Proof.
  unfold Diversity.by_topic; rewrite filter_In, ustr_eqb_eq; tauto.
Qed.

Lemma count_app_ge (l suf : list A) (t : ustr) :
  length (by_topic l t) <= length (by_topic (l ++ suf) t).
Proof. rewrite by_topic_app, length_app; lia. Qed.

Lemma of_to_nat (z : Z) : Z.of_nat (Z.to_nat z) = Z.max 0 z.
Proof. lia. Qed.

(** ** Phase 1 *)

Lemma phase1_step_cases (t : ustr) (acc : list A * Dedup.dict Z) (x : A) :
  let f := fun (acc : list A * Dedup.dict Z) (x : A) =>
             let '(selected, tc) := acc in
             if mem_art x selected then (selected, tc)
             else (selected ++ [x], count_incr tc t) in
  fst (f acc x) = fst acc \/ fst (f acc x) = fst acc ++ [x].
Proof. destruct acc as [sel tc]; simpl; destruct (mem_art x sel); auto. Qed.

Lemma phase1_appends (arts : list A) (acc : list A * Dedup.dict Z) (q : ustr * Z) :
  exists suf, fst (phase1_topic ident topic_of score_of arts acc q) = fst acc ++ suf
              /\ length suf <= Z.to_nat (Z.max 0 (snd q))
              /\ incl suf (by_topic arts (fst q)).
Proof.
  destruct q as [t m]; unfold phase1_topic; cbv zeta; simpl fst; simpl snd.
  set (sorted := sort_desc score_of (by_topic arts t)).
  set (n := Z.to_nat (Z.min m (Z.of_nat (length sorted)))).
  destruct (fold_appends _ (fun x => x) (firstn n sorted) acc (phase1_step_cases t))
    as [suf [E [Hl Hi]]].
  exists suf; split; [exact E|split].
  - rewrite Hl, length_firstn; subst n; lia.
  - rewrite map_id in Hi; intros x Hx.
    apply (Permutation_in _ (sort_desc_perm _)), (in_firstn n); auto.
Qed.

Lemma phase1_tc (arts : list A) (acc : list A * Dedup.dict Z) (q : ustr * Z) :
  tc_ok acc -> tc_ok (phase1_topic ident topic_of score_of arts acc q).
Proof.
  destruct q as [t m]; unfold phase1_topic; cbv zeta.
  set (sorted := sort_desc score_of (by_topic arts t)).
  assert (Ht : forall x, In x sorted -> topic_of x = t).
  { intros x Hx; apply (Permutation_in _ (sort_desc_perm _)), in_by_topic in Hx; tauto. }
  generalize (Z.to_nat (Z.min m (Z.of_nat (length sorted)))) as n; intro n.
  assert (Ht' : forall x, In x (firstn n sorted) -> topic_of x = t)
    by (intros x Hx; apply Ht, (in_firstn n); auto).
  revert acc; induction (firstn n sorted) as [|x l IH]; simpl; intros acc Hacc; [auto|].
  apply IH; [intros y Hy; apply Ht'; right; auto|].
  destruct acc as [sel tc]; destruct (mem_art x sel); [auto|].
  rewrite <- (Ht' x (or_introl eq_refl)); apply tc_ok_append; auto.
Qed.

Lemma phase1_all_new (t : ustr) (l : list A) (acc : list A * Dedup.dict Z) :
  NoDup (map ident l) ->
  (forall x y, In x l -> In y (fst acc) -> ident x <> ident y) ->
  fst (fold_left (fun (acc : list A * Dedup.dict Z) (x : A) =>
             let '(selected, tc) := acc in
             if mem_art x selected then (selected, tc)
             else (selected ++ [x], count_incr tc t)) l acc) = fst acc ++ l.
Proof.
  revert acc; induction l as [|x l IH]; intros [sel tc] Hnd Hd; simpl; [rewrite app_nil_r; auto|].
  inversion Hnd as [|? ? Hx Hl]; subst.
  assert (Hm : mem_art x sel = false).
  { apply mem_art_false; intro Hin; apply in_map_iff in Hin as [y [Hy Hin]].
    apply (Hd x y); simpl; auto. }
  rewrite Hm, IH; simpl; [rewrite <- app_assoc; auto|auto|].
  intros x' y Hx' Hy; apply in_app_or in Hy as [Hy|[<-|[]]].
  - apply Hd; simpl; auto.
  - intro E; apply Hx; rewrite <- E; apply in_map; auto.
Qed.

(** ** Phase 2 *)

Lemma phase2_appends (maxq : Dedup.dict Z) (uns : list A) :
  forall rem acc, exists suf,
    fst (phase2 topic_of maxq rem uns acc) = fst acc ++ suf
    /\ length suf <= Z.to_nat rem /\ incl suf uns.
Proof.
  induction uns as [|x rest IH]; intros rem [sel tc]; simpl.
  - exists []; rewrite app_nil_r; split; [auto|split; [simpl; lia|intros y []]].
  - destruct (rem <=? 0)%Z eqn:Er.
    + exists []; rewrite app_nil_r; split; [auto|split; [simpl; lia|intros y []]].
    + destruct (match Dedup.dict_get maxq (topic_of x) with
                | Some m => (m <=? count_get tc (topic_of x))%Z
                | None => false end).
      * destruct (IH rem (sel, tc)) as [suf [E [Hl Hi]]].
        exists suf; split; [exact E|split; [exact Hl|]].
        intros y Hy; right; auto.
      * destruct (IH (rem - 1)%Z (sel ++ [x], count_incr tc (topic_of x))) as [suf [E [Hl Hi]]].
        exists (x :: suf); rewrite E; simpl; rewrite <- app_assoc; split; [auto|split].
        -- apply Z.leb_gt in Er; lia.
        -- intros y [<-|Hy]; [left; auto|right; auto].
Qed.

Lemma phase2_tc (maxq : Dedup.dict Z) (uns : list A) :
  forall rem acc, tc_ok acc -> tc_ok (phase2 topic_of maxq rem uns acc).
Proof.
  induction uns as [|x rest IH]; intros rem [sel tc] H; simpl; [auto|].
  destruct (rem <=? 0)%Z; [auto|].
  destruct (match Dedup.dict_get maxq (topic_of x) with
            | Some m => (m <=? count_get tc (topic_of x))%Z
            | None => false end); apply IH; auto.
  apply tc_ok_append; auto.
Qed.

(** Phase 2 never takes a topic past its maximum. *)
Lemma phase2_max (maxq : Dedup.dict Z) (uns : list A) (T : ustr) (M : Z) :
  Dedup.dict_get maxq T = Some M ->
  forall rem acc, tc_ok acc ->
  (Z.of_nat (length (by_topic (fst (phase2 topic_of maxq rem uns acc)) T))
   <= Z.max M (Z.of_nat (length (by_topic (fst acc) T))))%Z.
Proof.
  intro HM; induction uns as [|x rest IH]; intros rem [sel tc] H; simpl; [lia|].
  destruct (rem <=? 0)%Z; [simpl; lia|].
  destruct (ustr_eqb (topic_of x) T) eqn:Ex.
  - apply ustr_eqb_eq in Ex; pose proof (H T) as HT; simpl in HT; rewrite Ex, HM, HT.
    destruct (M <=? Z.of_nat (length (by_topic sel T)))%Z eqn:Em.
    + apply (IH rem (sel, tc) H).
    + apply Z.leb_gt in Em.
      eapply Z.le_trans; [apply IH|].
      * rewrite <- Ex; apply tc_ok_append; auto.
      * simpl; rewrite by_topic_app, length_app, by_topic_single, Ex, ustr_eqb_refl; simpl; lia.
  - destruct (match Dedup.dict_get maxq (topic_of x) with
              | Some m => (m <=? count_get tc (topic_of x))%Z
              | None => false end).
    + apply (IH rem (sel, tc) H).
    + eapply Z.le_trans; [apply IH; apply tc_ok_append; auto|].
      simpl; rewrite by_topic_app, length_app, by_topic_single, Ex; simpl; lia.
Qed.

(** ** The fold over [min_quotas] *)

Lemma phase1_fold_appends (arts : list A) (qs : Dedup.dict Z) :
  forall acc, exists suf,
    fst (fold_left (phase1_topic ident topic_of score_of arts) qs acc) = fst acc ++ suf
    /\ (Z.of_nat (length suf) <= fold_right (fun q s => Z.max 0 (snd q) + s) 0 qs)%Z.
Proof.
  induction qs as [|q qs IH]; intro acc; simpl.
  - exists []; rewrite app_nil_r; split; [auto|simpl; lia].
  - destruct (phase1_appends arts acc q) as [s1 [E1 [L1 _]]].
    destruct (IH (phase1_topic ident topic_of score_of arts acc q)) as [s2 [E2 L2]].
    exists (s1 ++ s2); rewrite E2, E1, app_assoc; split; [auto|].
    rewrite length_app; lia.
Qed.

Lemma phase1_fold_tc (arts : list A) (qs : Dedup.dict Z) :
  forall acc, tc_ok acc -> tc_ok (fold_left (phase1_topic ident topic_of score_of arts) qs acc).
Proof.
  induction qs as [|q qs IH]; intros acc H; simpl; [auto|].
  apply IH, phase1_tc; auto.
Qed.

(** Every selected article comes from the input, with a topic of the quotas seen. *)
Lemma phase1_fold_origin (arts : list A) (P : ustr -> Prop) (qs : Dedup.dict Z) :
  (forall q, In q qs -> P (fst q)) ->
  forall acc, (forall y, In y (fst acc) -> In y arts /\ P (topic_of y)) ->
  forall y, In y (fst (fold_left (phase1_topic ident topic_of score_of arts) qs acc)) ->
  In y arts /\ P (topic_of y).
Proof.
  intro HP; induction qs as [|q qs IH]; intros acc H; simpl; [auto|].
  apply IH; [intros q' Hq'; apply HP; right; auto|].
  destruct (phase1_appends arts acc q) as [suf [E [_ Hi]]].
  intros y; rewrite E; intro Hy; apply in_app_or in Hy as [Hy|Hy]; [auto|].
  apply Hi, in_by_topic in Hy as [Hy Ht]; split; [auto|].
  rewrite Ht; apply HP; left; auto.
Qed.

(** The per-topic count after phase 1 is bounded by the topic's own quota. *)
Lemma phase1_count_step (arts : list A) (acc : list A * Dedup.dict Z) (q : ustr * Z) (T : ustr) :
  (Z.of_nat (length (by_topic (fst (phase1_topic ident topic_of score_of arts acc q)) T))
   <= Z.of_nat (length (by_topic (fst acc) T))
      + (if ustr_eqb (fst q) T then Z.max 0 (snd q) else 0))%Z.
Proof.
  destruct (phase1_appends arts acc q) as [suf [E [Hl Hi]]].
  rewrite E, by_topic_app, length_app.
  destruct (ustr_eqb (fst q) T) eqn:Et.
  - pose proof (by_topic_length suf T); lia.
  - rewrite (by_topic_other suf (fst q) T); [simpl; lia| |apply ustr_eqb_neq; auto].
    intros x Hx; apply Hi, in_by_topic in Hx; tauto.
Qed.

Lemma phase1_fold_count (arts : list A) (qs : Dedup.dict Z) (T : ustr) :
  forall acc,
  (Z.of_nat (length (by_topic (fst (fold_left (phase1_topic ident topic_of score_of arts) qs acc)) T))
   <= Z.of_nat (length (by_topic (fst acc) T))
      + fold_right (fun q s => (if ustr_eqb (fst q) T then Z.max 0 (snd q) else 0) + s) 0 qs)%Z.
Proof.
  induction qs as [|q qs IH]; intro acc; simpl; [lia|].
  specialize (IH (phase1_topic ident topic_of score_of arts acc q)).
  pose proof (phase1_count_step arts acc q T); lia.
Qed.

Lemma phase1_topic_all_new (arts : list A) (acc : list A * Dedup.dict Z) (t : ustr) (m : Z) :
  NoDup (map ident arts) ->
  (forall x y, In x (by_topic arts t) -> In y (fst acc) -> ident x <> ident y) ->
  fst (phase1_topic ident topic_of score_of arts acc (t, m))
  = fst acc ++ firstn (Z.to_nat (Z.min m (Z.of_nat (length (by_topic arts t)))))
                      (sort_desc score_of (by_topic arts t)).
Proof.
  intros Hnd Hd; unfold phase1_topic; cbv zeta.
  rewrite (Permutation_length (sort_desc_perm (by_topic arts t))).
  apply phase1_all_new.
  - apply nodup_map_firstn.
    apply (Permutation_NoDup (Permutation_map ident (Permutation_sym (sort_desc_perm _)))).
    apply nodup_map_filter; auto.
  - intros x y Hx Hy; apply Hd; [|auto].
    apply (Permutation_in _ (sort_desc_perm _)); eapply in_firstn; exact Hx.
Qed.

Lemma dict_get_split (d : Dedup.dict Z) (k : ustr) (v : Z) :
  Dedup.dict_get d k = Some v ->
  exists d1 d2, d = d1 ++ (k, v) :: d2 /\ ~ In k (map fst d1).
Proof.
  induction d as [|[k0 v0] d IH]; [discriminate|].
  rewrite dict_get_cons; destruct (ustr_eqb k0 k) eqn:E.
  - apply ustr_eqb_eq in E; subst k0; intro H; injection H as ->.
    exists [], d; split; [reflexivity|simpl; tauto].
  - intro H; destruct (IH H) as [d1 [d2 [-> Hn]]].
    exists ((k0, v0) :: d1), d2; split; [reflexivity|].
    simpl; intros [Hk|Hk]; [subst k0; rewrite ustr_eqb_refl in E; discriminate|tauto].
Qed.

Lemma quota_sum_absent (qs : Dedup.dict Z) (T : ustr) :
  ~ In T (map fst qs) ->
  fold_right (fun q s => (if ustr_eqb (fst q) T then Z.max 0 (snd q) else 0) + s)%Z 0%Z qs = 0%Z.
Proof.
  induction qs as [|[k v] qs IH]; simpl; [auto|]; intro Hn.
  rewrite (proj2 (ustr_eqb_neq k T)), IH; auto.
Qed.

Lemma quota_sum_key (qs : Dedup.dict Z) (T : ustr) :
  NoDup (map fst qs) ->
  fold_right (fun q s => (if ustr_eqb (fst q) T then Z.max 0 (snd q) else 0) + s)%Z 0%Z qs
  = Z.max 0 (match Dedup.dict_get qs T with Some m => m | None => 0 end).
Proof.
  induction qs as [|[k v] qs IH]; simpl; [auto|]; intro Hnd.
  inversion Hnd as [|? ? Hk Hl]; subst.
  rewrite dict_get_cons; destruct (ustr_eqb k T) eqn:E.
  - apply ustr_eqb_eq in E; subst k; rewrite quota_sum_absent; auto; lia.
  - rewrite IH; auto.
Qed.

Lemma tc_ok_empty : tc_ok ([], []).
Proof. intro t; reflexivity. Qed.

(* ------------------------------------------------------------------------- *)

(** C2 (amended). The selection is no longer than the larger of
    [target_count] and the sum of the positive minimum quotas: phase 1 takes
    at most [max(0, min_count)] articles per quota, and phase 2 stops once
    [target_count] is reached. *)
Theorem enforce_diversity_quotas_length (min_quotas max_quotas : Dedup.dict Z)
        (target_count : Z) (articles : list A) :
  (Z.of_nat (length (enforce_diversity_quotas ident topic_of score_of
                       min_quotas max_quotas target_count articles))
   <= Z.max target_count (fold_right (fun q s => Z.max 0 (snd q) + s) 0 min_quotas))%Z.
Proof.
  unfold enforce_diversity_quotas; cbv zeta.
  destruct (phase1_fold_appends articles min_quotas ([], [])) as [s1 [E1 L1]].
  generalize dependent (fold_left (phase1_topic ident topic_of score_of articles) min_quotas ([], [])).
  intros acc1 E1; simpl in E1.
  match goal with |- context [phase2 _ _ ?r ?u acc1] =>
    destruct (phase2_appends max_quotas u r acc1) as [s2 [E2 [L2 _]]] end.
  rewrite E2, length_app, E1 in *; lia.
Qed.

(** C3 (amended). For a pool without repeated articles and a [min] dict
    (keys distinct, as in a Python dict): a topic with a minimum quota [m]
    and at least [m] articles in the pool gets at least [m] of them; a topic
    with a maximum quota [M] gets at most [max(M, max(0, min[T]))] articles,
    so the maximum binds only when it is not below the topic's minimum. *)
Theorem enforce_diversity_quotas_quotas (min_quotas max_quotas : Dedup.dict Z)
        (target_count : Z) (articles : list A) :
  NoDup (map ident articles) -> NoDup (map fst min_quotas) ->
  (forall T m, Dedup.dict_get min_quotas T = Some m ->
     (m <= Z.of_nat (length (by_topic articles T)))%Z ->
     (m <= Z.of_nat (length (by_topic (enforce_diversity_quotas ident topic_of score_of
                              min_quotas max_quotas target_count articles) T)))%Z)
  /\ (forall T M, Dedup.dict_get max_quotas T = Some M ->
     (Z.of_nat (length (by_topic (enforce_diversity_quotas ident topic_of score_of
                              min_quotas max_quotas target_count articles) T))
      <= Z.max M (Z.max 0 (match Dedup.dict_get min_quotas T with Some m => m | None => 0 end)))%Z).
Proof.
  intros Hnd Hkeys; unfold enforce_diversity_quotas; cbv zeta; split.
  - intros T m Hm Hle.
    destruct (dict_get_split min_quotas T m Hm) as [d1 [d2 [Ed Hn]]].
    pose (a0 := fold_left (phase1_topic ident topic_of score_of articles) d1 ([], [])).
    assert (Ho : forall y, In y (fst a0) -> In y articles /\ In (topic_of y) (map fst d1)).
    { intros y Hy.
      exact (phase1_fold_origin articles (fun t => In t (map fst d1)) d1
               (fun q Hq => in_map fst d1 q Hq) ([], []) (fun y H => False_ind _ H) y Hy). }
    assert (E1 : fst (phase1_topic ident topic_of score_of articles a0 (T, m))
                 = fst a0 ++ firstn (Z.to_nat (Z.min m (Z.of_nat (length (by_topic articles T)))))
                                    (sort_desc score_of (by_topic articles T))).
    { apply phase1_topic_all_new; auto.
      intros x y Hx Hy E; apply in_by_topic in Hx as [Hx Ht].
      destruct (Ho y Hy) as [Hy' Hty].
      rewrite (nodup_map_inj articles x y Hnd Hx Hy' E) in Ht.
      apply Hn; rewrite <- Ht; auto. }
    assert (Hc1 : (m <= Z.of_nat (length (by_topic
                   (fst (phase1_topic ident topic_of score_of articles a0 (T, m))) T)))%Z).
    { rewrite E1, by_topic_app, length_app, (by_topic_all (firstn _ _) T).
      - rewrite length_firstn, (Permutation_length (sort_desc_perm _)); lia.
      - intros x Hx; apply (in_firstn _), (Permutation_in _ (sort_desc_perm _)),
          in_by_topic in Hx; tauto. }
    rewrite Ed, fold_left_app; cbn [fold_left].
    destruct (phase1_fold_appends articles d2
                (phase1_topic ident topic_of score_of articles a0 (T, m))) as [s1 [F1 _]].
    fold a0.
    generalize dependent (fold_left (phase1_topic ident topic_of score_of articles) d2
                            (phase1_topic ident topic_of score_of articles a0 (T, m))).
    intros acc1 F1.
    match goal with |- context [phase2 _ _ ?r ?u acc1] =>
      destruct (phase2_appends max_quotas u r acc1) as [s2 [F2 _]] end.
    rewrite F2, F1.
    pose proof (count_app_ge (fst (phase1_topic ident topic_of score_of articles a0 (T, m))) s1 T).
    pose proof (count_app_ge (fst (phase1_topic ident topic_of score_of articles a0 (T, m)) ++ s1) s2 T).
    lia.
  - intros T M HM.
    pose proof (phase1_fold_count articles min_quotas T ([], [])) as Hc.
    rewrite quota_sum_key in Hc by auto; simpl in Hc.
    pose proof (phase1_fold_tc articles min_quotas ([], []) tc_ok_empty) as Htc.
    generalize dependent (fold_left (phase1_topic ident topic_of score_of articles) min_quotas ([], [])).
    intros acc1 Hc Htc.
    eapply Z.le_trans; [apply phase2_max; eauto|lia].
Qed.

End Facts.

End DiversityFacts.

Module DiversityChecks.

Import Diversity DiversityExamples DiversityFacts.

(** C2 counterexample: with [min = {"A": 2}], no maximum and
    [target_count = 1], both "A" candidates are selected. *)
Lemma enforce_diversity_quotas_length_counterexample :
  length (enforce_diversity_quotas dv_id dv_topic dv_score min_A2 [] 1%Z pool_AA) = 2.
Proof. vm_compute; reflexivity. Qed.

(** C3 counterexample: with [min = {"A": 2}] and [max = {"A": 1}], the
    selection holds two "A" candidates although [max["A"]] is 1. *)
Lemma enforce_diversity_quotas_max_counterexample :
  length (by_topic dv_topic
            (enforce_diversity_quotas dv_id dv_topic dv_score min_A2 max_A1 12%Z pool_AA) topic_A) = 2
  /\ Dedup.dict_get max_A1 topic_A = Some 1%Z.
Proof. vm_compute; split; reflexivity. Qed.

Lemma enforce_diversity_quotas_quotas_witness :
  NoDup (map dv_id pool_AA) /\ NoDup (map fst min_A2) /\
  (forall T M, Dedup.dict_get max_A1 T = Some M ->
     (Z.of_nat (length (by_topic dv_topic
         (enforce_diversity_quotas dv_id dv_topic dv_score min_A2 max_A1 12%Z pool_AA) T))
      <= Z.max M (Z.max 0 (match Dedup.dict_get min_A2 T with Some m => m | None => 0 end)))%Z).
Proof.
  assert (H1 : NoDup (map dv_id pool_AA)).
  { simpl; constructor; [simpl; intros [H|[]]; discriminate|].
    constructor; [intros []|constructor]. }
  assert (H2 : NoDup (map fst min_A2)) by (simpl; constructor; [intros []|constructor]).
  split; [exact H1|split; [exact H2|]].
  exact (proj2 (enforce_diversity_quotas_quotas dv_id dv_topic dv_score
                  min_A2 max_A1 12%Z pool_AA H1 H2)).
Defined.

End DiversityChecks.

(* ------------------------------------------------------------------------- *)
(** ** Deduplication *)

Module DedupFacts.

Import Url Dedup DictFacts.
Open Scope nat_scope.

Lemma choose_better_cases (a b : article) :
  choose_better_article a b = a \/ choose_better_article a b = b.
Proof.
  unfold choose_better_article; cbv zeta.
  repeat match goal with
         | |- context [if ?c then _ else _] => destruct c
         end; auto.
Qed.

Lemma same_refl (a : article) : same a a = true.
Proof. apply Nat.eqb_refl. Qed.

Lemma replace_first_incl (o n : article) (l : list article) (y : article) :
  In y (replace_first o n l) -> In y l \/ y = n.
Proof.
  induction l as [|x l IH]; simpl; [tauto|].
  destruct (same x o); simpl; intros [Hy|Hy].
  - right; symmetry; exact Hy.
  - left; right; exact Hy.
  - left; left; exact Hy.
  - destruct (IH Hy); [left; right; auto|right; auto].
Qed.

Lemma dedup_step_incl (st st' : dstate) (x : article) :
  dedup_step st x = Some st' ->
  forall y, In y (unique_articles st') -> In y (unique_articles st) \/ y = x.
Proof.
  unfold dedup_step, register; cbv zeta.
  repeat match goal with
         | |- context [match ?e with _ => _ end] => destruct e
         | |- context [if ?c then _ else _] => destruct c
         end;
    intro H; inversion H; subst; cbn [unique_articles]; intros y Hy;
    first [ left; exact Hy
          | apply replace_first_incl in Hy; tauto
          | apply in_app_or in Hy as [Hy|[Hy|[]]]; auto ].
Qed.

Lemma dedup_loop_incl (P : article -> Prop) (xs : list article) :
  forall st st', dedup_loop st xs = Some st' ->
  (forall y, In y (unique_articles st) -> P y) -> (forall x, In x xs -> P x) ->
  forall y, In y (unique_articles st') -> P y.
Proof.
  induction xs as [|x xs IH]; intros st st' H Hst Hxs; cbn [dedup_loop] in H.
  - injection H as <-; auto.
  - destruct (dedup_step st x) as [st1|] eqn:E; [|discriminate].
    apply (IH st1 st' H); [|intros x' Hx'; apply Hxs; right; auto].
    intros y Hy; destruct (dedup_step_incl st st1 x E y Hy) as [Hy'| ->]; auto.
    apply Hxs; left; auto.
Qed.

(** Every article that [deduplicate_articles] returns is one of its inputs. *)
Lemma deduplicate_articles_from_input (enabled : bool) (xs ys : list article) :
  deduplicate_articles enabled xs = Some ys -> incl ys xs.
Proof.
  unfold deduplicate_articles; destruct enabled; simpl negb; cbv iota.
  - destruct (dedup_loop dstate0 xs) as [st|] eqn:E; [|discriminate].
    intro H; injection H as <-; intros y Hy.
    apply (dedup_loop_incl (fun y => In y xs) xs dstate0 st E); auto.
    intros z [].
  - intro H; injection H as <-; apply incl_refl.
Qed.

End DedupFacts.

Module DedupChecks.

Import Url Dedup DedupExamples DedupFacts.

(** C4 counterexample: [b4] collides with [c4] (curated, equal titles) and
    wins their tie-break, yet [c4] survives: [b4] was dropped earlier
    against [a4], and [c4] is only compared with what is still registered. *)
Lemma deduplicate_articles_tiebreak_counterexample :
  deduplicate_articles true [a4; b4; c4] = Some [a4; c4]
  /\ title_similarity (title c4) (title b4) = 1%Q
  /\ choose_better_article b4 c4 = b4.
Proof. vm_compute; repeat split; reflexivity. Qed.

(** C7: after [b7] replaces [a7] on their shared URL, the title map still
    maps [a7]'s normalized title to [a7] and holds no entry for [b7]. *)
Lemma dedup_url_replacement_keeps_title :
  option_map seen_titles (dedup_loop dstate0 [a7; b7])
  = Some [(normalize_title (title a7), a7)]
  /\ option_map unique_articles (dedup_loop dstate0 [a7; b7]) = Some [b7]
  /\ option_map seen_urls (dedup_loop dstate0 [a7; b7])
     = Some [(canonicalize_url (link a7), b7)].
Proof. vm_compute; repeat split; reflexivity. Qed.

(** C9: the result keeps two articles on one canonical URL and loses [c9]. *)
Lemma deduplicate_articles_duplicate_url :
  deduplicate_articles true [a9; b9; c9; d9] = Some [b9; d9]
  /\ canonicalize_url (link b9) = canonicalize_url (link d9)
  /\ Nat.eqb (aid b9) (aid d9) = false.
Proof. split; [vm_compute; reflexivity|split; reflexivity]. Qed.

End DedupChecks.

(* ------------------------------------------------------------------------- *)
(** ** URL canonicalization *)

Module LowerFacts.

Import PyStr.
Open Scope N_scope.

(** A code point that [lower] leaves unchanged, in every context. *)
Definition lower_fixed (c : N) : bool :=
  (lower_char c =? c) && negb (c =? 0x130) && negb (c =? 0x3a3).

(** What a code point of [lower_runs] becomes: a fixed code point from [a] on. *)
Definition lower_image_ok (y : N) : bool := lower_fixed y && (97 <=? y).

Definition run_images_ok (r : N * N * N * N) : bool :=
  let '(start, count, step, target) := r in
  forallb (fun i => lower_image_ok (target + step * N.of_nat i)) (seq 0 (N.to_nat count)).

(** [str.lower] on ASCII. *)
Definition ascii_lower (c : N) : N := if (65 <=? c) && (c <=? 90) then c + 32 else c.

Lemma lower_runs_images : forallb run_images_ok lower_runs = true.
Proof. vm_compute; reflexivity. Qed.

Lemma lower_char_ascii_table :
  forallb (fun n => lower_char (N.of_nat n) =? ascii_lower (N.of_nat n)) (seq 0 128) = true.
Proof. vm_compute; reflexivity. Qed.

Lemma lower_lookup_cases (rs : list (N * N * N * N)) (c : N) :
  lower_lookup rs c = c
  \/ exists start count step target i,
       In (start, count, step, target) rs /\ (i < N.to_nat count)%nat
       /\ lower_lookup rs c = target + step * N.of_nat i.
Proof.
  induction rs as [|[[[start count] step] target] rs IH]; simpl; [left; reflexivity|].
  destruct ((start <=? c) && (c <? start + step * count) && ((c - start) mod step =? 0)) eqn:E.
  - right; exists start, count, step, target, (N.to_nat ((c - start) / step)).
    apply andb_true_iff in E as [E E3]; apply andb_true_iff in E as [E1 E2].
    apply N.leb_le in E1; apply N.ltb_lt in E2; apply N.eqb_eq in E3.
    destruct (N.eq_dec step 0) as [Hs|Hs]; [subst step; lia|].
    rewrite N2Nat.id; split; [left; reflexivity|split].
    + assert ((c - start) / step < count) by (apply N.Div0.div_lt_upper_bound; lia).
      lia.
    + pose proof (N.div_mod (c - start) step Hs) as D; rewrite E3 in D; lia.
  - destruct IH as [IH|(s0 & c0 & st & t & i & Hr & Hi & He)]; [left; exact IH|right].
    exists s0, c0, st, t, i; split; [right; exact Hr|split; assumption].
Qed.

Lemma lower_char_cases (c : N) : lower_char c = c \/ lower_image_ok (lower_char c) = true.
Proof.
  unfold lower_char.
  destruct (lower_lookup_cases lower_runs c) as [H|(start & count & step & target & i & Hr & Hi & E)];
    [left; exact H|right].
  rewrite E.
  pose proof lower_runs_images as Hall; rewrite forallb_forall in Hall.
  specialize (Hall _ Hr); simpl in Hall; rewrite forallb_forall in Hall.
  apply Hall, in_seq; lia.
Qed.

Lemma lower_cp_fixed (c : N) : c <> 0x3a3 -> forallb lower_fixed (lower_cp c) = true.
Proof.
  intro Hc; unfold lower_cp.
  destruct (c =? 0x130) eqn:E; [reflexivity|].
  simpl; rewrite andb_true_r.
  destruct (lower_char_cases c) as [H|H].
  - rewrite H; unfold lower_fixed; rewrite H, N.eqb_refl, E.
    rewrite (proj2 (N.eqb_neq c 0x3a3) Hc); reflexivity.
  - unfold lower_image_ok in H; apply andb_true_iff in H as [H _]; exact H.
Qed.

Lemma lower_aux_fixed_out (b s : ustr) : forallb lower_fixed (lower_aux b s) = true.
Proof.
  revert b; induction s as [|c s IH]; intro b; simpl; [reflexivity|].
  rewrite forallb_app, IH, andb_true_r.
  destruct (c =? 0x3a3) eqn:E; [destruct (final_sigma b s); reflexivity|].
  apply lower_cp_fixed, N.eqb_neq, E.
Qed.

Lemma lower_aux_fixed_id (b s : ustr) : forallb lower_fixed s = true -> lower_aux b s = s.
Proof.
  revert b; induction s as [|c s IH]; intros b H; simpl; [reflexivity|].
  apply andb_true_iff in H as [Hc H].
  unfold lower_fixed in Hc.
  apply andb_true_iff in Hc as [Hc H3]; apply andb_true_iff in Hc as [H1 H2].
  apply negb_true_iff in H2, H3; apply N.eqb_eq in H1.
  rewrite H3; unfold lower_cp; rewrite H2, H1, IH by exact H; reflexivity.
Qed.

(** [str.lower] is idempotent. *)
Lemma lower_idem (s : ustr) : lower (lower s) = lower s.
Proof. unfold lower at 1; apply lower_aux_fixed_id, lower_aux_fixed_out. Qed.

Lemma lower_aux_nil (b s : ustr) : lower_aux b s = [] <-> s = [].
Proof.
  destruct s as [|c s]; simpl; [tauto|].
  split; [|discriminate].
  destruct (c =? 0x3a3); [discriminate|unfold lower_cp; destruct (c =? 0x130); discriminate].
Qed.

Lemma lower_nil (s : ustr) : lower s = [] <-> s = [].
Proof. apply lower_aux_nil. Qed.

(** A code point below [a] occurs in [lower s] only if it occurs in [s]. *)
Lemma in_lower_low (d : N) (s : ustr) : d < 97 -> In d (lower s) -> In d s.
Proof.
  intro Hd; unfold lower; generalize (@nil N) as b.
  induction s as [|c s IH]; intros b H; simpl in H; [exact H|].
  apply in_app_or in H as [H|H]; [|right; exact (IH _ H)].
  destruct (c =? 0x3a3).
  - destruct (final_sigma b s); destruct H as [H|[]]; lia.
  - unfold lower_cp in H; destruct (c =? 0x130).
    + destruct H as [H|[H|[]]]; lia.
    + destruct H as [H|[]].
      destruct (lower_char_cases c) as [E|E]; [left; congruence|].
      unfold lower_image_ok in E; apply andb_true_iff in E as [_ E]; apply N.leb_le in E; lia.
Qed.

Lemma lower_ascii_char (c : N) : c < 128 -> lower_char c = ascii_lower c.
Proof.
  intro Hc; pose proof lower_char_ascii_table as T; rewrite forallb_forall in T.
  specialize (T (N.to_nat c)); rewrite N2Nat.id in T.
  apply N.eqb_eq, T, in_seq; lia.
Qed.

(** On ASCII, [lower] maps each character by [ascii_lower]. *)
Lemma lower_aux_ascii (b s : ustr) :
  forallb (fun c => c <? 128) s = true -> lower_aux b s = map ascii_lower s.
Proof.
  revert b; induction s as [|c s IH]; intros b H; simpl; [reflexivity|].
  apply andb_true_iff in H as [Hc H]; apply N.ltb_lt in Hc.
  rewrite (proj2 (N.eqb_neq c 0x3a3)) by lia.
  unfold lower_cp; rewrite (proj2 (N.eqb_neq c 0x130)) by lia.
  rewrite lower_ascii_char, IH by assumption; reflexivity.
Qed.

End LowerFacts.

Module UrlFacts.

Import Url DictFacts.

(** [ltb] is a strict total order on strings. *)
Lemma ltb_irrefl (a : ustr) : ltb a a = false.
Proof. induction a as [|x a IH]; simpl; [auto|]; rewrite N.ltb_irrefl; auto. Qed.

Lemma ltb_asym (a b : ustr) : ltb a b = true -> ltb b a = false.
Proof.
  revert b; induction a as [|x a IH]; intros [|y b]; simpl; try discriminate; auto.
  destruct (x <? y) eqn:E1, (y <? x) eqn:E2; auto;
    rewrite ?N.ltb_lt, ?N.ltb_ge in *; lia.
Qed.

Lemma ltb_trans (a b c : ustr) : ltb a b = true -> ltb b c = true -> ltb a c = true.
Proof.
  revert b c; induction a as [|x a IH]; intros [|y b] [|z c] H1 H2; simpl in *;
    try discriminate; auto.
  destruct (x <? y) eqn:E1, (y <? x) eqn:E2, (y <? z) eqn:E3, (z <? y) eqn:E4;
    destruct (x <? z) eqn:E5, (z <? x) eqn:E6;
    rewrite ?N.ltb_lt, ?N.ltb_ge in *; try discriminate; try lia; eauto.
Qed.

Lemma ltb_total (a b : ustr) : a <> b -> ltb a b = true \/ ltb b a = true.
Proof.
  revert b; induction a as [|x a IH]; intros [|y b] H; simpl;
    [exfalso; apply H; reflexivity|left; reflexivity|right; reflexivity|].
  destruct (x <? y) eqn:E1, (y <? x) eqn:E2; auto.
  rewrite ?N.ltb_ge in *; assert (x = y) by lia; subst.
  apply IH; intro; subst; apply H; reflexivity.
Qed.

Lemma ltb_le_lt (x y z : ustr) : ltb z x = false -> ltb z y = true -> ltb x y = true.
Proof.
  intros H1 H2; destruct (list_eq_dec N.eq_dec z x) as [<-|Hne]; auto.
  destruct (ltb_total _ _ Hne) as [E|E]; [congruence|].
  apply (ltb_trans _ _ _ E H2).
Qed.

Section Sort.

Context {A : Type}.

Lemma insert_by_key_comm (x y : ustr * A) (l : list (ustr * A)) :
  fst x <> fst y -> insert_by_key x (insert_by_key y l) = insert_by_key y (insert_by_key x l).
Proof.
  intro Hxy; induction l as [|z l IH]; simpl.
  - destruct (ltb (fst y) (fst x)) eqn:E1, (ltb (fst x) (fst y)) eqn:E2; auto.
    + rewrite (ltb_asym _ _ E1) in E2; discriminate.
    + destruct (ltb_total _ _ Hxy); congruence.
  - destruct (ltb (fst z) (fst y)) eqn:Ezy, (ltb (fst z) (fst x)) eqn:Ezx; simpl;
      rewrite ?Ezy, ?Ezx.
    + rewrite IH; auto.
    + rewrite (ltb_le_lt _ _ _ Ezx Ezy); simpl; rewrite ?Ezy; reflexivity.
    + rewrite (ltb_le_lt _ _ _ Ezy Ezx); simpl; rewrite ?Ezx; reflexivity.
    + destruct (ltb (fst y) (fst x)) eqn:E1, (ltb (fst x) (fst y)) eqn:E2; simpl;
        rewrite ?Ezy, ?Ezx; auto.
      * rewrite (ltb_asym _ _ E1) in E2; discriminate.
      * destruct (ltb_total _ _ Hxy); congruence.
Qed.

(** Sorting a dict's items does not depend on their order. *)
Lemma sort_by_key_perm (l1 l2 : list (ustr * A)) :
  Permutation l1 l2 -> NoDup (map fst l1) -> sort_by_key l1 = sort_by_key l2.
Proof.
  unfold sort_by_key; induction 1 as [|x l1 l2 _ IH|x y l|l1 l2 l3 P12 IH12 _ IH23];
    intro Hnd; simpl.
  - reflexivity.
  - inversion Hnd; subst; rewrite IH; auto.
  - inversion Hnd as [|? ? Hy Hl]; subst.
    apply insert_by_key_comm; intro E; apply Hy; rewrite E; left; auto.
  - rewrite IH12 by auto; apply IH23.
    apply (Permutation_NoDup (Permutation_map fst P12)); auto.
Qed.

End Sort.

(** ** The query dict of [canonicalize_url] *)

Lemma filter_qs_insert (k v : ustr) (d : list (ustr * list ustr)) :
  filter (fun kv => negb (is_tracking (fst kv))) (qs_insert k v d)
  = if negb (is_tracking k)
    then qs_insert k v (filter (fun kv => negb (is_tracking (fst kv))) d)
    else filter (fun kv => negb (is_tracking (fst kv))) d.
Proof.
  induction d as [|[k' vs] d IH]; simpl.
  - destruct (negb (is_tracking k)); reflexivity.
  - destruct (ustr_eqb k k') eqn:E.
    + apply ustr_eqb_eq in E; subst k'; simpl.
      destruct (negb (is_tracking k)); simpl; rewrite ?ustr_eqb_refl; reflexivity.
    + simpl; rewrite IH.
      destruct (negb (is_tracking k')), (negb (is_tracking k)); simpl; rewrite ?E; reflexivity.
Qed.

Lemma filter_parse_fold (l : list (ustr * ustr)) :
  forall d,
  filter (fun kv => negb (is_tracking (fst kv)))
         (fold_left (fun d kv => qs_insert (fst kv) (snd kv) d) l d)
  = fold_left (fun d kv => qs_insert (fst kv) (snd kv) d)
              (filter (fun kv => negb (is_tracking (fst kv))) l)
              (filter (fun kv => negb (is_tracking (fst kv))) d).
Proof.
  induction l as [|[k v] l IH]; intro d; simpl; [reflexivity|].
  rewrite IH, filter_qs_insert; destruct (negb (is_tracking k)); reflexivity.
Qed.

Lemma qs_insert_new (k v : ustr) (d : list (ustr * list ustr)) :
  ~ In k (map fst d) -> qs_insert k v d = d ++ [(k, [v])].
Proof.
  induction d as [|[k' vs] d IH]; simpl; [auto|]; intro Hn.
  rewrite (proj2 (ustr_eqb_neq k k')), IH; auto.
Qed.

Lemma parse_fold_distinct (l : list (ustr * ustr)) :
  forall d, NoDup (map fst l) -> (forall k, In k (map fst l) -> ~ In k (map fst d)) ->
  fold_left (fun d kv => qs_insert (fst kv) (snd kv) d) l d
  = d ++ map (fun kv => (fst kv, [snd kv])) l.
Proof.
  induction l as [|[k v] l IH]; intros d Hnd Hd; simpl; [rewrite app_nil_r; auto|].
  inversion Hnd as [|? ? Hk Hl]; subst.
  rewrite qs_insert_new by (apply Hd; left; auto).
  rewrite IH; [rewrite <- app_assoc; reflexivity|auto|].
  intros k' Hk' Hin; rewrite map_app, in_app_iff in Hin; destruct Hin as [Hin|[E|[]]].
  - apply (Hd k'); [right; auto|auto].
  - simpl in E; subst k'; contradiction.
Qed.

(** With distinct decoded names, the rebuilt query is determined by the
    retained (name, value) pairs. *)
Lemma clean_query_of_retained (q : ustr) :
  let r := filter (fun kv => negb (is_tracking (fst kv))) (parse_qsl q) in
  NoDup (map fst r) ->
  clean_query_of q = if is_nil r then []
                     else join [38] (map render_param
                                       (sort_by_key (map (fun kv => (fst kv, [snd kv])) r))).
Proof.
  intros r Hnd; unfold clean_query_of, parse_qs.
  rewrite filter_parse_fold; simpl filter.
  fold r; rewrite parse_fold_distinct; auto; simpl.
  destruct r; reflexivity.
Qed.

(** Reordering the retained pairs, or adding and removing pairs with a
    tracking name, leaves the rebuilt query unchanged. *)
Lemma clean_query_of_perm (q1 q2 : ustr) :
  NoDup (map fst (filter (fun kv => negb (is_tracking (fst kv))) (parse_qsl q1))) ->
  Permutation (filter (fun kv => negb (is_tracking (fst kv))) (parse_qsl q1))
              (filter (fun kv => negb (is_tracking (fst kv))) (parse_qsl q2)) ->
  clean_query_of q1 = clean_query_of q2.
Proof.
  intros Hnd HP.
  assert (Hnd2 : NoDup (map fst (filter (fun kv => negb (is_tracking (fst kv))) (parse_qsl q2))))
    by (apply (Permutation_NoDup (Permutation_map fst HP)); auto).
  rewrite (clean_query_of_retained q1 Hnd), (clean_query_of_retained q2 Hnd2).
  destruct (filter _ (parse_qsl q1)) as [|x1 r1] eqn:E1,
           (filter _ (parse_qsl q2)) as [|x2 r2] eqn:E2; cbn [is_nil]; auto.
  - apply Permutation_nil in HP; discriminate.
  - apply Permutation_sym, Permutation_nil in HP; discriminate.
  - f_equal; f_equal; apply sort_by_key_perm.
    + apply (Permutation_map (fun kv => (fst kv, [snd kv])) HP).
    + rewrite map_map; exact Hnd.
Qed.

(** ** Splitting a URL at its first [?] *)

Lemma lstrip_app_stop (p : N -> bool) (a r : ustr) (c : N) :
  p c = false -> lstrip_by p (a ++ c :: r) = lstrip_by p a ++ c :: r.
Proof.
  intro Hc; induction a as [|x a IH]; simpl; [rewrite Hc; auto|].
  destruct (p x); auto.
Qed.

Lemma in_lstrip (p : N -> bool) (s : ustr) (c : N) : In c (lstrip_by p s) -> In c s.
Proof. induction s as [|x s IH]; simpl; [auto|]; destruct (p x); auto. Qed.

Lemma find_char_lt (c : N) (a : ustr) (i : nat) : find_char c a = Some i -> (i < length a)%nat.
Proof.
  revert i; induction a as [|x a IH]; intro i; simpl; [discriminate|].
  destruct (c =? x); [intro H; injection H as <-; lia|].
  destruct (find_char c a) as [j|]; simpl; [|discriminate].
  intro H; injection H as <-; specialize (IH j eq_refl); lia.
Qed.

Lemma find_char_app (c : N) (a r : ustr) :
  find_char c (a ++ r) = match find_char c a with
                         | Some i => Some i
                         | None => option_map (Nat.add (length a)) (find_char c r)
                         end.
Proof.
  induction a as [|x a IH]; simpl.
  - destruct (find_char c r); reflexivity.
  - destruct (c =? x); [reflexivity|]; rewrite IH.
    destruct (find_char c a); [reflexivity|]; destruct (find_char c r); reflexivity.
Qed.

Lemma firstn_app_le (n : nat) (a r : ustr) : (n <= length a)%nat -> firstn n (a ++ r) = firstn n a.
Proof. intro H; rewrite firstn_app; replace (n - length a)%nat with 0%nat by lia; apply app_nil_r. Qed.

Lemma skipn_app_le (n : nat) (a r : ustr) : (n <= length a)%nat -> skipn n (a ++ r) = skipn n a ++ r.
Proof. intro H; rewrite skipn_app; replace (n - length a)%nat with 0%nat by lia; reflexivity. Qed.

Lemma in_skipn' (n : nat) (s : ustr) (c : N) : In c (skipn n s) -> In c s.
Proof. intro H; rewrite <- (firstn_skipn n s); apply in_or_app; right; exact H. Qed.

(** The scheme is read before the first [?]. *)
Lemma split_scheme_app (a r : ustr) :
  split_scheme (a ++ 63 :: r) = (fst (split_scheme a), snd (split_scheme a) ++ 63 :: r).
Proof.
  unfold split_scheme; rewrite find_char_app.
  destruct (find_char 58 a) as [i|] eqn:Ef.
  - pose proof (find_char_lt _ _ _ Ef) as Hi.
    destruct a as [|c0 a]; [simpl in Hi; lia|].
    rewrite (firstn_app_le i (c0 :: a)) by lia.
    rewrite (skipn_app_le (S i) (c0 :: a)) by lia.
    cbn [app].
    destruct ((0 <? i)%nat && is_ascii_alpha c0 && forallb is_scheme_char (firstn i (c0 :: a)));
      reflexivity.
  - simpl find_char at 1; cbn [N.eqb Pos.eqb].
    destruct (find_char 58 r) as [j|]; simpl option_map; [|destruct a; reflexivity].
    destruct a as [|c0 a]; [reflexivity|].
    rewrite <- app_comm_cons.
    assert (Hf : forallb is_scheme_char (firstn (length (c0 :: a) + S j) ((c0 :: a) ++ 63 :: r))
                 = false).
    { rewrite firstn_app, firstn_all2 by lia.
      replace (length (c0 :: a) + S j - length (c0 :: a))%nat with (S j) by lia.
      rewrite forallb_app; simpl firstn; simpl forallb.
      rewrite andb_false_r; reflexivity. }
    rewrite <- app_comm_cons in Hf; rewrite Hf, andb_false_r; reflexivity.
Qed.

Lemma in_split_scheme (s : ustr) (c : N) : In c (snd (split_scheme s)) -> In c s.
Proof.
  unfold split_scheme.
  destruct (find_char 58 s); [|auto].
  destruct s as [|c0 s']; [auto|].
  destruct (_ && _); simpl; [intro H; right; exact (in_skipn' _ s' c H)|auto].
Qed.

Lemma startswith_app_slashes (a r : ustr) :
  startswith (a ++ 63 :: r) [47; 47] = startswith a [47; 47].
Proof. destruct a as [|x [|y [|z a]]]; reflexivity. Qed.

Lemma startswith_length (s : ustr) : startswith s [47; 47] = true -> (2 <= length s)%nat.
Proof. destruct s as [|x [|y s]]; simpl; rewrite ?andb_false_r; try discriminate; lia. Qed.

Lemma span_until_app (p : N -> bool) (a r : ustr) (c : N) :
  p c = true ->
  span_until p (a ++ c :: r) = (fst (span_until p a), snd (span_until p a) ++ c :: r).
Proof.
  intro Hc; induction a as [|x a IH]; simpl; [rewrite Hc; auto|].
  destruct (p x); [reflexivity|]; rewrite IH.
  destruct (span_until p a); reflexivity.
Qed.

Lemma in_span_until (p : N -> bool) (s : ustr) (c : N) :
  (In c (fst (span_until p s)) \/ In c (snd (span_until p s))) -> In c s.
Proof.
  induction s as [|x s IH]; simpl; [tauto|].
  destruct (p x); simpl; [tauto|].
  destruct (span_until p s) as [u v] eqn:E; simpl in *; tauto.
Qed.

Lemma split_once_notin (c : N) (s : ustr) : ~ In c s -> split_once c s = None.
Proof.
  induction s as [|x s IH]; simpl; [auto|]; intro Hn.
  rewrite (proj2 (N.eqb_neq c x)) by (intro; subst; tauto).
  rewrite IH; auto.
Qed.

Lemma split_once_app (c : N) (a r : ustr) :
  ~ In c a -> split_once c (a ++ r) = option_map (fun '(l, r') => (a ++ l, r')) (split_once c r).
Proof.
  induction a as [|x a IH]; simpl; intro Hn.
  - destruct (split_once c r) as [[l r']|]; reflexivity.
  - rewrite (proj2 (N.eqb_neq c x)) by (intro; subst; tauto).
    rewrite IH by tauto.
    destruct (split_once c r) as [[l r']|]; reflexivity.
Qed.

Lemma filter_all (f : N -> bool) (s : ustr) : forallb f s = true -> filter f s = s.
Proof.
  induction s as [|x s IH]; simpl; [auto|].
  intro H; apply andb_true_iff in H as [H1 H2]; rewrite H1, IH; auto.
Qed.

Lemma split_frag (a2 q : ustr) (f : option ustr) :
  ~ In 35 a2 -> ~ In 35 q ->
  split_once 35 (a2 ++ 63 :: q ++ filter (fun c => negb (is_unsafe c))
                                    match f with None => [] | Some f => 35 :: f end)
  = match f with None => None
    | Some f' => Some (a2 ++ 63 :: q, filter (fun c => negb (is_unsafe c)) f') end.
Proof.
  intros H1 H2; rewrite split_once_app by exact H1; cbn [split_once N.eqb Pos.eqb].
  rewrite split_once_app by exact H2.
  destruct f as [f|]; simpl; [|reflexivity].
  rewrite app_nil_r; reflexivity.
Qed.

Lemma split_query (a2 q : ustr) : ~ In 63 a2 -> split_once 63 (a2 ++ 63 :: q) = Some (a2, q).
Proof.
  intro H; rewrite split_once_app by exact H; simpl; rewrite app_nil_r; reflexivity.
Qed.

Lemma urlsplit_query (p q : ustr) (f : option ustr) :
  ~ In 63 p -> ~ In 35 p -> ~ In 35 q ->
  forallb (fun c => negb (is_unsafe c)) q = true ->
  urlsplit (p ++ 63 :: q ++ match f with None => [] | Some f => 35 :: f end)
  = option_map (fun '(s, n, pa, _, _) =>
                  (s, n, pa, q, match f with None => []
                                | Some f => filter (fun c => negb (is_unsafe c)) f end))
               (urlsplit p).
Proof.
  intros Hq Hh Hqh Hqu.
  unfold urlsplit.
  rewrite lstrip_app_stop by reflexivity.
  rewrite filter_app.
  change (filter (fun c => negb (is_unsafe c)) (63 :: ?r)) with (63 :: filter (fun c => negb (is_unsafe c)) r).
  rewrite filter_app, (filter_all _ q Hqu).
  set (a := filter (fun c => negb (is_unsafe c)) (lstrip_by is_c0_or_space p)).
  assert (Ha : ~ In 63 a /\ ~ In 35 a).
  { split; intro H; apply filter_In in H as [H _]; apply in_lstrip in H; tauto. }
  rewrite split_scheme_app.
  destruct (split_scheme a) as [sch a1] eqn:Es; cbn [fst snd].
  assert (Ha1 : ~ In 63 a1 /\ ~ In 35 a1).
  { split; intro H; [apply (proj1 Ha)|apply (proj2 Ha)]; apply (in_split_scheme a); rewrite Es; exact H. }
  rewrite startswith_app_slashes.
  destruct (startswith a1 [47; 47]) eqn:Ess.
  - unfold splitnetloc.
    rewrite (skipn_app_le 2 a1) by (apply startswith_length; exact Ess).
    rewrite span_until_app by reflexivity.
    destruct (span_until is_netloc_delim (skipn 2 a1)) as [n a2] eqn:Esp; cbn [fst snd].
    assert (Ha2 : ~ In 63 a2 /\ ~ In 35 a2).
    { split; intro H; [apply (proj1 Ha1)|apply (proj2 Ha1)]; apply (in_skipn' 2);
        apply (in_span_until is_netloc_delim); rewrite Esp; right; exact H. }
    destruct (has_char 91 n && negb (has_char 93 n) || has_char 93 n && negb (has_char 91 n));
      [reflexivity|].
    destruct (has_char 91 n && has_char 93 n); [destruct (check_bracketed_netloc n); [|reflexivity]|];
      cbn [negb];
      rewrite split_frag, (split_once_notin 35 a2) by tauto;
      destruct f as [f|]; cbn [filter]; rewrite ?app_nil_r, split_query, (split_once_notin 63 a2) by tauto;
      destruct (checknetloc n); reflexivity.
  - rewrite split_frag, (split_once_notin 35 a1) by tauto; cbn [negb].
    destruct f as [f|]; cbn [filter]; rewrite ?app_nil_r, split_query, (split_once_notin 63 a1) by tauto;
      destruct (checknetloc []); reflexivity.
Qed.

Lemma canonicalize_url_query (p q : ustr) (f : option ustr) :
  ~ In 63 p -> ~ In 35 p -> ~ In 35 q ->
  forallb (fun c => negb (is_unsafe c)) q = true ->
  canonicalize_url (p ++ 63 :: q ++ match f with None => [] | Some f => 35 :: f end)
  = match urlparse p with
    | None => p ++ 63 :: q ++ match f with None => [] | Some f => 35 :: f end
    | Some (scheme, netloc, path, params, _, _) =>
        urlunparse (lower scheme) (lower netloc) path params (clean_query_of q) []
    end.
Proof.
  intros Hq Hh Hqh Hqu; unfold canonicalize_url.
  replace (is_nil (p ++ 63 :: q ++ _)) with false by (destruct p; reflexivity).
  unfold urlparse; rewrite urlsplit_query by assumption.
  destruct (urlsplit p) as [[[[[s n] pa] q0] f0]|]; [|reflexivity]; cbn [option_map].
  destruct (mem_str s uses_params && has_char 59 pa); [destruct (splitparams pa)|]; reflexivity.
Qed.

Lemma notin_of_existsb (c : N) (s : ustr) : existsb (N.eqb c) s = false -> ~ In c s.
Proof.
  intros H Hin; apply not_true_iff_false in H; apply H, existsb_exists.
  exists c; split; [exact Hin|apply N.eqb_refl].
Qed.

End UrlFacts.

Module UrlQ.
Import Url UrlFacts.
Open Scope N_scope.

Lemma split_scheme_app_c (c : N) (a r : ustr) :
  is_scheme_char c = false -> (58 =? c) = false ->
  split_scheme (a ++ c :: r) = (fst (split_scheme a), snd (split_scheme a) ++ c :: r).
Proof.
  intros Hsc H58.
  unfold split_scheme; rewrite find_char_app.
  destruct (find_char 58 a) as [i|] eqn:Ef.
  - pose proof (find_char_lt _ _ _ Ef) as Hi.
    destruct a as [|c0 a]; [simpl in Hi; lia|].
    rewrite (firstn_app_le i (c0 :: a)) by lia.
    rewrite (skipn_app_le (S i) (c0 :: a)) by lia.
    cbn [app].
    destruct ((0 <? i)%nat && is_ascii_alpha c0 && forallb is_scheme_char (firstn i (c0 :: a)));
      reflexivity.
  - cbn [find_char]; rewrite H58.
    destruct (find_char 58 r) as [j|]; simpl option_map; [|destruct a; reflexivity].
    assert (Halpha : is_ascii_alpha c = false)
      by (unfold is_scheme_char in Hsc; destruct (is_ascii_alpha c); [discriminate|reflexivity]).
    destruct a as [|c0 a]; [cbn [app length]; rewrite Halpha, andb_false_r; reflexivity|].
    rewrite <- app_comm_cons.
    assert (Hf : forallb is_scheme_char (firstn (length (c0 :: a) + S j) ((c0 :: a) ++ c :: r))
                 = false).
    { rewrite firstn_app, firstn_all2 by lia.
      replace (length (c0 :: a) + S j - length (c0 :: a))%nat with (S j) by lia.
      rewrite forallb_app; simpl firstn; simpl forallb.
      rewrite Hsc, andb_false_r; reflexivity. }
    rewrite <- app_comm_cons in Hf; rewrite Hf, andb_false_r; reflexivity.
Qed.

Lemma startswith_app_slashes_c (c : N) (a r : ustr) :
  (47 =? c) = false -> startswith (a ++ c :: r) [47; 47] = startswith a [47; 47].
Proof.
  intro H; destruct a as [|x [|y [|z a]]]; cbn [app startswith]; rewrite ?H, ?andb_false_r; reflexivity.
Qed.

Lemma in_split_once (c : N) (s l r : ustr) (x : N) :
  split_once c s = Some (l, r) -> (In x l \/ In x r) -> In x s.
Proof.
  revert l r; induction s as [|y s IH]; intros l r; simpl; [discriminate|].
  destruct (c =? y); [intro H; injection H as <- <-; simpl; tauto|].
  destruct (split_once c s) as [[l' r']|] eqn:E; simpl; [|discriminate].
  intro H; injection H as <- <-; simpl.
  intros [[<-|H]|H]; [left; reflexivity|right; apply (IH l' r'); auto|right; apply (IH l' r'); auto].
Qed.

(** A URL with no [?] has an empty query. *)
Lemma urlsplit_noq (p s n pa q f : ustr) :
  ~ In 63 p -> urlsplit p = Some (s, n, pa, q, f) -> q = [].
Proof.
  intro Hq; unfold urlsplit.
  set (a := filter (fun c => negb (is_unsafe c)) (lstrip_by is_c0_or_space p)).
  assert (Ha : ~ In 63 a) by (intro H; apply filter_In in H as [H _]; apply in_lstrip in H; tauto).
  clearbody a.
  destruct (split_scheme a) as [sch a1] eqn:Es.
  assert (Ha1 : ~ In 63 a1) by (intro H; apply Ha, (in_split_scheme a); rewrite Es; exact H).
  assert (Fin : forall (x nl : ustr), ~ In 63 x ->
            (let '(url, fragment) := match split_once 35 x with Some uf => uf | None => (x, []) end in
             let '(url, query) := match split_once 63 url with Some uq => uq | None => (url, []) end in
             if checknetloc nl then Some (sch, nl, url, query, fragment) else None)
            = Some (s, n, pa, q, f) -> q = []).
  { intros x nl Hx.
    destruct (split_once 35 x) as [[u fr]|] eqn:E35.
    - assert (Hu : ~ In 63 u) by (intro H; apply Hx, (in_split_once 35 x u fr); auto).
      rewrite (split_once_notin 63 u Hu).
      destruct (checknetloc nl); [intro H; injection H; auto|discriminate].
    - rewrite (split_once_notin 63 x Hx).
      destruct (checknetloc nl); [intro H; injection H; auto|discriminate]. }
  destruct (startswith a1 [47; 47]).
  - destruct (splitnetloc a1) as [nl a2] eqn:En.
    assert (Ha2 : ~ In 63 a2).
    { intro H; apply Ha1; unfold splitnetloc in En; apply (in_skipn' 2).
      apply (in_span_until is_netloc_delim); rewrite En; right; exact H. }
    destruct (has_char 91 nl && negb (has_char 93 nl) || has_char 93 nl && negb (has_char 91 nl));
      [discriminate|].
    destruct (has_char 91 nl && has_char 93 nl); [destruct (check_bracketed_netloc nl); [|discriminate]|];
      cbn [negb]; apply Fin; exact Ha2.
  - cbn [negb]; apply Fin; exact Ha1.
Qed.

(** The fragment does not affect the rest of the split. *)
Lemma urlsplit_frag (p f : ustr) :
  ~ In 35 p ->
  urlsplit (p ++ 35 :: f)
  = option_map (fun '(s, n, pa, q, _) => (s, n, pa, q, filter (fun c => negb (is_unsafe c)) f))
               (urlsplit p).
Proof.
  intro Hh.
  unfold urlsplit.
  rewrite lstrip_app_stop by reflexivity.
  rewrite filter_app.
  change (filter (fun c => negb (is_unsafe c)) (35 :: ?r)) with (35 :: filter (fun c => negb (is_unsafe c)) r).
  set (a := filter (fun c => negb (is_unsafe c)) (lstrip_by is_c0_or_space p)).
  set (f' := filter (fun c => negb (is_unsafe c)) f).
  assert (Ha : ~ In 35 a) by (intro H; apply filter_In in H as [H _]; apply in_lstrip in H; tauto).
  clearbody a f'.
  rewrite split_scheme_app_c by reflexivity.
  destruct (split_scheme a) as [sch a1] eqn:Es; cbn [fst snd].
  assert (Ha1 : ~ In 35 a1) by (intro H; apply Ha, (in_split_scheme a); rewrite Es; exact H).
  rewrite startswith_app_slashes_c by reflexivity.
  assert (Fin : forall x nl : ustr, ~ In 35 x ->
    (let '(url, fragment) := match split_once 35 (x ++ 35 :: f') with Some uf => uf | None => (x ++ 35 :: f', []) end in
     let '(url, query) := match split_once 63 url with Some uq => uq | None => (url, []) end in
     if checknetloc nl then Some (sch, nl, url, query, fragment) else None)
    = option_map (fun '(s, n, pa, q, _) => (s, n, pa, q, f'))
        (let '(url, fragment) := match split_once 35 x with Some uf => uf | None => (x, []) end in
         let '(url, query) := match split_once 63 url with Some uq => uq | None => (url, []) end in
         if checknetloc nl then Some (sch, nl, url, query, fragment) else None)).
  { intros x nl Hx.
    rewrite split_once_app by exact Hx; cbn [split_once N.eqb Pos.eqb option_map].
    rewrite app_nil_r, (split_once_notin 35 x Hx).
    destruct (split_once 63 x) as [[u q]|]; destruct (checknetloc nl); reflexivity. }
  destruct (startswith a1 [47; 47]) eqn:Ess.
  - unfold splitnetloc.
    rewrite (skipn_app_le 2 a1) by (apply startswith_length; exact Ess).
    rewrite span_until_app by reflexivity.
    destruct (span_until is_netloc_delim (skipn 2 a1)) as [n a2] eqn:Esp; cbn [fst snd].
    assert (Ha2 : ~ In 35 a2).
    { intro H; apply Ha1; apply (in_skipn' 2).
      apply (in_span_until is_netloc_delim); rewrite Esp; right; exact H. }
    destruct (has_char 91 n && negb (has_char 93 n) || has_char 93 n && negb (has_char 91 n));
      [reflexivity|].
    destruct (has_char 91 n && has_char 93 n); [destruct (check_bracketed_netloc n); [|reflexivity]|];
      cbn [negb]; apply Fin; exact Ha2.
  - cbn [negb]; apply Fin; exact Ha1.
Qed.

(** The optional query ([?q]) and fragment ([#f]) of a URL. *)
Definition qpart (oq : option ustr) : ustr := match oq with None => [] | Some q => 63 :: q end.
Definition fpart (f : option ustr) : ustr := match f with None => [] | Some f => 35 :: f end.
Definition query_of (oq : option ustr) : ustr := match oq with None => [] | Some q => q end.

Lemma canonicalize_url_opt (p : ustr) (oq f : option ustr) :
  ~ In 63 p -> ~ In 35 p -> ~ In 35 (query_of oq) ->
  forallb (fun c => negb (is_unsafe c)) (query_of oq) = true ->
  canonicalize_url (p ++ qpart oq ++ fpart f)
  = match urlparse p with
    | None => p ++ qpart oq ++ fpart f
    | Some (scheme, netloc, path, params, _, _) =>
        urlunparse (lower scheme) (lower netloc) path params (clean_query_of (query_of oq)) []
    end.
Proof.
  intros Hq Hh Hqh Hqu.
  destruct oq as [q|]; [apply canonicalize_url_query; assumption|].
  cbn [qpart query_of app] in *.
  destruct f as [f|]; cbn [fpart].
  - unfold canonicalize_url.
    replace (is_nil (p ++ 35 :: f)) with false by (destruct p; reflexivity).
    unfold urlparse; rewrite urlsplit_frag by exact Hh.
    destruct (urlsplit p) as [[[[[s n] pa] q0] f0]|] eqn:E; [|reflexivity]; cbn [option_map].
    rewrite (urlsplit_noq p s n pa q0 f0 Hq E).
    destruct (mem_str s uses_params && has_char 59 pa); [destruct (splitparams pa)|]; reflexivity.
  - rewrite app_nil_r; unfold canonicalize_url.
    destruct p as [|c p']; [reflexivity|]; cbn [is_nil].
    unfold urlparse.
    destruct (urlsplit (c :: p')) as [[[[[s n] pa] q0] f0]|] eqn:E; [|reflexivity].
    rewrite (urlsplit_noq _ s n pa q0 f0 Hq E).
    destruct (mem_str s uses_params && has_char 59 pa); [destruct (splitparams pa)|]; reflexivity.
Qed.

Lemma canonicalize_url_inv (p : ustr) (oq1 oq2 f1 f2 : option ustr) :
  ~ In 63 p -> ~ In 35 p -> ~ In 35 (query_of oq1) -> ~ In 35 (query_of oq2) ->
  forallb (fun c => negb (is_unsafe c)) (query_of oq1) = true ->
  forallb (fun c => negb (is_unsafe c)) (query_of oq2) = true ->
  urlparse p <> None ->
  NoDup (map fst (filter (fun kv => negb (is_tracking (fst kv))) (parse_qsl (query_of oq1)))) ->
  Permutation (filter (fun kv => negb (is_tracking (fst kv))) (parse_qsl (query_of oq1)))
              (filter (fun kv => negb (is_tracking (fst kv))) (parse_qsl (query_of oq2))) ->
  canonicalize_url (p ++ qpart oq1 ++ fpart f1) = canonicalize_url (p ++ qpart oq2 ++ fpart f2).
Proof.
  intros Hq Hh H1 H2 U1 U2 Hp Hnd HP.
  rewrite !canonicalize_url_opt by assumption.
  rewrite (clean_query_of_perm _ _ Hnd HP).
  destruct (urlparse p) as [[[[[[s n] pa] pr] q0] f0]|]; [reflexivity|contradiction].
Qed.

End UrlQ.

Module UrlIdem.
Import Url UrlFacts UrlQ LowerFacts DictFacts.
Open Scope N_scope.

(** ** Characters and indices *)

Lemma find_char_none (c : N) (s : ustr) : find_char c s = None <-> ~ In c s.
Proof.
  induction s as [|x s IH]; simpl; [tauto|].
  destruct (N.eqb_spec c x) as [E|E]; [subst; split; [discriminate|tauto]|].
  destruct (find_char c s) eqn:F; simpl.
  - split; [discriminate|]; intro H.
    assert (Hn : ~ In c s) by (intro H'; apply H; right; exact H').
    apply IH in Hn; discriminate.
  - split; [|reflexivity]; intros _ [H|H]; [congruence|].
    apply (proj1 IH eq_refl H).
Qed.

Lemma find_char_some (c : N) (s : ustr) (j : nat) :
  find_char c s = Some j -> exists s1 s2, s = s1 ++ c :: s2 /\ ~ In c s1 /\ length s1 = j.
Proof.
  revert j; induction s as [|x s IH]; intro j; simpl; [discriminate|].
  destruct (N.eqb_spec c x) as [E|E].
  - intro H; injection H as <-; subst; exists [], s; simpl; auto.
  - destruct (find_char c s) as [j'|]; simpl; [|discriminate].
    intro H; injection H as <-.
    destruct (IH j' eq_refl) as (s1 & s2 & -> & H1 & H2).
    exists (x :: s1), s2; simpl; split; [reflexivity|split; [intuition|lia]].
Qed.

Lemma find_char_at (c : N) (s1 s2 : ustr) :
  ~ In c s1 -> find_char c (s1 ++ c :: s2) = Some (length s1).
Proof.
  intro H; rewrite find_char_app, (proj2 (find_char_none c s1) H); simpl.
  rewrite N.eqb_refl; simpl; f_equal; lia.
Qed.

Lemma rfind_none (c : N) (s : ustr) : rfind c s = None <-> ~ In c s.
Proof.
  unfold rfind; destruct (find_char c (rev s)) eqn:E.
  - split; [discriminate|intro H; exfalso].
    destruct (find_char_some _ _ _ E) as (s1 & s2 & Hs & _).
    apply H, in_rev; rewrite Hs; apply in_or_app; right; left; reflexivity.
  - split; [intros _|reflexivity].
    intro H; apply (proj1 (find_char_none c (rev s)) E); apply (in_rev s); exact H.
Qed.

Lemma rfind_at (c : N) (s1 s2 : ustr) :
  ~ In c s2 -> rfind c (s1 ++ c :: s2) = Some (length s1).
Proof.
  intro H; unfold rfind.
  rewrite rev_app_distr; simpl; rewrite <- app_assoc; simpl.
  rewrite find_char_at by (intro Hin; apply H, in_rev; exact Hin).
  rewrite length_rev, length_app; simpl; f_equal; lia.
Qed.

Lemma rfind_some (c : N) (s : ustr) (k : nat) :
  rfind c s = Some k -> exists s1 s2, s = s1 ++ c :: s2 /\ ~ In c s2 /\ length s1 = k.
Proof.
  unfold rfind; destruct (find_char c (rev s)) as [j|] eqn:E; [|discriminate].
  intro H; injection H as <-.
  destruct (find_char_some _ _ _ E) as (r1 & r2 & Hr & H1 & H2).
  exists (rev r2), (rev r1).
  assert (Hs : s = rev r2 ++ c :: rev r1).
  { rewrite <- (rev_involutive s), Hr, rev_app_distr; simpl; rewrite <- app_assoc; reflexivity. }
  split; [exact Hs|split; [intro Hin; apply H1, in_rev; exact Hin|]].
  rewrite Hs, length_app; simpl; rewrite !length_rev; lia.
Qed.

(** ** [_splitparams] *)

(** The path and parameters put back together, as [urlunparse] does. *)
Definition join_params (pa : ustr * ustr) : ustr :=
  if is_nil (snd pa) then fst pa else fst pa ++ 59 :: snd pa.

Lemma split_at_char (p : ustr) (c : N) (a : ustr) :
  (firstn (length p) (p ++ c :: a), skipn (S (length p)) (p ++ c :: a)) = (p, a).
Proof.
  rewrite firstn_app, firstn_all2, Nat.sub_diag, app_nil_r by lia.
  rewrite skipn_app, skipn_all2 by lia.
  replace (Nat.sub (S (length p)) (length p)) with 1%nat by lia; reflexivity.
Qed.

Lemma skipn_at (u : ustr) (c : N) (w : ustr) : skipn (length u) (u ++ c :: w) = c :: w.
Proof. rewrite skipn_app, skipn_all2, Nat.sub_diag by lia; reflexivity. Qed.

Lemma find_char_slash (w : ustr) :
  find_char 59 (47 :: w) = option_map S (find_char 59 w).
Proof. reflexivity. Qed.

Lemma splitparams_cases (x : ustr) :
  splitparams x = (x, [])
  \/ exists p a, x = p ++ 59 :: a /\ splitparams x = (p, a) /\ splitparams p = (p, []).
Proof.
  unfold splitparams at 1.
  destruct (rfind 47 x) as [k|] eqn:Er.
  - destruct (rfind_some _ _ _ Er) as (u & w & -> & Hw & <-).
    rewrite skipn_at, find_char_slash.
    destruct (find_char 59 w) as [j|] eqn:Ef; cbn [option_map]; [|left; reflexivity].
    right; destruct (find_char_some _ _ _ Ef) as (w1 & w2 & -> & Hw1 & <-).
    exists (u ++ 47 :: w1), w2.
    assert (Hx : u ++ 47 :: w1 ++ 59 :: w2 = (u ++ 47 :: w1) ++ 59 :: w2)
      by (rewrite <- app_assoc; reflexivity).
    assert (Hi : Nat.add (length u) (S (length w1)) = length (u ++ 47 :: w1))
      by (rewrite length_app; simpl; lia).
    split; [exact Hx|split].
    + unfold splitparams; rewrite Er, skipn_at, find_char_slash, Ef; cbn [option_map].
      rewrite Hi, Hx; apply split_at_char.
    + unfold splitparams.
      rewrite rfind_at by (intro H; apply Hw, in_or_app; left; exact H).
      rewrite skipn_at, find_char_slash, (proj2 (find_char_none 59 w1) Hw1); reflexivity.
  - destruct (find_char 59 x) as [i|] eqn:Ef; [|left; reflexivity].
    right; destruct (find_char_some _ _ _ Ef) as (x1 & x2 & -> & Hx1 & <-).
    exists x1, x2; split; [reflexivity|split].
    + unfold splitparams; rewrite Er, Ef; apply split_at_char.
    + unfold splitparams.
      rewrite (proj2 (rfind_none 47 x1)).
      * rewrite (proj2 (find_char_none 59 x1) Hx1); reflexivity.
      * intro H; apply (proj1 (rfind_none 47 _) Er), in_or_app; left; exact H.
Qed.

(** Splitting off the parameters again changes nothing. *)
Lemma join_splitparams_idem (x : ustr) :
  join_params (splitparams (join_params (splitparams x))) = join_params (splitparams x).
Proof.
  destruct (splitparams_cases x) as [E|(p & a & Hx & E & Ep)]; rewrite E.
  - change (join_params (x, [])) with x; rewrite E; reflexivity.
  - destruct a as [|c a].
    + change (join_params (p, [])) with p; rewrite Ep; reflexivity.
    + change (join_params (p, c :: a)) with (p ++ 59 :: c :: a); rewrite <- Hx, E; exact (eq_sym Hx).
Qed.

Lemma splitparams_slash (x : ustr) :
  join_params (splitparams (47 :: x)) = 47 :: join_params (splitparams x).
Proof.
  unfold splitparams.
  assert (Hr : rfind 47 (47 :: x) = Some (match rfind 47 x with Some k => S k | None => 0%nat end)).
  { destruct (rfind 47 x) as [k|] eqn:E.
    - destruct (rfind_some _ _ _ E) as (u & w & -> & Hw & <-).
      change (47 :: u ++ 47 :: w) with ((47 :: u) ++ 47 :: w); rewrite rfind_at by exact Hw; reflexivity.
    - change (47 :: x) with ([] ++ 47 :: x); rewrite rfind_at; [reflexivity|].
      apply rfind_none, E. }
  rewrite Hr.
  destruct (rfind 47 x) as [k|] eqn:E.
  - change (skipn (S k) (47 :: x)) with (skipn k x).
    destruct (find_char 59 (skipn k x)) as [j|]; cbn [option_map]; unfold join_params; cbn [fst snd]; [|reflexivity].
    replace (S k + j)%nat with (S (k + j)) by lia.
    cbn [firstn skipn]; destruct (is_nil _); reflexivity.
  - cbn [skipn find_char N.eqb Pos.eqb].
    destruct (find_char 59 x) as [j|]; cbn [option_map]; unfold join_params; cbn [fst snd]; [|reflexivity].
    cbn [Nat.add firstn skipn]; destruct (is_nil _); reflexivity.
Qed.

(** ** The rebuilt query of a query without [%] *)

Lemma split_on_notin (c : N) (w : ustr) : ~ In c w -> split_on c w = [w].
Proof.
  induction w as [|d w IH]; intro H; simpl; [reflexivity|].
  rewrite IH by (intro H'; apply H; right; exact H').
  destruct (N.eqb_spec c d); [subst; exfalso; apply H; left; reflexivity|reflexivity].
Qed.

Lemma split_on_app (c : N) (w t : ustr) :
  ~ In c w -> split_on c (w ++ c :: t) = w :: split_on c t.
Proof.
  induction w as [|d w IH]; intro H; simpl.
  - rewrite N.eqb_refl; reflexivity.
  - rewrite IH by (intro H'; apply H; right; exact H').
    destruct (N.eqb_spec c d); [subst; exfalso; apply H; left; reflexivity|reflexivity].
Qed.

Lemma split_on_join (c : N) (ws : list ustr) :
  ws <> [] -> (forall w, In w ws -> ~ In c w) -> split_on c (join [c] ws) = ws.
Proof.
  induction ws as [|w ws IH]; intros Hne H; [congruence|].
  destruct ws as [|w' ws].
  - apply split_on_notin, H; left; reflexivity.
  - change (join [c] (w :: w' :: ws)) with (w ++ c :: join [c] (w' :: ws)).
    rewrite split_on_app by (apply H; left; reflexivity).
    rewrite IH; [reflexivity|discriminate|intros x Hx; apply H; right; exact Hx].
Qed.

Lemma in_split_on (c : N) (s w : ustr) :
  In w (split_on c s) -> ~ In c w /\ (forall x, In x w -> In x s).
Proof.
  revert w; induction s as [|d s IH]; intros w Hw; simpl in Hw.
  - destruct Hw as [<-|[]]; split; [intros []|intros x []].
  - destruct (N.eqb_spec c d) as [E|E].
    + destruct Hw as [<-|Hw]; [split; [intros []|intros x []]|].
      destruct (IH w Hw) as [H1 H2]; split; [exact H1|intros x Hx; right; auto].
    + destruct (split_on c s) as [|w1 ws] eqn:Es.
      * destruct Hw as [<-|[]]; split; [intros [H|[]]; congruence|].
        intros x [<-|[]]; left; reflexivity.
      * destruct Hw as [<-|Hw].
        -- destruct (IH w1 (or_introl eq_refl)) as [H1 H2].
           split; [intros [H|H]; [congruence|contradiction]|].
           intros x [<-|Hx]; [left; reflexivity|right; auto].
        -- destruct (IH w (or_intror Hw)) as [H1 H2]; split; [exact H1|].
           intros x Hx; right; auto.
Qed.

Lemma in_join (sep : ustr) (ws : list ustr) (c : N) :
  In c (join sep ws) -> In c sep \/ exists w, In w ws /\ In c w.
Proof.
  induction ws as [|w ws IH]; simpl; [intros []|].
  destruct ws as [|w' ws].
  - intro H; right; exists w; auto.
  - intro H; apply in_app_or in H; destruct H as [H|H]; [right; exists w; auto|].
    apply in_app_or in H; destruct H as [H|H]; [left; exact H|].
    destruct (IH H) as [H'|(x & Hx & Hc)]; [left; exact H'|right; exists x; auto].
Qed.

Lemma split_once_at (c : N) (a b : ustr) : ~ In c a -> split_once c (a ++ c :: b) = Some (a, b).
Proof.
  induction a as [|d a IH]; intro H; simpl; [rewrite N.eqb_refl; reflexivity|].
  rewrite IH by (intro H'; apply H; right; exact H').
  destruct (N.eqb_spec c d); [subst; exfalso; apply H; left; reflexivity|reflexivity].
Qed.

Lemma split_once_some (c : N) (s a b : ustr) :
  split_once c s = Some (a, b) -> s = a ++ c :: b /\ ~ In c a.
Proof.
  revert a b; induction s as [|d s IH]; intros a b; simpl; [discriminate|].
  destruct (N.eqb_spec c d) as [E|E].
  - intro H; injection H as <- <-; subst; split; [reflexivity|intros []].
  - destruct (split_once c s) as [[a' b']|]; simpl; [|discriminate].
    intro H; injection H as <- <-.
    destruct (IH a' b' eq_refl) as [-> H]; split; [reflexivity|].
    intros [H'|H']; [congruence|contradiction].
Qed.

Lemma in_replace_plus (x : ustr) (c : N) :
  In c (replace_char 43 [32] x) -> (In c x /\ c <> 43) \/ c = 32.
Proof.
  unfold replace_char; rewrite in_flat_map; intros (d & Hd & Hc).
  destruct (N.eqb_spec 43 d) as [E|E]; destruct Hc as [<-|[]]; [right; reflexivity|].
  left; split; [exact Hd|intro; congruence].
Qed.

Lemma replace_plus_nil (x : ustr) : x <> [] -> replace_char 43 [32] x <> [].
Proof.
  destruct x as [|d x]; [congruence|]; intros _; unfold replace_char; cbn [flat_map].
  destruct (43 =? d); cbn [app]; intro H; discriminate H.
Qed.

Lemma replace_plus_id (x : ustr) : ~ In 43 x -> replace_char 43 [32] x = x.
Proof.
  induction x as [|d x IH]; intro H; [reflexivity|].
  change (replace_char 43 [32] (d :: x)) with ((if 43 =? d then [32] else [d]) ++ replace_char 43 [32] x).
  rewrite IH by (intro H'; apply H; right; exact H').
  destruct (N.eqb_spec 43 d); [subst; exfalso; apply H; left; reflexivity|reflexivity].
Qed.

Lemma unquote_id (x : ustr) : ~ In 37 x -> unquote x = x.
Proof.
  intro H; unfold unquote, has_char.
  destruct (existsb (N.eqb 37) x) eqn:E; [|reflexivity].
  apply existsb_exists in E; destruct E as (d & Hd & E); apply N.eqb_eq in E; subst.
  contradiction.
Qed.

Lemma unquote_plus_plain (x : ustr) : ~ In 37 x -> unquote_plus x = replace_char 43 [32] x.
Proof.
  intro H; unfold unquote_plus; apply unquote_id.
  intro H'; apply in_replace_plus in H'; destruct H' as [[H1 _]|H1]; [contradiction|discriminate].
Qed.

(** A decoded (name, value) pair of a query [q] without [%]. *)
Definition qpair_ok (q : ustr) (k v : ustr) : Prop :=
  ~ In 38 k /\ ~ In 61 k /\ ~ In 43 k /\ ~ In 37 k
  /\ ~ In 38 v /\ ~ In 43 v /\ ~ In 37 v /\ v <> []
  /\ (forall c, In c k \/ In c v -> In c q \/ c = 32).

Lemma parse_qsl_ok (q : ustr) :
  ~ In 37 q -> forall kv, In kv (parse_qsl q) -> qpair_ok q (fst kv) (snd kv).
Proof.
  intros Hq kv Hkv; unfold parse_qsl in Hkv; apply in_flat_map in Hkv.
  destruct Hkv as (w & Hw & Hkv).
  assert (Hw' : ~ In 38 w /\ (forall x, In x w -> In x q)).
  { destruct (is_nil q); [destruct Hw|apply (in_split_on _ _ _ Hw)]. }
  destruct Hw' as [Hw38 Hwq].
  destruct (is_nil w); [destruct Hkv|].
  destruct (split_once 61 w) as [[n v]|] eqn:Es; [|destruct Hkv].
  destruct (split_once_some _ _ _ _ Es) as [-> Hn].
  destruct v as [|d v]; [destruct Hkv|]; cbn [is_nil] in Hkv.
  destruct Hkv as [<-|[]]; cbn [fst snd].
  assert (Hnq : forall x, In x n -> In x q) by (intros x Hx; apply Hwq, in_or_app; left; exact Hx).
  assert (Hvq : forall x, In x (d :: v) -> In x q)
    by (intros x Hx; apply Hwq, in_or_app; right; right; exact Hx).
  assert (Hn37 : ~ In 37 n) by (intro H; apply Hq, Hnq, H).
  assert (Hv37 : ~ In 37 (d :: v)) by (intro H; apply Hq, Hvq, H).
  rewrite !unquote_plus_plain by assumption.
  assert (Hn38 : ~ In 38 n) by (intro H; apply Hw38, in_or_app; left; exact H).
  assert (Hv38 : ~ In 38 (d :: v)) by (intro H; apply Hw38, in_or_app; right; right; exact H).
  repeat split.
  - intro H; apply in_replace_plus in H; destruct H as [[H _]|H]; [contradiction|discriminate].
  - intro H; apply in_replace_plus in H; destruct H as [[H _]|H]; [contradiction|discriminate].
  - intro H; apply in_replace_plus in H; destruct H as [[_ H]|H]; [congruence|discriminate].
  - intro H; apply in_replace_plus in H; destruct H as [[H _]|H]; [contradiction|discriminate].
  - intro H; apply in_replace_plus in H; destruct H as [[H _]|H]; [contradiction|discriminate].
  - intro H; apply in_replace_plus in H; destruct H as [[_ H]|H]; [congruence|discriminate].
  - intro H; apply in_replace_plus in H; destruct H as [[H _]|H]; [contradiction|discriminate].
  - apply replace_plus_nil; discriminate.
  - intros c [H|H]; apply in_replace_plus in H; destruct H as [[H _]|H]; auto.
Qed.

(** The dict [parse_qs] builds: distinct names, each with a nonempty list whose
    first value came with that name. *)
Definition dict_ok (P : ustr -> ustr -> Prop) (d : list (ustr * list ustr)) : Prop :=
  NoDup (map fst d) /\ forall k vs, In (k, vs) d -> vs <> [] /\ P k (hd [] vs).

Lemma in_keys_qs_insert (k v k' : ustr) (d : list (ustr * list ustr)) :
  In k' (map fst (qs_insert k v d)) -> k' = k \/ In k' (map fst d).
Proof.
  induction d as [|[k0 vs] d IH]; simpl; [intros [<-|[]]; auto|].
  destruct (ustr_eqb k k0); simpl; intros [H|H]; auto.
  destruct (IH H); auto.
Qed.

Lemma dict_ok_qs_insert (P : ustr -> ustr -> Prop) (k v : ustr) (d : list (ustr * list ustr)) :
  P k v -> dict_ok P d -> dict_ok P (qs_insert k v d).
Proof.
  intros Hp; induction d as [|[k0 vs] d IH]; intros [Hnd Hd]; simpl.
  - split; [constructor; [intros []|constructor]|].
    intros k' vs' [E|[]]; injection E as <- <-; split; [discriminate|exact Hp].
  - inversion Hnd as [|? ? Hk0 Hnd']; subst.
    destruct (ustr_eqb k k0) eqn:E.
    + split; [exact Hnd|].
      intros k' vs' [E'|H]; [|apply Hd; right; exact H].
      injection E' as <- <-.
      destruct (Hd k0 vs (or_introl eq_refl)) as [Hne Hv].
      split; [destruct vs; simpl; congruence|].
      destruct vs; [congruence|exact Hv].
    + assert (IH' : dict_ok P (qs_insert k v d))
        by (apply IH; split; [exact Hnd'|intros k' vs' H; apply Hd; right; exact H]).
      destruct IH' as [Hnd2 Hd2]; split.
      * simpl; constructor; [|exact Hnd2].
        intro H; apply in_keys_qs_insert in H; destruct H as [H|H]; [|contradiction].
        subst; rewrite ustr_eqb_refl in E; discriminate.
      * intros k' vs' [E'|H]; [injection E' as <- <-; apply Hd; left; reflexivity|].
        apply Hd2, H.
Qed.

Lemma dict_ok_fold (P : ustr -> ustr -> Prop) (l : list (ustr * ustr)) :
  forall d, (forall kv, In kv l -> P (fst kv) (snd kv)) -> dict_ok P d ->
  dict_ok P (fold_left (fun d kv => qs_insert (fst kv) (snd kv) d) l d).
Proof.
  induction l as [|kv l IH]; intros d Hl Hd; simpl; [exact Hd|].
  apply IH; [intros kv' H; apply Hl; right; exact H|].
  apply dict_ok_qs_insert; [apply Hl; left; reflexivity|exact Hd].
Qed.

Lemma NoDup_map_filter {A B} (f : A -> B) (g : A -> bool) (l : list A) :
  NoDup (map f l) -> NoDup (map f (filter g l)).
Proof.
  induction l as [|x l IH]; simpl; intro H; [constructor|].
  inversion H as [|? ? Hx Hl]; subst.
  destruct (g x); simpl; [constructor; [|auto]|auto].
  intro Hin; apply Hx; apply in_map_iff in Hin; destruct Hin as (y & Hy & Hin).
  apply filter_In in Hin; rewrite <- Hy; apply in_map, Hin.
Qed.

Lemma filter_true {A} (f : A -> bool) (l : list A) :
  (forall x, In x l -> f x = true) -> filter f l = l.
Proof.
  induction l as [|x l IH]; simpl; intro H; [reflexivity|].
  rewrite H by (left; reflexivity); rewrite IH; auto.
Qed.

Section Sorted.

Context {A : Type}.

Definition key_lt (x y : ustr * A) : Prop := ltb (fst x) (fst y) = true.

Lemma in_insert_by_key (x z : ustr * A) (l : list (ustr * A)) :
  In z (insert_by_key x l) -> z = x \/ In z l.
Proof.
  induction l as [|y l IH]; simpl; [intros [H|[]]; auto|].
  destruct (ltb (fst y) (fst x)); simpl; intros [H|H]; auto.
  destruct (IH H); auto.
Qed.

Lemma insert_by_key_perm (x : ustr * A) (l : list (ustr * A)) :
  Permutation (x :: l) (insert_by_key x l).
Proof.
  induction l as [|y l IH]; simpl; [reflexivity|].
  destruct (ltb (fst y) (fst x)); [|reflexivity].
  rewrite perm_swap; constructor; exact IH.
Qed.

Lemma sort_by_key_permutation (l : list (ustr * A)) : Permutation l (sort_by_key l).
Proof.
  induction l as [|x l IH]; simpl; [reflexivity|].
  rewrite <- insert_by_key_perm; constructor; exact IH.
Qed.

Lemma insert_by_key_sorted (x : ustr * A) (l : list (ustr * A)) :
  StronglySorted key_lt l -> ~ In (fst x) (map fst l) -> StronglySorted key_lt (insert_by_key x l).
Proof.
  induction l as [|y l IH]; intros Hs Hx; simpl.
  - repeat constructor.
  - inversion Hs as [|? ? Hs' Hy]; subst.
    destruct (ltb (fst y) (fst x)) eqn:E.
    + constructor; [apply IH; [exact Hs'|intro H; apply Hx; right; exact H]|].
      apply Forall_forall; intros z Hz; apply in_insert_by_key in Hz.
      destruct Hz as [->|Hz]; [exact E|].
      rewrite Forall_forall in Hy; apply Hy, Hz.
    + assert (Hxy : ltb (fst x) (fst y) = true).
      { destruct (ltb_total (fst x) (fst y)) as [H|H]; [|exact H|congruence].
        intro H; apply Hx; left; symmetry; exact H. }
      constructor; [exact Hs|].
      constructor; [exact Hxy|].
      rewrite Forall_forall in Hy |- *; intros z Hz.
      apply (ltb_trans _ _ _ Hxy (Hy z Hz)).
Qed.

Lemma sort_by_key_sorted (l : list (ustr * A)) :
  NoDup (map fst l) -> StronglySorted key_lt (sort_by_key l).
Proof.
  induction l as [|x l IH]; simpl; intro H; [constructor|].
  inversion H as [|? ? Hx Hl]; subst.
  apply insert_by_key_sorted; [apply IH, Hl|].
  intro Hin; apply Hx.
  apply (Permutation_in _ (Permutation_sym (Permutation_map fst (sort_by_key_permutation l)))).
  exact Hin.
Qed.

Lemma sort_by_key_id (l : list (ustr * A)) : StronglySorted key_lt l -> sort_by_key l = l.
Proof.
  induction l as [|x l IH]; intro H; [reflexivity|].
  inversion H as [|? ? Hs Hx]; subst.
  change (sort_by_key (x :: l)) with (insert_by_key x (sort_by_key l)); rewrite IH by exact Hs.
  destruct l as [|y l]; [reflexivity|]; simpl.
  inversion Hx as [|? ? Hxy _]; subst; unfold key_lt in Hxy.
  rewrite (ltb_asym _ _ Hxy); reflexivity.
Qed.

End Sorted.

Lemma StronglySorted_map_key {A B} (f : ustr * A -> ustr * B) (l : list (ustr * A)) :
  (forall x, fst (f x) = fst x) -> StronglySorted key_lt l -> StronglySorted key_lt (map f l).
Proof.
  intros Hf; induction l as [|x l IH]; intro H; simpl; [constructor|].
  inversion H as [|? ? Hs Hx]; subst; constructor; [apply IH, Hs|].
  apply Forall_map; rewrite Forall_forall in Hx |- *; intros y Hy.
  unfold key_lt; rewrite !Hf; apply Hx, Hy.
Qed.

Lemma parse_qsl_render (q : ustr) (l : list (ustr * ustr)) :
  l <> [] -> (forall kv, In kv l -> qpair_ok q (fst kv) (snd kv)) ->
  parse_qsl (join [38] (map (fun kv => fst kv ++ [61] ++ snd kv) l)) = l.
Proof.
  intros Hne Hl; unfold parse_qsl.
  assert (Hj : is_nil (join [38] (map (fun kv => fst kv ++ [61] ++ snd kv) l)) = false).
  { destruct l as [|[k v] l]; [congruence|].
    destruct l as [|kv' l]; cbn [map join]; destruct k; reflexivity. }
  rewrite Hj, split_on_join.
  - clear Hne Hj; induction l as [|[k v] l IH]; [reflexivity|].
    destruct (Hl (k, v) (or_introl eq_refl)) as (Hk38 & Hk61 & Hk43 & Hk37 & Hv38 & Hv43 & Hv37 & Hv & _).
    cbn [fst snd map flat_map app] in *.
    assert (Hnil : is_nil (k ++ 61 :: v) = false) by (destruct k; reflexivity).
    rewrite Hnil, split_once_at by exact Hk61.
    destruct v as [|d v]; [congruence|]; cbn [is_nil].
    rewrite !unquote_plus_plain, !replace_plus_id by assumption.
    rewrite IH by (intros kv H; apply Hl; right; exact H); reflexivity.
  - destruct l; [congruence|discriminate].
  - intros w Hw; apply in_map_iff in Hw; destruct Hw as ([k v] & <- & Hkv).
    destruct (Hl _ Hkv) as (Hk38 & _ & _ & _ & Hv38 & _); cbn [fst snd].
    intro H; apply in_app_or in H; destruct H as [H|[H|H]]; [contradiction|discriminate|contradiction].
Qed.

(** The dict [parse_qs q] of a query without [%], and the pairs
    [canonicalize_url] keeps from it. *)
Lemma parse_qs_ok (q : ustr) :
  ~ In 37 q -> dict_ok (qpair_ok q) (parse_qs q).
Proof.
  intro Hq; unfold parse_qs; apply dict_ok_fold.
  - intros kv Hkv; apply parse_qsl_ok; assumption.
  - split; [constructor|intros k vs []].
Qed.

Lemma retained_ok (q : ustr) :
  ~ In 37 q ->
  let S := sort_by_key (filter (fun kv => negb (is_tracking (fst kv))) (parse_qs q)) in
  NoDup (map fst S) /\ StronglySorted key_lt S
  /\ forall kv, In kv S -> is_tracking (fst kv) = false /\ snd kv <> []
                           /\ qpair_ok q (fst kv) (hd [] (snd kv)).
Proof.
  intros Hq S; destruct (parse_qs_ok q Hq) as [Hnd Hd].
  assert (Hnd' : NoDup (map fst (filter (fun kv => negb (is_tracking (fst kv))) (parse_qs q))))
    by (apply NoDup_map_filter, Hnd).
  split; [|split].
  - apply (Permutation_NoDup (Permutation_map fst (sort_by_key_permutation _)) Hnd').
  - apply sort_by_key_sorted, Hnd'.
  - intros [k vs] Hkv.
    apply (Permutation_in _ (Permutation_sym (sort_by_key_permutation _))) in Hkv.
    apply filter_In in Hkv; destruct Hkv as [Hkv Ht]; cbn [fst snd] in *.
    destruct (Hd k vs Hkv); split; [destruct (is_tracking k); [discriminate|reflexivity]|].
    split; assumption.
Qed.

Lemma clean_query_of_nil : clean_query_of [] = [].
Proof. reflexivity. Qed.

(** Without [%] in the query, rebuilding the query a second time changes
    nothing. *)
Lemma clean_query_idem (q : ustr) :
  ~ In 37 q -> clean_query_of (clean_query_of q) = clean_query_of q.
Proof.
  intro Hq; destruct (retained_ok q Hq) as (Hnd & Hs & Hkv).
  unfold clean_query_of at 2 3.
  set (L := filter (fun kv => negb (is_tracking (fst kv))) (parse_qs q)) in *.
  set (S := sort_by_key L) in *.
  destruct L as [|x L'] eqn:EL; cbn [is_nil]; [apply clean_query_of_nil|].
  assert (HS : S <> []).
  { intro E; pose proof (sort_by_key_permutation (x :: L')) as P; fold S in P.
    rewrite E in P; apply Permutation_sym, Permutation_nil in P; discriminate. }
  set (g := fun kv : ustr * list ustr => (fst kv, hd [] (snd kv))).
  assert (HR : map render_param S = map (fun kv => fst kv ++ [61] ++ snd kv) (map g S))
    by (rewrite map_map; reflexivity).
  rewrite HR.
  unfold clean_query_of; unfold parse_qs.
  rewrite parse_qsl_render with (q := q).
  2: { destruct S; [congruence|discriminate]. }
  2: { intros kv H; apply in_map_iff in H; destruct H as (y & <- & Hy).
       apply (Hkv y Hy). }
  rewrite (parse_fold_distinct (map g S) []).
  2: { rewrite map_map; exact Hnd. }
  2: { intros k _ []. }
  cbn [app].
  rewrite filter_true.
  2: { intros y Hy; apply in_map_iff in Hy; destruct Hy as (y' & <- & Hy').
       apply in_map_iff in Hy'; destruct Hy' as (z & <- & Hz).
       destruct (Hkv z Hz) as [Ht _]; cbn [fst g]; rewrite Ht; reflexivity. }
  destruct S as [|z S'] eqn:ES; [congruence|cbn [map is_nil]].
  rewrite sort_by_key_id.
  - cbn [map]; rewrite map_map; reflexivity.
  - change (StronglySorted key_lt (map (fun kv => (fst kv, [snd kv])) (map g (z :: S')))).
    rewrite map_map; apply StronglySorted_map_key; [reflexivity|exact Hs].
Qed.

Lemma in_clean_query (q : ustr) (c : N) :
  ~ In 37 q -> In c (clean_query_of q) -> In c q \/ c = 32 \/ c = 38 \/ c = 61.
Proof.
  intros Hq H; destruct (retained_ok q Hq) as (_ & _ & Hkv).
  unfold clean_query_of in H.
  destruct (is_nil _); [destruct H|].
  apply in_join in H; destruct H as [[H|[]]|(w & Hw & Hc)]; [right; right; left; auto|].
  apply in_map_iff in Hw; destruct Hw as ([k vs] & <- & Hin).
  destruct (Hkv _ Hin) as (_ & _ & (_ & _ & _ & _ & _ & _ & _ & _ & Hsrc)); cbn [fst snd] in *.
  unfold render_param in Hc; cbn [fst snd] in Hc.
  apply in_app_or in Hc; destruct Hc as [Hc|[Hc|Hc]].
  - destruct (Hsrc c (or_introl Hc)); auto.
  - auto.
  - destruct (Hsrc c (or_intror Hc)); auto.
Qed.

(** ** The parts [urlsplit] returns *)

Definition sub (x y : ustr) : Prop := forall c, In c x -> In c y.

Lemma scheme_char_table :
  forallb (fun n => let c := N.of_nat n in
                    implb (is_scheme_char c) (is_scheme_char (ascii_lower c))
                    && implb (is_ascii_alpha c) (is_ascii_alpha (ascii_lower c)))
          (seq 0 128) = true.
Proof. vm_compute; reflexivity. Qed.

Lemma scheme_char_ascii (c : N) : is_scheme_char c = true -> c < 128.
Proof.
  unfold is_scheme_char, is_ascii_alpha, is_digit; intro H.
  rewrite !orb_true_iff, !andb_true_iff, !N.leb_le, !N.eqb_eq in H; lia.
Qed.

Lemma scheme_char_lower (c : N) :
  is_scheme_char c = true ->
  is_scheme_char (ascii_lower c) = true
  /\ (is_ascii_alpha c = true -> is_ascii_alpha (ascii_lower c) = true).
Proof.
  intro H; pose proof (scheme_char_ascii c H) as Hc.
  pose proof scheme_char_table as T; rewrite forallb_forall in T.
  specialize (T (N.to_nat c)); rewrite N2Nat.id in T.
  assert (Hin : In (N.to_nat c) (seq 0 128)) by (apply in_seq; lia).
  specialize (T Hin); apply andb_true_iff in T as [T1 T2].
  rewrite H in T1; split; [exact T1|intro Ha; rewrite Ha in T2; exact T2].
Qed.

Lemma split_scheme_shape (x : ustr) :
  split_scheme x = ([], x)
  \/ (fst (split_scheme x) <> [] /\ is_ascii_alpha (hd 0 (fst (split_scheme x))) = true
      /\ forallb is_scheme_char (fst (split_scheme x)) = true
      /\ lower (fst (split_scheme x)) = fst (split_scheme x)).
Proof.
  unfold split_scheme.
  destruct (find_char 58 x) as [i|]; [|left; reflexivity].
  destruct x as [|c0 x']; [left; reflexivity|].
  destruct ((0 <? i)%nat && is_ascii_alpha c0 && forallb is_scheme_char (firstn i (c0 :: x'))) eqn:Hc;
    [right|left; reflexivity].
  apply andb_true_iff in Hc as [Hc Hs]; apply andb_true_iff in Hc as [Hi Ha].
  apply Nat.ltb_lt in Hi; cbn [fst].
  destruct i as [|i]; [lia|]; cbn [firstn] in *.
  assert (Hascii : forallb (fun c => c <? 128) (c0 :: firstn i x') = true).
  { rewrite forallb_forall in Hs |- *; intros c Hcin; apply N.ltb_lt, scheme_char_ascii, Hs, Hcin. }
  assert (Hl : lower (c0 :: firstn i x') = map ascii_lower (c0 :: firstn i x'))
    by (apply lower_aux_ascii, Hascii).
  rewrite Hl.
  split; [discriminate|split; [|split]].
  - apply andb_true_iff in Hs as [Hs0 _]; apply (proj2 (scheme_char_lower c0 Hs0)), Ha.
  - rewrite forallb_forall in Hs |- *; intros c Hcin; apply in_map_iff in Hcin.
    destruct Hcin as (d & <- & Hd); apply (proj1 (scheme_char_lower d (Hs d Hd))).
  - rewrite <- Hl; apply lower_idem.
Qed.

Lemma split_scheme_nonalpha (x : ustr) :
  (x = [] \/ is_ascii_alpha (hd 0 x) = false) -> split_scheme x = ([], x).
Proof.
  intro H; unfold split_scheme.
  destruct (find_char 58 x); [|reflexivity].
  destruct x as [|c0 x]; [reflexivity|].
  destruct H as [H|H]; [discriminate|cbn [hd] in H]; rewrite H, andb_false_r; reflexivity.
Qed.

Lemma split_once_none (c : N) (s : ustr) : split_once c s = None -> ~ In c s.
Proof.
  induction s as [|d s IH]; simpl; [intros _ []|].
  destruct (N.eqb_spec c d) as [E|E]; [discriminate|].
  destruct (split_once c s); [discriminate|]; intros _ [H|H]; [congruence|apply IH; auto].
Qed.

(** The path and query are read off the rest of the URL up to the first [#]
    and [?]. *)
Lemma tail_shape (rest p0 q fr : ustr) :
  (let '(url, fragment) := match split_once 35 rest with Some uf => uf | None => (rest, []) end in
   let '(url, query) := match split_once 63 url with Some uq => uq | None => (url, []) end in
   (url, query, fragment)) = (p0, q, fr) ->
  (exists t, rest = p0 ++ t /\ (t = [] \/ exists c t', t = c :: t' /\ (c = 35 \/ c = 63)))
  /\ ~ In 35 p0 /\ ~ In 63 p0 /\ ~ In 35 q /\ sub p0 rest /\ sub q rest.
Proof.
  assert (H63 : forall r, ~ In 35 r ->
    (let '(url, query) := match split_once 63 r with Some uq => uq | None => (r, []) end in
     (url, query)) = (p0, q) ->
    (exists t, r = p0 ++ t /\ (t = [] \/ exists c t', t = c :: t' /\ (c = 35 \/ c = 63)))
    /\ ~ In 35 p0 /\ ~ In 63 p0 /\ ~ In 35 q /\ sub p0 r /\ sub q r).
  { intros r Hr.
    destruct (split_once 63 r) as [[a b]|] eqn:E; intro H; injection H as <- <-.
    - destruct (split_once_some _ _ _ _ E) as [-> Ha].
      split; [exists (63 :: b); split; [reflexivity|right; exists 63, b; auto]|].
      split; [intro H; apply Hr, in_or_app; left; exact H|].
      split; [exact Ha|split; [intro H; apply Hr, in_or_app; right; right; exact H|]].
      split; intros c Hc; apply in_or_app; [left|right; right]; exact Hc.
    - split; [exists []; rewrite app_nil_r; auto|].
      split; [exact Hr|split; [apply split_once_none, E|split; [intros []|]]].
      split; [intros c Hc; exact Hc|intros c []]. }
  destruct (split_once 35 rest) as [[a fr']|] eqn:E.
  - destruct (split_once_some _ _ _ _ E) as [-> Ha].
    destruct (split_once 63 a) as [[p0' q']|] eqn:E63; intro H; injection H as <- <- <-;
      (destruct (H63 a Ha) as ((t & Ht & Hts) & H1 & H2 & H3 & H4 & H5); [rewrite E63; reflexivity|]).
    + split; [exists (t ++ 35 :: fr'); split; [rewrite app_assoc, <- Ht; reflexivity|]|].
      * destruct Hts as [->|(c & t' & -> & Hc)]; right; [exists 35, fr'; auto|exists c, (t' ++ 35 :: fr'); auto].
      * split; [exact H1|split; [exact H2|split; [exact H3|split]]];
          intros c Hc; apply in_or_app; left; auto.
    + split; [exists (t ++ 35 :: fr'); split; [rewrite app_assoc, <- Ht; reflexivity|]|].
      * destruct Hts as [->|(c & t' & -> & Hc)]; right; [exists 35, fr'; auto|exists c, (t' ++ 35 :: fr'); auto].
      * split; [exact H1|split; [exact H2|split; [exact H3|split]]];
          intros c Hc; apply in_or_app; left; auto.
  - intro H; apply (H63 rest (split_once_none _ _ E)).
    destruct (split_once 63 rest) as [[a b]|]; injection H as <- <- <-; reflexivity.
Qed.

Lemma span_until_fst (p : N -> bool) (s : ustr) (c : N) :
  In c (fst (span_until p s)) -> p c = false.
Proof.
  induction s as [|x s IH]; simpl; [intros []|].
  destruct (p x) eqn:E; [intros []|].
  destruct (span_until p s) as [a b]; cbn [fst] in *; intros [<-|H]; auto.
Qed.

Lemma span_until_nil (p : N -> bool) (s : ustr) :
  fst (span_until p s) = [] -> snd (span_until p s) = s /\ (s = [] \/ p (hd 0 s) = true).
Proof.
  destruct s as [|x s]; simpl; [auto|].
  destruct (p x) eqn:E; [auto|]; destruct (span_until p s); discriminate.
Qed.

Lemma lstrip_head (s : ustr) : lstrip_by is_c0_or_space s = [] \/ 32 < hd 0 (lstrip_by is_c0_or_space s).
Proof.
  induction s as [|x s IH]; simpl; [auto|].
  destruct (is_c0_or_space x) eqn:E; [exact IH|right].
  unfold is_c0_or_space in E; apply N.leb_gt in E; exact E.
Qed.

(** What the parts of a successful [urlsplit] look like. *)
Lemma urlsplit_shape (u s n p0 q fr : ustr) :
  urlsplit u = Some (s, n, p0, q, fr) ->
  (s = [] \/ (is_ascii_alpha (hd 0 s) = true /\ forallb is_scheme_char s = true /\ lower s = s))
  /\ (forall c, In c n -> is_netloc_delim c = false /\ is_unsafe c = false)
  /\ ~ In 63 p0 /\ ~ In 35 p0 /\ (forall c, In c p0 -> is_unsafe c = false)
  /\ ~ In 35 q /\ (forall c, In c q -> is_unsafe c = false)
  /\ (s = [] -> n = [] -> split_scheme p0 = ([], p0) /\ (p0 = [] \/ 32 < hd 0 p0)).
Proof.
  unfold urlsplit.
  set (U := filter (fun c => negb (is_unsafe c)) (lstrip_by is_c0_or_space u)).
  assert (HU : forall c, In c U -> is_unsafe c = false).
  { intros c H; apply filter_In in H as [_ H]; destruct (is_unsafe c); [discriminate|reflexivity]. }
  assert (HU1 : U = [] \/ 32 < hd 0 U).
  { unfold U; destruct (lstrip_head u) as [E|E]; [rewrite E; left; reflexivity|].
    destruct (lstrip_by is_c0_or_space u) as [|x r]; [left; reflexivity|]; cbn [hd] in E.
    cbn [filter]; unfold is_unsafe.
    rewrite (proj2 (N.eqb_neq x 9)), (proj2 (N.eqb_neq x 10)), (proj2 (N.eqb_neq x 13)) by lia.
    right; exact E. }
  clearbody U.
  pose proof (split_scheme_shape U) as Hshape.
  assert (Hr1 := in_split_scheme U).
  destruct (split_scheme U) as [s0 r1] eqn:Es'; cbn [fst snd] in *.
  assert (Fin : forall rest nl, sub rest U ->
    (let '(url, fragment) := match split_once 35 rest with Some uf => uf | None => (rest, []) end in
     let '(url, query) := match split_once 63 url with Some uq => uq | None => (url, []) end in
     if checknetloc nl then Some (s0, nl, url, query, fragment) else None) = Some (s, n, p0, q, fr) ->
    s0 = s /\ nl = n
    /\ (exists t, rest = p0 ++ t /\ (t = [] \/ exists c t', t = c :: t' /\ (c = 35 \/ c = 63)))
    /\ ~ In 35 p0 /\ ~ In 63 p0 /\ ~ In 35 q /\ (forall c, In c p0 -> is_unsafe c = false)
    /\ (forall c, In c q -> is_unsafe c = false)).
  { intros rest nl Hrest H;
    assert (Ht := tail_shape rest);
    destruct (split_once 35 rest) as [[a b]|];
    [destruct (split_once 63 a) as [[a' b']|]|destruct (split_once 63 rest) as [[a' b']|]];
    (destruct (checknetloc nl); [injection H as <- <- <- <- <-|discriminate]);
    (edestruct Ht as (Ht1 & Ht2 & Ht3 & Ht4 & Ht5 & Ht6); [reflexivity|]);
    repeat split; auto; intros c Hc; apply HU, Hrest; auto. }
  assert (Hsch : s0 = [] \/ (is_ascii_alpha (hd 0 s0) = true /\ forallb is_scheme_char s0 = true
                             /\ lower s0 = s0))
    by (destruct Hshape as [E|(_ & ? & ? & ?)]; [injection E as -> _; left; reflexivity|right; auto]).
  destruct (startswith r1 [47; 47]) eqn:Ess.
  - destruct (splitnetloc r1) as [nl rest] eqn:En.
    assert (Hnl : forall c, In c nl -> is_netloc_delim c = false)
      by (intros c Hc; apply (span_until_fst _ (skipn 2 r1)); unfold splitnetloc in En; rewrite En; exact Hc).
    assert (Hsub : sub nl U /\ sub rest U).
    { split; intros c Hc; apply Hr1, (in_skipn' 2), (in_span_until is_netloc_delim);
        unfold splitnetloc in En; rewrite En; auto. }
    destruct Hsub as [Hsubn Hsubr].
    destruct (has_char 91 nl && negb (has_char 93 nl) || has_char 93 nl && negb (has_char 91 nl));
      [discriminate|].
    match goal with |- _ -> ?C => assert (K : (let '(url, fragment) := match split_once 35 rest with Some uf => uf | None => (rest, []) end in
       let '(url, query) := match split_once 63 url with Some uq => uq | None => (url, []) end in
       if checknetloc nl then Some (s0, nl, url, query, fragment) else None) = Some (s, n, p0, q, fr) ->
       C) end.
    2: { destruct (has_char 91 nl && has_char 93 nl);
         [destruct (check_bracketed_netloc nl); [|discriminate]|]; cbn [negb]; exact K. }
    intro H; apply Fin in H; [|exact Hsubr].
    destruct H as (<- & <- & (t & Ht & Hts) & H1 & H2 & H3 & H4 & H5).
    split; [exact Hsch|split; [intros c Hc; split; [apply Hnl, Hc|apply HU, Hsubn, Hc]|]].
    repeat (split; [assumption|]).
    intros -> ->.
    unfold splitnetloc in En; pose proof (span_until_nil is_netloc_delim (skipn 2 r1)) as Hn.
    rewrite En in Hn; destruct (Hn eq_refl) as [Hrest Hd]; clear Hn; cbn [snd] in Hrest.
    rewrite <- Hrest in Hd.
    destruct p0 as [|e p0]; [split; [reflexivity|left; reflexivity]|].
    destruct Hd as [Hd|Hd]; [rewrite Ht in Hd; discriminate|].
    rewrite Ht in Hd; cbn [hd app] in Hd.
    assert (He : e = 47).
    { unfold is_netloc_delim in Hd; rewrite !orb_true_iff, !N.eqb_eq in Hd.
      destruct Hd as [[Hd|Hd]|Hd]; [exact Hd| |]; subst; exfalso; [apply H2|apply H1]; left; reflexivity. }
    subst e; split; [apply split_scheme_nonalpha; right; reflexivity|right; cbn [hd]; lia].
  - cbn [negb]; intro H; apply Fin in H; [|exact Hr1].
    destruct H as (<- & <- & (t & Ht & Hts) & H1 & H2 & H3 & H4 & H5).
    split; [exact Hsch|split; [intros c []|]].
    repeat (split; [assumption|]).
    intros -> _.
    destruct Hshape as [E|(Hne & _)]; [|exfalso; apply Hne; reflexivity].
    injection E as ->.
    assert (Hsp : split_scheme p0 = ([], p0)).
    { destruct Hts as [->|(c & t' & -> & Hc)].
      - rewrite app_nil_r in Ht; subst; exact Es'.
      - rewrite Ht, split_scheme_app_c in Es' by (destruct Hc; subst; reflexivity).
        destruct (split_scheme_shape p0) as [E|(Hne & _)]; [exact E|].
        injection Es' as E _; contradiction. }
    split; [exact Hsp|].
    destruct p0 as [|e p0]; [left; reflexivity|right].
    destruct HU1 as [HU1|HU1]; rewrite Ht in HU1; [discriminate|exact HU1].
Qed.

(** ** The URL [canonicalize_url] rebuilds, split again *)

(** The parameter step of [urlparse]. *)
Definition split_params (scheme path : ustr) : ustr * ustr :=
  if mem_str scheme uses_params && has_char 59 path then splitparams path else (path, []).

Lemma join_split_params_idem (s x : ustr) :
  join_params (split_params s (join_params (split_params s x))) = join_params (split_params s x).
Proof.
  unfold split_params; destruct (mem_str s uses_params); cbn [andb]; [|reflexivity].
  destruct (has_char 59 x) eqn:H59.
  - destruct (has_char 59 (join_params (splitparams x))); [apply join_splitparams_idem|reflexivity].
  - change (join_params (x, [])) with x; rewrite H59; reflexivity.
Qed.

Lemma join_split_params_prefix (s x : ustr) :
  join_params (split_params s x) = x \/ exists a, x = join_params (split_params s x) ++ 59 :: a.
Proof.
  unfold split_params; destruct (mem_str s uses_params && has_char 59 x); [|left; reflexivity].
  destruct (splitparams_cases x) as [E|(p & a & Hx & E & _)]; rewrite E; [left; reflexivity|].
  destruct a as [|c a]; [right; exists []; exact Hx|left; symmetry; exact Hx].
Qed.

Lemma join_split_params_slash (s x : ustr) :
  join_params (split_params s (47 :: x)) = 47 :: join_params (split_params s x).
Proof.
  unfold split_params; change (has_char 59 (47 :: x)) with (has_char 59 x).
  destruct (mem_str s uses_params && has_char 59 x); [apply splitparams_slash|reflexivity].
Qed.

Lemma startswith_join_params (p a : ustr) :
  startswith (join_params (p, a)) [47; 47] = startswith p [47; 47].
Proof.
  unfold join_params; cbn [fst snd]; destruct a; cbn [is_nil]; [reflexivity|].
  apply startswith_app_slashes_c; reflexivity.
Qed.

(** The steps of [urlunsplit] with an empty fragment. *)
Definition unsplit_pre (scheme netloc url : ustr) : bool :=
  negb (is_nil netloc)
  || (negb (is_nil scheme) && mem_str scheme uses_netloc && negb (startswith url [47; 47])).

Definition unsplit_slash (url : ustr) : ustr :=
  if negb (is_nil url) && negb (startswith url [47]) then 47 :: url else url.

Definition unsplit_path (scheme netloc url : ustr) : ustr :=
  if unsplit_pre scheme netloc url then [47; 47] ++ netloc ++ unsplit_slash url else url.

Definition unsplit_query (query : ustr) : ustr := if is_nil query then [] else 63 :: query.

Lemma urlunsplit_parts (scheme netloc url query : ustr) :
  urlunsplit scheme netloc url query []
  = (if is_nil scheme then unsplit_path scheme netloc url
     else scheme ++ 58 :: unsplit_path scheme netloc url) ++ unsplit_query query.
Proof.
  unfold urlunsplit, unsplit_path, unsplit_pre, unsplit_slash, unsplit_query.
  destruct (is_nil scheme), (is_nil query); cbn [is_nil]; rewrite ?app_nil_r; reflexivity.
Qed.

Lemma lstrip_id (x : ustr) : (x = [] \/ 32 < hd 0 x) -> lstrip_by is_c0_or_space x = x.
Proof.
  destruct x as [|c x]; [reflexivity|]; intros [H|H]; [discriminate|cbn [hd] in H].
  simpl; unfold is_c0_or_space; rewrite (proj2 (N.leb_gt c 32) H); reflexivity.
Qed.

Lemma split_scheme_scheme (S r : ustr) :
  S <> [] -> is_ascii_alpha (hd 0 S) = true -> forallb is_scheme_char S = true -> lower S = S ->
  split_scheme (S ++ 58 :: r) = (S, r).
Proof.
  intros Hne Ha Hs Hl.
  assert (H58 : ~ In 58 S).
  { intro H; rewrite forallb_forall in Hs; specialize (Hs 58 H); discriminate. }
  unfold split_scheme; rewrite find_char_at by exact H58.
  destruct S as [|c0 S']; [congruence|]; cbn [hd] in Ha.
  rewrite <- app_comm_cons.
  replace (firstn (length (c0 :: S')) (c0 :: S' ++ 58 :: r)) with (c0 :: S')
    by (rewrite app_comm_cons, firstn_app, firstn_all2, Nat.sub_diag, app_nil_r by lia; reflexivity).
  rewrite Ha, Hs; cbn [length Nat.ltb Nat.leb andb].
  rewrite Hl; f_equal.
  change (skipn (S (length (c0 :: S'))) ((c0 :: S') ++ 58 :: r) = r).
  rewrite skipn_app, skipn_all2 by (simpl; lia).
  replace (S (length (c0 :: S')) - length (c0 :: S'))%nat with 1%nat by lia; reflexivity.
Qed.

Lemma span_until_prefix (p : N -> bool) (a b : ustr) :
  (forall c, In c a -> p c = false) -> (b = [] \/ p (hd 0 b) = true) ->
  span_until p (a ++ b) = (a, b).
Proof.
  intros Ha Hb; induction a as [|c a IH]; simpl.
  - destruct b as [|d b]; [reflexivity|]; destruct Hb as [Hb|Hb]; [discriminate|].
    cbn [hd] in Hb; simpl; rewrite Hb; reflexivity.
  - rewrite (Ha c (or_introl eq_refl)), IH by (intros x Hx; apply Ha; right; exact Hx).
    reflexivity.
Qed.

Lemma scheme_char_safe (c : N) : is_scheme_char c = true -> is_unsafe c = false /\ 32 < c.
Proof.
  unfold is_scheme_char, is_ascii_alpha, is_digit, is_unsafe; intro H.
  rewrite !orb_true_iff, !andb_true_iff, !N.leb_le, !N.eqb_eq in H.
  split; [|lia].
  destruct (N.eqb_spec c 9), (N.eqb_spec c 10), (N.eqb_spec c 13); cbn [orb]; try lia; reflexivity.
Qed.

Lemma in_unsplit_slash (Pa : ustr) (c : N) : In c (unsplit_slash Pa) -> c = 47 \/ In c Pa.
Proof.
  unfold unsplit_slash; destruct (negb (is_nil Pa) && negb (startswith Pa [47])); [|auto].
  intros [H|H]; auto.
Qed.

Lemma unsplit_slash_head (Pa : ustr) : unsplit_slash Pa = [] \/ hd 0 (unsplit_slash Pa) = 47.
Proof.
  unfold unsplit_slash; destruct Pa as [|c Pa]; [left; reflexivity|right]; cbn [is_nil negb andb].
  destruct (startswith (c :: Pa) [47]) eqn:E; [|reflexivity].
  cbn [startswith] in E; apply andb_true_iff in E as [E _]; apply N.eqb_eq in E; cbn [negb hd]; auto.
Qed.

(** Splitting the URL that [urlunsplit] builds from parts that [urlsplit]
    could have returned gives those parts back, up to the [/] that
    [urlunsplit] puts before a relative path after a netloc, unless the
    netloc checks fail. *)
Lemma urlsplit_rebuilt (Sc Nl Pa Qu : ustr) :
  (Sc = [] \/ (is_ascii_alpha (hd 0 Sc) = true /\ forallb is_scheme_char Sc = true /\ lower Sc = Sc)) ->
  (forall c, In c Nl -> is_netloc_delim c = false /\ is_unsafe c = false) ->
  ~ In 63 Pa -> ~ In 35 Pa -> (forall c, In c Pa -> is_unsafe c = false) ->
  ~ In 35 Qu -> (forall c, In c Qu -> is_unsafe c = false) ->
  (unsplit_pre Sc Nl Pa = false ->
   startswith Pa [47; 47] = false
   /\ (Sc = [] -> split_scheme Pa = ([], Pa) /\ (Pa = [] \/ 32 < hd 0 Pa))) ->
  urlsplit (urlunsplit Sc Nl Pa Qu []) = None
  \/ urlsplit (urlunsplit Sc Nl Pa Qu [])
     = Some (Sc, Nl, if unsplit_pre Sc Nl Pa then unsplit_slash Pa else Pa, Qu, []).
Proof.
  intros HS HN HP63 HP35 HPu HQ35 HQu Hnp.
  rewrite urlunsplit_parts.
  set (Pa2 := if unsplit_pre Sc Nl Pa then unsplit_slash Pa else Pa).
  set (T := Pa2 ++ unsplit_query Qu).
  set (R := unsplit_path Sc Nl Pa ++ unsplit_query Qu).
  assert (HPa2 : forall c, In c Pa2 -> c = 47 \/ In c Pa).
  { intros c Hc; unfold Pa2 in Hc; destruct (unsplit_pre Sc Nl Pa); [apply in_unsplit_slash, Hc|auto]. }
  assert (HT35 : ~ In 35 T).
  { unfold T, unsplit_query; intro H; apply in_app_or in H; destruct H as [H|H].
    - destruct (HPa2 _ H) as [E|E]; [discriminate|contradiction].
    - destruct (is_nil Qu); [destruct H|destruct H as [H|H]; [discriminate|contradiction]]. }
  assert (HP263 : ~ In 63 Pa2) by (intro H; destruct (HPa2 _ H) as [E|E]; [discriminate|contradiction]).
  assert (Tail : forall nl,
    (let '(url, fragment) := match split_once 35 T with Some uf => uf | None => (T, []) end in
     let '(url, query) := match split_once 63 url with Some uq => uq | None => (url, []) end in
     if checknetloc nl then Some (Sc, nl, url, query, fragment) else None)
    = if checknetloc nl then Some (Sc, nl, Pa2, Qu, []) else None).
  { intro nl; rewrite (split_once_notin 35 T HT35).
    unfold T, unsplit_query; destruct Qu as [|d Qu'] eqn:EQ; cbn [is_nil].
    - rewrite app_nil_r, (split_once_notin 63 Pa2 HP263); reflexivity.
    - rewrite split_query by exact HP263; reflexivity. }
  assert (HR : R = (if unsplit_pre Sc Nl Pa then [47; 47] ++ Nl ++ T else T)).
  { unfold R, T, Pa2, unsplit_path; destruct (unsplit_pre Sc Nl Pa); [rewrite <- !app_assoc|]; reflexivity. }
  assert (Hc1 : (if is_nil Sc then unsplit_path Sc Nl Pa else Sc ++ 58 :: unsplit_path Sc Nl Pa)
                ++ unsplit_query Qu = if is_nil Sc then R else Sc ++ 58 :: R)
    by (destruct (is_nil Sc); [reflexivity|rewrite <- app_assoc; reflexivity]).
  rewrite Hc1.
  (* the characters and the first character *)
  assert (HRu : forall c, In c R -> is_unsafe c = false).
  { intros c Hc; rewrite HR in Hc.
    assert (HTu : forall c, In c T -> is_unsafe c = false).
    { intros x Hx; unfold T, unsplit_query in Hx; apply in_app_or in Hx; destruct Hx as [Hx|Hx].
      - destruct (HPa2 _ Hx) as [->|Hx']; [reflexivity|apply HPu, Hx'].
      - destruct (is_nil Qu); [destruct Hx|destruct Hx as [<-|Hx]; [reflexivity|apply HQu, Hx]]. }
    destruct (unsplit_pre Sc Nl Pa); [|apply HTu, Hc].
    cbn [app] in Hc; destruct Hc as [<-|[<-|Hc]]; [reflexivity|reflexivity|].
    apply in_app_or in Hc; destruct Hc as [Hc|Hc]; [apply HN, Hc|apply HTu, Hc]. }
  assert (HRhd : Sc = [] -> R = [] \/ 32 < hd 0 R).
  { intros ->; rewrite HR; destruct (unsplit_pre [] Nl Pa) eqn:Epre; [right; cbn; lia|].
    destruct (Hnp eq_refl) as [_ Hh]; destruct (Hh eq_refl) as [_ [HP|HP]].
    - unfold T, Pa2; try rewrite Epre; cbv iota; rewrite HP; unfold unsplit_query; destruct (is_nil Qu); [left|right; cbn; lia];
        reflexivity.
    - unfold T, Pa2; try rewrite Epre; cbv iota; destruct Pa as [|c Pa']; [cbn in HP; lia|right; exact HP]. }
  unfold urlsplit.
  set (c1 := if is_nil Sc then R else Sc ++ 58 :: R).
  assert (Hs1 : filter (fun c => negb (is_unsafe c)) (lstrip_by is_c0_or_space c1) = c1).
  { destruct HS as [->|(Ha & Hs & Hl)].
    - unfold c1; cbn [is_nil]; rewrite lstrip_id by (apply HRhd; reflexivity).
      apply filter_all, forallb_forall; intros c Hc; rewrite HRu by exact Hc; reflexivity.
    - destruct Sc as [|c0 Sc'] eqn:ES; unfold c1; cbn [is_nil].
      + rewrite lstrip_id by (apply HRhd; reflexivity).
        apply filter_all, forallb_forall; intros c Hc; rewrite HRu by exact Hc; reflexivity.
      + rewrite lstrip_id by (right; apply (scheme_char_safe c0);
          cbn [forallb] in Hs; apply andb_true_iff in Hs as [Hs _]; exact Hs).
        apply filter_all, forallb_forall; intros c Hc.
        apply in_app_or in Hc; destruct Hc as [Hc|[<-|Hc]]; [|reflexivity|rewrite HRu by exact Hc; reflexivity].
        rewrite forallb_forall in Hs; rewrite (proj1 (scheme_char_safe c (Hs c Hc))); reflexivity. }
  rewrite Hs1.
  assert (Hsc : split_scheme c1 = (Sc, R)).
  { unfold c1; destruct HS as [->|(Ha & Hs & Hl)].
    - cbn [is_nil]; rewrite HR; destruct (unsplit_pre [] Nl Pa) eqn:Epre.
      + apply split_scheme_nonalpha; right; reflexivity.
      + destruct (Hnp eq_refl) as [_ Hh]; destruct (Hh eq_refl) as [Hsp _].
        unfold T, Pa2; try rewrite Epre; cbv iota; unfold unsplit_query; destruct (is_nil Qu).
        * rewrite app_nil_r; exact Hsp.
        * rewrite split_scheme_app_c by reflexivity; rewrite Hsp; reflexivity.
    - destruct Sc as [|c0 Sc'] eqn:ES; cbn [is_nil].
      + rewrite HR; destruct (unsplit_pre [] Nl Pa) eqn:Epre.
        * apply split_scheme_nonalpha; right; reflexivity.
        * destruct (Hnp eq_refl) as [_ Hh]; destruct (Hh eq_refl) as [Hsp _].
          unfold T, Pa2; try rewrite Epre; cbv iota; unfold unsplit_query; destruct (is_nil Qu).
          -- rewrite app_nil_r; exact Hsp.
          -- rewrite split_scheme_app_c by reflexivity; rewrite Hsp; reflexivity.
      + apply split_scheme_scheme; [discriminate|exact Ha|exact Hs|exact Hl]. }
  rewrite Hsc.
  rewrite HR; destruct (unsplit_pre Sc Nl Pa) eqn:Epre.
  - assert (Hst : startswith ([47; 47] ++ Nl ++ T) [47; 47] = true) by (cbn [app]; destruct (Nl ++ T); reflexivity).
    rewrite Hst.
    assert (En : splitnetloc ([47; 47] ++ Nl ++ T) = (Nl, T)).
    { unfold splitnetloc; cbn [app skipn]; apply span_until_prefix; [intros c Hc; apply HN, Hc|].
      unfold T, Pa2; try rewrite Epre; cbv iota.
      destruct (unsplit_slash_head Pa) as [E|E]; rewrite ?E.
      - unfold unsplit_query; destruct (is_nil Qu); [left; reflexivity|right; reflexivity].
      - destruct (unsplit_slash Pa); [discriminate|cbn [hd app] in E |- *; rewrite E; right; reflexivity]. }
    rewrite En.
    destruct (has_char 91 Nl && negb (has_char 93 Nl) || has_char 93 Nl && negb (has_char 91 Nl));
      [left; reflexivity|].
    destruct (has_char 91 Nl && has_char 93 Nl); [destruct (check_bracketed_netloc Nl); [|left; reflexivity]|];
      cbn [negb]; rewrite Tail; destruct (checknetloc Nl); auto.
  - destruct (Hnp eq_refl) as [Hss _].
    assert (Hst : startswith T [47; 47] = false).
    { unfold T, Pa2; try rewrite Epre; cbv iota; unfold unsplit_query; destruct (is_nil Qu).
      - rewrite app_nil_r; exact Hss.
      - rewrite startswith_app_slashes_c by reflexivity; exact Hss. }
    rewrite Hst; cbn [negb].
    rewrite Tail.
    assert (HNnil : Nl = []) by (unfold unsplit_pre in Epre; destruct Nl; [reflexivity|discriminate]).
    rewrite HNnil; cbn [checknetloc]; right; reflexivity.
Qed.

Lemma urlparse_split (u s n p a q fr : ustr) :
  urlparse u = Some (s, n, p, a, q, fr) ->
  exists p0, urlsplit u = Some (s, n, p0, q, fr) /\ split_params s p0 = (p, a).
Proof.
  unfold urlparse.
  destruct (urlsplit u) as [[[[[s' n'] p0] q'] f']|]; [|discriminate].
  fold (split_params s' p0); destruct (split_params s' p0) as [p' a'] eqn:E.
  intro H; injection H as <- <- <- <- <- <-; exists p0; auto.
Qed.

Lemma canonicalize_url_fixed (c : ustr) :
  match urlparse c with
  | None => True
  | Some (scheme, netloc, path, params, query, _) =>
      urlunparse (lower scheme) (lower netloc) path params (clean_query_of query) [] = c
  end -> canonicalize_url c = c.
Proof.
  unfold canonicalize_url; destruct c as [|x c]; [reflexivity|]; cbn [is_nil].
  destruct (urlparse (x :: c)) as [[[[[[? ?] ?] ?] ?] ?]|]; auto.
Qed.

Lemma urlunparse_join (scheme netloc path params query : ustr) :
  urlunparse scheme netloc path params query [] = urlunsplit scheme netloc (join_params (path, params)) query [].
Proof. reflexivity. Qed.

Lemma unsplit_path_slash (Sc Nl Pa : ustr) :
  unsplit_pre Sc Nl Pa = true -> Pa <> [] -> startswith Pa [47] = false ->
  unsplit_path Sc Nl (47 :: Pa) = unsplit_path Sc Nl Pa.
Proof.
  intros Hpre Hne Hs.
  assert (Hpre' : unsplit_pre Sc Nl (47 :: Pa) = true).
  { unfold unsplit_pre in *; destruct (is_nil Nl); [|reflexivity]; cbn [negb orb] in *.
    replace (startswith (47 :: Pa) [47; 47]) with (startswith Pa [47]) by reflexivity.
    rewrite Hs; rewrite andb_true_r.
    apply andb_true_iff in Hpre as [Hpre _]; exact Hpre. }
  unfold unsplit_path; rewrite Hpre, Hpre'; unfold unsplit_slash.
  destruct Pa as [|c Pa]; [congruence|]; rewrite Hs; reflexivity.
Qed.

Lemma sub_join_split_params (s x : ustr) : sub (join_params (split_params s x)) x.
Proof.
  intros c Hc; destruct (join_split_params_prefix s x) as [E|(a & E)].
  - rewrite E in Hc; exact Hc.
  - rewrite E; apply in_or_app; left; exact Hc.
Qed.

(** Canonicalizing a canonical URL changes nothing, when the query has no
    [%] escape and the URL does not have an empty netloc before a path
    starting with [//]. *)
Lemma canonicalize_url_idem (u : ustr) :
  (forall scheme netloc path params query fragment,
     urlparse u = Some (scheme, netloc, path, params, query, fragment) ->
     ~ In 37 query /\ (netloc <> [] \/ startswith path [47; 47] = false)) ->
  canonicalize_url (canonicalize_url u) = canonicalize_url u.
Proof.
  intro Hyp; unfold canonicalize_url at 2 3.
  destruct (is_nil u) eqn:Eu; [reflexivity|].
  destruct (urlparse u) as [[[[[[s n] p] a] q] fr]|] eqn:Ep.
  2: { apply canonicalize_url_fixed; rewrite Ep; exact I. }
  destruct (Hyp _ _ _ _ _ _ eq_refl) as [Hq37 Hpath].
  destruct (urlparse_split _ _ _ _ _ _ _ Ep) as (p0 & Es & Hsp).
  destruct (urlsplit_shape _ _ _ _ _ _ Es)
    as (HS & HN & Hp63 & Hp35 & Hpu & Hq35 & Hqu & HE).
  assert (HSc : lower s = s).
  { destruct HS as [->|(_ & _ & H)]; [reflexivity|exact H]. }
  set (Pa := join_params (p, a)).
  assert (HPa : Pa = join_params (split_params s p0)) by (unfold Pa; rewrite Hsp; reflexivity).
  assert (HPsub : sub Pa p0) by (rewrite HPa; apply sub_join_split_params).
  rewrite urlunparse_join; fold Pa.
  apply canonicalize_url_fixed.
  destruct (urlsplit_rebuilt (lower s) (lower n) Pa (clean_query_of q)) as [E|E].
  - rewrite HSc; exact HS.
  - intros c Hc; destruct (N.lt_ge_cases c 97) as [Hlt|Hge].
    + apply HN, (in_lower_low c n Hlt Hc).
    + unfold is_netloc_delim, is_unsafe.
      rewrite (proj2 (N.eqb_neq c 47)), (proj2 (N.eqb_neq c 63)), (proj2 (N.eqb_neq c 35)),
        (proj2 (N.eqb_neq c 9)), (proj2 (N.eqb_neq c 10)), (proj2 (N.eqb_neq c 13)) by lia.
      split; reflexivity.
  - intro H; apply Hp63, HPsub, H.
  - intro H; apply Hp35, HPsub, H.
  - intros c Hc; apply Hpu, HPsub, Hc.
  - intro H; destruct (in_clean_query q 35 Hq37 H) as [H'|[H'|[H'|H']]]; [contradiction|discriminate..].
  - intros c Hc; destruct (in_clean_query q c Hq37 Hc) as [H'|[ -> |[ -> | -> ]]]; [apply Hqu, H'|reflexivity..].
  - intro Hpre; unfold unsplit_pre in Hpre.
    apply orb_false_iff in Hpre as [Hn Hrest].
    assert (Hn0 : n = []) by (apply lower_nil; destruct (lower n); [reflexivity|discriminate]).
    split.
    + destruct Hpath as [Hpath|Hpath]; [contradiction|].
      unfold Pa; rewrite startswith_join_params; exact Hpath.
    + intro Hs0; assert (Hs : s = []) by (apply lower_nil, Hs0).
      destruct (HE Hs Hn0) as [Hsp0 Hhd].
      destruct (join_split_params_prefix s p0) as [E|(a' & E)]; rewrite <- HPa in E.
      * rewrite E; split; [exact Hsp0|exact Hhd].
      * split.
        -- rewrite E, split_scheme_app_c in Hsp0 by reflexivity.
           destruct (split_scheme_shape Pa) as [E'|(Hne & _)]; [exact E'|].
           injection Hsp0 as E' _; contradiction.
        -- destruct Pa as [|c Pa']; [left; reflexivity|right].
           rewrite E in Hhd; destruct Hhd as [Hhd|Hhd]; [discriminate|exact Hhd].
  - unfold urlparse; rewrite E; exact I.
  - unfold urlparse; rewrite E; fold (split_params (lower s) (if unsplit_pre (lower s) (lower n) Pa then unsplit_slash Pa else Pa)).
    destruct (split_params (lower s) (if unsplit_pre (lower s) (lower n) Pa then unsplit_slash Pa else Pa))
      as [p2 a2] eqn:E2.
    rewrite !lower_idem, clean_query_idem by exact Hq37.
    rewrite urlunparse_join, <- E2, !urlunsplit_parts.
    rewrite HSc in *.
    assert (Hfix : join_params (split_params s Pa) = Pa)
      by (rewrite HPa; apply join_split_params_idem).
    destruct (unsplit_pre s (lower n) Pa) eqn:Epre; [|rewrite Hfix; reflexivity].
    assert (Hcases : unsplit_slash Pa = Pa \/
      (unsplit_slash Pa = 47 :: Pa /\ Pa <> [] /\ startswith Pa [47] = false)).
    { unfold unsplit_slash; destruct Pa as [|c Pa']; [left; reflexivity|].
      cbn [is_nil negb andb]; destruct (startswith (c :: Pa') [47]) eqn:Ec; [left; reflexivity|].
      right; split; [reflexivity|split; [discriminate|reflexivity]]. }
    destruct Hcases as [Hc|(Hc & Hne & Hsl)]; rewrite Hc; [rewrite Hfix; reflexivity|].
    rewrite join_split_params_slash, Hfix.
    rewrite unsplit_path_slash; [reflexivity|exact Epre|exact Hne|exact Hsl].
Qed.

End UrlIdem.


Module UrlSpec.

Import Url UrlFacts UrlQ UrlIdem.

(** C5 (amended). Idempotence: canonicalizing a canonical URL changes
    nothing, provided the query of the URL has no [%] escape (unquoting
    twice would decode it twice) and the URL does not combine an empty
    netloc with a path starting with [//] (re-parsing would read a netloc
    there). Invariance: for a URL [p], [p?q] or [p?q#f] whose part [p]
    holds no [?] or [#] and parses, with a query of safe characters, the
    canonical form depends on the query only through its retained pairs,
    the decoded (name, value) pairs with a non-empty value and a name that,
    lower-cased, is not one of the ten tracking names. Reordering them
    (names distinct), adding or removing pairs with a tracking name,
    dropping the whole query, and changing or dropping the fragment leave
    the canonical URL unchanged. *)
Theorem canonicalize_url_spec :
  (forall u : ustr,
     (forall scheme netloc path params query fragment,
        urlparse u = Some (scheme, netloc, path, params, query, fragment) ->
        ~ In 37 query /\ (netloc <> [] \/ startswith path [47; 47] = false)) ->
     canonicalize_url (canonicalize_url u) = canonicalize_url u)
  /\ (forall (p : ustr) (oq1 oq2 f1 f2 : option ustr),
     ~ In 63 p -> ~ In 35 p -> ~ In 35 (query_of oq1) -> ~ In 35 (query_of oq2) ->
     forallb (fun c => negb (is_unsafe c)) (query_of oq1) = true ->
     forallb (fun c => negb (is_unsafe c)) (query_of oq2) = true ->
     urlparse p <> None ->
     NoDup (map fst (filter (fun kv => negb (is_tracking (fst kv))) (parse_qsl (query_of oq1)))) ->
     Permutation (filter (fun kv => negb (is_tracking (fst kv))) (parse_qsl (query_of oq1)))
                 (filter (fun kv => negb (is_tracking (fst kv))) (parse_qsl (query_of oq2))) ->
     canonicalize_url (p ++ qpart oq1 ++ fpart f1) = canonicalize_url (p ++ qpart oq2 ++ fpart f2)).
Proof.
  split; [exact canonicalize_url_idem|exact canonicalize_url_inv].
Qed.

End UrlSpec.

Module UrlChecks.

Import Url UrlFacts UrlQ UrlSpec.

(** C5 counterexample: [utm_id] is not one of the ten tracking names and
    survives; canonicalizing twice decodes [%2B] to [+] and then [+] to a
    space; and [http:////X] (empty netloc, path [//X]) canonicalizes to
    [http://X], whose netloc [X] the second pass lower-cases. *)
Lemma canonicalize_url_counterexample :
  canonicalize_url (of_ascii "http://a.com/p?utm_id=1") = of_ascii "http://a.com/p?utm_id=1"
  /\ canonicalize_url (of_ascii "http://a.com/p") = of_ascii "http://a.com/p"
  /\ canonicalize_url (of_ascii "http://a.com/?q=%2B") = of_ascii "http://a.com/?q=+"
  /\ canonicalize_url (of_ascii "http://a.com/?q=+") = of_ascii "http://a.com/?q= "
  /\ canonicalize_url (of_ascii "http:////X") = of_ascii "http://X"
  /\ canonicalize_url (of_ascii "http://X") = of_ascii "http://x".
Proof. vm_compute; repeat split; reflexivity. Qed.

Lemma canonicalize_url_spec_witness :
  canonicalize_url (canonicalize_url (of_ascii "HTTP://A.com/p?b=2&utm_source=x&a=1#top"))
  = canonicalize_url (of_ascii "HTTP://A.com/p?b=2&utm_source=x&a=1#top")
  /\ canonicalize_url (of_ascii "http://a.com/p" ++ qpart (Some (of_ascii "b=2&utm_source=x&a=1"))
                                         ++ fpart (Some (of_ascii "top")))
     = canonicalize_url (of_ascii "http://a.com/p" ++ qpart (Some (of_ascii "a=1&fbclid=z&b=2"))
                                            ++ fpart None)
  /\ canonicalize_url (of_ascii "http://a.com/p" ++ qpart (Some (of_ascii "utm_term=1"))
                                         ++ fpart (Some (of_ascii "x")))
     = canonicalize_url (of_ascii "http://a.com/p" ++ qpart None ++ fpart None)
  /\ canonicalize_url (of_ascii "HTTP://A.com/p?b=2&utm_source=x&a=1#top")
     = of_ascii "http://a.com/p?a=1&b=2".
Proof.
  split; [|split; [|split]].
  - apply (proj1 canonicalize_url_spec).
    intros scheme netloc path params query fragment E.
    vm_compute in E; injection E as <- <- <- <- <- <-.
    split; [apply notin_of_existsb; reflexivity|left; discriminate].
  - apply (proj2 canonicalize_url_spec);
      try (apply notin_of_existsb; reflexivity); try reflexivity.
    + vm_compute; discriminate.
    + vm_compute; constructor; [intros [H|[]]; discriminate|constructor; [intros []|constructor]].
    + vm_compute; apply perm_swap.
  - apply (proj2 canonicalize_url_spec);
      try (apply notin_of_existsb; reflexivity); try reflexivity.
    all: vm_compute; first [discriminate|constructor].
  - vm_compute; reflexivity.
Defined.

End UrlChecks.

Module MetricsFacts.

Import PyStr Metrics MetricsExamples DictFacts.
Open Scope nat_scope.

Lemma dict_get_notin {V} (d : Dedup.dict V) (k : ustr) :
  ~ In k (map fst d) -> Dedup.dict_get d k = None.
Proof.
  intro H; destruct (Dedup.dict_get d k) as [v|] eqn:E; [|reflexivity].
  exfalso; apply dict_get_in in E; apply (in_map fst) in E; exact (H E).
Qed.

Lemma dict_set_keys_present {V} (d : Dedup.dict V) (k : ustr) (v : V) :
  In k (map fst d) -> map fst (Dedup.dict_set d k v) = map fst d.
Proof.
  induction d as [|[k0 v0] d IH]; simpl; [tauto|].
  destruct (ustr_eqb k0 k) eqn:E; simpl; [reflexivity|].
  intros [H|H]; [subst; rewrite ustr_eqb_refl in E; discriminate|].
  rewrite IH; auto.
Qed.

Lemma dict_set_keys_absent {V} (d : Dedup.dict V) (k : ustr) (v : V) :
  ~ In k (map fst d) -> map fst (Dedup.dict_set d k v) = map fst d ++ [k].
Proof.
  induction d as [|[k0 v0] d IH]; simpl; [reflexivity|].
  intro H; destruct (ustr_eqb k0 k) eqn:E.
  - apply ustr_eqb_eq in E; subst; tauto.
  - simpl; rewrite IH; auto.
Qed.

Lemma update_keys (m : metrics) (t : ustr) (f : feed_metrics -> feed_metrics) :
  map fst (update_if_present m t f) = map fst m.
Proof.
  unfold update_if_present; destruct (Dedup.dict_get m t) as [fm|] eqn:E; [|reflexivity].
  apply dict_set_keys_present; apply dict_get_in in E; apply (in_map fst) in E; exact E.
Qed.

Lemma update_get (m : metrics) (t k : ustr) (f : feed_metrics -> feed_metrics) :
  Dedup.dict_get (update_if_present m t f) k
  = if ustr_eqb t k then option_map f (Dedup.dict_get m k) else Dedup.dict_get m k.
Proof.
  unfold update_if_present; destruct (Dedup.dict_get m t) as [fm|] eqn:E.
  - rewrite dict_get_set; destruct (ustr_eqb t k) eqn:Ek; [|reflexivity].
    apply ustr_eqb_eq in Ek; subst; rewrite E; reflexivity.
  - destruct (ustr_eqb t k) eqn:Ek; [|reflexivity].
    apply ustr_eqb_eq in Ek; subst; rewrite E; reflexivity.
Qed.

Lemma feed_count_cons (k : ustr) (a : rss_article) (l : list rss_article) :
  feed_count k (a :: l) = (if ustr_eqb (_article_feed_title a) k then 1 else 0) + feed_count k l.
Proof. unfold feed_count; simpl; destruct (ustr_eqb _ k); reflexivity. Qed.

Lemma feed_count_app (k : ustr) (l1 l2 : list rss_article) :
  feed_count k (l1 ++ l2) = feed_count k l1 + feed_count k l2.
Proof. unfold feed_count; rewrite filter_app, length_app; reflexivity. Qed.

Lemma feed_count_zero (k : ustr) (l : list rss_article) :
  (forall a, In a l -> _article_feed_title a <> k) -> feed_count k l = 0.
Proof.
  induction l as [|a l IH]; intro H; [reflexivity|].
  rewrite feed_count_cons, IH by (intros; apply H; right; auto).
  destruct (ustr_eqb _ k) eqn:E; [|reflexivity].
  apply ustr_eqb_eq in E; exfalso; apply (H a); [left|]; auto.
Qed.

Lemma feed_count_all (k : ustr) (l : list rss_article) :
  (forall a, In a l -> _article_feed_title a = k) -> feed_count k l = length l.
Proof.
  induction l as [|a l IH]; intro H; [reflexivity|].
  rewrite feed_count_cons, IH by (intros; apply H; right; auto).
  rewrite (H a (or_introl eq_refl)), ustr_eqb_refl; reflexivity.
Qed.

(** Sub-lists without repeated identities have no more articles per feed. *)
Lemma feed_count_sub (k : ustr) (s l : list rss_article) :
  NoDup (map ra_id s) -> incl s l -> feed_count k s <= feed_count k l.
Proof.
  intros Hn Hi; unfold feed_count; apply NoDup_incl_length.
  - apply NoDup_filter, (NoDup_map_inv ra_id), Hn.
  - intros x Hx; apply filter_In in Hx as [Hx Hp]; apply filter_In; auto.
Qed.

Lemma init_fold (items : list rss_item) (d : metrics) :
  NoDup (map fst d ++ map registered_title items) ->
  (forall k fm, Dedup.dict_get d k = Some fm -> counters fm = (0, 0, 0)) ->
  let m := fold_left (fun m item =>
               let t := registered_title item in
               if mem_key t m then m
               else Dedup.dict_set m t
                      {| fm_title := t; fm_tier := get_or [] (item_tier item);
                         fm_priority := get_or [] (item_priority item);
                         find_count := 0; candidate_count := 0; release_count := 0;
                         release_scores := []; rank_list := [] |}) items d in
  map fst m = map fst d ++ map registered_title items
  /\ (forall k fm, Dedup.dict_get m k = Some fm -> counters fm = (0, 0, 0)).
Proof.
  revert d; induction items as [|it items IH]; intros d Hn Hz; simpl.
  - rewrite app_nil_r; auto.
  - assert (Hnot : ~ In (registered_title it) (map fst d)).
    { intro H; apply NoDup_remove_2 in Hn; apply Hn, in_or_app; left; exact H. }
    unfold mem_key; rewrite (dict_get_notin d _ Hnot).
    edestruct IH as [Hk Hc].
    3: { split; [rewrite Hk, dict_set_keys_absent, <- app_assoc by exact Hnot; reflexivity|exact Hc]. }
    + rewrite dict_set_keys_absent, <- app_assoc by exact Hnot; exact Hn.
    + intros k fm; rewrite dict_get_set; destruct (ustr_eqb _ k).
      * intro H; injection H as <-; reflexivity.
      * apply Hz.
Qed.

Lemma initialize_spec (items : list rss_item) :
  NoDup (map registered_title items) ->
  map fst (initialize_all_feed_metrics items) = map registered_title items
  /\ (forall k fm, Dedup.dict_get (initialize_all_feed_metrics items) k = Some fm ->
                   counters fm = (0, 0, 0)).
Proof.
  intro Hn; apply (init_fold items []); [exact Hn|discriminate].
Qed.

Section Parse.

Variable feeds : list (rss_item * list rss_article).
Hypothesis Hnd : NoDup (map (fun f => registered_title (fst f)) feeds).
Hypothesis Hart : forall it l a, In (it, l) feeds -> In a l -> _article_feed_title a = registered_title it.

Lemma parse_fold (rest pre : list (rss_item * list rss_article)) (m : metrics) (acc : list rss_article) :
  feeds = pre ++ rest ->
  acc = flat_map snd pre ->
  map fst m = map (fun f => registered_title (fst f)) feeds ->
  (forall k fm, Dedup.dict_get m k = Some fm -> counters fm = (feed_count k acc, 0, 0)) ->
  let r := fold_left (fun acc feed =>
                   let '(m, daily_rss) := acc in
                   let '(item, rss_list) := feed in
                   (update_if_present m (registered_title item) (set_find (length rss_list)),
                    daily_rss ++ rss_list)) rest (m, acc) in
  snd r = flat_map snd feeds
  /\ map fst (fst r) = map (fun f => registered_title (fst f)) feeds
  /\ (forall k fm, Dedup.dict_get (fst r) k = Some fm -> counters fm = (feed_count k (snd r), 0, 0)).
Proof.
  revert pre m acc; induction rest as [|[it l] rest IH]; intros pre m acc Hf Ha Hk Hc; simpl.
  - rewrite app_nil_r in Hf; subst acc; split; [rewrite Hf; reflexivity|split; assumption].
  - apply (IH (pre ++ [(it, l)])).
    + rewrite <- app_assoc; exact Hf.
    + rewrite flat_map_app; simpl; rewrite app_nil_r; subst; reflexivity.
    + rewrite update_keys; exact Hk.
    + assert (Hin : In (it, l) feeds) by (rewrite Hf; apply in_or_app; right; left; reflexivity).
      intros k fm; rewrite update_get, feed_count_app.
      destruct (ustr_eqb (registered_title it) k) eqn:E.
      * apply ustr_eqb_eq in E; subst k.
        destruct (Dedup.dict_get m (registered_title it)) as [fm0|] eqn:E0; [|discriminate].
        intro H; injection H as <-.
        pose proof (Hc _ _ E0) as H0; unfold counters in *; simpl; injection H0 as _ H1 H2.
        rewrite H1, H2, (feed_count_all _ l) by (intros a Ha'; exact (Hart it l a Hin Ha')).
        rewrite (feed_count_zero _ acc); [reflexivity|].
        intros a Ha' Heq; subst acc.
        apply in_flat_map in Ha' as [[it' l'] [Hf' Ha']].
        assert (Hin' : In (it', l') feeds) by (rewrite Hf; apply in_or_app; left; exact Hf').
        rewrite (Hart it' l' a Hin' Ha') in Heq.
        rewrite Hf, map_app in Hnd; simpl in Hnd.
        apply NoDup_remove_2 in Hnd; apply Hnd, in_or_app; left.
        rewrite <- Heq; apply (in_map (fun f => registered_title (fst f)) pre (it', l')); exact Hf'.
      * intro H; rewrite (Hc _ _ H), (feed_count_zero k l); [rewrite Nat.add_0_r; reflexivity|].
        intros a Ha' Heq; rewrite (Hart it l a Hin Ha') in Heq; rewrite Heq, ustr_eqb_refl in E; discriminate.
Qed.

Lemma parse_spec (m : metrics) :
  map fst m = map (fun f => registered_title (fst f)) feeds ->
  (forall k fm, Dedup.dict_get m k = Some fm -> counters fm = (0, 0, 0)) ->
  let r := parse_daily_rss_article m feeds None in
  snd r = flat_map snd feeds
  /\ map fst (fst r) = map (fun f => registered_title (fst f)) feeds
  /\ (forall k fm, Dedup.dict_get (fst r) k = Some fm -> counters fm = (feed_count k (snd r), 0, 0)).
Proof.
  intros Hk Hc; apply (parse_fold feeds []); auto.
Qed.

End Parse.

Lemma count_candidates_keys (l : list rss_article) (m : metrics) :
  map fst (count_candidates m l) = map fst m.
Proof.
  unfold count_candidates; revert m; induction l as [|a l IH]; intro m; simpl; [reflexivity|].
  rewrite IH, update_keys; reflexivity.
Qed.

Lemma count_candidates_get (l : list rss_article) (m : metrics) (k : ustr) :
  option_map counters (Dedup.dict_get (count_candidates m l) k)
  = option_map (fun c => let '(f, c, r) := c in (f, c + feed_count k l, r))
               (option_map counters (Dedup.dict_get m k)).
Proof.
  unfold count_candidates; revert m; induction l as [|a l IH]; intro m; simpl.
  - destruct (Dedup.dict_get m k) as [fm|]; simpl; [|reflexivity].
    unfold counters; rewrite Nat.add_0_r; reflexivity.
  - rewrite IH, update_get, feed_count_cons.
    destruct (ustr_eqb (_article_feed_title a) k), (Dedup.dict_get m k) as [fm|]; simpl;
      try reflexivity; unfold counters; simpl; rewrite Nat.add_succ_r; reflexivity.
Qed.

Lemma track_releases_keys (l : list rss_article) (m : metrics) (idx : nat) :
  map fst (track_releases m idx l) = map fst m.
Proof.
  revert m idx; induction l as [|a l IH]; intros m idx; simpl; [reflexivity|].
  rewrite IH, update_keys; reflexivity.
Qed.

Lemma track_releases_get (l : list rss_article) (m : metrics) (idx : nat) (k : ustr) :
  option_map counters (Dedup.dict_get (track_releases m idx l) k)
  = option_map (fun c => let '(f, c, r) := c in (f, c, r + feed_count k l))
               (option_map counters (Dedup.dict_get m k)).
Proof.
  revert m idx; induction l as [|a l IH]; intros m idx; simpl.
  - destruct (Dedup.dict_get m k) as [fm|]; simpl; [|reflexivity].
    unfold counters; rewrite Nat.add_0_r; reflexivity.
  - rewrite IH, update_get, feed_count_cons.
    destruct (ustr_eqb (_article_feed_title a) k), (Dedup.dict_get m k) as [fm|]; simpl;
      try reflexivity; unfold counters; simpl; rewrite Nat.add_succ_r; reflexivity.
Qed.

Lemma nodup_ids_filter (p : rss_article -> bool) (l : list rss_article) :
  NoDup (map ra_id l) -> NoDup (map ra_id (filter p l)).
Proof.
  induction l as [|x l IH]; simpl; [auto|].
  intro H; inversion H as [|? ? Hx Hl]; subst.
  destruct (p x); simpl; [|auto].
  constructor; [|auto].
  intro Hin; apply Hx; apply in_map_iff in Hin as [y [Hy Hy']].
  apply filter_In in Hy' as [Hy' _]; rewrite <- Hy; apply in_map; exact Hy'.
Qed.

Lemma nodup_ids_inj (l : list rss_article) (x y : rss_article) :
  NoDup (map ra_id l) -> In x l -> In y l -> ra_id x = ra_id y -> x = y.
Proof.
  induction l as [|a l IH]; simpl; [tauto|].
  intros H; inversion H as [|? ? Ha Hl]; subst.
  intros [<-|Hx] [<-|Hy] E; auto.
  - exfalso; apply Ha; rewrite E; apply in_map; exact Hy.
  - exfalso; apply Ha; rewrite <- E; apply in_map; exact Hx.
Qed.

Section Draw.

Context {rng : Type} (rsample : rng -> list rss_article -> nat -> list rss_article * rng).
Hypothesis Hs : forall g l k, incl (fst (rsample g l k)) l
                              /\ (NoDup (map ra_id l) -> NoDup (map ra_id (fst (rsample g l k)))).
Variable A : list rss_article.
Hypothesis HA : NoDup (map ra_id A).

Lemma add_group (sampled sel : list rss_article) (done : list ustr) (t : ustr) :
  incl sampled A -> NoDup (map ra_id sampled) ->
  (forall x, In x sampled -> In (_article_tier x) done) -> ~ In t done ->
  incl sel (tier_group A t) -> NoDup (map ra_id sel) ->
  incl (sampled ++ sel) A /\ NoDup (map ra_id (sampled ++ sel))
  /\ (forall x, In x (sampled ++ sel) -> In (_article_tier x) (done ++ [t])).
Proof.
  intros Hi Hn Ht Hnt Hsel Hns.
  assert (HsA : forall y, In y sel -> In y A /\ _article_tier y = t).
  { intros y Hy; apply Hsel, filter_In in Hy as [Hy Hy']; apply ustr_eqb_eq in Hy'; auto. }
  split; [|split].
  - intros x Hx; apply in_app_or in Hx as [Hx|Hx]; [apply Hi; exact Hx|apply HsA; exact Hx].
  - rewrite map_app; apply NoDup_app; auto.
    intros i Hi1 Hi2; apply in_map_iff in Hi1 as [x [Ex Hx]]; apply in_map_iff in Hi2 as [y [Ey Hy]].
    destruct (HsA y Hy) as [HyA Hty].
    assert (x = y) by (apply (nodup_ids_inj A); auto; congruence); subst y.
    apply Hnt; rewrite <- Hty; apply Ht; exact Hx.
  - intros x Hx; apply in_or_app; apply in_app_or in Hx as [Hx|Hx]; [left; apply Ht; exact Hx|].
    right; left; symmetry; apply HsA; exact Hx.
Qed.

Lemma draw_fold (rest : list (ustr * nat)) (done : list ustr)
      (sampled : list rss_article) (rq : nat) (g : rng) :
  NoDup (done ++ map fst rest) -> incl sampled A -> NoDup (map ra_id sampled) ->
  (forall x, In x sampled -> In (_article_tier x) done) ->
  let r := fold_left (fun acc ta =>
                 let '(sampled, rq, g) := acc in
                 let '(t, target_count) := ta in
                 let tier_articles := tier_group A t in
                 if target_count <=? length tier_articles then
                   let '(sel, g') := rsample g tier_articles target_count in
                   (sampled ++ sel, rq, g')
                 else (sampled ++ tier_articles, rq + (target_count - length tier_articles), g))
              rest (sampled, rq, g) in
  incl (fst (fst r)) A /\ NoDup (map ra_id (fst (fst r))).
Proof.
  revert done sampled rq g; induction rest as [|[t n] rest IH]; intros done sampled rq g Hd Hi Hn Ht;
    simpl; [auto|].
  assert (Hnt : ~ In t done) by (intro H; apply NoDup_remove_2 in Hd; apply Hd, in_or_app; left; exact H).
  assert (Hd' : NoDup ((done ++ [t]) ++ map fst rest)) by (rewrite <- app_assoc; exact Hd).
  assert (Hg : NoDup (map ra_id (tier_group A t))) by (apply nodup_ids_filter, HA).
  destruct (n <=? length (tier_group A t)).
  - destruct (rsample g (tier_group A t) n) as [sel g'] eqn:Er.
    destruct (Hs g (tier_group A t) n) as [Hs1 Hs2]; rewrite Er in Hs1, Hs2; simpl in Hs1, Hs2.
    destruct (add_group sampled sel done t Hi Hn Ht Hnt Hs1 (Hs2 Hg)) as [H1 [H2 H3]].
    apply (IH (done ++ [t])); auto.
  - destruct (add_group sampled (tier_group A t) done t Hi Hn Ht Hnt (incl_refl _) Hg) as [H1 [H2 H3]].
    apply (IH (done ++ [t])); auto.
Qed.

Lemma tier_allocation_nodup : NoDup (map fst tier_allocation).
Proof.
  vm_compute; repeat constructor; simpl; intro H; repeat destruct H as [H|H]; discriminate || contradiction.
Qed.

Lemma draw_spec (g : rng) :
  incl (fst (stratified_draw rsample g A)) A /\ NoDup (map ra_id (fst (stratified_draw rsample g A))).
Proof.
  unfold stratified_draw.
  pose proof (draw_fold tier_allocation [] [] 0 g tier_allocation_nodup (incl_nil_l _) (NoDup_nil _)
                (fun x H => False_ind _ H)) as Hf.
  cbv zeta in Hf |- *.
  match type of Hf with context [fold_left ?f ?l ?i] => destruct (fold_left f l i) as [[sampled rq] g1] end.
  simpl in Hf; destruct Hf as [Hi Hn].
  destruct (0 <? rq); [|simpl; auto].
  destruct (0 <? length (filter (fun a => negb (mem_art a sampled)) A)); [|simpl; auto].
  set (R := filter (fun a => negb (mem_art a sampled)) A).
  destruct (Hs g1 R (Nat.min rq (length R))) as [Hs1 Hs2].
  destruct (rsample g1 R (Nat.min rq (length R))) as [extra g2]; simpl in Hs1, Hs2 |- *.
  split.
  - intros x Hx; apply in_app_or in Hx as [Hx|Hx]; [auto|].
    apply Hs1, filter_In in Hx; tauto.
  - rewrite map_app; apply NoDup_app; [exact Hn|apply Hs2, nodup_ids_filter, HA|].
    intros i Hi1 Hi2; apply in_map_iff in Hi1 as [x [Ex Hx]]; apply in_map_iff in Hi2 as [y [Ey Hy]].
    apply Hs1, filter_In in Hy as [_ Hy].
    unfold mem_art in Hy; rewrite negb_true_iff in Hy.
    assert (Hex : existsb (fun z => Nat.eqb (ra_id z) (ra_id y)) sampled = true).
    { apply existsb_exists; exists x; split; [exact Hx|]; apply Nat.eqb_eq; congruence. }
    rewrite Hex in Hy; discriminate.
Qed.

End Draw.

Lemma release_total_keys (m : metrics) (G : ustr -> nat) :
  NoDup (map fst m) ->
  (forall k fm, Dedup.dict_get m k = Some fm -> release_count fm = G k) ->
  release_total m = list_sum (map G (map fst m)).
Proof.
  unfold release_total; induction m as [|[k v] m IH]; simpl; [reflexivity|].
  intros Hn HG; inversion Hn as [|? ? Hk Hm]; subst.
  rewrite (HG k v) by (rewrite dict_get_cons, ustr_eqb_refl; reflexivity).
  rewrite IH; [reflexivity|exact Hm|].
  intros k' fm H; apply HG; rewrite dict_get_cons.
  destruct (ustr_eqb k k') eqn:E; [|exact H].
  apply ustr_eqb_eq in E; subst k'; apply dict_get_in in H; apply (in_map fst) in H; contradiction.
Qed.

Lemma sum_indicator_zero (x : ustr) (ks : list ustr) :
  ~ In x ks -> list_sum (map (fun k => if ustr_eqb x k then 1 else 0) ks) = 0.
Proof.
  induction ks as [|k ks IH]; simpl; [reflexivity|].
  intro H; destruct (ustr_eqb x k) eqn:E; [apply ustr_eqb_eq in E; subst; tauto|].
  apply IH; tauto.
Qed.

Lemma sum_indicator (x : ustr) (ks : list ustr) :
  NoDup ks -> In x ks -> list_sum (map (fun k => if ustr_eqb x k then 1 else 0) ks) = 1.
Proof.
  induction ks as [|k ks IH]; simpl; [tauto|].
  intros Hn Hx; inversion Hn as [|? ? Hk Hks]; subst.
  destruct (ustr_eqb x k) eqn:E.
  - apply ustr_eqb_eq in E; subst; rewrite sum_indicator_zero; auto.
  - destruct Hx as [Hx|Hx]; [subst; rewrite ustr_eqb_refl in E; discriminate|].
    rewrite IH; auto.
Qed.

Lemma sum_feed_count (ks : list ustr) (l : list rss_article) :
  NoDup ks -> (forall a, In a l -> In (_article_feed_title a) ks) ->
  list_sum (map (fun k => feed_count k l) ks) = length l.
Proof.
  intro Hn; induction l as [|a l IH]; intro Hl.
  - clear Hl; induction ks as [|k ks IHk]; simpl; [reflexivity|].
    inversion Hn; subst; rewrite IHk by auto; reflexivity.
  - transitivity (list_sum (map (fun k => if ustr_eqb (_article_feed_title a) k then 1 else 0) ks)
                  + list_sum (map (fun k => feed_count k l) ks)).
    + clear IH Hl Hn; induction ks as [|k ks IHk]; simpl; [reflexivity|].
      rewrite IHk, feed_count_cons; lia.
    + rewrite sum_indicator, IH; auto.
      * intros x Hx; apply Hl; right; exact Hx.
      * apply Hl; left; reflexivity.
Qed.

(** C6 (amended): on a run that parses the feeds (no cache), where no two
    registered feeds share a title, every article carries the title of the
    feed that yielded it, no two articles share an identity, and the sampler
    and the selection return sub-lists without repeated identities, the sum
    of [release_count] over all sources equals the length of the final slate
    and every source has release_count <= candidate_count <= find_count. *)
Theorem run_metrics_conservation {rng : Type}
        (rsample : rng -> list rss_article -> nat -> list rss_article * rng)
        (select : list rss_article -> list rss_article) (g : rng)
        (feeds : list (rss_item * list rss_article)) :
  NoDup (map (fun f => registered_title (fst f)) feeds) ->
  (forall it l a, In (it, l) feeds -> In a l -> _article_feed_title a = registered_title it) ->
  NoDup (map ra_id (flat_map snd feeds)) ->
  (forall g l k, incl (fst (rsample g l k)) l
                 /\ (NoDup (map ra_id l) -> NoDup (map ra_id (fst (rsample g l k))))) ->
  (forall l, incl (select l) l /\ (NoDup (map ra_id l) -> NoDup (map ra_id (select l)))) ->
  release_total (fst (run rsample select g feeds None)) = length (snd (run rsample select g feeds None))
  /\ (forall t fm, Dedup.dict_get (fst (run rsample select g feeds None)) t = Some fm ->
                   release_count fm <= candidate_count fm <= find_count fm).
Proof.
  intros Hnd Hart HA Hs Hsel.
  destruct (initialize_spec (map fst feeds)) as [Hk0 Hc0]; [rewrite map_map; exact Hnd|].
  rewrite map_map in Hk0.
  destruct (parse_spec feeds Hnd Hart _ Hk0 Hc0) as [Ho [Hk1 Hc1]].
  unfold run.
  destruct (parse_daily_rss_article (initialize_all_feed_metrics (map fst feeds)) feeds None)
    as [m1 origin] eqn:Ep; simpl in Ho, Hk1, Hc1; subst origin.
  unfold stratified_sample_with_priority.
  destruct (draw_spec rsample Hs _ HA g) as [Hi Hn].
  destruct (stratified_draw rsample g (flat_map snd feeds)) as [sampled g'] eqn:Ed; simpl in Hi, Hn.
  destruct (Hsel sampled) as [Hi2 Hn2]; specialize (Hn2 Hn).
  set (A := flat_map snd feeds) in *.
  set (m3 := track_releases (count_candidates m1 sampled) 1 (select sampled)); simpl.
  assert (Hk3 : map fst m3 = map (fun f => registered_title (fst f)) feeds).
  { unfold m3; rewrite track_releases_keys, count_candidates_keys; exact Hk1. }
  assert (Hc3 : forall k fm, Dedup.dict_get m3 k = Some fm ->
                  counters fm = (feed_count k A, feed_count k sampled, feed_count k (select sampled))).
  { intros k fm H.
    pose proof (track_releases_get (select sampled) (count_candidates m1 sampled) 1 k) as E.
    rewrite count_candidates_get in E; fold m3 in E; rewrite H in E.
    destruct (Dedup.dict_get m1 k) as [fm1|] eqn:E1; [|discriminate].
    cbn [option_map] in E; rewrite (Hc1 k fm1 E1) in E; cbn in E; unfold counters in *; congruence. }
  split.
  - rewrite (release_total_keys m3 (fun k => feed_count k (select sampled))).
    + rewrite Hk3; apply sum_feed_count; [exact Hnd|].
      intros a Ha; apply Hi2, Hi in Ha; apply in_flat_map in Ha as [[it l] [Hf Ha]].
      rewrite (Hart it l a Hf Ha).
      apply (in_map (fun f => registered_title (fst f)) feeds (it, l)); exact Hf.
    + rewrite Hk3; exact Hnd.
    + intros k fm H; pose proof (Hc3 k fm H) as E; unfold counters in E; injection E as _ _ ->; reflexivity.
  - intros t fm H; pose proof (Hc3 t fm H) as E; unfold counters in E; injection E as -> -> ->.
    split; apply feed_count_sub; auto.
Qed.

End MetricsFacts.

Module MetricsChecks.

Import PyStr Metrics MetricsExamples MetricsFacts.

(** C6 counterexample: a run from the cache leaves [find_count] at 0 while
    the cached article of feed F is sampled and released; and an article
    whose feed title G is not registered is released without being counted. *)
Lemma run_metrics_counterexample :
  option_map counters
    (Dedup.dict_get (fst (run first_sample (fun l => l) tt [(item_F, [])] (Some [art 1 title_F]))) title_F)
  = Some (0, 1, 1)
  /\ release_total (fst (run first_sample (fun l => l) tt [(item_F, [art 1 title_G])] None)) = 0
  /\ length (snd (run first_sample (fun l => l) tt [(item_F, [art 1 title_G])] None)) = 1.
Proof. vm_compute; repeat split; reflexivity. Qed.

Lemma run_metrics_conservation_witness :
  release_total (fst (run first_sample (fun l => l) tt [(item_F, [art 1 title_F; art 2 title_F])] None))
  = length (snd (run first_sample (fun l => l) tt [(item_F, [art 1 title_F; art 2 title_F])] None))
  /\ (forall t fm,
        Dedup.dict_get (fst (run first_sample (fun l => l) tt [(item_F, [art 1 title_F; art 2 title_F])] None)) t
        = Some fm -> release_count fm <= candidate_count fm <= find_count fm).
Proof.
  apply run_metrics_conservation.
  - repeat constructor; intros [].
  - intros it l a [E|[]] Ha; injection E as <- <-; simpl in Ha.
    destruct Ha as [<-|[<-|[]]]; reflexivity.
  - vm_compute; constructor; [intros [H|[]]; discriminate|constructor; [intros []|constructor]].
  - intros g l k; split; [intros x Hx; unfold first_sample in Hx; simpl in Hx;
                          rewrite <- (firstn_skipn k l); apply in_or_app; left; exact Hx|].
    intro H; unfold first_sample; simpl.
    rewrite <- (firstn_skipn k l), map_app in H; apply NoDup_app_remove_r in H; exact H.
  - intro l; split; [apply incl_refl|auto].
Defined.

End MetricsChecks.

Module BlogFacts.

Import PyStr Blog.




(** Renderings on two days whose [%Y-%m-%d] strings differ write to two
    different paths (and both write a file, or neither does). *)
Theorem make_daily_markdown_with_day_path (c1 c2 : clock)
        (so1 so2 : list ustr -> list ustr) (project_root : ustr) (xs : list blog_article) :
  strftime_date c1 <> strftime_date c2 ->
  match make_daily_markdown_with c1 so1 project_root xs,
        make_daily_markdown_with c2 so2 project_root xs with
  | Some (p1, _), Some (p2, _) => p1 <> p2
  | None, None => True
  | _, _ => False
  end.
Proof.
  intro Hd; unfold make_daily_markdown_with, make_meta_data; cbv zeta.
  destruct (Url.is_nil (make_articles_content xs)); [exact I|].
  intro E; apply app_inv_head in E; apply app_inv_head in E; apply app_inv_tail in E.
  exact (Hd E).
Qed.

End BlogFacts.

Module BlogChecks.

Import PyStr Blog BlogExamples BlogFacts.

(** C8 (code bug): the tags of the front matter come out in the iteration
    order of [set(tags)], and the iteration order of a set of strings changes
    from one interpreter run to the next (string hashing is randomized per
    process).  Two runs on the same article (tags "ai" and "ml"), at the same
    clock and in the same checkout, whose sets iterate in the two possible
    orders, write the same path with different contents. *)
Lemma make_daily_markdown_with_set_order_bug :
  option_map fst (make_daily_markdown_with noon_may1 (fun l => l) root [post "http://a" "x"])
  = option_map fst (make_daily_markdown_with noon_may1 (@rev ustr) root [post "http://a" "x"])
  /\ make_daily_markdown_with noon_may1 (fun l => l) root [post "http://a" "x"]
     <> make_daily_markdown_with noon_may1 (@rev ustr) root [post "http://a" "x"].
Proof. vm_compute; split; [reflexivity|discriminate]. Qed.

Lemma make_daily_markdown_with_day_path_witness :
  strftime_date noon_may1 <> strftime_date noon_may2
  /\ match make_daily_markdown_with noon_may1 (fun l => l) root [post "http://a" "x"],
           make_daily_markdown_with noon_may2 (fun l => l) root [post "http://a" "x"] with
     | Some (p1, _), Some (p2, _) => p1 <> p2
     | None, None => True
     | _, _ => False
     end.
Proof.
  assert (Hd : strftime_date noon_may1 <> strftime_date noon_may2)
    by (intro H; vm_compute in H; discriminate H).
  split; [exact Hd|apply make_daily_markdown_with_day_path; exact Hd].
Defined.


End BlogChecks.

Module TextCleanerFacts.

Import PyStr TextCleaner DictFacts.

Lemma heap_get_cons (h : heap) (x y : nat) (o : pyobj) :
  heap_get ((y, o) :: h) x = if Nat.eqb y x then Some o else heap_get h x.
Proof. unfold heap_get; simpl; destruct (Nat.eqb y x); reflexivity. Qed.

Lemma heap_get_set (h : heap) (l x : nat) (o : pyobj) :
  x <> l -> heap_get (heap_set h l o) x = heap_get h x.
Proof.
  intro Hx; induction h as [|[y o'] h IH]; [reflexivity|].
  unfold heap_set in *; simpl map; rewrite !heap_get_cons.
  destruct (Nat.eqb y l) eqn:E; rewrite ?heap_get_cons, ?IH.
  - apply Nat.eqb_eq in E; subst y.
    destruct (Nat.eqb l x) eqn:E2; [apply Nat.eqb_eq in E2; congruence|reflexivity].
  - reflexivity.
Qed.

Lemma heap_get_set_same (h : heap) (l : nat) (o o' : pyobj) :
  heap_get h l = Some o' -> heap_get (heap_set h l o) l = Some o.
Proof.
  induction h as [|[y o0] h IH]; [discriminate|].
  unfold heap_set in *; simpl map; rewrite !heap_get_cons.
  destruct (Nat.eqb y l) eqn:E; rewrite heap_get_cons.
  - rewrite Nat.eqb_refl; reflexivity.
  - rewrite E; exact IH.
Qed.

Lemma heap_get_snoc (h : heap) (l x : nat) (o : pyobj) :
  heap_get h l = None ->
  heap_get (h ++ [(l, o)]) x = if Nat.eqb l x then Some o else heap_get h x.
Proof.
  induction h as [|[y o0] h IH]; simpl; intro Hl.
  - rewrite heap_get_cons; reflexivity.
  - rewrite heap_get_cons in Hl |- *; rewrite heap_get_cons.
    destruct (Nat.eqb y l) eqn:E; [discriminate|].
    rewrite IH by exact Hl.
    destruct (Nat.eqb y x) eqn:E2; [|reflexivity].
    apply Nat.eqb_eq in E2; subst y; rewrite Nat.eqb_sym, E; reflexivity.
Qed.

Lemma le_fold_max (x : nat) (l : list nat) : In x l -> (x <= fold_right Nat.max 0 l)%nat.
Proof. induction l as [|y l IH]; simpl; [tauto|]; intros [<-|H]; [lia|specialize (IH H); lia]. Qed.

Lemma heap_get_in (h : heap) (x : nat) (o : pyobj) : heap_get h x = Some o -> In x (map fst h).
Proof.
  induction h as [|[y o0] h IH]; [discriminate|]; rewrite heap_get_cons; simpl.
  destruct (Nat.eqb y x) eqn:E; [apply Nat.eqb_eq in E; auto|auto].
Qed.

Lemma fresh_neq (h : heap) (x : nat) (o : pyobj) : heap_get h x = Some o -> x <> fresh h.
Proof.
  intro H; apply heap_get_in, le_fold_max in H; unfold fresh; lia.
Qed.

Lemma fresh_none (h : heap) : heap_get h (fresh h) = None.
Proof.
  destruct (heap_get h (fresh h)) as [o|] eqn:E; [|reflexivity].
  exfalso; exact (fresh_neq h _ o E eq_refl).
Qed.

(** The dict after [clean_field] on key [k]: unchanged, or the string at [k]
    replaced by its cleaned version. *)
Lemma clean_field_spec (hh hh' : heap) (ll : nat) (dd : Dedup.dict pyval) (k : ustr) :
  heap_get hh ll = Some (ODict dd) -> clean_field hh ll k = Some hh' ->
  (forall x, x <> ll -> heap_get hh' x = heap_get hh x)
  /\ (heap_get hh' ll = Some (ODict dd)
      \/ exists s, Dedup.dict_get dd k = Some (PStr s)
                   /\ heap_get hh' ll = Some (ODict (Dedup.dict_set dd k (PStr (remove_emojis s))))).
Proof.
  intros Hg Hc; unfold clean_field in Hc; rewrite Hg in Hc.
  destruct (Dedup.dict_get dd k) as [v|] eqn:Ev; [|injection Hc as <-; auto].
  destruct (truthy hh v); [|injection Hc as <-; auto].
  destruct v; try discriminate.
  injection Hc as <-; split.
  - intros x Hx; apply heap_get_set; exact Hx.
  - right; exists s; split; [reflexivity|]; eapply heap_get_set_same; exact Hg.
Qed.

Lemma clean_field_some (hh : heap) (ll : nat) (dd : Dedup.dict pyval) (k : ustr) :
  heap_get hh ll = Some (ODict dd) ->
  (forall v, Dedup.dict_get dd k = Some v -> v = PNone \/ exists s, v = PStr s) ->
  exists hh', clean_field hh ll k = Some hh'.
Proof.
  intros Hg Hv; unfold clean_field; rewrite Hg.
  destruct (Dedup.dict_get dd k) as [v|] eqn:Ev; [|eauto].
  destruct (truthy hh v) eqn:Et; [|eauto].
  destruct (Hv v eq_refl) as [->|[s ->]]; [discriminate|eauto].
Qed.

Lemma dict_set_keys {V} (d : Dedup.dict V) (k : ustr) (v v0 : V) :
  Dedup.dict_get d k = Some v0 -> map fst (Dedup.dict_set d k v) = map fst d.
Proof.
  induction d as [|[k0 w] d IH]; [discriminate|]; rewrite dict_get_cons; simpl.
  destruct (ustr_eqb k0 k) eqn:E; simpl; [reflexivity|].
  intro H; rewrite IH by exact H; reflexivity.
Qed.

Lemma field_step (hh hh' : heap) (ll : nat) (dd : Dedup.dict pyval) (k : ustr) :
  heap_get hh ll = Some (ODict dd) -> clean_field hh ll k = Some hh' ->
  (forall x, x <> ll -> heap_get hh' x = heap_get hh x)
  /\ exists dd', heap_get hh' ll = Some (ODict dd') /\ map fst dd' = map fst dd
     /\ forall k', Dedup.dict_get dd' k' = Dedup.dict_get dd k'
                   \/ (k' = k /\ exists s, Dedup.dict_get dd k' = Some (PStr s)
                                          /\ Dedup.dict_get dd' k' = Some (PStr (remove_emojis s))).
Proof.
  intros Hg Hc; destruct (clean_field_spec hh hh' ll dd k Hg Hc) as [F [G|[s [Es G]]]];
    split; auto; [exists dd; auto|].
  exists (Dedup.dict_set dd k (PStr (remove_emojis s))); split; [exact G|split].
  - eapply dict_set_keys; exact Es.
  - intro k'; rewrite dict_get_set; destruct (ustr_eqb k k') eqn:E; [|left; reflexivity].
    apply ustr_eqb_eq in E; subst k'; right; split; [reflexivity|exists s; auto].
Qed.

Lemma title_summary_neq : ustr_eqb (of_ascii "title") (of_ascii "summary") = false.
Proof. vm_compute; reflexivity. Qed.

(** C10: [clean_article_content] on the dict [d] at [l] leaves every object
    that existed before untouched (the input is not mutated); the dict it
    returns has the keys of [d] in the same order, maps every key other than
    [title] and [summary] to the very value it had in [d], and maps [title]
    and [summary] to their value in [d] or, when that value is a string [s],
    to [remove_emojis s]; and it does return a dict whenever [title] and
    [summary] are absent, [None] or strings. *)
Theorem clean_article_content_frame (h : heap) (l : nat) (d : Dedup.dict pyval) :
  heap_get h l = Some (ODict d) ->
  (forall x o, heap_get h x = Some o -> heap_get (fst (clean_article_content h l)) x = Some o)
  /\ (forall l', snd (clean_article_content h l) = Some l' ->
       exists d', heap_get (fst (clean_article_content h l)) l' = Some (ODict d')
                  /\ map fst d' = map fst d
                  /\ forall k,
                       (ustr_eqb k (of_ascii "title") = false -> ustr_eqb k (of_ascii "summary") = false ->
                        Dedup.dict_get d' k = Dedup.dict_get d k)
                       /\ (Dedup.dict_get d' k = Dedup.dict_get d k
                           \/ exists s, Dedup.dict_get d k = Some (PStr s)
                                        /\ Dedup.dict_get d' k = Some (PStr (remove_emojis s))))
  /\ ((forall k v, (k = of_ascii "title" \/ k = of_ascii "summary") -> Dedup.dict_get d k = Some v ->
                   v = PNone \/ exists s, v = PStr s) ->
      exists l', snd (clean_article_content h l) = Some l').
Proof.
  intro Hl; unfold clean_article_content; rewrite Hl.
  destruct d as [|e d0].
  { split; [auto|split; [|intros _; exists l; reflexivity]].
    intros l' H; injection H as <-; exists []; simpl; rewrite Hl; split; [reflexivity|split; [reflexivity|]].
    intro k; split; [intros; reflexivity|left; reflexivity]. }
  set (D := e :: d0).
  set (l' := fresh h).
  set (h1 := h ++ [(l', ODict D)]).
  assert (Hg1 : heap_get h1 l' = Some (ODict D))
    by (unfold h1; rewrite heap_get_snoc, Nat.eqb_refl by apply fresh_none; reflexivity).
  assert (Hold1 : forall x o, heap_get h x = Some o -> heap_get h1 x = Some o).
  { intros x o Hx; unfold h1; rewrite heap_get_snoc by apply fresh_none.
    destruct (Nat.eqb l' x) eqn:E; [|exact Hx].
    apply Nat.eqb_eq in E; exfalso; exact (fresh_neq h x o Hx (eq_sym E)). }
  assert (Hneq : forall x o, heap_get h x = Some o -> x <> l') by (intros x o Hx; exact (fresh_neq h x o Hx)).
  destruct (clean_field h1 l' (of_ascii "title")) as [h2|] eqn:C1.
  2: { split; [exact Hold1|split; [discriminate|]].
       intro Hv; destruct (clean_field_some h1 l' D (of_ascii "title") Hg1) as [h2 C];
         [intros v Hv'; apply (Hv _ v (or_introl eq_refl) Hv')|congruence]. }
  destruct (field_step h1 h2 l' D _ Hg1 C1) as [F2 [D1 [Hg2 [K1 R1]]]].
  assert (Hsum1 : Dedup.dict_get D1 (of_ascii "summary") = Dedup.dict_get D (of_ascii "summary")).
  { destruct (R1 (of_ascii "summary")) as [E|[E _]]; [exact E|].
    exfalso; pose proof title_summary_neq as Hts; rewrite <- E, ustr_eqb_refl in Hts; discriminate. }
  destruct (clean_field h2 l' (of_ascii "summary")) as [h3|] eqn:C2.
  2: { split; [intros x o Hx; rewrite F2 by exact (Hneq x o Hx); auto|split; [discriminate|]].
       intro Hv; destruct (clean_field_some h2 l' D1 (of_ascii "summary") Hg2) as [h3 C];
         [intros v Hv'; rewrite Hsum1 in Hv'; apply (Hv _ v (or_intror eq_refl) Hv')|congruence]. }
  destruct (field_step h2 h3 l' D1 _ Hg2 C2) as [F3 [D2 [Hg3 [K2 R2]]]].
  split; [|split; [|intros _; exists l'; reflexivity]].
  - intros x o Hx; simpl; rewrite F3, F2 by exact (Hneq x o Hx); auto.
  - intros l2 H; injection H as <-; exists D2; split; [exact Hg3|split; [congruence|]].
    intro k; split.
    + intros Ht Hs; destruct (R2 k) as [E2|[E2 _]]; [|subst; rewrite ustr_eqb_refl in Hs; discriminate].
      destruct (R1 k) as [E1|[E1 _]]; [congruence|subst; rewrite ustr_eqb_refl in Ht; discriminate].
    + destruct (R2 k) as [E2|[-> [s [Es E2]]]].
      * destruct (R1 k) as [E1|[-> [s [Es E1]]]]; [left; congruence|right; exists s; split; congruence].
      * right; exists s; split; [rewrite <- Hsum1; exact Es|exact E2].
Qed.

End TextCleanerFacts.

Module TextCleanerChecks.

Import PyStr TextCleaner TextCleanerFacts.

Lemma clean_article_content_frame_witness :
  let h := [(1%nat, ODict [(of_ascii "title", PStr (of_ascii "a  b")); (of_ascii "score", PInt 9);
                           (of_ascii "tags", PRef 2)]);
            (2%nat, OList [PStr (of_ascii "AI")])] in
  (forall x o, heap_get h x = Some o -> heap_get (fst (clean_article_content h 1)) x = Some o)
  /\ (forall l', snd (clean_article_content h 1) = Some l' ->
       exists d', heap_get (fst (clean_article_content h 1)) l' = Some (ODict d')
                  /\ map fst d' = map fst [(of_ascii "title", PStr (of_ascii "a  b"));
                                           (of_ascii "score", PInt 9); (of_ascii "tags", PRef 2)]
                  /\ forall k,
                       (ustr_eqb k (of_ascii "title") = false -> ustr_eqb k (of_ascii "summary") = false ->
                        Dedup.dict_get d' k = Dedup.dict_get [(of_ascii "title", PStr (of_ascii "a  b"));
                                           (of_ascii "score", PInt 9); (of_ascii "tags", PRef 2)] k)
                       /\ (Dedup.dict_get d' k = Dedup.dict_get [(of_ascii "title", PStr (of_ascii "a  b"));
                                           (of_ascii "score", PInt 9); (of_ascii "tags", PRef 2)] k
                           \/ exists s, Dedup.dict_get [(of_ascii "title", PStr (of_ascii "a  b"));
                                           (of_ascii "score", PInt 9); (of_ascii "tags", PRef 2)] k
                                        = Some (PStr s)
                                        /\ Dedup.dict_get d' k = Some (PStr (remove_emojis s))))
  /\ ((forall k v, (k = of_ascii "title" \/ k = of_ascii "summary") ->
                   Dedup.dict_get [(of_ascii "title", PStr (of_ascii "a  b"));
                                   (of_ascii "score", PInt 9); (of_ascii "tags", PRef 2)] k = Some v ->
                   v = PNone \/ exists s, v = PStr s) ->
      exists l', snd (clean_article_content h 1) = Some l').
Proof.
  intro h; apply clean_article_content_frame; reflexivity.
Defined.

End TextCleanerChecks.

(* ------------------------------------------------------------------------- *)
(** ** Further properties of [enforce_diversity_quotas] *)

Module DiversityProps.

Import PyStr Diversity DictFacts DiversityFacts.

Section Props.

Context {A : Type} (ident : A -> nat) (topic_of : A -> ustr) (score_of : A -> Q).

Lemma phase1_inner_nodup (t : ustr) (l : list A) :
  forall acc : list A * Dedup.dict Z, NoDup (map ident (fst acc)) ->
  NoDup (map ident (fst (fold_left (fun (acc : list A * Dedup.dict Z) (x : A) =>
             let '(selected, tc) := acc in
             if Diversity.mem_art ident x selected then (selected, tc)
             else (selected ++ [x], count_incr tc t)) l acc))).
Proof.
  induction l as [|x l IH]; intros [sel tc] H; simpl; [exact H|].
  destruct (Diversity.mem_art ident x sel) eqn:Em; apply IH; simpl; [exact H|].
  apply (mem_art_false ident) in Em.
  rewrite map_app; simpl.
  apply NoDup_app; [exact H|constructor; [intros []|constructor]|].
  intros a Ha [<-|[]]; exact (Em Ha).
Qed.

Lemma phase1_fold_nodup (arts : list A) (qs : Dedup.dict Z) :
  forall acc, NoDup (map ident (fst acc)) ->
  NoDup (map ident (fst (fold_left (phase1_topic ident topic_of score_of arts) qs acc))).
Proof.
  induction qs as [|[t m] qs IH]; intros acc H; simpl; [exact H|].
  apply IH; unfold phase1_topic; apply phase1_inner_nodup; exact H.
Qed.

Lemma phase2_nodup (maxq : Dedup.dict Z) (uns : list A) :
  forall rem (acc : list A * Dedup.dict Z), NoDup (map ident (fst acc ++ uns)) ->
  NoDup (map ident (fst (phase2 topic_of maxq rem uns acc))).
Proof.
  induction uns as [|x rest IH]; intros rem [sel tc] H; simpl in *.
  - rewrite app_nil_r in H; exact H.
  - destruct (rem <=? 0)%Z.
    + rewrite map_app in H; exact (NoDup_app_remove_r _ _ H).
    + destruct (match Dedup.dict_get maxq (topic_of x) with
                | Some m => (m <=? count_get tc (topic_of x))%Z
                | None => false end); apply IH; simpl.
      * rewrite map_app in *; simpl in H; exact (NoDup_remove_1 _ _ _ H).
      * rewrite <- app_assoc; exact H.
Qed.

Lemma phase2_in (maxq : Dedup.dict Z) (uns : list A) (rem : Z) (acc : list A * Dedup.dict Z) (y : A) :
  In y (fst (phase2 topic_of maxq rem uns acc)) -> In y (fst acc) \/ In y uns.
Proof.
  destruct (phase2_appends topic_of maxq uns rem acc) as [suf [E [_ Hi]]].
  rewrite E; intro Hy; apply in_app_or in Hy as [Hy|Hy]; auto.
Qed.

Lemma phase2_no_max (uns : list A) :
  forall rem (acc : list A * Dedup.dict Z),
  fst (phase2 topic_of [] rem uns acc) = fst acc ++ firstn (Z.to_nat rem) uns.
Proof.
  induction uns as [|x rest IH]; intros rem [sel tc]; simpl.
  - rewrite firstn_nil, app_nil_r; reflexivity.
  - destruct (rem <=? 0)%Z eqn:Er.
    + apply Z.leb_le in Er; replace (Z.to_nat rem) with 0%nat by lia; simpl.
      rewrite app_nil_r; reflexivity.
    + apply Z.leb_gt in Er; rewrite IH; simpl.
      replace (Z.to_nat rem) with (S (Z.to_nat (rem - 1))) by lia; simpl.
      rewrite <- app_assoc; reflexivity.
Qed.

(** [enforce_diversity_quotas] only returns articles of its input, each
    once, when the input holds each article once. *)
Theorem enforce_diversity_quotas_from_input (min_quotas max_quotas : Dedup.dict Z)
    (target_count : Z) (articles : list A) :
  NoDup (map ident articles) ->
  let out := enforce_diversity_quotas ident topic_of score_of min_quotas max_quotas
                                      target_count articles in
  incl out articles /\ NoDup (map ident out).
Proof.
  intros Hnd out; unfold out, enforce_diversity_quotas; clear out.
  set (acc1 := fold_left (phase1_topic ident topic_of score_of articles) min_quotas ([], [])).
  assert (Horig : forall y, In y (fst acc1) -> In y articles /\ True).
  { apply (phase1_fold_origin ident topic_of score_of articles (fun _ => True));
      [auto|intros y []]. }
  assert (Hnd1 : NoDup (map ident (fst acc1))).
  { apply phase1_fold_nodup; constructor. }
  split.
  - intros y Hy; apply phase2_in in Hy as [Hy|Hy]; [apply Horig; exact Hy|].
    apply filter_In in Hy; tauto.
  - apply phase2_nodup; rewrite map_app; apply NoDup_app;
      [exact Hnd1|apply (nodup_map_filter ident topic_of score_of); exact Hnd|].
    intros i Hi Hi'; apply in_map_iff in Hi' as [y [Hy Hin]]; apply filter_In in Hin as [_ Hm].
    apply negb_true_iff, (mem_art_false ident) in Hm; apply Hm; rewrite Hy; exact Hi.
Qed.

(** With no minimum and no maximum quota, [enforce_diversity_quotas] keeps
    the first [target_count] articles in input order. *)
Theorem enforce_diversity_quotas_no_quotas (target_count : Z) (articles : list A) :
  enforce_diversity_quotas ident topic_of score_of [] [] target_count articles
  = firstn (Z.to_nat target_count) articles.
Proof.
  unfold enforce_diversity_quotas; simpl fold_left.
  rewrite phase2_no_max; simpl.
  rewrite Z.sub_0_r.
  f_equal; induction articles as [|x l IH]; simpl; [reflexivity|].
  rewrite IH; reflexivity.
Qed.

End Props.

End DiversityProps.

Module DiversityPropsChecks.

Import PyStr Diversity DiversityExamples.

Lemma enforce_diversity_quotas_from_input_witness :
  NoDup (map dv_id pool_AA)
  /\ let out := enforce_diversity_quotas dv_id dv_topic dv_score min_A2 max_A1 2 pool_AA in
     incl out pool_AA /\ NoDup (map dv_id out).
Proof.
  assert (H : NoDup (map dv_id pool_AA)) by (vm_compute; repeat constructor; simpl; intuition discriminate).
  split; [exact H|].
  exact (DiversityProps.enforce_diversity_quotas_from_input dv_id dv_topic dv_score min_A2 max_A1 2 pool_AA H).
Defined.

End DiversityPropsChecks.

(* ------------------------------------------------------------------------- *)
(** ** Further properties of [random.sample] and of the daily markdown *)

Module SampleProps.

Import PyRandom.

Section Props.

Context {X : Type}.

Lemma sample_pool_length (pool : list X) (n i k : nat) (s : mt_state) (d : X) :
  length (fst (sample_pool pool n i k s d)) = k.
Proof.
  revert pool i s; induction k as [|k IH]; intros pool i s; simpl; [reflexivity|].
  destruct (randbelow _ s) as [j s1].
  match goal with |- context [sample_pool ?p n (S i) k s1 d] =>
    specialize (IH p (S i) s1); destruct (sample_pool p n (S i) k s1 d) as [rest s2] end.
  simpl in *; rewrite IH; reflexivity.
Qed.

Lemma sample_pool_incl (P : list X) (pool : list X) (n i k : nat) (s : mt_state) (d : X) :
  In d P -> incl pool P -> incl (fst (sample_pool pool n i k s d)) P.
Proof.
  intro Hd; revert pool i s; induction k as [|k IH]; intros pool i s Hp; simpl; [intros y []|].
  destruct (randbelow _ s) as [j s1].
  assert (Hn : forall m, In (nth m pool d) P).
  { intro m; destruct (nth_in_or_default m pool d) as [H|H]; [apply Hp; exact H|rewrite H; exact Hd]. }
  match goal with |- context [sample_pool ?p n (S i) k s1 d] =>
    assert (Hp' : incl p P);
    [|specialize (IH p (S i) s1 Hp'); destruct (sample_pool p n (S i) k s1 d) as [rest s2]] end.
  { intros y Hy; apply in_app_or in Hy as [Hy|[<-|Hy]].
    - apply Hp; rewrite <- (firstn_skipn (Z.to_nat j) pool); apply in_or_app; left; exact Hy.
    - apply Hn.
    - apply Hp; rewrite <- (firstn_skipn (S (Z.to_nat j)) pool); apply in_or_app; right; exact Hy. }
  simpl in *; intros y [<-|Hy]; [apply Hn|apply IH; exact Hy].
Qed.

Lemma sample_set_length (population : list X) (selected : list Z) (k : nat) (s : mt_state) (d : X) :
  length (fst (sample_set population selected k s d)) = k.
Proof.
  revert selected s; induction k as [|k IH]; intros selected s; simpl; [reflexivity|].
  destruct (draw_new _ _ selected s) as [j s1].
  specialize (IH (j :: selected) s1); destruct (sample_set population (j :: selected) k s1 d).
  simpl in *; rewrite IH; reflexivity.
Qed.

Lemma sample_set_incl (population : list X) (selected : list Z) (k : nat) (s : mt_state) (d : X) :
  In d population -> incl (fst (sample_set population selected k s d)) population.
Proof.
  intro Hd; revert selected s; induction k as [|k IH]; intros selected s; simpl; [intros y []|].
  destruct (draw_new _ _ selected s) as [j s1].
  specialize (IH (j :: selected) s1); destruct (sample_set population (j :: selected) k s1 d).
  simpl in *; intros y [<-|Hy]; [|apply IH; exact Hy].
  destruct (nth_in_or_default (Z.to_nat j) population d) as [H|H]; [exact H|rewrite H; exact Hd].
Qed.

(** [sample] of a non-empty population returns [k] of its elements. *)
Lemma sample_length_incl (population : list X) (k : nat) (s : mt_state) :
  population <> [] ->
  length (fst (sample population k s)) = k /\ incl (fst (sample population k s)) population.
Proof.
  destruct population as [|d rest]; [tauto|intros _]; unfold sample.
  destruct (length (d :: rest) <=? setsize k)%nat.
  - split; [apply sample_pool_length|apply sample_pool_incl; [left; auto|intros y Hy; exact Hy]].
  - split; [apply sample_set_length|apply sample_set_incl; left; auto].
Qed.

End Props.

End SampleProps.

Module BlogProps.

Import PyStr Blog.

Lemma flat_map_nil_iff {A B} (f : A -> list B) (l : list A) :
  flat_map f l = [] <-> forall x, In x l -> f x = [].
Proof.
  induction l as [|x l IH]; simpl; [split; [intros _ y []|reflexivity]|].
  split.
  - intros H y [<-|Hy]; apply app_eq_nil in H as [H1 H2]; [exact H1|].
    exact (proj1 IH H2 y Hy).
  - intros H; rewrite (H x (or_introl eq_refl)); simpl.
    apply IH; intros y Hy; apply H; right; exact Hy.
Qed.

(** [make_daily_markdown_with] writes nothing exactly when it is given no
    article: every article renders to a non-empty block. *)
Theorem make_daily_markdown_with_none (now : clock) (set_order : list ustr -> list ustr)
        (project_root : ustr) (articles : list blog_article) :
  make_daily_markdown_with now set_order project_root articles = None <-> articles = [].
Proof.
  unfold make_daily_markdown_with.
  destruct (make_meta_data _ _ _ _ _) as [md_path meta_data].
  destruct articles as [|a rest]; [split; reflexivity|].
  unfold make_articles_content; cbn [flat_map]; unfold article_intro, nl.
  split; discriminate.
Qed.

(** [build_insight_lines] is empty exactly when none of the five insight
    fields of [evaluate] is present and non-empty. *)
Theorem build_insight_lines_empty (a : blog_article) :
  build_insight_lines a = []
  <-> (forall key, In key INSIGHT_FIELDS -> ev_get a key = None \/ ev_get a key = Some []).
Proof.
  unfold build_insight_lines.
  set (f := fun key => match ev_get a key with
                       | Some ((_ :: _) as v) => [(key, v)]
                       | _ => []
                       end).
  assert (Hf : forall key, f key = [] <-> ev_get a key = None \/ ev_get a key = Some []).
  { intro key; unfold f; destruct (ev_get a key) as [[|c v]|]; split; intro H;
      auto; try discriminate; destruct H; discriminate. }
  destruct (flat_map f INSIGHT_FIELDS) as [|p ps] eqn:E.
  - split; [intros _ key Hk|reflexivity].
    apply Hf; exact (proj1 (flat_map_nil_iff f INSIGHT_FIELDS) E key Hk).
  - split; [unfold nl; discriminate|intro H].
    rewrite (proj2 (flat_map_nil_iff f INSIGHT_FIELDS)) in E; [discriminate|].
    intros key Hk; apply Hf, H, Hk.
Qed.

(** When some insight field is filled, [build_insight_lines] renders
    [min(3, n)] of the [n] filled fields, one sentence per line, between two
    newlines. *)
Theorem build_insight_lines_shape (a : blog_article) :
  let available := flat_map (fun key => match ev_get a key with
                                        | Some ((_ :: _) as v) => [(key, v)]
                                        | _ => []
                                        end) INSIGHT_FIELDS in
  available <> [] ->
  exists selected,
    build_insight_lines a = nl ++ join nl (map insight_sentence selected) ++ nl
    /\ length selected = Nat.min 3 (length available)
    /\ incl selected available.
Proof.
  intros available Hne.
  destruct (SampleProps.sample_length_incl available (Nat.min 3 (length available))
              (PyRandom.random_of_str (ev_title a ++ of_ascii "-" ++ date a)) Hne) as [Hl Hi].
  eexists; split; [|split; [exact Hl|exact Hi]].
  unfold build_insight_lines; fold available.
  destruct available as [|p ps]; [contradiction|reflexivity].
Qed.

Lemma startswith_46 (s : ustr) : startswith s [46; da] = true -> startswith s [46] = true.
Proof.
  destruct s as [|x s]; simpl; [discriminate|].
  intro H; apply andb_true_iff in H as [H _]; rewrite H; destruct s; reflexivity.
Qed.

(** Every insight sentence ends in a period or in the syllable 다. *)
Theorem insight_sentence_ending (kv : ustr * ustr) :
  endswith (insight_sentence kv) [46] = true \/ endswith (insight_sentence kv) [da] = true.
Proof.
  destruct kv as [key value]; unfold insight_sentence.
  destruct (insight_template key) as [before after].
  set (s := strip (before ++ value ++ after)).
  destruct (negb (endswith s [da; 46]) && negb (endswith s [da])) eqn:E.
  - left; unfold endswith; rewrite rev_app_distr; simpl; destruct (rev (rstrip_by (N.eqb 46) s)); reflexivity.
  - apply andb_false_iff in E as [E|E]; apply negb_false_iff in E; [left|right; exact E].
    unfold endswith in *; apply startswith_46; exact E.
Qed.

(** A rendered tag line never contains a slash. *)
Theorem rectify_tag_value_no_slash (value : ustr) : ~ In 47%N (rectify_tag_value value).
Proof.
  assert (Hr : ~ In 47%N (replace_char 47 [95] value)).
  { unfold replace_char; intro H; apply in_flat_map in H as [d [_ Hd]].
    destruct (N.eqb_spec 47 d) as [E|E]; simpl in Hd; [intuition discriminate|].
    destruct Hd as [Hd|[]]; exact (E (eq_sym Hd)). }
  unfold rectify_tag_value, nl; intro H.
  repeat (apply in_app_or in H as [H|H]); try exact (Hr H); vm_compute in H; intuition discriminate.
Qed.

End BlogProps.

Module BlogPropsChecks.

Import PyStr Blog BlogExamples.

Lemma build_insight_lines_shape_witness :
  exists selected,
    build_insight_lines (post "x" "y") = nl ++ join nl (map insight_sentence selected) ++ nl
    /\ length selected = Nat.min 3 (length (flat_map (fun key => match ev_get (post "x" "y") key with
                                        | Some ((_ :: _) as v) => [(key, v)]
                                        | _ => []
                                        end) INSIGHT_FIELDS))
    /\ incl selected (flat_map (fun key => match ev_get (post "x" "y") key with
                                        | Some ((_ :: _) as v) => [(key, v)]
                                        | _ => []
                                        end) INSIGHT_FIELDS).
Proof. apply (BlogProps.build_insight_lines_shape (post "x" "y")); vm_compute; discriminate. Defined.

End BlogPropsChecks.

(* ------------------------------------------------------------------------- *)
(** ** Further properties of [remove_emojis] *)

Module TextCleanerProps.

Import PyStr TextCleaner.

Lemma in_squeeze (b : bool) (s : ustr) (c : N) : In c (squeeze_spaces b s) -> In c s.
Proof.
  revert b; induction s as [|x s IH]; intro b; simpl; [auto|].
  destruct (x =? 32)%N; [destruct b|]; simpl.
  - intro H; right; exact (IH _ H).
  - intros [H|H]; [left; exact H|right; exact (IH _ H)].
  - intros [H|H]; [left; exact H|right; exact (IH _ H)].
Qed.

Lemma in_header_match (s hashes rest : ustr) (lastc c : N) :
  header_match s = Some (hashes, rest, lastc) -> In c hashes \/ In c rest -> In c s.
Proof.
  unfold header_match.
  destruct (Url.span_until (fun c => negb (c =? 35)%N) s) as [hs r] eqn:E1.
  destruct (_ && _); [|discriminate].
  destruct (Url.span_until (fun c => negb (is_space c)) r) as [ws rs] eqn:E2.
  destruct (rev ws); [discriminate|].
  intro H; injection H as <- <- <-; intros [H|H];
    apply (UrlFacts.in_span_until (fun c => negb (c =? 35)%N)); rewrite E1; simpl; [left; exact H|].
  right; apply (UrlFacts.in_span_until (fun c => negb (is_space c))); rewrite E2; right; exact H.
Qed.

Lemma in_fix_headers (fuel : nat) (bol : bool) (s : ustr) (c : N) :
  In c (fix_headers fuel bol s) -> In c s \/ c = 32%N.
Proof.
  revert bol s; induction fuel as [|f IH]; intros bol s; simpl; [auto|].
  destruct s as [|x s']; [auto|].
  destruct (if bol then header_match (x :: s') else None) as [[[hashes rest] lastc]|] eqn:E.
  - assert (Hm : header_match (x :: s') = Some (hashes, rest, lastc)) by (destruct bol; congruence).
    intro H; apply in_app_or in H as [H|[H|H]].
    + left; exact (in_header_match _ _ _ _ _ Hm (or_introl H)).
    + right; auto.
    + apply IH in H as [H|H]; [left; exact (in_header_match _ _ _ _ _ Hm (or_intror H))|right; exact H].
  - intros [H|H]; [left; left; exact H|].
    apply IH in H as [H|H]; [left; right; exact H|right; exact H].
Qed.

Lemma in_strip (s : ustr) (c : N) : In c (strip s) -> In c s.
Proof.
  unfold strip, rstrip_by; intro H.
  apply in_rev, UrlFacts.in_lstrip, in_rev, UrlFacts.in_lstrip in H; exact H.
Qed.

(** [remove_emojis] leaves no character of the emoji class in its result. *)
Theorem remove_emojis_no_emoji (text : ustr) (c : N) :
  In c (remove_emojis text) -> is_emoji c = false.
Proof.
  unfold remove_emojis.
  destruct text as [|x t]; [intros []|]; cbn [Url.is_nil].
  intro H; apply in_strip, in_fix_headers in H as [H|H]; [|subst; reflexivity].
  apply in_squeeze, filter_In in H as [_ H]; apply negb_true_iff; exact H.
Qed.

End TextCleanerProps.

(* ------------------------------------------------------------------------- *)
(** ** Further properties of the feed metrics *)

Module MetricsProps.

Import PyStr Metrics SaveMetrics DictFacts.

Open Scope nat_scope.

Lemma init_fold_get (items : list rss_item) :
  forall (m : metrics) (t : ustr),
  NoDup (map fst m) ->
  NoDup (map fst (fold_left init_step items m))
  /\ Dedup.dict_get (fold_left init_step items m) t
     = match Dedup.dict_get m t with
       | Some fm => Some fm
       | None => option_map fresh_metrics
                   (find (fun item => ustr_eqb (registered_title item) t) items)
       end.
Proof.
  induction items as [|it items IH]; intros m t Hn; cbn [fold_left find].
  - split; [exact Hn|]; destruct (Dedup.dict_get m t); reflexivity.
  - destruct (mem_key (registered_title it) m) eqn:Emk.
    + replace (init_step m it) with m by (unfold init_step; cbv zeta; rewrite Emk; reflexivity).
      unfold mem_key in Emk; destruct (Dedup.dict_get m (registered_title it)) as [fm0|] eqn:E0;
        [|discriminate].
      destruct (IH m t Hn) as [H1 H2]; split; [exact H1|rewrite H2].
      destruct (Dedup.dict_get m t) eqn:Et; [reflexivity|].
      destruct (ustr_eqb (registered_title it) t) eqn:Ei; [|reflexivity].
      apply ustr_eqb_eq in Ei; congruence.
    + replace (init_step m it) with (Dedup.dict_set m (registered_title it) (fresh_metrics it))
        by (unfold init_step; cbv zeta; rewrite Emk; reflexivity).
      unfold mem_key in Emk; destruct (Dedup.dict_get m (registered_title it)) as [fm0|] eqn:E0;
        [discriminate|].
      assert (Hnot : ~ In (registered_title it) (map fst m)).
      { apply dict_get_none in E0; exact E0. }
      destruct (IH (Dedup.dict_set m (registered_title it) (fresh_metrics it)) t) as [H1 H2].
      { rewrite MetricsFacts.dict_set_keys_absent by exact Hnot.
        apply NoDup_app; [exact Hn|repeat constructor; intros []|].
        intros k Hk [<-|[]]; exact (Hnot Hk). }
      split; [exact H1|rewrite H2, dict_get_set].
      destruct (ustr_eqb (registered_title it) t) eqn:Ei.
      * apply ustr_eqb_eq in Ei; subst t; rewrite E0; reflexivity.
      * destruct (Dedup.dict_get m t); reflexivity.
Qed.

(** [initialize_all_feed_metrics] registers every feed title of [rss.json]
    once: the keys hold no repetition, and the entry of a title is the
    zeroed record built from the first feed of that title (its tier and
    priority); a title no feed has is absent. *)
Theorem initialize_all_feed_metrics_get (items : list rss_item) (t : ustr) :
  NoDup (map fst (initialize_all_feed_metrics items))
  /\ Dedup.dict_get (initialize_all_feed_metrics items) t
     = option_map fresh_metrics (find (fun item => ustr_eqb (registered_title item) t) items).
Proof.
  change (initialize_all_feed_metrics items) with (fold_left init_step items []).
  destruct (init_fold_get items [] t (NoDup_nil _)) as [H1 H2]; split; [exact H1|exact H2].
Qed.

Lemma parse_keys (m : metrics) (feeds : list (rss_item * list rss_article))
      (cache : option (list rss_article)) :
  map fst (fst (parse_daily_rss_article m feeds cache)) = map fst m.
Proof.
  destruct cache as [cached|]; [reflexivity|]; simpl.
  assert (H : forall acc, map fst (fst acc) = map fst m ->
    map fst (fst (fold_left (fun acc feed =>
                   let '(m, daily_rss) := acc in
                   let '(item, rss_list) := feed in
                   (update_if_present m (registered_title item) (set_find (length rss_list)),
                    daily_rss ++ rss_list)) feeds acc)) = map fst m).
  { induction feeds as [|[item l] feeds IH]; intros [m' d] Hm; simpl; [exact Hm|].
    apply IH; simpl; rewrite MetricsFacts.update_keys; exact Hm. }
  apply H; reflexivity.
Qed.

(** A run never adds or removes a feed of [FEED_METRICS]: after the release
    tracking its keys are still the titles [initialize_all_feed_metrics]
    registered, in the same order. *)
Theorem run_keys {rng : Type} (rsample : rng -> list rss_article -> nat -> list rss_article * rng)
        (select : list rss_article -> list rss_article) (g : rng)
        (feeds : list (rss_item * list rss_article)) (cache : option (list rss_article)) :
  map fst (fst (run rsample select g feeds cache))
  = map fst (initialize_all_feed_metrics (map fst feeds)).
Proof.
  unfold run.
  pose proof (parse_keys (initialize_all_feed_metrics (map fst feeds)) feeds cache) as Hp.
  destruct (parse_daily_rss_article _ feeds cache) as [m1 l1]; simpl in Hp.
  unfold stratified_sample_with_priority.
  destruct (stratified_draw rsample g l1) as [sampled g']; simpl.
  rewrite MetricsFacts.track_releases_keys, MetricsFacts.count_candidates_keys; exact Hp.
Qed.

(** [_article_tier] never yields an empty tier: a missing or empty tier falls
    back to [info]'s, then to ["P2_RAW"]. *)
Theorem _article_tier_nonempty (a : rss_article) : _article_tier a <> [].
Proof.
  unfold _article_tier, truthy, get_or.
  destruct (cfg_tier a) as [[|c t]|]; try discriminate;
    destruct (ra_info a) as [[ti [[|c' t']|]]|]; simpl; discriminate.
Qed.

End MetricsProps.

(* ------------------------------------------------------------------------- *)
(** ** Further properties of [deduplicate_articles] *)

Module DedupProps.

Import PyStr Url Dedup DictFacts.
Open Scope nat_scope.

Section Dicts.

Context {V : Type}.

Lemma in_dict_set (d : dict V) (k : ustr) (v : V) (p : ustr * V) :
  In p (dict_set d k v) -> In p d \/ p = (k, v).
Proof.
  induction d as [|[k0 v0] d IH]; simpl; [intros [<-|[]]; right; auto|].
  destruct (ustr_eqb k0 k) eqn:E.
  - apply ustr_eqb_eq in E; subst k0; intros [<-|H]; [right; auto|left; right; exact H].
  - intros [<-|H]; [left; left; auto|destruct (IH H); [left; right|right]; auto].
Qed.

Lemma keys_dict_set (d : dict V) (k k' : ustr) (v : V) :
  In k' (map fst (dict_set d k v)) <-> In k' (map fst d) \/ k' = k.
Proof.
  induction d as [|[k0 v0] d IH]; simpl; [intuition|].
  destruct (ustr_eqb k0 k) eqn:E; simpl.
  - apply ustr_eqb_eq in E; subst k0; intuition.
  - rewrite IH; intuition.
Qed.

Lemma nodup_dict_set (g : ustr * V -> ustr) (d : dict V) (k : ustr) (v : V) :
  NoDup (map g d) -> ~ In (g (k, v)) (map g d) -> NoDup (map g (dict_set d k v)).
Proof.
  induction d as [|[k0 v0] d IH]; simpl; intros Hn Hg.
  - constructor; [intros []|constructor].
  - inversion Hn as [|? ? H0 H1]; subst.
    destruct (ustr_eqb k0 k) eqn:E.
    + apply ustr_eqb_eq in E; subst k0; simpl.
      constructor; [intro H; apply Hg; right; exact H|exact H1].
    + simpl; constructor; [|apply IH; [exact H1|intro H; apply Hg; right; exact H]].
      intro H; apply in_map_iff in H as [p [Hp Hin]].
      destruct (in_dict_set d k v p Hin) as [Hin'| ->].
      * apply H0; rewrite <- Hp; apply in_map; exact Hin'.
      * apply Hg; left; symmetry; exact Hp.
Qed.

Lemma nodup_keys_dict_set (d : dict V) (k : ustr) (v : V) :
  NoDup (map fst d) -> NoDup (map fst (dict_set d k v)).
Proof.
  induction d as [|[k0 v0] d IH]; simpl; intro Hn; [constructor; [intros []|constructor]|].
  inversion Hn as [|? ? H0 H1]; subst.
  destruct (ustr_eqb k0 k) eqn:E; simpl; constructor; auto.
  rewrite keys_dict_set; intros [H|H]; [exact (H0 H)|subst k0; rewrite ustr_eqb_refl in E; discriminate].
Qed.

Lemma dict_del_some (d : dict V) (k : ustr) :
  In k (map fst d) -> exists d', dict_del d k = Some d'.
Proof.
  induction d as [|[k0 v0] d IH]; simpl; [intros []|].
  destruct (ustr_eqb k0 k) eqn:E; [eexists; reflexivity|].
  intros [H|H]; [subst k0; rewrite ustr_eqb_refl in E; discriminate|].
  destruct (IH H) as [d' E']; rewrite E'; eexists; reflexivity.
Qed.

Lemma in_dict_del (d d' : dict V) (k : ustr) (p : ustr * V) :
  dict_del d k = Some d' -> In p d' -> In p d.
Proof.
  revert d'; induction d as [|[k0 v0] d IH]; intro d'; simpl; [discriminate|].
  destruct (ustr_eqb k0 k).
  - intro H; injection H as <-; intro Hp; right; exact Hp.
  - destruct (dict_del d k) as [d1|] eqn:E; simpl; [|discriminate].
    intro H; injection H as <-; intros [<-|Hp]; [left; auto|right; exact (IH d1 eq_refl Hp)].
Qed.

Lemma keys_dict_del (d d' : dict V) (k k' : ustr) :
  dict_del d k = Some d' -> In k' (map fst d) -> k' <> k -> In k' (map fst d').
Proof.
  revert d'; induction d as [|[k0 v0] d IH]; intro d'; simpl; [discriminate|].
  destruct (ustr_eqb k0 k) eqn:E.
  - apply ustr_eqb_eq in E; subst k0; intro H; injection H as <-; intros [H|H] Hne; [congruence|exact H].
  - destruct (dict_del d k) as [d1|] eqn:Ed; simpl; [|discriminate].
    intro H; injection H as <-; simpl; intros [H|H] Hne; [left; exact H|right; exact (IH d1 eq_refl H Hne)].
Qed.

Lemma nodup_dict_del (g : ustr * V -> ustr) (d d' : dict V) (k : ustr) :
  dict_del d k = Some d' -> NoDup (map g d) -> NoDup (map g d').
Proof.
  revert d'; induction d as [|[k0 v0] d IH]; intro d'; simpl; [discriminate|].
  intros Hd Hn; inversion Hn as [|? ? H0 H1]; subst.
  destruct (ustr_eqb k0 k).
  - injection Hd as <-; exact H1.
  - destruct (dict_del d k) as [d1|] eqn:Ed; simpl in Hd; [|discriminate].
    injection Hd as <-; simpl; constructor; [|exact (IH d1 eq_refl H1)].
    intro H; apply H0; apply in_map_iff in H as [p [Hp Hin]].
    rewrite <- Hp; apply in_map; exact (in_dict_del d d1 k p Ed Hin).
Qed.

Lemma dict_del_gone (d d' : dict V) (k : ustr) :
  NoDup (map fst d) -> dict_del d k = Some d' -> ~ In k (map fst d').
Proof.
  revert d'; induction d as [|[k0 v0] d IH]; intro d'; simpl; [discriminate|].
  intro Hn; inversion Hn as [|? ? H0 H1]; subst.
  destruct (ustr_eqb k0 k) eqn:E.
  - apply ustr_eqb_eq in E; subst k0; intro H; injection H as <-; exact H0.
  - destruct (dict_del d k) as [d1|] eqn:Ed; simpl; [|discriminate].
    intro H; injection H as <-; simpl; intros [H|H].
    + subst k0; rewrite ustr_eqb_refl in E; discriminate.
    + exact (IH d1 H1 eq_refl H).
Qed.

End Dicts.

Lemma find_similar_in (t k : ustr) (e : article) (d : dict article) :
  find_similar t d = Some (k, e) -> In (k, e) d.
Proof.
  induction d as [|[k0 e0] d IH]; simpl; [discriminate|].
  destruct (Qle_bool _ _); [intro H; injection H as <- <-; left; auto|intro H; right; auto].
Qed.

Lemma nodup_map_eq {A B} (g : A -> B) (l : list A) (x y : A) :
  NoDup (map g l) -> In x l -> In y l -> g x = g y -> x = y.
Proof.
  induction l as [|a l IH]; simpl; [tauto|].
  intros H Hx Hy E; inversion H as [|? ? Ha Hl]; subst.
  destruct Hx as [<-|Hx], Hy as [<-|Hy]; auto.
  - exfalso; apply Ha; rewrite E; apply in_map; auto.
  - exfalso; apply Ha; rewrite <- E; apply in_map; auto.
Qed.

Definition url_of_entry (p : ustr * article) : ustr := canonicalize_url (link (snd p)).

(** What the loop keeps true of its two dicts: the title keys are distinct,
    the title entries have distinct canonical URLs, and each of these URLs
    is a key of [seen_urls]. *)
Definition dinv (st : dstate) : Prop :=
  NoDup (map fst (seen_titles st))
  /\ NoDup (map url_of_entry (seen_titles st))
  /\ (forall p, In p (seen_titles st) -> In (url_of_entry p) (map fst (seen_urls st))).

Lemma dinv_step (st : dstate) (x : article) :
  dinv st -> exists st', dedup_step st x = Some st' /\ dinv st'.
Proof.
  intros (Hk & Hu & Hin); unfold dedup_step; cbv zeta.
  destruct (is_nil (link x)); [exists st; split; [reflexivity|split; auto]|].
  set (canonical := canonicalize_url (link x)).
  destruct (dict_get (seen_urls st) canonical) as [existing|] eqn:Eu.
  - destruct (same (choose_better_article existing x) x);
      (eexists; split; [reflexivity|]); [|split; auto].
    split; [exact Hk|split; [exact Hu|]]; cbn [seen_titles seen_urls].
    intros p Hp; apply keys_dict_set; left; apply Hin, Hp.
  - assert (Hc : ~ In canonical (map fst (seen_urls st))) by (apply dict_get_none; exact Eu).
    assert (Hne : forall p, In p (seen_titles st) -> url_of_entry p <> canonical).
    { intros p Hp E; apply Hc; rewrite <- E; apply Hin, Hp. }
    destruct (is_curated x && negb (is_nil (resolved_title x))).
    + destruct (find_similar (resolved_title x) (seen_titles st)) as [[existing_title existing]|] eqn:Ef.
      * destruct (same (choose_better_article existing x) x); [|eexists; split; [reflexivity|split; auto]].
        pose proof (find_similar_in _ _ _ _ Ef) as Hke.
        destruct (dict_del_some (seen_titles st) existing_title) as [titles' Et];
          [apply (in_map fst) in Hke; exact Hke|rewrite Et].
        destruct (dict_del_some (seen_urls st) (canonicalize_url (link existing))) as [urls' Eus];
          [apply (Hin _ Hke)|rewrite Eus].
        eexists; split; [reflexivity|]; cbn [seen_titles seen_urls].
        assert (Hsub : forall p, In p titles' -> url_of_entry p <> url_of_entry (existing_title, existing)).
        { intros p Hp E.
          assert (Hp0 : In p (seen_titles st)) by exact (in_dict_del _ _ _ _ Et Hp).
          pose proof (nodup_map_eq url_of_entry _ _ _ Hu Hp0 Hke E) as ->.
          apply (dict_del_gone _ _ _ Hk Et); apply (in_map fst) in Hp; exact Hp. }
        split; [|split].
        -- apply nodup_keys_dict_set, (nodup_dict_del fst _ _ _ Et Hk).
        -- apply nodup_dict_set; [exact (nodup_dict_del url_of_entry _ _ _ Et Hu)|].
           intro H; apply in_map_iff in H as [p [Hp Hpin]].
           apply (Hne p (in_dict_del _ _ _ _ Et Hpin)); rewrite Hp; reflexivity.
        -- intros p Hp; apply keys_dict_set.
           destruct (in_dict_set _ _ _ _ Hp) as [Hp'| ->]; [|right; reflexivity].
           left; apply (keys_dict_del _ _ _ _ Eus); [apply Hin; exact (in_dict_del _ _ _ _ Et Hp')|].
           exact (Hsub p Hp').
      * eexists; split; [reflexivity|]; unfold register; cbn [seen_titles seen_urls].
        split; [|split].
        -- apply nodup_keys_dict_set, Hk.
        -- apply nodup_dict_set; [exact Hu|].
           intro H; apply in_map_iff in H as [p [Hp Hpin]].
           apply (Hne p Hpin); rewrite Hp; reflexivity.
        -- intros p Hp; apply keys_dict_set.
           destruct (in_dict_set _ _ _ _ Hp) as [Hp'| ->]; [left; apply Hin, Hp'|right; reflexivity].
    + eexists; split; [reflexivity|]; unfold register; cbn [seen_titles seen_urls].
      split; [exact Hk|split; [exact Hu|]].
      intros p Hp; apply keys_dict_set; left; apply Hin, Hp.
Qed.

Lemma dedup_step_shape (st st' : dstate) (x : article) :
  dedup_step st x = Some st' ->
  unique_articles st' = unique_articles st
  \/ (is_nil (link x) = false
      /\ ((exists e, unique_articles st' = replace_first e x (unique_articles st))
          \/ unique_articles st' = unique_articles st ++ [x])).
Proof.
  unfold dedup_step, register; cbv zeta.
  destruct (is_nil (link x)) eqn:El; [intro H; injection H as <-; left; reflexivity|].
  repeat match goal with
         | |- context [match ?e with _ => _ end] => destruct e
         | |- context [if ?c then _ else _] => destruct c
         end;
    intro H; inversion H; subst; cbn [unique_articles];
    first [ left; reflexivity
          | right; split; [reflexivity|left; eexists; reflexivity]
          | right; split; [reflexivity|right; reflexivity] ].
Qed.

Lemma replace_first_length (o n : article) (l : list article) :
  length (replace_first o n l) = length l.
Proof. induction l as [|y l IH]; simpl; [|destruct (same y o); simpl; rewrite ?IH]; reflexivity. Qed.

Lemma replace_first_nodup (o n : article) (l : list article) :
  NoDup (map aid l) -> ~ In (aid n) (map aid l) -> NoDup (map aid (replace_first o n l)).
Proof.
  induction l as [|y l IH]; simpl; intros Hn Hx; [constructor|].
  inversion Hn as [|? ? H0 H1]; subst.
  destruct (same y o); simpl; constructor; [tauto|exact H1| |apply IH; tauto].
  intro H; apply in_map_iff in H as [z [Hz Hin]].
  destruct (DedupFacts.replace_first_incl o n l z Hin) as [Hz'| ->].
  - apply H0; rewrite <- Hz; apply in_map; exact Hz'.
  - apply Hx; left; symmetry; exact Hz.
Qed.

Lemma dedup_step_unique (st st' : dstate) (x : article) :
  dedup_step st x = Some st' ->
  (length (unique_articles st') <= S (length (unique_articles st)))
  /\ (forall y, In y (unique_articles st') ->
        In y (unique_articles st) \/ (y = x /\ is_nil (link x) = false))
  /\ (NoDup (map aid (unique_articles st)) -> ~ In (aid x) (map aid (unique_articles st)) ->
      NoDup (map aid (unique_articles st'))).
Proof.
  intro H; destruct (dedup_step_shape st st' x H) as [E|[El [[e E]|E]]]; rewrite E.
  - split; [lia|split; [intros y Hy; left; exact Hy|auto]].
  - rewrite replace_first_length; split; [lia|split].
    + intros y Hy; destruct (DedupFacts.replace_first_incl e x _ y Hy) as [Hy'| ->]; auto.
    + apply replace_first_nodup.
  - rewrite length_app; simpl; split; [lia|split].
    + intros y Hy; apply in_app_or in Hy as [Hy|[<-|[]]]; auto.
    + intros Hn Hx; rewrite map_app; apply NoDup_app; [exact Hn|constructor; [intros []|constructor]|].
      intros i Hi [Hi'|[]]; subst i; exact (Hx Hi).
Qed.

Lemma dedup_loop_total (xs : list article) :
  forall st, dinv st ->
  exists st', dedup_loop st xs = Some st'
              /\ length (unique_articles st') <= length (unique_articles st) + length xs.
Proof.
  induction xs as [|x xs IH]; intros st Hinv; cbn [dedup_loop].
  - exists st; split; [reflexivity|simpl; lia].
  - destruct (dinv_step st x Hinv) as [st1 [E1 Hinv1]]; rewrite E1.
    destruct (IH st1 Hinv1) as [st' [E Hl]]; exists st'; split; [exact E|].
    destruct (dedup_step_unique st st1 x E1) as [Hl1 _]; simpl; lia.
Qed.

Lemma dedup_loop_unique (xs : list article) :
  forall st st', dedup_loop st xs = Some st' ->
  NoDup (map aid xs) -> NoDup (map aid (unique_articles st)) ->
  (forall y, In y (unique_articles st) -> ~ In (aid y) (map aid xs)) ->
  NoDup (map aid (unique_articles st'))
  /\ (forall y, In y (unique_articles st') -> In y (unique_articles st) \/ (In y xs /\ is_nil (link y) = false)).
Proof.
  induction xs as [|x xs IH]; intros st st' E Hx Hu Hd; cbn [dedup_loop] in E.
  - injection E as <-; split; [exact Hu|auto].
  - destruct (dedup_step st x) as [st1|] eqn:E1; [|discriminate].
    destruct (dedup_step_unique st st1 x E1) as (_ & Hin1 & Hnd1).
    inversion Hx as [|? ? Hx0 Hx1]; subst.
    assert (Hxu : ~ In (aid x) (map aid (unique_articles st))).
    { intro H; apply in_map_iff in H as [y [Hy Hin]]; apply (Hd y Hin); rewrite Hy; left; reflexivity. }
    destruct (IH st1 st' E Hx1 (Hnd1 Hu Hxu)) as [H1 H2].
    { intros y Hy; destruct (Hin1 y Hy) as [Hy'|[-> _]]; [|exact Hx0].
      intro H; apply (Hd y Hy'); right; exact H. }
    split; [exact H1|].
    intros y Hy; destruct (H2 y Hy) as [Hy'|[Hy' Hl]]; [|right; split; [right; exact Hy'|exact Hl]].
    destruct (Hin1 y Hy') as [H|[-> Hl]]; [left; exact H|right; split; [left; reflexivity|exact Hl]].
Qed.

(** With deduplication enabled, [deduplicate_articles] never raises: both
    [del] statements find their key.  In every case it returns no more
    articles than it was given. *)
Theorem deduplicate_articles_total (enabled : bool) (articles : list article) :
  exists ys, deduplicate_articles enabled articles = Some ys /\ length ys <= length articles.
Proof.
  unfold deduplicate_articles; destruct enabled; simpl negb; cbv iota.
  - destruct (dedup_loop_total articles dstate0) as [st' [E Hl]].
    + split; [constructor|split; [constructor|intros p []]].
    + rewrite E; eexists; split; [reflexivity|exact Hl].
  - eexists; split; [reflexivity|lia].
Qed.

(** With deduplication enabled, each returned article is an input article
    with a non-empty link, and an input holding each article once gives an
    output holding each article once. *)
Theorem deduplicate_articles_output (articles ys : list article) :
  NoDup (map aid articles) ->
  deduplicate_articles true articles = Some ys ->
  NoDup (map aid ys) /\ (forall y, In y ys -> In y articles /\ is_nil (link y) = false).
Proof.
  intros Hn; unfold deduplicate_articles; simpl negb; cbv iota.
  destruct (dedup_loop dstate0 articles) as [st'|] eqn:E; [|discriminate].
  intro H; injection H as <-.
  destruct (dedup_loop_unique articles dstate0 st' E Hn (NoDup_nil _) (fun y H => match H with end))
    as [H1 H2].
  split; [exact H1|intros y Hy; destruct (H2 y Hy) as [[]|H]; exact H].
Qed.

End DedupProps.

Module DedupPair.

Import PyStr Url Dedup DictFacts DedupFacts DedupProps.
Open Scope nat_scope.

Section DictKeep.

Context {V : Type}.

Lemma in_dict_set_keep (d : dict V) (k : ustr) (v : V) (p : ustr * V) :
  In p d -> fst p <> k -> In p (dict_set d k v).
Proof.
  induction d as [|[k0 v0] d IH]; simpl; [tauto|].
  destruct (ustr_eqb k0 k) eqn:E.
  - apply ustr_eqb_eq in E; subst k0; intros [<-|H] Hk; [simpl in Hk; congruence|right; exact H].
  - intros [<-|H] Hk; [left; reflexivity|right; exact (IH H Hk)].
Qed.

Lemma in_dict_set_new (d : dict V) (k : ustr) (v : V) : In (k, v) (dict_set d k v).
Proof.
  induction d as [|[k0 v0] d IH]; simpl; [left; reflexivity|].
  destruct (ustr_eqb k0 k) eqn:E; [apply ustr_eqb_eq in E; subst k0; left; reflexivity|right; exact IH].
Qed.

Lemma in_dict_del_keep (d d' : dict V) (k : ustr) (p : ustr * V) :
  dict_del d k = Some d' -> In p d -> fst p <> k -> In p d'.
Proof.
  revert d'; induction d as [|[k0 v0] d IH]; intro d'; simpl; [discriminate|].
  destruct (ustr_eqb k0 k) eqn:E.
  - apply ustr_eqb_eq in E; subst k0; intro H; injection H as <-.
    intros [<-|H] Hk; [simpl in Hk; congruence|exact H].
  - destruct (dict_del d k) as [d1|]; simpl; [|discriminate].
    intro H; injection H as <-; intros [<-|H] Hk; [left; reflexivity|right; exact (IH d1 eq_refl H Hk)].
Qed.

Lemma dict_get_only (d : dict V) (k : ustr) (v : V) :
  In (k, v) d -> (forall w, In (k, w) d -> w = v) -> dict_get d k = Some v.
Proof.
  induction d as [|[k0 v0] d IH]; simpl; [tauto|].
  rewrite dict_get_cons; destruct (ustr_eqb k0 k) eqn:E.
  - apply ustr_eqb_eq in E; subst k0; intros _ H; rewrite (H v0 (or_introl eq_refl)); reflexivity.
  - intros [Hp|Hp] H.
    + injection Hp as -> _; rewrite ustr_eqb_refl in E; discriminate.
    + apply IH; [exact Hp|intros w Hw; apply H; right; exact Hw].
Qed.

Lemma dict_get_absent (d : dict V) (k : ustr) :
  (forall w, ~ In (k, w) d) -> dict_get d k = None.
Proof.
  intro H; destruct (dict_get d k) as [w|] eqn:E; [|reflexivity].
  exfalso; exact (H w (dict_get_in d k w E)).
Qed.

End DictKeep.

Lemma find_similar_none (t : ustr) (d : dict article) :
  (forall p, In p d -> Qle_bool title_similarity_threshold (title_similarity t (title (snd p))) = false) ->
  find_similar t d = None.
Proof.
  induction d as [|[k0 e0] d IH]; simpl; intro H; [reflexivity|].
  rewrite (H (k0, e0) (or_introl eq_refl) : Qle_bool _ (title_similarity t (title e0)) = false).
  apply IH; intros p Hp; apply H; right; exact Hp.
Qed.

Lemma find_similar_only (t k : ustr) (e : article) (d : dict article) :
  In (k, e) d -> Qle_bool title_similarity_threshold (title_similarity t (title e)) = true ->
  (forall p, In p d -> Qle_bool title_similarity_threshold (title_similarity t (title (snd p))) = true ->
             p = (k, e)) ->
  find_similar t d = Some (k, e).
Proof.
  induction d as [|[k0 e0] d IH]; simpl; [tauto|].
  intros Hin Hs H; destruct (Qle_bool _ (title_similarity t (title e0))) eqn:E.
  - rewrite (H (k0, e0) (or_introl eq_refl) E); reflexivity.
  - destruct Hin as [Hp|Hp]; [injection Hp as -> ->; congruence|].
    apply IH; [exact Hp|exact Hs|intros p Hp' Hs'; apply H; [right; exact Hp'|exact Hs']].
Qed.

Lemma find_similar_sim (t k : ustr) (e : article) (d : dict article) :
  find_similar t d = Some (k, e) -> Qle_bool title_similarity_threshold (title_similarity t (title e)) = true.
Proof.
  induction d as [|[k0 e0] d IH]; simpl; [discriminate|].
  destruct (Qle_bool _ (title_similarity t (title e0))) eqn:E;
    [intro H; injection H as <- <-; exact E|exact IH].
Qed.

Lemma dedup_loop_app (st : dstate) (l1 l2 : list article) :
  dedup_loop st (l1 ++ l2) = match dedup_loop st l1 with Some s => dedup_loop s l2 | None => None end.
Proof.
  revert st; induction l1 as [|x l1 IH]; intro st; [reflexivity|].
  cbn [app dedup_loop]; destruct (dedup_step st x); [apply IH|reflexivity].
Qed.

(** Two articles that never meet: different canonical URLs, different
    normalized titles, and neither title similar enough to the other in the
    direction [find_similar] compares them. *)
Definition apart (x y : article) : Prop :=
  canonicalize_url (link x) <> canonicalize_url (link y)
  /\ normalize_title (resolved_title x) <> normalize_title (resolved_title y)
  /\ Qle_bool title_similarity_threshold (title_similarity (resolved_title x) (title y)) = false
  /\ Qle_bool title_similarity_threshold (title_similarity (resolved_title y) (title x)) = false.

Section Pair.

Variables a b : article.

Definition is_ab (v : article) : bool := same v a || same v b.

Definition other (x : article) : Prop := apart x a /\ apart x b /\ is_ab x = false.

Definition cand (v : article) : Prop := v = a \/ v = b \/ other v.

(** Every key of the two dicts is the canonical URL, or the normalized
    title, of its article, and every article the state holds is [a], [b]
    or apart from both. *)
Definition good (st : dstate) : Prop :=
  (forall k v, In (k, v) (seen_urls st) -> k = canonicalize_url (link v) /\ cand v)
  /\ (forall k v, In (k, v) (seen_titles st) -> k = normalize_title (resolved_title v) /\ cand v)
  /\ (forall y, In y (unique_articles st) -> cand y).

Definition ab_same (d d' : dict article) : Prop :=
  forall p, is_ab (snd p) = true -> (In p d' <-> In p d).

Lemma is_ab_a : is_ab a = true.
Proof. unfold is_ab; rewrite same_refl; reflexivity. Qed.

Lemma is_ab_b : is_ab b = true.
Proof. unfold is_ab; rewrite same_refl, orb_true_r; reflexivity. Qed.

Lemma is_ab_same (y o : article) : same y o = true -> is_ab y = is_ab o.
Proof. unfold is_ab, same; intro H; apply Nat.eqb_eq in H; rewrite H; reflexivity. Qed.

Lemma cand_ab (v : article) : cand v -> is_ab v = true -> v = a \/ v = b.
Proof. intros [->|[->|(_ & _ & H)]] E; auto; congruence. Qed.

Lemma apart_irrefl (x : article) : ~ apart x x.
Proof. intros (H & _); apply H; reflexivity. Qed.

Lemma filter_replace_first (o n : article) (l : list article) :
  is_ab o = false -> is_ab n = false -> filter is_ab (replace_first o n l) = filter is_ab l.
Proof.
  intros Ho Hn; induction l as [|y l IH]; simpl; [reflexivity|].
  destruct (same y o) eqn:E; simpl.
  - rewrite Hn, (is_ab_same y o E), Ho; reflexivity.
  - rewrite IH; reflexivity.
Qed.

Lemma ab_same_refl (d : dict article) : ab_same d d.
Proof. intros p _; tauto. Qed.

Lemma ab_same_trans (d1 d2 d3 : dict article) : ab_same d1 d2 -> ab_same d2 d3 -> ab_same d1 d3.
Proof. intros H1 H2 p Hp; rewrite (H2 p Hp), (H1 p Hp); tauto. Qed.

Lemma key_apart_u (st : dstate) (p : ustr * article) (y : article) :
  good st -> In p (seen_urls st) -> is_ab (snd p) = true -> apart y a -> apart y b ->
  fst p <> canonicalize_url (link y).
Proof.
  intros (Hu & _ & _) Hp Hp' Ha Hb; destruct p as [k v]; cbn [fst snd] in *.
  destruct (Hu k v Hp) as [-> Hc].
  destruct (cand_ab v Hc Hp') as [-> | ->]; intro E;
    [apply (proj1 Ha)|apply (proj1 Hb)]; symmetry; exact E.
Qed.

Lemma key_apart_t (st : dstate) (p : ustr * article) (y : article) :
  good st -> In p (seen_titles st) -> is_ab (snd p) = true -> apart y a -> apart y b ->
  fst p <> normalize_title (resolved_title y).
Proof.
  intros (_ & Ht & _) Hp Hp' Ha Hb; destruct p as [k v]; cbn [fst snd] in *.
  destruct (Ht k v Hp) as [-> Hc].
  destruct (cand_ab v Hc Hp') as [-> | ->]; intro E;
    [apply (proj1 (proj2 Ha))|apply (proj1 (proj2 Hb))]; symmetry; exact E.
Qed.

Lemma cand_url_other (e y : article) :
  cand e -> apart y a -> apart y b -> canonicalize_url (link y) = canonicalize_url (link e) -> other e.
Proof.
  intros [->|[->|He]] Ha Hb E; [exfalso; exact (proj1 Ha E)|exfalso; exact (proj1 Hb E)|exact He].
Qed.

Lemma cand_sim_other (e y : article) :
  cand e -> apart y a -> apart y b ->
  Qle_bool title_similarity_threshold (title_similarity (resolved_title y) (title e)) = true -> other e.
Proof.
  intros [->|[->|He]] (_ & _ & Ha & _) (_ & _ & Hb & _) E; [congruence|congruence|exact He].
Qed.

Lemma ab_same_set (d : dict article) (k : ustr) (v : article) :
  is_ab v = false -> (forall p, In p d -> is_ab (snd p) = true -> fst p <> k) ->
  ab_same d (dict_set d k v).
Proof.
  intros Hv Hk p Hp; split; intro H.
  - destruct (in_dict_set d k v p H) as [H'| ->]; [exact H'|simpl in Hp; congruence].
  - apply in_dict_set_keep; [exact H|exact (Hk p H Hp)].
Qed.

Lemma ab_same_del (d d' : dict article) (k : ustr) :
  dict_del d k = Some d' -> (forall p, In p d -> is_ab (snd p) = true -> fst p <> k) ->
  ab_same d d'.
Proof.
  intros E Hk p Hp; split; intro H.
  - exact (in_dict_del d d' k p E H).
  - exact (in_dict_del_keep d d' k p E H (Hk p H Hp)).
Qed.

Lemma cand_other (x : article) : other x -> cand x.
Proof. intro H; right; right; exact H. Qed.

(** A step on an article apart from [a] and [b] keeps the state good and
    leaves the entries and the list positions of [a] and [b] as they were. *)
Lemma other_step (st st' : dstate) (x : article) :
  good st -> other x -> dedup_step st x = Some st' ->
  good st' /\ filter is_ab (unique_articles st') = filter is_ab (unique_articles st)
  /\ ab_same (seen_urls st) (seen_urls st') /\ ab_same (seen_titles st) (seen_titles st').
Proof.
  intros Hg Hx E; pose proof Hg as (Hu & Ht & Hq); pose proof Hx as (Hxa & Hxb & Hxab).
  unfold dedup_step in E; cbv zeta in E.
  destruct (is_nil (link x)).
  { injection E as <-; split; [exact Hg|split; [reflexivity|split; apply ab_same_refl]]. }
  assert (Ku : forall p, In p (seen_urls st) -> is_ab (snd p) = true ->
                         fst p <> canonicalize_url (link x))
    by (intros p Hp Hp'; exact (key_apart_u st p x Hg Hp Hp' Hxa Hxb)).
  assert (Kt : forall p, In p (seen_titles st) -> is_ab (snd p) = true ->
                         fst p <> normalize_title (resolved_title x))
    by (intros p Hp Hp'; exact (key_apart_t st p x Hg Hp Hp' Hxa Hxb)).
  destruct (dict_get (seen_urls st) (canonicalize_url (link x))) as [existing|] eqn:Eg.
  - apply dict_get_in in Eg; destruct (Hu _ _ Eg) as [Hke Hce].
    pose proof (cand_url_other existing x Hce Hxa Hxb Hke) as (_ & _ & He).
    destruct (same (choose_better_article existing x) x); injection E as <-;
      [|split; [exact Hg|split; [reflexivity|split; apply ab_same_refl]]].
    cbn [seen_urls seen_titles unique_articles]; split; [split; [|split]|split; [|split]].
    + intros k v Hp; destruct (in_dict_set _ _ _ _ Hp) as [Hp'|Hp']; [exact (Hu k v Hp')|].
      injection Hp' as -> ->; split; [reflexivity|exact (cand_other x Hx)].
    + exact Ht.
    + intros y Hy; destruct (replace_first_incl _ _ _ y Hy) as [Hy'| ->]; [exact (Hq y Hy')|exact (cand_other x Hx)].
    + exact (filter_replace_first _ _ _ He Hxab).
    + exact (ab_same_set _ _ _ Hxab Ku).
    + apply ab_same_refl.
  - destruct (is_curated x && negb (is_nil (resolved_title x))).
    + destruct (find_similar (resolved_title x) (seen_titles st)) as [[et e]|] eqn:Ef.
      * pose proof (find_similar_in _ _ _ _ Ef) as Hin.
        pose proof (find_similar_sim _ _ _ _ Ef) as Hsim.
        destruct (Ht _ _ Hin) as [Hket Hce].
        pose proof (cand_sim_other e x Hce Hxa Hxb Hsim) as Hoe; pose proof Hoe as (Hea & Heb & He).
        destruct (same (choose_better_article e x) x);
          [|injection E as <-; split; [exact Hg|split; [reflexivity|split; apply ab_same_refl]]].
        destruct (dict_del (seen_titles st) et) as [t'|] eqn:Et; [|discriminate].
        destruct (dict_del (seen_urls st) (canonicalize_url (link e))) as [u'|] eqn:Eu; [|discriminate].
        injection E as <-; cbn [seen_urls seen_titles unique_articles].
        split; [split; [|split]|split; [|split]].
        -- intros k v Hp; destruct (in_dict_set _ _ _ _ Hp) as [Hp'|Hp'];
             [exact (Hu k v (in_dict_del _ _ _ _ Eu Hp'))|].
           injection Hp' as -> ->; split; [reflexivity|exact (cand_other x Hx)].
        -- intros k v Hp; destruct (in_dict_set _ _ _ _ Hp) as [Hp'|Hp'];
             [exact (Ht k v (in_dict_del _ _ _ _ Et Hp'))|].
           injection Hp' as -> ->; split; [reflexivity|exact (cand_other x Hx)].
        -- intros y Hy; destruct (replace_first_incl _ _ _ y Hy) as [Hy'| ->];
             [exact (Hq y Hy')|exact (cand_other x Hx)].
        -- exact (filter_replace_first _ _ _ He Hxab).
        -- apply (ab_same_trans _ u').
           ++ apply (ab_same_del _ _ _ Eu); intros p Hp Hp'; exact (key_apart_u st p e Hg Hp Hp' Hea Heb).
           ++ apply ab_same_set; [exact Hxab|].
              intros p Hp Hp'; exact (Ku p (in_dict_del _ _ _ _ Eu Hp) Hp').
        -- apply (ab_same_trans _ t').
           ++ apply (ab_same_del _ _ _ Et); intros p Hp Hp'; rewrite Hket.
              exact (key_apart_t st p e Hg Hp Hp' Hea Heb).
           ++ apply ab_same_set; [exact Hxab|].
              intros p Hp Hp'; exact (Kt p (in_dict_del _ _ _ _ Et Hp) Hp').
      * injection E as <-; unfold register; cbn [seen_urls seen_titles unique_articles].
        split; [split; [|split]|split; [|split]].
        -- intros k v Hp; destruct (in_dict_set _ _ _ _ Hp) as [Hp'|Hp']; [exact (Hu k v Hp')|].
           injection Hp' as -> ->; split; [reflexivity|exact (cand_other x Hx)].
        -- intros k v Hp; destruct (in_dict_set _ _ _ _ Hp) as [Hp'|Hp']; [exact (Ht k v Hp')|].
           injection Hp' as -> ->; split; [reflexivity|exact (cand_other x Hx)].
        -- intros y Hy; apply in_app_or in Hy as [Hy|[<-|[]]]; [exact (Hq y Hy)|exact (cand_other x Hx)].
        -- rewrite filter_app; cbn [filter]; rewrite Hxab, app_nil_r; reflexivity.
        -- exact (ab_same_set _ _ _ Hxab Ku).
        -- exact (ab_same_set _ _ _ Hxab Kt).
    + injection E as <-; unfold register; cbn [seen_urls seen_titles unique_articles].
      split; [split; [|split]|split; [|split]].
      * intros k v Hp; destruct (in_dict_set _ _ _ _ Hp) as [Hp'|Hp']; [exact (Hu k v Hp')|].
        injection Hp' as -> ->; split; [reflexivity|exact (cand_other x Hx)].
      * exact Ht.
      * intros y Hy; apply in_app_or in Hy as [Hy|[<-|[]]]; [exact (Hq y Hy)|exact (cand_other x Hx)].
      * rewrite filter_app; cbn [filter]; rewrite Hxab, app_nil_r; reflexivity.
      * exact (ab_same_set _ _ _ Hxab Ku).
      * apply ab_same_refl.
Qed.

Lemma other_loop (l : list article) :
  forall st st', good st -> (forall x, In x l -> other x) -> dedup_loop st l = Some st' ->
  good st' /\ filter is_ab (unique_articles st') = filter is_ab (unique_articles st)
  /\ ab_same (seen_urls st) (seen_urls st') /\ ab_same (seen_titles st) (seen_titles st').
Proof.
  induction l as [|x l IH]; intros st st' Hg Hl E; cbn [dedup_loop] in E.
  - injection E as <-; split; [exact Hg|split; [reflexivity|split; apply ab_same_refl]].
  - destruct (dedup_step st x) as [s1|] eqn:E1; [|discriminate].
    destruct (other_step st s1 x Hg (Hl x (or_introl eq_refl)) E1) as (Hg1 & Hf1 & Hu1 & Ht1).
    destruct (IH s1 st' Hg1 (fun y Hy => Hl y (or_intror Hy)) E) as (Hg2 & Hf2 & Hu2 & Ht2).
    split; [exact Hg2|split; [rewrite Hf2; exact Hf1|split; eapply ab_same_trans; eauto]].
Qed.

Lemma filter_replace_ab (l : list article) :
  filter is_ab l = [a] -> filter is_ab (replace_first a b l) = [b].
Proof.
  induction l as [|y l IH]; cbn [filter replace_first]; [discriminate|].
  destruct (same y a) eqn:Ey.
  - rewrite (is_ab_same y a Ey), is_ab_a; intro H; injection H as _ H.
    cbn [filter]; rewrite is_ab_b, H; reflexivity.
  - cbn [filter]; destruct (is_ab y); [|exact IH].
    intro H; injection H as -> _; rewrite same_refl in Ey; discriminate.
Qed.


(** The step on [a]: with neither [a] nor [b] in the state, [a] is
    registered. *)
Lemma a_step (st st' : dstate) :
  good st -> (forall p, In p (seen_urls st) -> is_ab (snd p) = false) ->
  (forall p, In p (seen_titles st) -> is_ab (snd p) = false) ->
  filter is_ab (unique_articles st) = [] -> is_nil (link a) = false ->
  dedup_step st a = Some st' ->
  good st' /\ filter is_ab (unique_articles st') = [a]
  /\ In (canonicalize_url (link a), a) (seen_urls st')
  /\ (is_curated a && negb (is_nil (resolved_title a)) = true ->
      In (normalize_title (resolved_title a), a) (seen_titles st'))
  /\ (forall p, In p (seen_urls st') -> is_ab (snd p) = true -> snd p = a)
  /\ (forall p, In p (seen_titles st') -> is_ab (snd p) = true -> snd p = a).
Proof.
  intros Hg Nu Nt Nq Hl E; pose proof Hg as (Hu & Ht & Hq).
  unfold dedup_step in E; cbv zeta in E; rewrite Hl in E.
  assert (Eg : dict_get (seen_urls st) (canonicalize_url (link a)) = None).
  { apply dict_get_absent; intros w Hw.
    destruct (Hu _ _ Hw) as [Hk Hc]; pose proof (Nu _ Hw) as Hn; cbn [snd] in Hn.
    destruct Hc as [->|[->|(Hwa & _ & _)]]; [rewrite is_ab_a in Hn|rewrite is_ab_b in Hn|]; try discriminate.
    exact (proj1 Hwa (eq_sym Hk)). }
  rewrite Eg in E.
  assert (Ab : forall d k, (forall p, In p d -> is_ab (snd p) = false) ->
                 forall p, In p (dict_set d k a) -> is_ab (snd p) = true -> snd p = a).
  { intros d k Hd p Hp Hp'; destruct (in_dict_set _ _ _ _ Hp) as [H| ->]; [|reflexivity].
    rewrite (Hd p H) in Hp'; discriminate. }
  assert (Aq : filter is_ab (unique_articles st ++ [a]) = [a])
    by (rewrite filter_app, Nq; cbn [filter]; rewrite is_ab_a; reflexivity).
  destruct (is_curated a && negb (is_nil (resolved_title a))) eqn:Ec.
  - rewrite find_similar_none in E.
    2: { intros [k v] Hp; destruct (Ht _ _ Hp) as [_ Hc]; pose proof (Nt _ Hp) as Hn; cbn [snd] in *.
         destruct Hc as [->|[->|(Hva & _ & _)]]; [rewrite is_ab_a in Hn|rewrite is_ab_b in Hn|];
           try discriminate.
         exact (proj2 (proj2 (proj2 Hva))). }
    injection E as <-; unfold register; cbn [seen_urls seen_titles unique_articles].
    split; [split; [|split]|split; [exact Aq|split; [apply in_dict_set_new|split; [intros _; apply in_dict_set_new|split; apply Ab; assumption]]]].
    + intros k v Hp; destruct (in_dict_set _ _ _ _ Hp) as [Hp'|Hp']; [exact (Hu k v Hp')|].
      injection Hp' as -> ->; split; [reflexivity|left; reflexivity].
    + intros k v Hp; destruct (in_dict_set _ _ _ _ Hp) as [Hp'|Hp']; [exact (Ht k v Hp')|].
      injection Hp' as -> ->; split; [reflexivity|left; reflexivity].
    + intros y Hy; apply in_app_or in Hy as [Hy|[<-|[]]]; [exact (Hq y Hy)|left; reflexivity].
  - injection E as <-; unfold register; cbn [seen_urls seen_titles unique_articles].
    split; [split; [|split]|split; [exact Aq|split; [apply in_dict_set_new|split; [discriminate|split; [apply Ab; assumption|]]]]].
    + intros k v Hp; destruct (in_dict_set _ _ _ _ Hp) as [Hp'|Hp']; [exact (Hu k v Hp')|].
      injection Hp' as -> ->; split; [reflexivity|left; reflexivity].
    + exact Ht.
    + intros y Hy; apply in_app_or in Hy as [Hy|[<-|[]]]; [exact (Hq y Hy)|left; reflexivity].
    + intros p Hp Hp'; rewrite (Nt p Hp) in Hp'; discriminate.
Qed.

Hypothesis Hab : aid a <> aid b.

Lemma choose_b : same (choose_better_article a b) b = true -> choose_better_article a b = b.
Proof.
  destruct (choose_better_cases a b) as [E|E]; rewrite E; [|reflexivity].
  intro H; apply Nat.eqb_eq in H; contradiction.
Qed.

Lemma choose_a : same (choose_better_article a b) b = false -> choose_better_article a b = a.
Proof.
  destruct (choose_better_cases a b) as [E|E]; rewrite E; [reflexivity|].
  rewrite same_refl; discriminate.
Qed.

(** The step on [b], with [a] registered and [b] not in the state: [b]
    meets [a] and the tie-break decides which of the two stays. *)
Lemma b_step (st st' : dstate) :
  good st -> In (canonicalize_url (link a), a) (seen_urls st) ->
  (is_curated a && negb (is_nil (resolved_title a)) = true ->
   In (normalize_title (resolved_title a), a) (seen_titles st)) ->
  (forall p, In p (seen_urls st) -> is_ab (snd p) = true -> snd p = a) ->
  (forall p, In p (seen_titles st) -> is_ab (snd p) = true -> snd p = a) ->
  filter is_ab (unique_articles st) = [a] -> is_nil (link b) = false ->
  (canonicalize_url (link a) = canonicalize_url (link b)
   \/ (is_curated a = true /\ is_nil (resolved_title a) = false
       /\ is_curated b = true /\ is_nil (resolved_title b) = false
       /\ Qle_bool title_similarity_threshold (title_similarity (resolved_title b) (title a)) = true)) ->
  dedup_step st b = Some st' ->
  good st' /\ filter is_ab (unique_articles st') = [choose_better_article a b].
Proof.
  intros Hg Hau Hat Su St Hq0 Hl Hcol E; pose proof Hg as (Hu & Ht & Hq).
  assert (Hba : b <> a) by (intro H; apply Hab; rewrite H; reflexivity).
  unfold dedup_step in E; cbv zeta in E; rewrite Hl in E.
  assert (Hgood : forall urls titles l,
            (forall k v, In (k, v) urls -> In (k, v) (seen_urls st) \/ (k, v) = (canonicalize_url (link b), b)) ->
            (forall k v, In (k, v) titles -> In (k, v) (seen_titles st)
                                             \/ (k, v) = (normalize_title (resolved_title b), b)) ->
            (forall y, In y l -> In y (unique_articles st) \/ y = b) ->
            good {| seen_urls := urls; seen_titles := titles; unique_articles := l |}).
  { intros urls titles l H1 H2 H3; split; [|split]; cbn [seen_urls seen_titles unique_articles].
    - intros k v Hp; destruct (H1 k v Hp) as [H|H]; [exact (Hu k v H)|].
      injection H as -> ->; split; [reflexivity|right; left; reflexivity].
    - intros k v Hp; destruct (H2 k v Hp) as [H|H]; [exact (Ht k v H)|].
      injection H as -> ->; split; [reflexivity|right; left; reflexivity].
    - intros y Hy; destruct (H3 y Hy) as [H| ->]; [exact (Hq y H)|right; left; reflexivity]. }
  assert (Hrep : forall y, In y (replace_first a b (unique_articles st)) -> In y (unique_articles st) \/ y = b)
    by (intros y Hy; exact (replace_first_incl _ _ _ y Hy)).
  destruct (ustr_eqb (canonicalize_url (link a)) (canonicalize_url (link b))) eqn:Ecb.
  - apply ustr_eqb_eq in Ecb.
    rewrite (dict_get_only _ _ a) in E.
    2: { rewrite <- Ecb; exact Hau. }
    2: { intros w Hw; destruct (Hu _ _ Hw) as [Hk [->|[->|(Hwa & _ & _)]]]; [reflexivity| |].
         - exact (Su _ Hw is_ab_b).
         - exfalso; apply (proj1 Hwa); rewrite <- Hk; exact (eq_sym Ecb). }
    destruct (same (choose_better_article a b) b) eqn:Es; injection E as <-.
    + rewrite (choose_b Es); split.
      * apply Hgood; [|intros k v H; left; exact H|exact Hrep].
        intros k v Hp; destruct (in_dict_set _ _ _ _ Hp) as [H|H]; [left; exact H|right; exact H].
      * exact (filter_replace_ab _ Hq0).
    + rewrite (choose_a Es); split; [exact Hg|exact Hq0].
  - destruct Hcol as [Hc|(Hca & Hta & Hcb & Htb & Hsim)]; [rewrite Hc, ustr_eqb_refl in Ecb; discriminate|].
    rewrite dict_get_absent in E.
    2: { intros w Hw; destruct (Hu _ _ Hw) as [Hk [->|[->|(_ & Hwb & _)]]].
         - rewrite Hk, ustr_eqb_refl in Ecb; discriminate.
         - exact (Hba (Su _ Hw is_ab_b)).
         - exact (proj1 Hwb (eq_sym Hk)). }
    rewrite Hcb, Htb in E; cbn [andb negb] in E.
    assert (Hin : In (normalize_title (resolved_title a), a) (seen_titles st))
      by (apply Hat; rewrite Hca, Hta; reflexivity).
    rewrite (find_similar_only _ _ _ _ Hin Hsim) in E.
    2: { intros [k v] Hp Hs; destruct (Ht _ _ Hp) as [-> [->|[->|(_ & Hvb & _)]]]; [reflexivity| |].
         - exfalso; exact (Hba (St _ Hp is_ab_b)).
         - cbn [snd] in Hs; rewrite (proj2 (proj2 (proj2 Hvb))) in Hs; discriminate. }
    destruct (same (choose_better_article a b) b) eqn:Es.
    + destruct (dict_del_some (seen_titles st) (normalize_title (resolved_title a))) as [t' Et];
        [apply (in_map fst) in Hin; exact Hin|rewrite Et in E].
      destruct (dict_del_some (seen_urls st) (canonicalize_url (link a))) as [u' Eu];
        [apply (in_map fst) in Hau; exact Hau|rewrite Eu in E].
      injection E as <-; rewrite (choose_b Es); split.
      * apply Hgood; [| |exact Hrep].
        -- intros k v Hp; destruct (in_dict_set _ _ _ _ Hp) as [H|H]; [left; exact (in_dict_del _ _ _ _ Eu H)|right; exact H].
        -- intros k v Hp; destruct (in_dict_set _ _ _ _ Hp) as [H|H]; [left; exact (in_dict_del _ _ _ _ Et H)|right; exact H].
      * exact (filter_replace_ab _ Hq0).
    + injection E as <-; rewrite (choose_a Es); split; [exact Hg|exact Hq0].
Qed.

End Pair.

(** C4 (amended). Two distinct articles [a] and [b] of the input, [a]
    first, that collide (equal canonical URLs, or both curated with titles
    and the title of [b] similar enough to that of [a]) and that meet no
    other article of the input (different canonical URLs and normalized
    titles, titles not similar either way): of the two, exactly the
    tie-break winner [choose_better_article a b] is returned, whatever
    comes before, between or after them. *)
Theorem deduplicate_articles_isolated_pair (pre mid post : list article) (a b : article) :
  NoDup (map aid (pre ++ a :: mid ++ b :: post)) ->
  is_nil (link a) = false -> is_nil (link b) = false ->
  (canonicalize_url (link a) = canonicalize_url (link b)
   \/ (is_curated a = true /\ is_nil (resolved_title a) = false
       /\ is_curated b = true /\ is_nil (resolved_title b) = false
       /\ Qle_bool title_similarity_threshold (title_similarity (resolved_title b) (title a)) = true)) ->
  (forall x, In x (pre ++ mid ++ post) -> apart x a /\ apart x b) ->
  exists ys, deduplicate_articles true (pre ++ a :: mid ++ b :: post) = Some ys
    /\ filter (fun y => same y a || same y b) ys = [choose_better_article a b].
Proof.
  intros Hn Ha Hb Hcol Hap.
  set (xs := pre ++ a :: mid ++ b :: post) in *.
  assert (Hab : aid a <> aid b).
  { intro E; unfold xs in Hn; rewrite map_app in Hn; cbn [map] in Hn; rewrite map_app in Hn.
    apply NoDup_remove_2 in Hn; apply Hn.
    apply in_or_app; right; apply in_or_app; right; rewrite E; left; reflexivity. }
  assert (Hin : forall x, In x (pre ++ mid ++ post) -> In x xs).
  { intros x Hx; unfold xs; apply in_app_or in Hx as [Hx|Hx]; apply in_or_app; [left; exact Hx|right; right].
    apply in_app_or in Hx as [Hx|Hx]; apply in_or_app; [left; exact Hx|right; right; exact Hx]. }
  assert (Hxa : In a xs) by (unfold xs; apply in_or_app; right; left; reflexivity).
  assert (Hxb : In b xs)
    by (unfold xs; apply in_or_app; right; right; apply in_or_app; right; left; reflexivity).
  assert (Hoth : forall x, In x (pre ++ mid ++ post) -> other a b x).
  { intros x Hx; destruct (Hap x Hx) as [H1 H2]; split; [exact H1|split; [exact H2|]].
    unfold is_ab, same.
    destruct (Nat.eqb (aid x) (aid a)) eqn:E1.
    - apply Nat.eqb_eq in E1; rewrite (nodup_map_eq aid xs x a Hn (Hin x Hx) Hxa E1) in H1.
      exfalso; exact (apart_irrefl a H1).
    - destruct (Nat.eqb (aid x) (aid b)) eqn:E2; [|reflexivity].
      apply Nat.eqb_eq in E2; rewrite (nodup_map_eq aid xs x b Hn (Hin x Hx) Hxb E2) in H2.
      exfalso; exact (apart_irrefl b H2). }
  destruct (dedup_loop_total xs dstate0) as [stf [Ef _]].
  { split; [constructor|split; [constructor|intros p []]]. }
  unfold deduplicate_articles; cbn [negb]; rewrite Ef; eexists; split; [reflexivity|].
  unfold xs in Ef; rewrite dedup_loop_app in Ef.
  destruct (dedup_loop dstate0 pre) as [s1|] eqn:E1; [|discriminate].
  cbn [dedup_loop] in Ef; destruct (dedup_step s1 a) as [s2|] eqn:E2; [|discriminate].
  rewrite dedup_loop_app in Ef.
  destruct (dedup_loop s2 mid) as [s3|] eqn:E3; [|discriminate].
  cbn [dedup_loop] in Ef; destruct (dedup_step s3 b) as [s4|] eqn:E4; [|discriminate].
  assert (Hg0 : good a b dstate0) by (split; [|split]; cbn; tauto).
  destruct (other_loop a b pre dstate0 s1 Hg0) as (Hg1 & Hq1 & Hu1 & Ht1); [|exact E1|].
  { intros x Hx; apply Hoth, in_or_app; left; exact Hx. }
  assert (N : forall d, ab_same a b [] d -> forall p, In p d -> is_ab a b (snd p) = false).
  { intros d H p Hp; destruct (is_ab a b (snd p)) eqn:Ep; [|reflexivity].
    exfalso; apply (proj1 (H p Ep) Hp). }
  destruct (a_step a b s1 s2 Hg1 (N _ Hu1) (N _ Ht1) Hq1 Ha E2)
    as (Hg2 & Hq2 & Hau2 & Hat2 & Su2 & St2).
  destruct (other_loop a b mid s2 s3 Hg2) as (Hg3 & Hq3 & Hu3 & Ht3); [|exact E3|].
  { intros x Hx; apply Hoth, in_or_app; right; apply in_or_app; left; exact Hx. }
  destruct (b_step a b Hab s3 s4 Hg3) as [Hg4 Hq4]; [| | | | |exact Hb|exact Hcol|exact E4|].
  - apply (Hu3 (canonicalize_url (link a), a) (is_ab_a a b)); exact Hau2.
  - intro H; apply (Ht3 (normalize_title (resolved_title a), a) (is_ab_a a b)); exact (Hat2 H).
  - intros p Hp Hp'; apply Su2; [apply (Hu3 p Hp'); exact Hp|exact Hp'].
  - intros p Hp Hp'; apply St2; [apply (Ht3 p Hp'); exact Hp|exact Hp'].
  - rewrite Hq3; exact Hq2.
  - destruct (other_loop a b post s4 stf Hg4) as (_ & Hq5 & _ & _); [|exact Ef|].
    + intros x Hx; apply Hoth, in_or_app; right; apply in_or_app; right; exact Hx.
    + change (filter (is_ab a b) (unique_articles stf) = [choose_better_article a b]).
      rewrite Hq5; exact Hq4.
Qed.

End DedupPair.

(* ------------------------------------------------------------------------- *)
(** ** Further properties of the scorer *)

Module ScorerProps.

Import PyStr Scorer ScorerFacts.
Open Scope R_scope.

Lemma ln_half_neg : ln 0.5 < 0.
Proof. rewrite <- ln_1; apply ln_increasing; lra. Qed.

(** [0.5 ** x] decreases with [x]. *)
Lemma rpower_half_anti (x y : R) : x <= y -> Rpower 0.5 y <= Rpower 0.5 x.
Proof.
  intro H; unfold Rpower.
  pose proof ln_half_neg as Hl.
  destruct (Req_dec x y) as [->|Hne]; [lra|].
  left; apply exp_increasing; nra.
Qed.

Lemma rpower_half_ge1 (x : R) : x <= 0 -> 1 <= Rpower 0.5 x.
Proof.
  intro H; rewrite <- (Rpower_O 0.5) by lra; apply rpower_half_anti; exact H.
Qed.

Lemma clamp_bounds (r : R) : 0 <= Rmax 0 (Rmin 5 r) <= 5.
Proof.
  split; [apply Rmax_l|apply Rmax_lub; [lra|apply Rmin_l]].
Qed.

Lemma clamp_mono (r s : R) : r <= s -> Rmax 0 (Rmin 5 r) <= Rmax 0 (Rmin 5 s).
Proof.
  intro H; apply Rle_max_compat_l.
  unfold Rmin; destruct (Rle_dec 5 r), (Rle_dec 5 s); lra.
Qed.

Lemma recency_range (now : R) (article_date : datetime) (half_life_hours : R) :
  match calculate_recency_score now article_date half_life_hours with
  | None => half_life_hours = 0
            \/ float_overflow <= Rpower 0.5 (((now - instant article_date) / 3600) / half_life_hours)
  | Some r => half_life_hours <> 0
              /\ Rpower 0.5 (((now - instant article_date) / 3600) / half_life_hours) < float_overflow
              /\ 0 <= r <= 5
  end.
Proof.
  unfold calculate_recency_score; cbv zeta.
  destruct (Req_EM_T half_life_hours 0) as [E|E]; [left; exact E|].
  unfold math_pow_half.
  destruct (Rle_dec float_overflow
              (Rpower 0.5 (((now - instant article_date) / 3600) / half_life_hours))) as [O|O].
  - right; exact O.
  - split; [exact E|split; [lra|apply clamp_bounds]].
Qed.

(** [calculate_recency_score] fails exactly on a zero half-life
    ([ZeroDivisionError]) or when [math.pow(0.5, hours_old / half_life_hours)]
    is too large for a float ([OverflowError]), and otherwise returns a score
    in [[0, 5]]. *)
Theorem calculate_recency_score_range (now : R) (article_date : datetime) (half_life_hours : R) :
  match calculate_recency_score now article_date half_life_hours with
  | None => half_life_hours = 0
            \/ float_overflow <= Rpower 0.5 (((now - instant article_date) / 3600) / half_life_hours)
  | Some r => half_life_hours <> 0
              /\ Rpower 0.5 (((now - instant article_date) / 3600) / half_life_hours) < float_overflow
              /\ 0 <= r <= 5
  end.
Proof. apply recency_range. Qed.

(** With a positive half-life, an article dated now or later (but not so far
    ahead that [math.pow] overflows) gets the full recency score 5. *)
Theorem calculate_recency_score_fresh (now : R) (article_date : datetime) (half_life_hours : R) :
  0 < half_life_hours -> now <= instant article_date ->
  Rpower 0.5 (((now - instant article_date) / 3600) / half_life_hours) < float_overflow ->
  calculate_recency_score now article_date half_life_hours = Some 5.
Proof.
  intros Hh Hd Hov; unfold calculate_recency_score; cbv zeta.
  destruct (Req_EM_T half_life_hours 0) as [E|_]; [lra|].
  rewrite (math_pow_half_ok _ Hov).
  set (hours_old := (now - instant article_date) / 3600).
  assert (Ho : hours_old <= 0) by (unfold hours_old; unfold Rdiv; nra).
  destruct (Rlt_dec 24 hours_old) as [H|_]; [lra|].
  assert (Hp : 1 <= Rpower 0.5 (hours_old / half_life_hours)).
  { apply rpower_half_ge1; unfold Rdiv.
    assert (0 < / half_life_hours) by (apply Rinv_0_lt_compat; exact Hh); nra. }
  f_equal; rewrite Rmin_left by lra; apply Rmax_right; lra.
Qed.

(** With a positive half-life, recency never increases with the age of the
    article: of two articles, the older one scores no higher (both are
    scored whenever [math.pow] does not overflow on the newer one). *)
Theorem calculate_recency_score_antitone (now : R) (d1 d2 : datetime) (half_life_hours : R) :
  0 < half_life_hours -> instant d1 <= instant d2 ->
  Rpower 0.5 (((now - instant d2) / 3600) / half_life_hours) < float_overflow ->
  match calculate_recency_score now d1 half_life_hours,
        calculate_recency_score now d2 half_life_hours with
  | Some r1, Some r2 => r1 <= r2
  | _, _ => False
  end.
Proof.
  intros Hh Hd Hov; unfold calculate_recency_score; cbv zeta.
  destruct (Req_EM_T half_life_hours 0) as [E|_]; [lra|].
  set (h1 := (now - instant d1) / 3600) in *; set (h2 := (now - instant d2) / 3600) in *.
  assert (H12 : h2 <= h1) by (unfold h1, h2, Rdiv; nra).
  assert (Hp : Rpower 0.5 (h1 / half_life_hours) <= Rpower 0.5 (h2 / half_life_hours)).
  { apply rpower_half_anti; unfold Rdiv; apply Rmult_le_compat_r; [|exact H12].
    left; apply Rinv_0_lt_compat; exact Hh. }
  rewrite (math_pow_half_ok _ Hov), (math_pow_half_ok (h1 / half_life_hours)) by lra.
  apply clamp_mono.
  destruct (Rlt_dec 24 h1), (Rlt_dec 24 h2); lra.
Qed.

Lemma fold_penalties_le (text : ustr) (penalties : list penalty_rule) (base : R) :
  (forall rule, In rule penalties -> 0 <= subtract rule) ->
  fold_left (fun adj rule => if rule_fires text rule then adj - subtract rule else adj)
            penalties base <= base.
Proof.
  revert base; induction penalties as [|rule ps IH]; intros base H; simpl; [lra|].
  eapply Rle_trans; [apply IH; intros r Hr; apply H; right; exact Hr|].
  pose proof (H rule (or_introl eq_refl)); destruct (rule_fires text rule); lra.
Qed.

(** With impact, novelty and proof in [[0, 5]] (a missing one counts as 0)
    and penalties that subtract non-negative amounts, [calculate_score]
    returns a score in [[0, 5]]; it fails only on a zero half-life or when
    [math.pow] overflows. *)
Theorem calculate_score_range (now : R) (evaluate : evaluation) (article_date : datetime)
        (cfg : scoring_config) :
  (forall rule, In rule (penalties_of cfg) -> 0 <= subtract rule) ->
  0 <= get_num (ev_impact evaluate) <= 5 -> 0 <= get_num (ev_novelty evaluate) <= 5 ->
  0 <= get_num (ev_proof evaluate) <= 5 ->
  match calculate_score now evaluate article_date cfg with
  | Some s => 0 <= s <= 5
  | None => half_life_of cfg = 0
            \/ float_overflow <= Rpower 0.5 (((now - instant article_date) / 3600) / half_life_of cfg)
  end.
Proof.
  intros Hp Hi Hn Hpr; unfold calculate_score.
  pose proof (recency_range now article_date (half_life_of cfg)) as Hr.
  destruct (calculate_recency_score now article_date (half_life_of cfg)) as [r|]; [|exact Hr].
  destruct Hr as [_ [_ Hr]]; unfold apply_penalties; cbv zeta.
  split; [apply Rmax_l|apply Rmax_lub; [lra|]].
  eapply Rle_trans; [apply fold_penalties_le; exact Hp|lra].
Qed.

End ScorerProps.

Module ScorerPropsChecks.

Import PyStr Scorer ScorerExamples.
Open Scope R_scope.

Lemma calculate_recency_score_fresh_witness :
  calculate_recency_score 0 date_at_0 36 = Some 5.
Proof.
  apply ScorerProps.calculate_recency_score_fresh; [lra|unfold instant, date_at_0; simpl; lra|].
  rewrite ScorerChecks.rpower_half_0; apply ScorerFacts.float_overflow_gt1.
Defined.

Lemma calculate_recency_score_antitone_witness :
  match calculate_recency_score 0 {| dt_wall := -7200; dt_utcoffset := None |} 36,
        calculate_recency_score 0 date_at_0 36 with
  | Some r1, Some r2 => r1 <= r2
  | _, _ => False
  end.
Proof.
  apply ScorerProps.calculate_recency_score_antitone; [lra|unfold instant, date_at_0; simpl; lra|].
  rewrite ScorerChecks.rpower_half_0; apply ScorerFacts.float_overflow_gt1.
Defined.

Lemma calculate_score_range_witness :
  match calculate_score 0 ev_AB date_at_0 cfg_ab with
  | Some s => 0 <= s <= 5
  | None => half_life_of cfg_ab = 0
            \/ float_overflow <= Rpower 0.5 (((0 - instant date_at_0) / 3600) / half_life_of cfg_ab)
  end.
Proof.
  apply ScorerProps.calculate_score_range; unfold penalties_of, ev_AB, cfg_ab; simpl; try lra.
  intros rule [<-|[]]; simpl; lra.
Defined.

End ScorerPropsChecks.

Module TextCleanerPropsChecks.

Import TextCleaner.

(** An emoji between two letters: the letters are what remains. *)
Lemma remove_emojis_no_emoji_witness : is_emoji 98 = false.
Proof.
  apply (TextCleanerProps.remove_emojis_no_emoji [97; 128512; 98] 98).
  vm_compute; right; left; reflexivity.
Defined.

End TextCleanerPropsChecks.

Module DedupPropsChecks.

Import Url Dedup DedupExamples.

Lemma deduplicate_articles_output_witness :
  NoDup (map aid [b9; d9])
  /\ (forall y, In y [b9; d9] -> In y [a9; b9; c9; d9] /\ is_nil (link y) = false).
Proof.
  assert (Hn : NoDup (map aid [a9; b9; c9; d9]))
    by (vm_compute; repeat (apply NoDup_cons; [simpl; lia|]);
        apply NoDup_nil).
  assert (He : deduplicate_articles true [a9; b9; c9; d9] = Some [b9; d9]) by (vm_compute; reflexivity).
  exact (DedupProps.deduplicate_articles_output _ _ Hn He).
Defined.

End DedupPropsChecks.

Module DedupPairChecks.

Import Dedup DedupExamples DedupPair.

Lemma deduplicate_articles_isolated_pair_witness :
  (exists ys, deduplicate_articles true ([lone2] ++ raw3 :: [lone1] ++ curated1 :: []) = Some ys
     /\ filter (fun y => same y raw3 || same y curated1) ys = [choose_better_article raw3 curated1])
  /\ choose_better_article raw3 curated1 = curated1
  /\ deduplicate_articles true [lone2; raw3; lone1; curated1] = Some [lone2; curated1; lone1].
Proof.
  split; [|split; vm_compute; reflexivity].
  apply deduplicate_articles_isolated_pair.
  - vm_compute; repeat (constructor; [simpl; lia|]); constructor.
  - reflexivity.
  - reflexivity.
  - left; vm_compute; reflexivity.
  - intros x Hx; cbn [app In] in Hx; destruct Hx as [<-|[<-|[]]];
      split; (split; [|split; [|split]]);
      first [ vm_compute; reflexivity | intro H; vm_compute in H; discriminate H ].
Defined.

End DedupPairChecks.
(* ------------------------------------------------------------------------- *)
(** ** Properties of the drop rules *)

Module DropProps.

Import Scorer Drop.
Open Scope R_scope.

(** With an empty [drop_if] config, [should_drop_article] drops exactly the
    articles whose impact or proof is at most 0; a missing impact or proof
    counts as 0 and is dropped. *)
Theorem should_drop_article_default (evaluate : tagged_evaluation) :
  should_drop_article evaluate
    {| topic_in := None; impact_lte := None; proof_lte := None; content_quality := [] |} = true
  <-> get_num (te_impact evaluate) <= 0 \/ get_num (te_proof evaluate) <= 0.
Proof.
  unfold should_drop_article, _fails_content_quality; cbn [topic_in impact_lte proof_lte content_quality].
  cbv zeta; cbn [Url.mem_str existsb Url.is_nil].
  destruct (Rle_dec (get_num (te_impact evaluate)) 0); [split; [left; assumption|reflexivity]|].
  destruct (Rle_dec (get_num (te_proof evaluate)) 0); [split; [right; assumption|reflexivity]|].
  split; [discriminate|intros [H|H]; contradiction].
Qed.

Lemma filter_length_mono {A} (p q : A -> bool) (l : list A) :
  (forall x, p x = true -> q x = true) -> (length (filter p l) <= length (filter q l))%nat.
Proof.
  intro H; induction l as [|x l IH]; simpl; [lia|].
  destruct (p x) eqn:Ep; [rewrite (H x Ep); simpl; lia|destruct (q x); simpl; lia].
Qed.

(** The content-quality check only gets weaker when the config is removed
    or its three thresholds are lowered. *)
Lemma _fails_content_quality_mono (evaluate : tagged_evaluation) (c c' : drop_config) :
  let q := content_quality c in
  let q' := content_quality c' in
  q' = [] \/ (q <> []
              /\ num_or q' (of_ascii "summary_min_chars") 200 <= num_or q (of_ascii "summary_min_chars") 200
              /\ num_or q' (of_ascii "insight_min_filled") 2 <= num_or q (of_ascii "insight_min_filled") 2
              /\ num_or q' (of_ascii "insight_min_chars_each") 15
                 <= num_or q (of_ascii "insight_min_chars_each") 15) ->
  _fails_content_quality evaluate c = None -> _fails_content_quality evaluate c' = None.
Proof.
  intros q q' Hq; unfold _fails_content_quality; fold q q'; cbv zeta.
  destruct Hq as [Hq|(Hne & H1 & H2 & H3)]; [rewrite Hq; reflexivity|].
  destruct q as [|e q0]; [contradiction|]; cbn [Url.is_nil].
  destruct (Rlt_dec _ (num_or (e :: q0) (of_ascii "summary_min_chars") 200)); [discriminate|].
  destruct (Rlt_dec (INR (length (filter _ insight_fields))) (num_or (e :: q0) (of_ascii "insight_min_filled") 2))
    as [_|Hf]; [discriminate|intros _].
  destruct (Url.is_nil q'); [reflexivity|].
  destruct (Rlt_dec _ (num_or q' (of_ascii "summary_min_chars") 200)); [lra|].
  destruct (Rlt_dec _ (num_or q' (of_ascii "insight_min_filled") 2)) as [Hlt|_]; [|reflexivity].
  exfalso; apply Hf.
  eapply Rle_lt_trans; [|eapply Rlt_le_trans; [exact Hlt|exact H2]].
  apply le_INR, filter_length_mono; intros f.
  destruct (Rle_dec (num_or (e :: q0) _ 15) _); [|discriminate].
  destruct (Rle_dec (num_or q' _ 15) _); [reflexivity|lra].
Qed.

(** An article that a [drop_if] config keeps is kept by any looser config:
    a blacklist with fewer topics, lower [impact_lte] and [proof_lte]
    thresholds, and a content-quality check that is removed or has lower
    thresholds. *)
Theorem should_drop_article_mono (evaluate : tagged_evaluation) (c c' : drop_config) :
  incl (match topic_in c' with Some l => l | None => [] end)
       (match topic_in c with Some l => l | None => [] end) ->
  match impact_lte c' with Some x => x | None => 0 end <= match impact_lte c with Some x => x | None => 0 end ->
  match proof_lte c' with Some x => x | None => 0 end <= match proof_lte c with Some x => x | None => 0 end ->
  (content_quality c' = []
   \/ (content_quality c <> []
       /\ num_or (content_quality c') (of_ascii "summary_min_chars") 200
          <= num_or (content_quality c) (of_ascii "summary_min_chars") 200
       /\ num_or (content_quality c') (of_ascii "insight_min_filled") 2
          <= num_or (content_quality c) (of_ascii "insight_min_filled") 2
       /\ num_or (content_quality c') (of_ascii "insight_min_chars_each") 15
          <= num_or (content_quality c) (of_ascii "insight_min_chars_each") 15)) ->
  should_drop_article evaluate c = false -> should_drop_article evaluate c' = false.
Proof.
  intros Ht Hi Hp Hq; unfold should_drop_article; cbv zeta.
  destruct (Url.mem_str _ (match topic_in c with Some l => l | None => [] end)) eqn:Em; [discriminate|].
  destruct (Rle_dec _ (match impact_lte c with Some x => x | None => 0 end)); [discriminate|].
  destruct (Rle_dec _ (match proof_lte c with Some x => x | None => 0 end)); [discriminate|].
  destruct (_fails_content_quality evaluate c) eqn:Ef; [discriminate|intros _].
  rewrite (_fails_content_quality_mono evaluate c c' Hq Ef).
  destruct (Url.mem_str _ (match topic_in c' with Some l => l | None => [] end)) eqn:Em'.
  - exfalso; unfold Url.mem_str in *; apply existsb_exists in Em' as [t [Hin Ht']].
    rewrite <- not_true_iff_false in Em; apply Em, existsb_exists; exists t; split; [apply Ht, Hin|exact Ht'].
  - destruct (Rle_dec _ (match impact_lte c' with Some x => x | None => 0 end)); [lra|].
    destruct (Rle_dec _ (match proof_lte c' with Some x => x | None => 0 end)); [lra|reflexivity].
Qed.

End DropProps.

Module DropPropsChecks.

Import Scorer Drop.
Open Scope R_scope.

(** An article with impact 3 and proof 2, under a config with threshold 1
    on both and under the empty config. *)
Definition solid : tagged_evaluation :=
  {| te_strs := [(of_ascii "topic", of_ascii "AI")]; te_impact := Some 3; te_proof := Some 2 |}.

Definition strict : drop_config :=
  {| topic_in := Some [of_ascii "Other"]; impact_lte := Some 1; proof_lte := Some 1; content_quality := [] |}.

Definition loose : drop_config :=
  {| topic_in := None; impact_lte := None; proof_lte := None; content_quality := [] |}.

Lemma should_drop_article_mono_witness :
  should_drop_article solid loose = false.
Proof.
  apply (DropProps.should_drop_article_mono solid strict loose).
  - intros t [].
  - simpl; lra.
  - simpl; lra.
  - left; reflexivity.
  - unfold should_drop_article, _fails_content_quality; simpl.
    destruct (Rle_dec 3 1); [lra|]; destruct (Rle_dec 2 1); [lra|reflexivity].
Defined.

End DropPropsChecks.

(* ------------------------------------------------------------------------- *)
(** ** Properties of the [save_metrics] feed list *)

Module SaveMetricsProps.

Import Metrics SaveMetrics.
Open Scope nat_scope.

Section Sort.

Context (round2 : Q -> Q).

(** [row_key_lt] as the order on the key pair. *)
Lemma row_key_lt_iff (x y : metrics_row) :
  row_key_lt x y = true
  <-> (tier_order (row_tier x) < tier_order (row_tier y)
       \/ (tier_order (row_tier x) = tier_order (row_tier y)
           /\ row_release_count y < row_release_count x)).
Proof.
  unfold row_key_lt; rewrite orb_true_iff, andb_true_iff, Nat.ltb_lt, Nat.eqb_eq, Nat.ltb_lt.
  reflexivity.
Qed.

Lemma row_key_lt_false (x y : metrics_row) :
  row_key_lt x y = false
  <-> ~ (tier_order (row_tier x) < tier_order (row_tier y)
         \/ (tier_order (row_tier x) = tier_order (row_tier y)
             /\ row_release_count y < row_release_count x)).
Proof. rewrite <- row_key_lt_iff, not_true_iff_false; reflexivity. Qed.

Ltac keys :=
  repeat match goal with
  | H : row_key_lt _ _ = true |- _ => apply row_key_lt_iff in H
  | H : row_key_lt _ _ = false |- _ => apply row_key_lt_false in H
  | |- row_key_lt _ _ = false => apply row_key_lt_false
  | |- row_key_lt _ _ = true => apply row_key_lt_iff
  end; lia.

(** [x] comes no later than [y] in the sorted list. *)
Definition row_le (x y : metrics_row) : Prop := row_key_lt y x = false.

Lemma row_le_trans (x y z : metrics_row) : row_le x y -> row_le y z -> row_le x z.
Proof. unfold row_le; intros; keys. Qed.

Lemma insert_row_perm (x : metrics_row) (l : list metrics_row) :
  Permutation (insert_row x l) (x :: l).
Proof.
  induction l as [|y l IH]; simpl; [reflexivity|].
  destruct (row_key_lt x y); [reflexivity|].
  rewrite IH; apply perm_swap.
Qed.

Lemma insert_row_sorted (x : metrics_row) (l : list metrics_row) :
  StronglySorted row_le l -> StronglySorted row_le (insert_row x l).
Proof.
  induction l as [|y l IH]; intro Hs; simpl; [repeat constructor|].
  apply StronglySorted_inv in Hs as [Hs Hy].
  destruct (row_key_lt x y) eqn:E.
  - constructor; [constructor; assumption|].
    constructor; [unfold row_le; keys|].
    eapply Forall_impl; [|exact Hy]; intros z Hz; eapply row_le_trans; [|exact Hz]; unfold row_le; keys.
  - constructor; [apply IH, Hs|].
    eapply Permutation_Forall; [symmetry; apply insert_row_perm|].
    constructor; [exact E|exact Hy].
Qed.

Lemma sort_rows_fold (l acc : list metrics_row) :
  StronglySorted row_le acc ->
  StronglySorted row_le (fold_left (fun acc x => insert_row x acc) l acc)
  /\ Permutation (fold_left (fun acc x => insert_row x acc) l acc) (acc ++ l).
Proof.
  revert acc; induction l as [|x l IH]; intros acc Hs; simpl.
  - rewrite app_nil_r; split; [exact Hs|reflexivity].
  - destruct (IH (insert_row x acc) (insert_row_sorted x acc Hs)) as [H1 H2].
    split; [exact H1|].
    rewrite H2, insert_row_perm; simpl.
    rewrite <- Permutation_middle; reflexivity.
Qed.

(** The feed list written by [save_metrics] is ordered by tier (the five
    known tiers first, in their order, every other tier last) and, within a
    tier, by decreasing release count; it holds exactly one row per feed of
    the metrics. *)
Theorem save_metrics_feeds_sorted (m : metrics) :
  StronglySorted row_le (save_metrics_feeds round2 m)
  /\ Permutation (save_metrics_feeds round2 m) (map (fun kv => row_of round2 (snd kv)) m).
Proof.
  unfold save_metrics_feeds, sort_rows.
  apply (sort_rows_fold _ [] (SSorted_nil _)).
Qed.

(** The rows that share [k]'s sort key. *)
Definition same_key (k x : metrics_row) : bool :=
  (tier_order (row_tier x) =? tier_order (row_tier k))
  && (row_release_count x =? row_release_count k).

Lemma same_key_true (k x : metrics_row) :
  same_key k x = true
  <-> tier_order (row_tier x) = tier_order (row_tier k) /\ row_release_count x = row_release_count k.
Proof. unfold same_key; rewrite andb_true_iff, !Nat.eqb_eq; reflexivity. Qed.

Lemma filter_none {A} (f : A -> bool) (l : list A) :
  (forall z, In z l -> f z = false) -> filter f l = [].
Proof.
  induction l as [|z l IH]; intro H; simpl; [reflexivity|].
  rewrite (H z (or_introl eq_refl)); apply IH; intros y Hy; apply H; right; exact Hy.
Qed.

Lemma filter_insert_row (k x : metrics_row) (l : list metrics_row) :
  StronglySorted row_le l ->
  filter (same_key k) (insert_row x l)
  = filter (same_key k) l ++ (if same_key k x then [x] else []).
Proof.
  induction l as [|y l IH]; intro Hs; simpl; [destruct (same_key k x); reflexivity|].
  apply StronglySorted_inv in Hs as [Hs Hy].
  destruct (row_key_lt x y) eqn:E.
  - simpl; destruct (same_key k x) eqn:Ex; [|rewrite app_nil_r; reflexivity].
    assert (Hnone : forall z, In z (y :: l) -> same_key k z = false).
    { intros z Hz; apply not_true_iff_false; intro Hk.
      apply same_key_true in Hk; apply same_key_true in Ex.
      assert (Hyz : row_le y z) by (destruct Hz as [<-|Hz];
        [unfold row_le; keys|exact (proj1 (Forall_forall _ _) Hy z Hz)]).
      unfold row_le in Hyz; keys. }
    rewrite (Hnone y (or_introl eq_refl)), (filter_none _ _ (fun z Hz => Hnone z (or_intror Hz))).
    reflexivity.
  - simpl; rewrite (IH Hs); destruct (same_key k y); reflexivity.
Qed.

Lemma filter_sort_rows_fold (k : metrics_row) (l acc : list metrics_row) :
  StronglySorted row_le acc ->
  filter (same_key k) (fold_left (fun acc x => insert_row x acc) l acc)
  = filter (same_key k) acc ++ filter (same_key k) l.
Proof.
  revert acc; induction l as [|x l IH]; intros acc Hs; simpl; [rewrite app_nil_r; reflexivity|].
  rewrite (IH _ (insert_row_sorted x acc Hs)), (filter_insert_row k x acc Hs), <- app_assoc.
  destruct (same_key k x); reflexivity.
Qed.

(** [save_metrics] sorts stably: the feeds that share a tier rank and a
    release count keep the order they have in the metrics. *)
Theorem save_metrics_feeds_stable (m : metrics) (k : metrics_row) :
  filter (same_key k) (save_metrics_feeds round2 m)
  = filter (same_key k) (map (fun kv => row_of round2 (snd kv)) m).
Proof.
  unfold save_metrics_feeds, sort_rows.
  apply (filter_sort_rows_fold k _ [] (SSorted_nil _)).
Qed.

End Sort.

End SaveMetricsProps.
